(** * OFDM demodulator of DAB-Radio: a shallow embedding and its properties

    Source: [src/ofdm/ofdm_demodulator.cpp] (class [OFDM_Demod]): the
    ingest state machine ([Process] and its five handlers), the creation
    of the worker threads, the phase-error, FFT and DQPSK stages of a
    worker, the coordinator's fine-frequency update, and the soft-bit
    mapping.

    Numerical model.  The C++ code computes on [float] and
    [std::complex<float>].  Here a [float] is an exact rational ([Q]):
    the four operations are exact, comparisons are the rational ones, and
    a value that the IEEE format would make infinite or NaN (a quotient
    by zero) is not a number of the model; the operation that produces it
    returns the fault [DivisionByZero] where the divisor depends on
    data.  Rounding of binary32 is outside this model; the statements
    that depend on it (the value of a soft bit, of the fine frequency
    offset after an update, of the coarse frequency offset after a fast
    update) are made on a second model of the functions concerned, the
    module [Binary32], in which every operation rounds as the format
    does.  Machine integers ([int], [size_t]) are [Z]; the sizes of a DAB
    transmission mode are far below 2^31, so no wrap-around occurs on
    them.

    Memory.  A [tcb::span] is a list.  Where the source computes an index
    (the peak searches, [CalculateDQPSK], [CalculateViterbiBits]) the
    access is checked and an index outside the span is the fault
    [OutOfBounds]; the views of the buffers whose sizes the constructor
    fixes are plain slices.

    Loops.  A counted [for] loop is a fixpoint over its trip count.  The
    loops whose stride or exit depends on data or configuration (the
    [while] of [Process], the block loops of [UpdateSignalAverage] and
    [FindNullPowerDip]) take a bound on their iterations and end in the
    fault [OutOfFuel] when it is exhausted.

    Threads.  The ingest thread, the coordinator and the workers are
    modelled by their effects on the members of the object; a step of an
    execution is one handler call, one coordinator frame, one [Reset] or
    one change of [cfg].  Barriers are assumed to return.

    Library kernels that the translation unit only calls (FFTW, the PLL,
    [atan2], [log10], the modulus of a complex number) are the fields of
    the class [Kernels].  Classes and constants declared in headers
    outside the translation unit are modelled where they are used, and
    marked there.

    The file has two parts: the model (definitions only), then its
    properties. *)

From Stdlib Require Import ZArith QArith Qabs Qround List Bool Lia Lqa.
Import ListNotations.

Local Open Scope Z_scope.

(** ** Faults and the error monad *)

Inductive fault : Type :=
| OutOfBounds      (* a span indexed outside [0, size) *)
| DivisionByZero   (* a float quotient whose divisor is zero *)
| OutOfFuel.       (* a loop model that ran out of iterations *)

Inductive result (A : Type) : Type :=
| Ok (a : A)
| Fault (f : fault).

Arguments Ok {A} a.
Arguments Fault {A} f.

Definition bind {A B : Type} (m : result A) (k : A -> result B) : result B :=
  match m with
  | Ok a => k a
  | Fault f => Fault f
  end.

Notation "x <- m ;; k" := (bind m (fun x => k))
  (at level 61, m at next level, right associativity).
Notation "' p <- m ;; k" := (bind m (fun x => let p := x in k))
  (at level 61, p pattern, m at next level, right associativity).

(** [for (int i = lo; i < hi; i++) body] without [break]; a [continue]
    is a body that returns its state unchanged. *)
Fixpoint for_loop {S : Type} (n : nat) (i : Z)
         (body : Z -> S -> result S) (s : S) : result S :=
  match n with
  | O => Ok s
  | Datatypes.S n' => s' <- body i s ;; for_loop n' (i + 1) body s'
  end.

Definition for_range {S : Type} (lo hi : Z)
           (body : Z -> S -> result S) (s : S) : result S :=
  for_loop (Z.to_nat (hi - lo)) lo body s.

(** ** Spans ([tcb::span<T>]) as lists with checked indexing *)

Definition span_size {A : Type} (l : list A) : Z := Z.of_nat (length l).

Definition span_at {A : Type} (l : list A) (i : Z) : result A :=
  if (0 <=? i) && (i <? span_size l)
  then match nth_error l (Z.to_nat i) with
       | Some a => Ok a
       | None => Fault OutOfBounds
       end
  else Fault OutOfBounds.

Fixpoint list_set {A : Type} (l : list A) (n : nat) (v : A) : list A :=
  match l, n with
  | [], _ => []
  | _ :: t, O => v :: t
  | h :: t, Datatypes.S n' => h :: list_set t n' v
  end.

Definition span_set {A : Type} (l : list A) (i : Z) (v : A) : result (list A) :=
  if (0 <=? i) && (i <? span_size l)
  then Ok (list_set l (Z.to_nat i) v)
  else Fault OutOfBounds.

(** [s.subspan(offset, count)] *)
Definition subspan {A : Type} (l : list A) (offset count : Z) : result (list A) :=
  if (0 <=? offset) && (0 <=? count) && (offset + count <=? span_size l)
  then Ok (firstn (Z.to_nat count) (skipn (Z.to_nat offset) l))
  else Fault OutOfBounds.

(** ** Floats as exact rationals *)

Module Float.

(** [(int)x]: conversion truncates toward zero. *)
Definition to_int (x : Q) : Z := Z.quot (Qnum x) (Z.pos (Qden x)).

(** [float(n)] *)
Definition of_int (n : Z) : Q := inject_Z n.

(** [std::abs], [std::max] *)
Definition abs (x : Q) : Q := Qabs x.
Definition ltb (a b : Q) : bool := negb (Qle_bool b a).
Definition gtb (a b : Q) : bool := ltb b a.
Definition max (a b : Q) : Q := if ltb a b then b else a.

(** A quotient whose divisor comes from data. *)
Definition div (a b : Q) : result Q :=
  if Qeq_bool b 0 then Fault DivisionByZero else Ok (a / b)%Q.

(** [std::fmod(x, y)]: [x - n*y] with [n] the quotient [x/y] truncated
    toward zero; the result has the sign of [x]. *)
Definition fmod (x y : Q) : Q := (x - inject_Z (to_int (x / y)) * y)%Q.

(** [std::ceil] followed by [(int)] *)
Definition ceil_to_int (x : Q) : Z := Qceiling x.


End Float.

(** ** Complex numbers ([std::complex<float>]) *)

Record complex : Type := Cplx { re : Q; im : Q }.

Definition cmul (a b : complex) : complex :=
  Cplx (re a * re b - im a * im b)%Q (re a * im b + im a * re b)%Q.

Definition cconj (a : complex) : complex := Cplx (re a) (- im a)%Q.

Definition czero : complex := Cplx 0 0.

(** [z / A] for a real [A]: both components are divided. *)
Definition cdiv_real (z : complex) (A : Q) : result complex :=
  r <- Float.div (re z) A ;;
  i <- Float.div (im z) A ;;
  Ok (Cplx r i).

Definition ceq (a b : complex) : Prop := (re a == re b)%Q /\ (im a == im b)%Q.

(** ** Soft-decision bits

    [viterbi_bit_t] and [SOFT_DECISION_VITERBI_HIGH] are declared in a
    header outside this translation unit; the constant is a parameter
    ([HIGH]) of the functions below.  The conversion [(viterbi_bit_t)(v)]
    is the truncation of [v]; the value is not reduced to the width of
    [viterbi_bit_t].  The product is the exact one here; as binary32
    rounds it, and with the width of the type, the function is
    [Binary32.convert_to_viterbi_bit] below. *)

Definition convert_to_viterbi_bit (HIGH : Z) (x : Q) : Z :=
  let scale := Float.of_int HIGH in
  let v := (- x * scale)%Q in
  Float.to_int v.


(** [A = std::max(std::abs(vec.real()), std::abs(vec.imag()))] *)
Definition l_inf_norm (vec : complex) : Q :=
  Float.max (Float.abs (re vec)) (Float.abs (im vec)).

(** The body of the loop of [CalculateViterbiBits] for one carrier: the
    pair written to [bit_buf[i]] and [bit_buf[i+N]]. *)
Definition viterbi_bits_of_carrier (HIGH : Z) (vec : complex) : result (Z * Z) :=
  let A := l_inf_norm vec in
  norm_vec <- cdiv_real vec A ;;
  Ok (convert_to_viterbi_bit HIGH (re norm_vec),
      convert_to_viterbi_bit HIGH (- im norm_vec)%Q).

(** One iteration of the loop of [CalculateViterbiBits]. *)
Definition CalculateViterbiBits_body (HIGH N : Z) (carrier_mapper : list Z)
           (vec_buf : list complex) (i : Z) (bit_buf : list Z) : result (list Z) :=
  j <- span_at carrier_mapper i ;;
  vec <- span_at vec_buf j ;;
  '(b0, b1) <- viterbi_bits_of_carrier HIGH vec ;;
  bit_buf <- span_set bit_buf i b0 ;;
  span_set bit_buf (i + N) b1.

Definition CalculateViterbiBits (HIGH : Z) (nb_data_carriers : Z)
           (carrier_mapper : list Z)
           (vec_buf : list complex) (bit_buf : list Z) : result (list Z) :=
  let N := nb_data_carriers in
  for_range 0 N (CalculateViterbiBits_body HIGH N carrier_mapper vec_buf) bit_buf.

(** ** Differential demodulation *)

(** One iteration of the loop of [CalculateDQPSK]; the loop state is
    [(subcarrier_index, out_vec)].  [%] is the remainder of the C++
    division ([Z.rem]). *)
Definition CalculateDQPSK_body (N_fft : Z) (in0 in1 : list complex)
           (i : Z) (st : Z * list complex) : result (Z * list complex) :=
  let '(subcarrier_index, out_vec) := st in
  if i =? 0 then Ok (subcarrier_index, out_vec)
  else
    let fft_index := Z.rem (N_fft + i) N_fft in
    a <- span_at in1 fft_index ;;
    b <- span_at in0 fft_index ;;
    let phase_delta_vec := cmul a (cconj b) in
    out_vec <- span_set out_vec subcarrier_index phase_delta_vec ;;
    Ok (subcarrier_index + 1, out_vec).

(** [CalculateDQPSK(in0, in1, out_vec)] *)
Definition CalculateDQPSK (nb_data_carriers nb_fft : Z)
           (in0 in1 : list complex) (out_vec : list complex)
  : result (Z * list complex) :=
  let M := Z.quot nb_data_carriers 2 in
  let N_fft := nb_fft in
  for_range (- M) (M + 1) (CalculateDQPSK_body N_fft in0 in1) (0, out_vec).

(** ** Parameters, configuration and kernels *)

(** [OFDM_Params] (its header is outside the translation unit; the
    fields are the ones the code reads). *)
Record OFDM_Params : Type := {
  nb_frame_symbols : Z;
  nb_symbol_period : Z;
  nb_null_period : Z;
  nb_data_carriers : Z;
  nb_fft : Z;
  nb_cyclic_prefix : Z
}.

(** [cfg]: the run-time configuration, flattened
    ([cfg.signal_l1.nb_samples] is [signal_l1_nb_samples], ...). *)
Record OFDM_Demod_Config : Type := {
  signal_l1_nb_samples : Z;
  signal_l1_nb_decimate : Z;
  signal_l1_update_beta : Q;
  null_l1_search_thresh_null_start : Q;
  null_l1_search_thresh_null_end : Q;
  sync_is_coarse_freq_correction : bool;
  sync_max_coarse_freq_correction_norm : Q;
  sync_coarse_freq_slow_beta : Q;
  sync_impulse_peak_threshold_db : Q;
  sync_impulse_peak_distance_probability : Q;
  sync_fine_freq_update_beta : Q
}.

(** The numerical kernels the translation unit calls but does not
    define. *)
Class Kernels : Type := {
  (* fftwf_execute_dft on a forward / backward plan *)
  fft : list complex -> list complex;
  ifft : list complex -> list complex;
  (* apply_pll_auto(x, y, freq, dt0) *)
  apply_pll : list complex -> Q -> Q -> list complex;
  (* std::abs of a complex number, std::log10, std::atan2 *)
  cabs : complex -> Q;
  log10 : Q -> Q;
  atan2 : Q -> Q -> Q
}.

(** [constexpr float TWO_PI = float(M_PI) * 2.0f]: the binary32 value of
    pi is 13176795 / 2^22. *)
Definition M_PI_f : Q := 13176795 # 4194304.
Definition TWO_PI : Q := (M_PI_f * 2)%Q.

(** Unchecked views, for the buffers whose sizes the constructor fixes. *)
Definition slice {A : Type} (l : list A) (offset count : Z) : list A :=
  firstn (Z.to_nat count) (skipn (Z.to_nat offset) l).

(** [std::copy_n(src, |src|, dst + offset)] into a buffer of fixed size. *)
Definition blit {A : Type} (dst : list A) (offset : Z) (src : list A) : list A :=
  firstn (length dst)
         (firstn (Z.to_nat offset) dst ++ src
          ++ skipn (Z.to_nat offset + length src) dst).

(** ** Buffers

    The buffer classes are declared in headers outside the translation
    unit. *)

(** Modelled from the spec: the linear buffer behind
    [correlation_time_buffer] and the frame buffers ("linear buffer of
    length ..."; "append samples until [it] holds exactly ...").  Missing:
    class [ReconstructionBuffer] / [OFDM_Frame_Buffer].  [rb_data] is the
    storage (its length is the capacity), [rb_length] the fill level. *)
Record ReconstructionBuffer : Type := {
  rb_data : list complex;
  rb_length : Z
}.

Definition rb_capacity (b : ReconstructionBuffer) : Z := span_size (rb_data b).

(** Modelled from the spec: [ConsumeBuffer(src)] appends as many samples
    of [src] as fit and returns their number. *)
Definition rb_ConsumeBuffer (b : ReconstructionBuffer) (src : list complex)
  : ReconstructionBuffer * Z :=
  let nb_read := Z.max 0 (Z.min (span_size src) (rb_capacity b - rb_length b)) in
  ({| rb_data := blit (rb_data b) (rb_length b) (slice src 0 nb_read);
      rb_length := rb_length b + nb_read |}, nb_read).

Definition rb_IsFull (b : ReconstructionBuffer) : bool :=
  rb_length b =? rb_capacity b.

Definition rb_SetLength (b : ReconstructionBuffer) (n : Z) : ReconstructionBuffer :=
  {| rb_data := rb_data b; rb_length := n |}.

(** [b[i] = v] *)
Definition rb_set (b : ReconstructionBuffer) (i : Z) (v : complex)
  : ReconstructionBuffer :=
  {| rb_data := list_set (rb_data b) (Z.to_nat i) v; rb_length := rb_length b |}.

(** Modelled from the spec: the circular buffer behind
    [null_power_dip_buffer] ("circular buffer of length [nb_null_period]";
    its content is read "oldest-first, via [GetIndex()] rotation").
    Missing: class [CircularBuffer].  [cb_items] is the content, oldest
    first; [cb_index] the rotation, so that [b[i + GetIndex()]] is the
    [i]-th oldest sample. *)
Record CircularBuffer : Type := {
  cb_capacity : Z;
  cb_items : list complex;
  cb_index : Z
}.

Definition cb_Length (b : CircularBuffer) : Z := span_size (cb_items b).
Definition cb_GetIndex (b : CircularBuffer) : Z := cb_index b.

Definition cb_at (b : CircularBuffer) (j : Z) : complex :=
  nth (Z.to_nat ((j - cb_index b) mod cb_capacity b)) (cb_items b) czero.

(** Modelled from the spec: [ConsumeBuffer(src, true)] takes all of
    [src], the oldest samples falling out. *)
Definition cb_ConsumeBuffer_all (b : CircularBuffer) (src : list complex)
  : CircularBuffer :=
  let all := cb_items b ++ src in
  {| cb_capacity := cb_capacity b;
     cb_items := skipn (length all - Z.to_nat (cb_capacity b)) all;
     cb_index := (cb_index b + span_size src) mod cb_capacity b |}.

Definition cb_SetLength (b : CircularBuffer) (n : Z) : CircularBuffer :=
  {| cb_capacity := cb_capacity b;
     cb_items := firstn (Z.to_nat n) (cb_items b);
     cb_index := cb_index b |}.

(** ** The demodulator object *)

Inductive State : Type :=
| FINDING_NULL_POWER_DIP
| READING_NULL_AND_PRS
| RUNNING_COARSE_FREQ_SYNC
| RUNNING_FINE_TIME_SYNC
| READING_SYMBOLS.

(** The members of [OFDM_Demod] that outlive a call.  The scratch
    buffers ([correlation_fft_buffer], [correlation_ifft_buffer],
    [correlation_impulse_response], [correlation_frequency_response]) are
    written before they are read in every function that uses them, and
    are local values here. *)
Record OFDM_Demod : Type := {
  params : OFDM_Params;
  cfg : OFDM_Demod_Config;
  state : State;
  total_frames_desync : Z;
  total_frames_read : Z;
  is_found_coarse_freq_offset : bool;
  freq_coarse_offset : Q;
  freq_fine_offset : Q;
  fine_time_offset : Z;
  is_null_start_found : bool;
  is_null_end_found : bool;
  signal_l1_average : Q;
  carrier_mapper : list Z;
  correlation_prs_fft_reference : list complex;
  correlation_prs_time_reference : list complex;
  null_power_dip_buffer : CircularBuffer;
  correlation_time_buffer : ReconstructionBuffer;
  inactive_buffer : ReconstructionBuffer;
  active_buffer_data : list complex
}.

Definition set_cfg (d : OFDM_Demod) (v : OFDM_Demod_Config) : OFDM_Demod :=
  {| params := params d; cfg := v; state := state d;
     total_frames_desync := total_frames_desync d;
     total_frames_read := total_frames_read d;
     is_found_coarse_freq_offset := is_found_coarse_freq_offset d;
     freq_coarse_offset := freq_coarse_offset d;
     freq_fine_offset := freq_fine_offset d;
     fine_time_offset := fine_time_offset d;
     is_null_start_found := is_null_start_found d;
     is_null_end_found := is_null_end_found d;
     signal_l1_average := signal_l1_average d;
     carrier_mapper := carrier_mapper d;
     correlation_prs_fft_reference := correlation_prs_fft_reference d;
     correlation_prs_time_reference := correlation_prs_time_reference d;
     null_power_dip_buffer := null_power_dip_buffer d;
     correlation_time_buffer := correlation_time_buffer d;
     inactive_buffer := inactive_buffer d;
     active_buffer_data := active_buffer_data d |}.

Definition set_state (d : OFDM_Demod) (v : State) : OFDM_Demod :=
  {| params := params d; cfg := cfg d; state := v;
     total_frames_desync := total_frames_desync d;
     total_frames_read := total_frames_read d;
     is_found_coarse_freq_offset := is_found_coarse_freq_offset d;
     freq_coarse_offset := freq_coarse_offset d;
     freq_fine_offset := freq_fine_offset d;
     fine_time_offset := fine_time_offset d;
     is_null_start_found := is_null_start_found d;
     is_null_end_found := is_null_end_found d;
     signal_l1_average := signal_l1_average d;
     carrier_mapper := carrier_mapper d;
     correlation_prs_fft_reference := correlation_prs_fft_reference d;
     correlation_prs_time_reference := correlation_prs_time_reference d;
     null_power_dip_buffer := null_power_dip_buffer d;
     correlation_time_buffer := correlation_time_buffer d;
     inactive_buffer := inactive_buffer d;
     active_buffer_data := active_buffer_data d |}.

Definition set_total_frames_desync (d : OFDM_Demod) (v : Z) : OFDM_Demod :=
  {| params := params d; cfg := cfg d; state := state d;
     total_frames_desync := v;
     total_frames_read := total_frames_read d;
     is_found_coarse_freq_offset := is_found_coarse_freq_offset d;
     freq_coarse_offset := freq_coarse_offset d;
     freq_fine_offset := freq_fine_offset d;
     fine_time_offset := fine_time_offset d;
     is_null_start_found := is_null_start_found d;
     is_null_end_found := is_null_end_found d;
     signal_l1_average := signal_l1_average d;
     carrier_mapper := carrier_mapper d;
     correlation_prs_fft_reference := correlation_prs_fft_reference d;
     correlation_prs_time_reference := correlation_prs_time_reference d;
     null_power_dip_buffer := null_power_dip_buffer d;
     correlation_time_buffer := correlation_time_buffer d;
     inactive_buffer := inactive_buffer d;
     active_buffer_data := active_buffer_data d |}.

Definition set_total_frames_read (d : OFDM_Demod) (v : Z) : OFDM_Demod :=
  {| params := params d; cfg := cfg d; state := state d;
     total_frames_desync := total_frames_desync d;
     total_frames_read := v;
     is_found_coarse_freq_offset := is_found_coarse_freq_offset d;
     freq_coarse_offset := freq_coarse_offset d;
     freq_fine_offset := freq_fine_offset d;
     fine_time_offset := fine_time_offset d;
     is_null_start_found := is_null_start_found d;
     is_null_end_found := is_null_end_found d;
     signal_l1_average := signal_l1_average d;
     carrier_mapper := carrier_mapper d;
     correlation_prs_fft_reference := correlation_prs_fft_reference d;
     correlation_prs_time_reference := correlation_prs_time_reference d;
     null_power_dip_buffer := null_power_dip_buffer d;
     correlation_time_buffer := correlation_time_buffer d;
     inactive_buffer := inactive_buffer d;
     active_buffer_data := active_buffer_data d |}.

Definition set_is_found_coarse_freq_offset (d : OFDM_Demod) (v : bool) : OFDM_Demod :=
  {| params := params d; cfg := cfg d; state := state d;
     total_frames_desync := total_frames_desync d;
     total_frames_read := total_frames_read d;
     is_found_coarse_freq_offset := v;
     freq_coarse_offset := freq_coarse_offset d;
     freq_fine_offset := freq_fine_offset d;
     fine_time_offset := fine_time_offset d;
     is_null_start_found := is_null_start_found d;
     is_null_end_found := is_null_end_found d;
     signal_l1_average := signal_l1_average d;
     carrier_mapper := carrier_mapper d;
     correlation_prs_fft_reference := correlation_prs_fft_reference d;
     correlation_prs_time_reference := correlation_prs_time_reference d;
     null_power_dip_buffer := null_power_dip_buffer d;
     correlation_time_buffer := correlation_time_buffer d;
     inactive_buffer := inactive_buffer d;
     active_buffer_data := active_buffer_data d |}.

Definition set_freq_coarse_offset (d : OFDM_Demod) (v : Q) : OFDM_Demod :=
  {| params := params d; cfg := cfg d; state := state d;
     total_frames_desync := total_frames_desync d;
     total_frames_read := total_frames_read d;
     is_found_coarse_freq_offset := is_found_coarse_freq_offset d;
     freq_coarse_offset := v;
     freq_fine_offset := freq_fine_offset d;
     fine_time_offset := fine_time_offset d;
     is_null_start_found := is_null_start_found d;
     is_null_end_found := is_null_end_found d;
     signal_l1_average := signal_l1_average d;
     carrier_mapper := carrier_mapper d;
     correlation_prs_fft_reference := correlation_prs_fft_reference d;
     correlation_prs_time_reference := correlation_prs_time_reference d;
     null_power_dip_buffer := null_power_dip_buffer d;
     correlation_time_buffer := correlation_time_buffer d;
     inactive_buffer := inactive_buffer d;
     active_buffer_data := active_buffer_data d |}.

Definition set_freq_fine_offset (d : OFDM_Demod) (v : Q) : OFDM_Demod :=
  {| params := params d; cfg := cfg d; state := state d;
     total_frames_desync := total_frames_desync d;
     total_frames_read := total_frames_read d;
     is_found_coarse_freq_offset := is_found_coarse_freq_offset d;
     freq_coarse_offset := freq_coarse_offset d;
     freq_fine_offset := v;
     fine_time_offset := fine_time_offset d;
     is_null_start_found := is_null_start_found d;
     is_null_end_found := is_null_end_found d;
     signal_l1_average := signal_l1_average d;
     carrier_mapper := carrier_mapper d;
     correlation_prs_fft_reference := correlation_prs_fft_reference d;
     correlation_prs_time_reference := correlation_prs_time_reference d;
     null_power_dip_buffer := null_power_dip_buffer d;
     correlation_time_buffer := correlation_time_buffer d;
     inactive_buffer := inactive_buffer d;
     active_buffer_data := active_buffer_data d |}.

Definition set_fine_time_offset (d : OFDM_Demod) (v : Z) : OFDM_Demod :=
  {| params := params d; cfg := cfg d; state := state d;
     total_frames_desync := total_frames_desync d;
     total_frames_read := total_frames_read d;
     is_found_coarse_freq_offset := is_found_coarse_freq_offset d;
     freq_coarse_offset := freq_coarse_offset d;
     freq_fine_offset := freq_fine_offset d;
     fine_time_offset := v;
     is_null_start_found := is_null_start_found d;
     is_null_end_found := is_null_end_found d;
     signal_l1_average := signal_l1_average d;
     carrier_mapper := carrier_mapper d;
     correlation_prs_fft_reference := correlation_prs_fft_reference d;
     correlation_prs_time_reference := correlation_prs_time_reference d;
     null_power_dip_buffer := null_power_dip_buffer d;
     correlation_time_buffer := correlation_time_buffer d;
     inactive_buffer := inactive_buffer d;
     active_buffer_data := active_buffer_data d |}.

Definition set_is_null_start_found (d : OFDM_Demod) (v : bool) : OFDM_Demod :=
  {| params := params d; cfg := cfg d; state := state d;
     total_frames_desync := total_frames_desync d;
     total_frames_read := total_frames_read d;
     is_found_coarse_freq_offset := is_found_coarse_freq_offset d;
     freq_coarse_offset := freq_coarse_offset d;
     freq_fine_offset := freq_fine_offset d;
     fine_time_offset := fine_time_offset d;
     is_null_start_found := v;
     is_null_end_found := is_null_end_found d;
     signal_l1_average := signal_l1_average d;
     carrier_mapper := carrier_mapper d;
     correlation_prs_fft_reference := correlation_prs_fft_reference d;
     correlation_prs_time_reference := correlation_prs_time_reference d;
     null_power_dip_buffer := null_power_dip_buffer d;
     correlation_time_buffer := correlation_time_buffer d;
     inactive_buffer := inactive_buffer d;
     active_buffer_data := active_buffer_data d |}.

Definition set_is_null_end_found (d : OFDM_Demod) (v : bool) : OFDM_Demod :=
  {| params := params d; cfg := cfg d; state := state d;
     total_frames_desync := total_frames_desync d;
     total_frames_read := total_frames_read d;
     is_found_coarse_freq_offset := is_found_coarse_freq_offset d;
     freq_coarse_offset := freq_coarse_offset d;
     freq_fine_offset := freq_fine_offset d;
     fine_time_offset := fine_time_offset d;
     is_null_start_found := is_null_start_found d;
     is_null_end_found := v;
     signal_l1_average := signal_l1_average d;
     carrier_mapper := carrier_mapper d;
     correlation_prs_fft_reference := correlation_prs_fft_reference d;
     correlation_prs_time_reference := correlation_prs_time_reference d;
     null_power_dip_buffer := null_power_dip_buffer d;
     correlation_time_buffer := correlation_time_buffer d;
     inactive_buffer := inactive_buffer d;
     active_buffer_data := active_buffer_data d |}.

Definition set_signal_l1_average (d : OFDM_Demod) (v : Q) : OFDM_Demod :=
  {| params := params d; cfg := cfg d; state := state d;
     total_frames_desync := total_frames_desync d;
     total_frames_read := total_frames_read d;
     is_found_coarse_freq_offset := is_found_coarse_freq_offset d;
     freq_coarse_offset := freq_coarse_offset d;
     freq_fine_offset := freq_fine_offset d;
     fine_time_offset := fine_time_offset d;
     is_null_start_found := is_null_start_found d;
     is_null_end_found := is_null_end_found d;
     signal_l1_average := v;
     carrier_mapper := carrier_mapper d;
     correlation_prs_fft_reference := correlation_prs_fft_reference d;
     correlation_prs_time_reference := correlation_prs_time_reference d;
     null_power_dip_buffer := null_power_dip_buffer d;
     correlation_time_buffer := correlation_time_buffer d;
     inactive_buffer := inactive_buffer d;
     active_buffer_data := active_buffer_data d |}.

Definition set_null_power_dip_buffer (d : OFDM_Demod) (v : CircularBuffer) : OFDM_Demod :=
  {| params := params d; cfg := cfg d; state := state d;
     total_frames_desync := total_frames_desync d;
     total_frames_read := total_frames_read d;
     is_found_coarse_freq_offset := is_found_coarse_freq_offset d;
     freq_coarse_offset := freq_coarse_offset d;
     freq_fine_offset := freq_fine_offset d;
     fine_time_offset := fine_time_offset d;
     is_null_start_found := is_null_start_found d;
     is_null_end_found := is_null_end_found d;
     signal_l1_average := signal_l1_average d;
     carrier_mapper := carrier_mapper d;
     correlation_prs_fft_reference := correlation_prs_fft_reference d;
     correlation_prs_time_reference := correlation_prs_time_reference d;
     null_power_dip_buffer := v;
     correlation_time_buffer := correlation_time_buffer d;
     inactive_buffer := inactive_buffer d;
     active_buffer_data := active_buffer_data d |}.

Definition set_correlation_time_buffer (d : OFDM_Demod) (v : ReconstructionBuffer) : OFDM_Demod :=
  {| params := params d; cfg := cfg d; state := state d;
     total_frames_desync := total_frames_desync d;
     total_frames_read := total_frames_read d;
     is_found_coarse_freq_offset := is_found_coarse_freq_offset d;
     freq_coarse_offset := freq_coarse_offset d;
     freq_fine_offset := freq_fine_offset d;
     fine_time_offset := fine_time_offset d;
     is_null_start_found := is_null_start_found d;
     is_null_end_found := is_null_end_found d;
     signal_l1_average := signal_l1_average d;
     carrier_mapper := carrier_mapper d;
     correlation_prs_fft_reference := correlation_prs_fft_reference d;
     correlation_prs_time_reference := correlation_prs_time_reference d;
     null_power_dip_buffer := null_power_dip_buffer d;
     correlation_time_buffer := v;
     inactive_buffer := inactive_buffer d;
     active_buffer_data := active_buffer_data d |}.

Definition set_inactive_buffer (d : OFDM_Demod) (v : ReconstructionBuffer) : OFDM_Demod :=
  {| params := params d; cfg := cfg d; state := state d;
     total_frames_desync := total_frames_desync d;
     total_frames_read := total_frames_read d;
     is_found_coarse_freq_offset := is_found_coarse_freq_offset d;
     freq_coarse_offset := freq_coarse_offset d;
     freq_fine_offset := freq_fine_offset d;
     fine_time_offset := fine_time_offset d;
     is_null_start_found := is_null_start_found d;
     is_null_end_found := is_null_end_found d;
     signal_l1_average := signal_l1_average d;
     carrier_mapper := carrier_mapper d;
     correlation_prs_fft_reference := correlation_prs_fft_reference d;
     correlation_prs_time_reference := correlation_prs_time_reference d;
     null_power_dip_buffer := null_power_dip_buffer d;
     correlation_time_buffer := correlation_time_buffer d;
     inactive_buffer := v;
     active_buffer_data := active_buffer_data d |}.

Definition set_active_buffer_data (d : OFDM_Demod) (v : list complex) : OFDM_Demod :=
  {| params := params d; cfg := cfg d; state := state d;
     total_frames_desync := total_frames_desync d;
     total_frames_read := total_frames_read d;
     is_found_coarse_freq_offset := is_found_coarse_freq_offset d;
     freq_coarse_offset := freq_coarse_offset d;
     freq_fine_offset := freq_fine_offset d;
     fine_time_offset := fine_time_offset d;
     is_null_start_found := is_null_start_found d;
     is_null_end_found := is_null_end_found d;
     signal_l1_average := signal_l1_average d;
     carrier_mapper := carrier_mapper d;
     correlation_prs_fft_reference := correlation_prs_fft_reference d;
     correlation_prs_time_reference := correlation_prs_time_reference d;
     null_power_dip_buffer := null_power_dip_buffer d;
     correlation_time_buffer := correlation_time_buffer d;
     inactive_buffer := inactive_buffer d;
     active_buffer_data := v |}.

(** ** Signal-processing helpers defined in the translation unit *)

Definition Znth {A : Type} (l : list A) (i : Z) (default : A) : A :=
  if i <? 0 then default else nth (Z.to_nat i) l default.

Definition Zseq (lo : Z) (n : Z) : list Z :=
  map (fun k => lo + Z.of_nat k) (seq 0 (Z.to_nat n)).


Definition CalculateL1Average (block : list complex) : Q :=
  let N := span_size block in
  let l1_avg :=
    fold_left (fun acc v => acc + (Float.abs (re v) + Float.abs (im v)))%Q block 0%Q in
  (l1_avg / Float.of_int N)%Q.

Definition CalculateFFT `{Kernels} (p : OFDM_Params) (fft_in : list complex) : list complex :=
  fft (slice fft_in 0 (nb_fft p)).

Definition CalculateIFFT `{Kernels} (p : OFDM_Params) (fft_in : list complex) : list complex :=
  ifft (slice fft_in 0 (nb_fft p)).

Definition CalculateRelativePhase (p : OFDM_Params) (fft_in : list complex) : list complex :=
  let N := nb_fft p in
  map (fun i => if i <? N - 1
                then cmul (cconj (Znth fft_in i czero)) (Znth fft_in (i + 1) czero)
                else czero)
      (Zseq 0 N).

Definition CalculateMagnitude `{Kernels} (p : OFDM_Params) (fft_buf : list complex) : list Q :=
  let N := nb_fft p in
  let M := N / 2 in
  map (fun i => let j := (i + M) mod N in
                (20 * log10 (cabs (Znth fft_buf j czero)))%Q)
      (Zseq 0 N).

(** Modelled from the spec: [complex_conj_mul_sum(a, b)] "returns the sum
    of [conj(a[k]) * b[k]]".  Missing: [dsp/complex_conj_mul_sum.h]. *)
Definition complex_conj_mul_sum (a b : list complex) : complex :=
  fold_left (fun acc ab => let z := cmul (cconj (fst ab)) (snd ab) in
                           Cplx (re acc + re z) (im acc + im z))%Q
            (combine a b) czero.

Definition CalculateCyclicPhaseError `{Kernels} (p : OFDM_Params) (sym : list complex) : Q :=
  let N := nb_cyclic_prefix p in
  let M := nb_fft p in
  let x0 := slice sym M N in
  let x1 := slice sym 0 N in
  let error_vec := complex_conj_mul_sum x0 x1 in
  atan2 (im error_vec) (re error_vec).

Definition CalculateFineFrequencyError (p : OFDM_Params) (cyclic_phase_error : Q) : Q :=
  let fft_bin_spacing := (1 / Float.of_int (nb_fft p))%Q in
  let fine_frequency_error := (fft_bin_spacing * cyclic_phase_error / TWO_PI)%Q in
  fine_frequency_error.

(** The wrap in exact arithmetic, with the margin 1.01; the value that
    binary32 gives it is [Binary32.fft_bin_wrap] below. *)
Definition fft_bin_wrap (p : OFDM_Params) : Q :=
  let fft_bin_spacing := (1 / Float.of_int (nb_fft p))%Q in
  let fft_bin_margin := (101 # 100)%Q in
  ((1 # 2) * fft_bin_spacing * fft_bin_margin)%Q.

(** The body runs under [mutex_freq_fine_offset]: it is one atomic step
    of the model. *)
Definition UpdateFineFrequencyOffset (d : OFDM_Demod) (delta : Q) : OFDM_Demod :=
  let d := set_freq_fine_offset d (freq_fine_offset d + delta)%Q in
  set_freq_fine_offset d (Float.fmod (freq_fine_offset d) (fft_bin_wrap (params d))).

Fixpoint UpdateSignalAverage_loop (fuel : nat) (block : list complex)
         (K L M : Z) (beta : Q) (i : Z) (avg : Q) : result Q :=
  if i <? M then
    match fuel with
    | O => Fault OutOfFuel
    | S fuel' =>
        let l1_avg := CalculateL1Average (slice block i K) in
        UpdateSignalAverage_loop fuel' block K L M beta (i + L)
          (beta * avg + (1 - beta) * l1_avg)%Q
    end
  else Ok avg.

Definition UpdateSignalAverage (fuel : nat) (d : OFDM_Demod) (block : list complex)
  : result OFDM_Demod :=
  let N := span_size block in
  let K := signal_l1_nb_samples (cfg d) in
  if N <? K then Ok d
  else
    let M := N - K in
    let L := K * signal_l1_nb_decimate (cfg d) in
    let beta := signal_l1_update_beta (cfg d) in
    avg <- UpdateSignalAverage_loop fuel block K L M beta 0 (signal_l1_average d) ;;
    Ok (set_signal_l1_average d avg).

(** ** The ingest state machine *)

Definition Reset (d : OFDM_Demod) : OFDM_Demod :=
  let d := set_state d FINDING_NULL_POWER_DIP in
  let d := set_correlation_time_buffer d (rb_SetLength (correlation_time_buffer d) 0) in
  let d := set_total_frames_desync d (total_frames_desync d + 1) in
  let d := set_is_found_coarse_freq_offset d false in
  let d := set_freq_coarse_offset d 0%Q in
  let d := set_freq_fine_offset d 0%Q in
  set_fine_time_offset d 0.

(** [b[i] = src(i)] for [i] in [[0, n)]. *)
Definition rb_copy_from (b : ReconstructionBuffer) (n : Z) (src : Z -> complex)
  : ReconstructionBuffer :=
  fold_left (fun b i => rb_set b i (src i)) (Zseq 0 n) b.

(** The block loop of [FindNullPowerDip]: the result is
    [(is_null_start_found, nb_read at the break)]. *)
Fixpoint FindNullPowerDip_loop (fuel : nat) (buf : list complex) (K M : Z)
         (null_start_thresh null_end_thresh : Q)
         (i : Z) (start_found : bool) : result (bool * option Z) :=
  if i <? M then
    match fuel with
    | O => Fault OutOfFuel
    | S fuel' =>
        let l1_avg := CalculateL1Average (slice buf i K) in
        if start_found then
          if Float.gtb l1_avg null_end_thresh
          then Ok (start_found, Some (i + K))
          else FindNullPowerDip_loop fuel' buf K M null_start_thresh null_end_thresh
                 (i + K) start_found
        else
          FindNullPowerDip_loop fuel' buf K M null_start_thresh null_end_thresh
            (i + K) (if Float.ltb l1_avg null_start_thresh then true else start_found)
    end
  else Ok (start_found, None).

Definition FindNullPowerDip (fuel : nat) (d : OFDM_Demod) (buf : list complex)
  : result (OFDM_Demod * Z) :=
  let N := span_size buf in
  let K := signal_l1_nb_samples (cfg d) in
  let M := N - K in
  let null_start_thresh :=
    (signal_l1_average d * null_l1_search_thresh_null_start (cfg d))%Q in
  let null_end_thresh :=
    (signal_l1_average d * null_l1_search_thresh_null_end (cfg d))%Q in
  '(start_found, brk) <-
     FindNullPowerDip_loop fuel buf K M null_start_thresh null_end_thresh 0
       (is_null_start_found d) ;;
  let nb_read := match brk with Some n => n | None => N end in
  let end_found := match brk with Some _ => true | None => is_null_end_found d end in
  let d := set_is_null_start_found d start_found in
  let d := set_is_null_end_found d end_found in
  let d := set_null_power_dip_buffer d
             (cb_ConsumeBuffer_all (null_power_dip_buffer d) (slice buf 0 nb_read)) in
  if negb (is_null_end_found d) then Ok (d, nb_read)
  else
    let L := cb_Length (null_power_dip_buffer d) in
    let start_index := cb_GetIndex (null_power_dip_buffer d) in
    let d := set_correlation_time_buffer d
               (rb_copy_from (correlation_time_buffer d) L
                  (fun i => cb_at (null_power_dip_buffer d) (i + start_index))) in
    let d := set_is_null_start_found d false in
    let d := set_is_null_end_found d false in
    let d := set_correlation_time_buffer d (rb_SetLength (correlation_time_buffer d) L) in
    let d := set_null_power_dip_buffer d (cb_SetLength (null_power_dip_buffer d) 0) in
    let d := set_state d READING_NULL_AND_PRS in
    Ok (d, nb_read).

Definition ReadNullPRS (d : OFDM_Demod) (buf : list complex) : result (OFDM_Demod * Z) :=
  let '(b, nb_read) := rb_ConsumeBuffer (correlation_time_buffer d) buf in
  let d := set_correlation_time_buffer d b in
  if negb (rb_IsFull (correlation_time_buffer d)) then Ok (d, nb_read)
  else
    let d := set_state d RUNNING_COARSE_FREQ_SYNC in
    Ok (d, nb_read).

Definition pointwise_mul (a b : list complex) : list complex :=
  map (fun ab => cmul (fst ab) (snd ab)) (combine a b).

(** Step 7 of [RunCoarseFreqSync]: the peak of
    [correlation_frequency_response] in the window of half-width
    [max_carrier_offset] (the value before clamping); every read is
    checked.  The result is [(max_index, max_value)]. *)
Definition coarse_peak_search (p : OFDM_Params) (max_carrier_offset : Z)
           (correlation_frequency_response : list Q) : result (Z * Q) :=
  let M := nb_fft p / 2 in
  let max_carrier_offset := if max_carrier_offset <? 0 then 0 else max_carrier_offset in
  let max_carrier_offset := if max_carrier_offset >? M then M else max_carrier_offset in
  let max_index := - max_carrier_offset in
  max_value <- span_at correlation_frequency_response (max_index + M) ;;
  for_range (- max_carrier_offset) (max_carrier_offset + 1)
    (fun i '(max_index, max_value) =>
       let fft_index := i + M in
       if fft_index =? nb_fft p then Ok (max_index, max_value)
       else
         value <- span_at correlation_frequency_response fft_index ;;
         if Float.gtb value max_value then Ok (i, value)
         else Ok (max_index, max_value))
    (max_index, max_value).

(** Steps 1 to 6: the frequency response of the captured PRS. *)
Definition coarse_frequency_response `{Kernels} (d : OFDM_Demod) : list Q :=
  let p := params d in
  let corr_time_buf := rb_data (correlation_time_buffer d) in
  let prs_sym := slice corr_time_buf (nb_null_period p) (nb_symbol_period p) in
  let correlation_fft_buffer := CalculateFFT p prs_sym in
  let correlation_fft_buffer := CalculateRelativePhase p correlation_fft_buffer in
  let correlation_ifft_buffer := CalculateIFFT p correlation_fft_buffer in
  let correlation_ifft_buffer :=
    pointwise_mul (slice correlation_ifft_buffer 0 (nb_fft p))
                  (correlation_prs_time_reference d) in
  let correlation_fft_buffer := CalculateFFT p correlation_ifft_buffer in
  CalculateMagnitude p correlation_fft_buffer.

(** Steps 8 and 9: [(predicted_freq_coarse_offset, is_fast_update, delta)],
    in exact arithmetic; as binary32 rounds them they are
    [Binary32.coarse_freq_update] below. *)
Definition coarse_freq_update (d : OFDM_Demod) (max_index : Z) : Q * bool * Q :=
  let p := params d in
  let predicted_freq_coarse_offset :=
    (- Float.of_int max_index / Float.of_int (nb_fft p))%Q in
  let error := (predicted_freq_coarse_offset - freq_coarse_offset d)%Q in
  let large_offset_threshold := ((3 # 2) / Float.of_int (nb_fft p))%Q in
  let is_large_correction := Float.gtb (Float.abs error) large_offset_threshold in
  let is_fast_update := is_large_correction || negb (is_found_coarse_freq_offset d) in
  let beta := if is_fast_update then 1%Q else sync_coarse_freq_slow_beta (cfg d) in
  let delta := (beta * error)%Q in
  (predicted_freq_coarse_offset, is_fast_update, delta).

Definition RunCoarseFreqSync `{Kernels} (d : OFDM_Demod) (buf : list complex)
  : result (OFDM_Demod * Z) :=
  if negb (sync_is_coarse_freq_correction (cfg d)) then
    let d := set_freq_coarse_offset d 0%Q in
    let d := set_state d RUNNING_FINE_TIME_SYNC in
    Ok (d, 0)
  else
    let p := params d in
    let correlation_frequency_response := coarse_frequency_response d in
    let max_carrier_offset :=
      Float.to_int (sync_max_coarse_freq_correction_norm (cfg d)
                    * Float.of_int (nb_fft p))%Q in
    '(max_index, _) <- coarse_peak_search p max_carrier_offset
                         correlation_frequency_response ;;
    let '(_, _, delta) := coarse_freq_update d max_index in
    let d := set_freq_coarse_offset d (freq_coarse_offset d + delta)%Q in
    let d := set_is_found_coarse_freq_offset d true in
    let d := UpdateFineFrequencyOffset d (- delta)%Q in
    let d := set_state d RUNNING_FINE_TIME_SYNC in
    Ok (d, 0).

(** The impulse response of the captured PRS against the reference. *)
Definition fine_time_impulse_response `{Kernels} (d : OFDM_Demod) : list Q :=
  let p := params d in
  let corr_time_buf := rb_data (correlation_time_buffer d) in
  let corr_prs_buf := slice corr_time_buf (nb_null_period p) (nb_symbol_period p) in
  let freq_offset := (freq_coarse_offset d + freq_fine_offset d)%Q in
  let correlation_ifft_buffer := slice corr_prs_buf 0 (nb_fft p) in
  let correlation_ifft_buffer := apply_pll correlation_ifft_buffer freq_offset 0%Q in
  let correlation_fft_buffer := CalculateFFT p correlation_ifft_buffer in
  let correlation_fft_buffer :=
    pointwise_mul (slice correlation_fft_buffer 0 (nb_fft p))
                  (correlation_prs_fft_reference d) in
  let correlation_ifft_buffer := CalculateIFFT p correlation_fft_buffer in
  map (fun i => let v := Znth correlation_ifft_buffer i czero in
                (20 * log10 (cabs v))%Q)
      (Zseq 0 (nb_fft p)).

(** The peak loop of [RunFineTimeSync]:
    [(impulse_avg, impulse_max_value, impulse_max_index)]. *)
Definition fine_time_peak (p : OFDM_Params) (c : OFDM_Demod_Config)
           (correlation_impulse_response : list Q) : result (Q * Q * Z) :=
  let impulse_avg := 0%Q in
  impulse_max_value <- span_at correlation_impulse_response 0 ;;
  let impulse_max_index := 0 in
  '(impulse_avg, impulse_max_value, impulse_max_index) <-
    for_range 0 (nb_fft p)
      (fun i '(impulse_avg, impulse_max_value, impulse_max_index) =>
         peak_value <- span_at correlation_impulse_response i ;;
         let expected_peak_x := nb_cyclic_prefix p in
         let distance_from_expectation := Z.abs (expected_peak_x - i) in
         let norm_distance :=
           (Float.of_int distance_from_expectation
            / Float.of_int (nb_symbol_period p))%Q in
         let decay_weight := (1 - sync_impulse_peak_distance_probability c)%Q in
         let probability := (1 - decay_weight * norm_distance)%Q in
         let weighted_peak_value := (probability * peak_value)%Q in
         let impulse_avg := (impulse_avg + peak_value)%Q in
         if Float.gtb weighted_peak_value impulse_max_value
         then Ok (impulse_avg, weighted_peak_value, i)
         else Ok (impulse_avg, impulse_max_value, impulse_max_index))
      (impulse_avg, impulse_max_value, impulse_max_index) ;;
  let impulse_avg := (impulse_avg / Float.of_int (nb_fft p))%Q in
  Ok (impulse_avg, impulse_max_value, impulse_max_index).

Definition rb_Reset (b : ReconstructionBuffer) : ReconstructionBuffer :=
  rb_SetLength b 0.

Definition RunFineTimeSync `{Kernels} (d : OFDM_Demod) (buf : list complex)
  : result (OFDM_Demod * Z) :=
  let p := params d in
  let corr_time_buf := rb_data (correlation_time_buffer d) in
  let correlation_impulse_response := fine_time_impulse_response d in
  '(impulse_avg, impulse_max_value, impulse_max_index) <-
    fine_time_peak p (cfg d) correlation_impulse_response ;;
  if Float.ltb (impulse_max_value - impulse_avg)%Q
               (sync_impulse_peak_threshold_db (cfg d))
  then Ok (Reset d, 0)
  else
    let offset := impulse_max_index - nb_cyclic_prefix p in
    let prs_start_index := nb_null_period p + offset in
    let prs_length := nb_symbol_period p - offset in
    let prs_buf := slice corr_time_buf prs_start_index prs_length in
    let d := set_inactive_buffer d (rb_Reset (inactive_buffer d)) in
    let d := set_inactive_buffer d (fst (rb_ConsumeBuffer (inactive_buffer d) prs_buf)) in
    let d := set_correlation_time_buffer d (rb_SetLength (correlation_time_buffer d) 0) in
    let d := set_fine_time_offset d offset in
    let d := set_state d READING_SYMBOLS in
    Ok (d, 0).

(** Modelled from the spec: the frame buffer holds "one full frame
    ([nb_frame_symbols + 1] symbol periods)"; symbol [i] starts at
    [i * nb_symbol_period] and the NULL symbol is the last one.  Missing:
    class [OFDM_Frame_Buffer]. *)
Definition frame_buffer_capacity (p : OFDM_Params) : Z :=
  (nb_frame_symbols p + 1) * nb_symbol_period p.

Definition GetDataSymbol (p : OFDM_Params) (data : list complex) (i : Z) : list complex :=
  slice data (i * nb_symbol_period p) (nb_symbol_period p).

Definition GetNullSymbol (p : OFDM_Params) (data : list complex) : list complex :=
  slice data (nb_frame_symbols p * nb_symbol_period p) (nb_null_period p).

(** [coordinator->WaitEnd()] and [coordinator->SignalStart()] hand the
    frame to the other threads; for the ingest thread they leave the
    members below untouched. *)
Definition ReadSymbols (d : OFDM_Demod) (buf : list complex) : result (OFDM_Demod * Z) :=
  let p := params d in
  let '(b, nb_read) := rb_ConsumeBuffer (inactive_buffer d) buf in
  let d := set_inactive_buffer d b in
  if negb (rb_IsFull (inactive_buffer d)) then Ok (d, nb_read)
  else
    let null_sym := GetNullSymbol p (rb_data (inactive_buffer d)) in
    let d := set_correlation_time_buffer d
               (rb_SetLength (correlation_time_buffer d) (nb_null_period p)) in
    let d := set_correlation_time_buffer d
               (rb_copy_from (correlation_time_buffer d) (nb_null_period p)
                  (fun i => Znth null_sym i czero)) in
    (* std::swap(inactive_buffer_data, active_buffer_data) *)
    let inactive_data := rb_data (inactive_buffer d) in
    let active_data := active_buffer_data d in
    let d := set_active_buffer_data d inactive_data in
    let d := set_inactive_buffer d
               {| rb_data := active_data; rb_length := rb_length (inactive_buffer d) |} in
    let d := set_inactive_buffer d (rb_Reset (inactive_buffer d)) in
    let d := set_state d READING_NULL_AND_PRS in
    Ok (d, nb_read).

Definition Process_step `{Kernels} (fuel : nat) (d : OFDM_Demod) (block : list complex)
  : result (OFDM_Demod * Z) :=
  match state d with
  | FINDING_NULL_POWER_DIP => FindNullPowerDip fuel d block
  | READING_NULL_AND_PRS => ReadNullPRS d block
  | RUNNING_COARSE_FREQ_SYNC => RunCoarseFreqSync d block
  | RUNNING_FINE_TIME_SYNC => RunFineTimeSync d block
  | READING_SYMBOLS => ReadSymbols d block
  end.

(** The [while (curr_index < N)] loop of [Process]. *)
Fixpoint Process_loop `{Kernels} (fuel : nat) (inner : nat) (d : OFDM_Demod)
         (buf : list complex) (curr_index : Z) : result (OFDM_Demod * Z) :=
  let N := span_size buf in
  if curr_index <? N then
    match fuel with
    | O => Fault OutOfFuel
    | S fuel' =>
        let N_remain := N - curr_index in
        let block := slice buf curr_index N_remain in
        '(d, nb_read) <- Process_step inner d block ;;
        Process_loop fuel' inner d buf (curr_index + nb_read)
    end
  else Ok (d, curr_index).

(** [Process(buf)]; the result is the object and the final
    [curr_index].  [fuel] bounds the iterations of each loop. *)
Definition Process `{Kernels} (fuel : nat) (d : OFDM_Demod) (buf : list complex)
  : result (OFDM_Demod * Z) :=
  d <- UpdateSignalAverage fuel d buf ;;
  Process_loop fuel fuel d buf 0.

(** ** Construction *)

(** The constructor; [cfg] starts from the defaults of the missing
    header, which are an argument here.  Fresh storage is zero. *)
Definition OFDM_Demod_new `{Kernels} (p : OFDM_Params) (c : OFDM_Demod_Config)
           (prs_fft_ref : list complex) (mapper : list Z) : OFDM_Demod :=
  let zeros n := repeat czero (Z.to_nat n) in
  {| params := p; cfg := c;
     state := FINDING_NULL_POWER_DIP;
     total_frames_desync := 0;
     total_frames_read := 0;
     is_found_coarse_freq_offset := false;
     freq_coarse_offset := 0%Q;
     freq_fine_offset := 0%Q;
     fine_time_offset := 0;
     is_null_start_found := false;
     is_null_end_found := false;
     signal_l1_average := 0%Q;
     carrier_mapper := slice mapper 0 (nb_data_carriers p);
     correlation_prs_fft_reference :=
       map (fun i => cconj (Znth prs_fft_ref i czero)) (Zseq 0 (nb_fft p));
     correlation_prs_time_reference :=
       map cconj (slice (CalculateIFFT p (CalculateRelativePhase p prs_fft_ref))
                        0 (nb_fft p));
     null_power_dip_buffer :=
       {| cb_capacity := nb_null_period p; cb_items := []; cb_index := 0 |};
     correlation_time_buffer :=
       {| rb_data := zeros (nb_null_period p + nb_symbol_period p); rb_length := 0 |};
     inactive_buffer :=
       {| rb_data := zeros (frame_buffer_capacity p); rb_length := 0 |};
     active_buffer_data := zeros (frame_buffer_capacity p) |}.

(** [OFDM_Demod_Pipeline]: the symbol range of a worker and the slot for
    its phase error (the class is declared in a missing header; these are
    the members the code reads and writes). *)
Record OFDM_Demod_Pipeline : Type := {
  symbol_start : Z;
  symbol_end : Z;
  average_phase_error : Q
}.

(** The value of [nb_threads] after the first [if] of [CreateThreads];
    [total_system_threads] is what [hardware_concurrency()] returned. *)
Definition CreateThreads_nb_threads (p : OFDM_Params)
           (total_system_threads nb_desired_threads : Z) : Z :=
  let nb_syms := nb_frame_symbols p + 1 in
  if nb_desired_threads >? 0 then Z.min nb_syms nb_desired_threads
  else
    let nb_threads := Z.min nb_syms total_system_threads in
    if nb_threads >? 1 then nb_threads - 1 else nb_threads.

(** The loop that carves the symbol ranges. *)
Fixpoint CreateThreads_loop (n : nat) (nb_syms nb_threads : Z) (i symbol_start : Z)
  : list OFDM_Demod_Pipeline :=
  match n with
  | O => []
  | S n' =>
      let is_last_thread := i =? nb_threads - 1 in
      let nb_syms_remain := nb_syms - symbol_start in
      let nb_threads_remain := nb_threads - i in
      let nb_syms_in_thread :=
        Float.ceil_to_int (Float.of_int nb_syms_remain / Float.of_int nb_threads_remain)%Q in
      let symbol_end :=
        if is_last_thread then nb_syms else symbol_start + nb_syms_in_thread in
      {| symbol_start := symbol_start; symbol_end := symbol_end;
         average_phase_error := 0%Q |}
        :: CreateThreads_loop n' nb_syms nb_threads (i + 1) symbol_end
  end.

(** [CreateThreads]: the list [pipelines]. *)
Definition CreateThreads (p : OFDM_Params)
           (total_system_threads nb_desired_threads : Z) : list OFDM_Demod_Pipeline :=
  let nb_syms := nb_frame_symbols p + 1 in
  let nb_threads := CreateThreads_nb_threads p total_system_threads nb_desired_threads in
  CreateThreads_loop (Z.to_nat nb_threads) nb_syms nb_threads 0 0.

(** ** Pipeline workers *)

(** The PLL stage of [PipelineThread] on the worker's symbols. *)
Definition PipelineThread_apply_pll `{Kernels} (p : OFDM_Params) (frequency_offset : Q)
           (active : list complex) (pl : OFDM_Demod_Pipeline) : list complex :=
  fold_left
    (fun active i =>
       let sym_buf := GetDataSymbol p active i in
       let sample_offset := i * nb_symbol_period p in
       let dt_start := (Float.of_int sample_offset * frequency_offset)%Q in
       blit active (i * nb_symbol_period p) (apply_pll sym_buf frequency_offset dt_start))
    (Zseq (symbol_start pl) (symbol_end pl - symbol_start pl)) active.

(** The phase-error stage: the sum over the worker's symbols, the NULL
    symbol left out, stored by [SetAveragePhaseError]. *)
Definition PipelineThread_phase_error `{Kernels} (p : OFDM_Params)
           (active : list complex) (pl : OFDM_Demod_Pipeline) : OFDM_Demod_Pipeline :=
  let symbol_end_no_null := Z.min (symbol_end pl) (nb_frame_symbols p) in
  let total_phase_error :=
    fold_left
      (fun total_phase_error i =>
         let sym_buf := GetDataSymbol p active i in
         let cyclic_error := CalculateCyclicPhaseError p sym_buf in
         (total_phase_error + cyclic_error)%Q)
      (Zseq (symbol_start pl) (symbol_end_no_null - symbol_start pl)) 0%Q in
  {| symbol_start := symbol_start pl; symbol_end := symbol_end pl;
     average_phase_error := total_phase_error |}.

(** What one iteration of the lambda [calculate_fft] writes for symbol
    [i]: the FFT of the symbol with its cyclic prefix removed. *)
Definition symbol_fft `{Kernels} (p : OFDM_Params) (active : list complex) (i : Z)
  : list complex :=
  let sym_buf := GetDataSymbol p active i in
  let data_buf := slice sym_buf (nb_cyclic_prefix p) (nb_fft p) in
  slice (CalculateFFT p data_buf) 0 (nb_fft p).

(** The lambda [calculate_fft(start, end)]. *)
Definition calculate_fft `{Kernels} (p : OFDM_Params) (active : list complex)
           (pipeline_fft_buffer : list complex) (start stop : Z) : list complex :=
  fold_left
    (fun pipeline_fft_buffer i =>
       blit pipeline_fft_buffer (i * nb_fft p) (symbol_fft p active i))
    (Zseq start (stop - start)) pipeline_fft_buffer.

(** The differential half of one iteration of the lambda
    [calculate_dqpsk]: the content of [dqpsk_vec_buf] after
    [CalculateDQPSK(fft_buf_1, fft_buf_0, dqpsk_vec_buf)]. *)
Definition calculate_dqpsk_vec (p : OFDM_Params) (pipeline_fft_buffer : list complex)
           (pipeline_dqpsk_vec_buffer : list complex) (i : Z) : result (list complex) :=
  fft_buf_0 <- subspan pipeline_fft_buffer ((i + 0) * nb_fft p) (nb_fft p) ;;
  fft_buf_1 <- subspan pipeline_fft_buffer ((i + 1) * nb_fft p) (nb_fft p) ;;
  dqpsk_vec_buf <- subspan pipeline_dqpsk_vec_buffer
                     (i * nb_data_carriers p) (nb_data_carriers p) ;;
  '(_, dqpsk_vec_buf) <- CalculateDQPSK (nb_data_carriers p) (nb_fft p)
                           fft_buf_1 fft_buf_0 dqpsk_vec_buf ;;
  Ok dqpsk_vec_buf.

(** The lambda [calculate_dqpsk(start, end)] on
    [(pipeline_dqpsk_vec_buffer, pipeline_out_bits)]. *)
Definition calculate_dqpsk (HIGH : Z) (p : OFDM_Params) (mapper : list Z)
           (pipeline_fft_buffer : list complex) (start stop : Z)
           (bufs : list complex * list Z) : result (list complex * list Z) :=
  let nb_viterbi_bits := nb_data_carriers p * 2 in
  for_range start stop
    (fun i '(pipeline_dqpsk_vec_buffer, pipeline_out_bits) =>
       dqpsk_vec_buf <- calculate_dqpsk_vec p pipeline_fft_buffer
                          pipeline_dqpsk_vec_buffer i ;;
       viterbi_bit_buf <- subspan pipeline_out_bits
                            (i * nb_viterbi_bits) nb_viterbi_bits ;;
       viterbi_bit_buf <- CalculateViterbiBits HIGH (nb_data_carriers p) mapper
                            dqpsk_vec_buf viterbi_bit_buf ;;
       Ok (blit pipeline_dqpsk_vec_buffer (i * nb_data_carriers p) dqpsk_vec_buf,
           blit pipeline_out_bits (i * nb_viterbi_bits) viterbi_bit_buf))
    bufs.

(** ** Coordinator *)

(** The sum of the workers' phase errors, divided by the number of
    symbols. *)
Definition CoordinatorThread_average_cyclic_error (p : OFDM_Params)
           (pipelines : list OFDM_Demod_Pipeline) : Q :=
  let average_cyclic_error :=
    fold_left (fun average_cyclic_error pipeline =>
                 let cyclic_error := average_phase_error pipeline in
                 (average_cyclic_error + cyclic_error)%Q)
              pipelines 0%Q in
  (average_cyclic_error / Float.of_int (nb_frame_symbols p))%Q.

Definition CoordinatorThread_delta (d : OFDM_Demod)
           (pipelines : list OFDM_Demod_Pipeline) : Q :=
  let average_cyclic_error :=
    CoordinatorThread_average_cyclic_error (params d) pipelines in
  let fine_freq_error := CalculateFineFrequencyError (params d) average_cyclic_error in
  let beta := sync_fine_freq_update_beta (cfg d) in
  (- beta * fine_freq_error)%Q.

(** One frame of [CoordinatorThread], after the workers have stored
    their phase errors. *)
Definition CoordinatorThread (d : OFDM_Demod) (pipelines : list OFDM_Demod_Pipeline)
  : OFDM_Demod :=
  let delta := CoordinatorThread_delta d pipelines in
  let d := UpdateFineFrequencyOffset d delta in
  set_total_frames_read d (total_frames_read d + 1).

(** The frame as the workers see it when they measure: every worker has
    applied the PLL to its own symbols (the ranges are disjoint), then
    stored its phase error. *)
Definition workers_phase_error `{Kernels} (d : OFDM_Demod)
           (pipelines : list OFDM_Demod_Pipeline)
  : list complex * list OFDM_Demod_Pipeline :=
  let frequency_offset := (freq_coarse_offset d + freq_fine_offset d)%Q in
  let active :=
    fold_left (PipelineThread_apply_pll (params d) frequency_offset)
              pipelines (active_buffer_data d) in
  (active, map (PipelineThread_phase_error (params d) active) pipelines).

(** ** Executions

    The members are written by the ingest thread (a handler of the state
    machine, or the update of the signal average at the head of
    [Process]), by the coordinator thread (one frame), by [Reset], and by
    the user of the object, who may change [cfg].  [UpdateFineFrequencyOffset]
    runs under the mutex, so each of these is one step. *)
Inductive step `{Kernels} : OFDM_Demod -> OFDM_Demod -> Prop :=
| step_handler : forall fuel d block d' nb_read,
    Process_step fuel d block = Ok (d', nb_read) -> step d d'
| step_signal_average : forall fuel d buf d',
    UpdateSignalAverage fuel d buf = Ok d' -> step d d'
| step_coordinator : forall d pipelines, step d (CoordinatorThread d pipelines)
| step_reset : forall d, step d (Reset d)
| step_cfg : forall d c, step d (set_cfg d c).

Inductive reachable `{Kernels} : OFDM_Demod -> Prop :=
| reachable_new : forall p c prs_fft_ref mapper,
    reachable (OFDM_Demod_new p c prs_fft_ref mapper)
| reachable_step : forall d d', reachable d -> step d d' -> reachable d'.

(** ** Predicates used in the statements *)

(** The carrier that [CalculateViterbiBits] reads at step [i]:
    [vec_buf[carrier_mapper[i]]]. *)
Definition carrier_at (mapper : list Z) (vec_buf : list complex)
           (i : Z) (vec : complex) : Prop :=
  exists j, span_at mapper i = Ok j /\ span_at vec_buf j = Ok vec.

(** What a finished prefix of the loop of [CalculateViterbiBits] has
    written: for every carrier [k] below [i], the two soft bits of the
    carrier, at [k] and [k + N]. *)
Definition viterbi_written (HIGH N : Z) (mapper : list Z) (vec_buf : list complex)
           (i : Z) (bit_buf : list Z) : Prop :=
  span_size bit_buf = 2 * N /\
  forall k, 0 <= k < i ->
    exists vec b0 b1,
      carrier_at mapper vec_buf k vec /\
      viterbi_bits_of_carrier HIGH vec = Ok (b0, b1) /\
      span_at bit_buf k = Ok b0 /\ span_at bit_buf (k + N) = Ok b1 /\
      Z.abs b0 <= HIGH /\ Z.abs b1 <= HIGH.

(** The FFT bin of data carrier [c], as the specification names it, and
    the position of the carrier in the DQPSK vector (the carriers
    [-M .. -1, 1 .. M] in this order). *)
Definition dqpsk_fft_index (p : OFDM_Params) (c : Z) : Z :=
  (nb_fft p + c) mod nb_fft p.

Definition dqpsk_subcarrier_index (p : OFDM_Params) (c : Z) : Z :=
  let M := Z.quot (nb_data_carriers p) 2 in
  if c <? 0 then c + M else c + M - 1.

(** The cell [fft[s][k]] of [pipeline_fft_buffer]. *)
Definition fft_cell (p : OFDM_Params) (pipeline_fft_buffer : list complex)
           (s k : Z) : result complex :=
  span_at pipeline_fft_buffer (s * nb_fft p + k).

(** What [CalculateDQPSK] has written when its loop reaches carrier [i]. *)
Definition dqpsk_written (M N_fft size : Z) (in0 in1 : list complex)
           (i : Z) (st : Z * list complex) : Prop :=
  fst st = (if i <=? 0 then i + M else i + M - 1) /\
  span_size (snd st) = size /\
  forall c, - M <= c < i -> c <> 0 ->
    exists a b,
      span_at in1 ((N_fft + c) mod N_fft) = Ok a /\
      span_at in0 ((N_fft + c) mod N_fft) = Ok b /\
      span_at (snd st) (if c <? 0 then c + M else c + M - 1) = Ok (cmul a (cconj b)).

(** A frame of two data symbols on a four-point FFT with two carriers,
    and the FFTs of its symbols 0 and 1 (the third is zero). *)
Definition example_params : OFDM_Params :=
  {| nb_frame_symbols := 2; nb_symbol_period := 5; nb_null_period := 3;
     nb_data_carriers := 2; nb_fft := 4; nb_cyclic_prefix := 1 |}.

Definition example_fft_buffer : list complex :=
  [ Cplx 9 9; Cplx 0 1; Cplx 9 9; Cplx 1 1;
    Cplx 9 9; Cplx 1 0; Cplx 9 9; Cplx 2 1;
    czero; czero; czero; czero ].

(** The symbol ranges of a list of workers follow one another from
    [start] to [stop]. *)
Fixpoint contiguous_ranges (start : Z) (pipelines : list OFDM_Demod_Pipeline)
         (stop : Z) : Prop :=
  match pipelines with
  | [] => start = stop
  | pl :: rest =>
      symbol_start pl = start /\ start <= symbol_end pl /\
      contiguous_ranges (symbol_end pl) rest stop
  end.

(** The sum of [f] over the symbols [[lo, hi)], accumulated from the
    left as the loops of the source do. *)
Definition range_sum (f : Z -> Q) (lo hi : Z) : Q :=
  fold_left (fun acc i => acc + f i)%Q (Zseq lo (hi - lo)) 0%Q.

(** The cap that the specification states for the automatic number of
    workers. *)
Definition spec_auto_worker_cap (p : OFDM_Params) (total_system_threads : Z) : Z :=
  Z.min (nb_frame_symbols p + 1) (total_system_threads - 1).

(** Kernels for the worked examples: transforms that copy their input,
    [|re| + |im|] for the modulus, the identity for [log10] and the first
    argument for [atan2]. *)
Definition example_kernels : Kernels :=
  {| fft := fun x => x;
     ifft := fun x => x;
     apply_pll := fun x _ _ => x;
     cabs := fun v => (Qabs (re v) + Qabs (im v))%Q;
     log10 := fun x => x;
     atan2 := fun y _ => y |}.

Definition example_cfg : OFDM_Demod_Config :=
  {| signal_l1_nb_samples := 1;
     signal_l1_nb_decimate := 1;
     signal_l1_update_beta := 19 # 20;
     null_l1_search_thresh_null_start := 35 # 100;
     null_l1_search_thresh_null_end := 75 # 100;
     sync_is_coarse_freq_correction := true;
     sync_max_coarse_freq_correction_norm := 1 # 2;
     sync_coarse_freq_slow_beta := 1 # 10;
     sync_impulse_peak_threshold_db := 20;
     sync_impulse_peak_distance_probability := 15 # 100;
     sync_fine_freq_update_beta := 9 # 10 |}.

(** A freshly constructed demodulator on the example frame. *)
Definition example_demod : OFDM_Demod :=
  @OFDM_Demod_new example_kernels example_params example_cfg
                  [Cplx 1 0; Cplx 0 1; Cplx (-1) 0; Cplx 0 (-1)] [1; 0].

(** The state of the peak search of [RunCoarseFreqSync] between two
    iterations: the current best offset lies in the clamped window and
    [max_value] is the cell it names. *)
Definition coarse_peak_state (p : OFDM_Params) (half_width : Z)
           (correlation_frequency_response : list Q) (st : Z * Q) : Prop :=
  - half_width <= fst st <= half_width /\
  0 <= fst st + nb_fft p / 2 < nb_fft p /\
  span_at correlation_frequency_response (fst st + nb_fft p / 2) = Ok (snd st).

(** [max_carrier_offset] after the two clamping statements. *)
Definition clamped_carrier_offset (p : OFDM_Params) (max_carrier_offset : Z) : Z :=
  Z.min (Z.max max_carrier_offset 0) (nb_fft p / 2).

(** [d'] differs from [d] at most in the synchronisation members: the
    parameters, the configuration and the buffers are the same. *)
Definition same_buffers (d d' : OFDM_Demod) : Prop :=
  params d' = params d /\ cfg d' = cfg d /\
  null_power_dip_buffer d' = null_power_dip_buffer d /\
  correlation_time_buffer d' = correlation_time_buffer d /\
  inactive_buffer d' = inactive_buffer d /\
  active_buffer_data d' = active_buffer_data d.

(** The sizes of a transmission mode as the constructor expects them
    ([nb_symbol_period = nb_fft + nb_cyclic_prefix], as the specification
    defines it). *)
Definition params_ok (p : OFDM_Params) : Prop :=
  1 <= nb_fft p /\ 0 <= nb_cyclic_prefix p /\
  nb_symbol_period p = nb_fft p + nb_cyclic_prefix p /\
  0 <= nb_null_period p /\ 1 <= nb_frame_symbols p.

(** The buffers have the capacities the constructor gave them, their
    fill levels are within the capacities, and a state that reads
    samples into a buffer has room in it. *)
Definition buffers_ok (d : OFDM_Demod) : Prop :=
  let p := params d in
  rb_capacity (correlation_time_buffer d) = nb_null_period p + nb_symbol_period p /\
  0 <= rb_length (correlation_time_buffer d) <= rb_capacity (correlation_time_buffer d) /\
  rb_capacity (inactive_buffer d) = frame_buffer_capacity p /\
  0 <= rb_length (inactive_buffer d) <= rb_capacity (inactive_buffer d) /\
  span_size (active_buffer_data d) = frame_buffer_capacity p /\
  cb_capacity (null_power_dip_buffer d) = nb_null_period p /\
  cb_Length (null_power_dip_buffer d) <= nb_null_period p /\
  (state d = READING_NULL_AND_PRS ->
   rb_length (correlation_time_buffer d) < rb_capacity (correlation_time_buffer d)) /\
  (state d = READING_SYMBOLS ->
   rb_length (inactive_buffer d) < rb_capacity (inactive_buffer d)).

Definition demod_ok (d : OFDM_Demod) : Prop :=
  params_ok (params d) /\ buffers_ok d.

(** The two states that consume no sample come before the states that
    read. *)
Definition state_rank (s : State) : Z :=
  match s with
  | RUNNING_COARSE_FREQ_SYNC => 2
  | RUNNING_FINE_TIME_SYNC => 1
  | _ => 0
  end.

(** What one handler call achieves on a block of [block_size >= 1]
    samples: it consumes part of the block; the two synchronisation
    states consume nothing and leave for a state of lower rank, every
    other state consumes at least one sample. *)
Definition handler_progress (d : OFDM_Demod) (block_size : Z)
           (d' : OFDM_Demod) (nb_read : Z) : Prop :=
  demod_ok d' /\ cfg d' = cfg d /\ params d' = params d /\
  0 <= nb_read <= block_size /\
  match state d with
  | RUNNING_COARSE_FREQ_SYNC | RUNNING_FINE_TIME_SYNC =>
      nb_read = 0 /\ state d' <> state d /\ state_rank (state d') < state_rank (state d)
  | _ => 1 <= nb_read
  end.

(** [Process(buf)] does not return, however many iterations its loops
    are allowed. *)
Definition Process_never_returns `{Kernels} (d : OFDM_Demod) (buf : list complex) : Prop :=
  forall fuel, Process fuel d buf = Fault OutOfFuel.

(** The example demodulator in the middle of a lock: a NULL and PRS
    captured, offsets found, five earlier desynchronisations. *)
Definition example_locked_demod : OFDM_Demod :=
  let d := example_demod in
  let d := set_state d RUNNING_FINE_TIME_SYNC in
  let d := set_correlation_time_buffer d (rb_SetLength (correlation_time_buffer d) 8) in
  let d := set_total_frames_desync d 5 in
  let d := set_is_found_coarse_freq_offset d true in
  let d := set_freq_coarse_offset d (1 # 4)%Q in
  let d := set_freq_fine_offset d (1 # 16)%Q in
  set_fine_time_offset d 3.

(** Proof automation: reduce the projections of an updated object. *)
Ltac demod_cbn :=
  cbn [params cfg state total_frames_desync total_frames_read
       is_found_coarse_freq_offset freq_coarse_offset freq_fine_offset
       fine_time_offset is_null_start_found is_null_end_found signal_l1_average
       carrier_mapper correlation_prs_fft_reference correlation_prs_time_reference
       null_power_dip_buffer correlation_time_buffer inactive_buffer
       active_buffer_data
       set_cfg set_state set_total_frames_desync set_total_frames_read
       set_is_found_coarse_freq_offset set_freq_coarse_offset set_freq_fine_offset
       set_fine_time_offset set_is_null_start_found set_is_null_end_found
       set_signal_l1_average set_null_power_dip_buffer set_correlation_time_buffer
       set_inactive_buffer set_active_buffer_data
       rb_SetLength rb_Reset rb_length rb_data fst snd negb bind] in *.

(** The example configuration with the decimation stride set to zero. *)
Definition example_cfg_zero_decimate : OFDM_Demod_Config :=
  {| signal_l1_nb_samples := 1;
     signal_l1_nb_decimate := 0;
     signal_l1_update_beta := 19 # 20;
     null_l1_search_thresh_null_start := 35 # 100;
     null_l1_search_thresh_null_end := 75 # 100;
     sync_is_coarse_freq_correction := true;
     sync_max_coarse_freq_correction_norm := 1 # 2;
     sync_coarse_freq_slow_beta := 1 # 10;
     sync_impulse_peak_threshold_db := 20;
     sync_impulse_peak_distance_probability := 15 # 100;
     sync_fine_freq_update_beta := 9 # 10 |}.

(** [freq_fine_offset] lies within half an FFT bin, with the margin of
    [UpdateFineFrequencyOffset]. *)
Definition fine_offset_in_range (d : OFDM_Demod) : Prop :=
  0 < nb_fft (params d) ->
  (Qabs (freq_fine_offset d) <= fft_bin_wrap (params d))%Q.

(** The FFT kernel writes as many values as it reads. *)
Definition fft_preserves_size `{Kernels} : Prop :=
  forall l : list complex, span_size (fft l) = span_size l.

(** The samples of the example frame: three symbols of five samples, the
    first sample of each being its cyclic prefix. *)
Definition example_active_buffer : list complex :=
  [ Cplx 1 1; Cplx 9 9; Cplx 0 1; Cplx 9 9; Cplx 1 1;
    Cplx 2 1; Cplx 9 9; Cplx 1 0; Cplx 9 9; Cplx 2 1;
    czero; czero; czero; czero; czero ].

(** ** Further predicates, and the stages of a worker *)

(** The transitions of the state machine, read off the five handlers:
    the states in which a handler called in state [s] can leave the
    object. *)
Definition next_states (s : State) : list State :=
  match s with
  | FINDING_NULL_POWER_DIP => [FINDING_NULL_POWER_DIP; READING_NULL_AND_PRS]
  | READING_NULL_AND_PRS => [READING_NULL_AND_PRS; RUNNING_COARSE_FREQ_SYNC]
  | RUNNING_COARSE_FREQ_SYNC => [RUNNING_FINE_TIME_SYNC]
  | RUNNING_FINE_TIME_SYNC => [FINDING_NULL_POWER_DIP; READING_SYMBOLS]
  | READING_SYMBOLS => [READING_SYMBOLS; READING_NULL_AND_PRS]
  end.

(** The null search keeps nothing outside its own state:
    [is_null_end_found] is clear between two calls, and outside
    [FINDING_NULL_POWER_DIP] so are [is_null_start_found] and the
    circular buffer. *)
Definition null_search_idle (d : OFDM_Demod) : Prop :=
  is_null_end_found d = false /\
  (state d <> FINDING_NULL_POWER_DIP ->
   is_null_start_found d = false /\ cb_Length (null_power_dip_buffer d) = 0).

(** The members that the ingest thread only reads. *)
Definition same_configuration (d d' : OFDM_Demod) : Prop :=
  params d' = params d /\ cfg d' = cfg d /\
  carrier_mapper d' = carrier_mapper d /\
  correlation_prs_fft_reference d' = correlation_prs_fft_reference d /\
  correlation_prs_time_reference d' = correlation_prs_time_reference d /\
  total_frames_read d' = total_frames_read d.

(** A batch with a power dip (its third sample) for the example
    demodulator, the demodulator after [UpdateSignalAverage] has measured
    the batch, and after [FindNullPowerDip] has then found the end of the
    dip in it. *)
Definition example_batch : list complex :=
  [Cplx 1 1; Cplx 1 1; czero; Cplx 2 (-1); Cplx 1 0; Cplx 0 1].

Definition example_measured_demod : OFDM_Demod :=
  match UpdateSignalAverage 6 example_demod example_batch with
  | Ok d => d
  | Fault _ => example_demod
  end.

Definition example_null_found_demod : OFDM_Demod :=
  match @Process_step example_kernels 6 example_measured_demod example_batch with
  | Ok (d, _) => d
  | Fault _ => example_measured_demod
  end.

(** The fresh example demodulator after [Process(example_batch)]. *)
Definition example_processed_demod : OFDM_Demod :=
  match @Process example_kernels 20 example_demod example_batch with
  | Ok (d, _) => d
  | Fault _ => example_demod
  end.

(** A longer batch: a power dip, the PRS with its strongest sample just
    after the cyclic prefix, and three more samples; the example
    demodulator after [Process] took it (it is then reading symbols), a
    block that completes the frame, and the demodulator after
    [ReadSymbols] took that block. *)
Definition example_long_batch : list complex :=
  [Cplx 1 1; Cplx 1 1; czero; Cplx 2 (-1);
   Cplx 1 0; Cplx 0 3; Cplx 1 0; Cplx 0 1; Cplx 1 0;
   Cplx 0 1; Cplx 1 1; Cplx 2 2].

Definition example_reading_demod : OFDM_Demod :=
  match @Process example_kernels 40 example_demod example_long_batch with
  | Ok (d, _) => d
  | Fault _ => example_demod
  end.

Definition example_frame_tail : list complex :=
  [Cplx 1 2; Cplx 3 4; Cplx 5 6; Cplx 7 8; Cplx 9 1; Cplx 2 3; Cplx 4 5;
   Cplx 6 7; Cplx 8 9].

Definition example_handoff_demod : OFDM_Demod :=
  match @Process_step example_kernels 9 example_reading_demod example_frame_tail with
  | Ok (d, _) => d
  | Fault _ => example_reading_demod
  end.

(** The state of the peak search of [RunCoarseFreqSync] when its loop
    reaches offset [j]: the best offset so far names the cell holding
    [max_value], no cell of the window before [j] is larger, and every
    cell before the best offset is strictly smaller. *)
Definition coarse_peak_first_maximum (p : OFDM_Params) (half_width : Z)
           (correlation_frequency_response : list Q) (j : Z) (st : Z * Q) : Prop :=
  let M := nb_fft p / 2 in
  - half_width <= fst st <= half_width /\
  span_at correlation_frequency_response (fst st + M) = Ok (snd st) /\
  (forall i v, - half_width <= i < j ->
     span_at correlation_frequency_response (i + M) = Ok v -> (v <= snd st)%Q) /\
  (forall i v, - half_width <= i < fst st ->
     span_at correlation_frequency_response (i + M) = Ok v -> (v < snd st)%Q).


(** Kernels for the worked examples on the workers: the example kernels
    with a PLL that multiplies every sample by [(1 + dt0) + i freq], and
    an [atan2] that stays in that range (its first argument, cut at the
    two ends). *)
Definition example_worker_kernels : Kernels :=
  {| fft := fun x => x;
     ifft := fun x => x;
     apply_pll := fun x freq dt0 => map (fun v => cmul v (Cplx (1 + dt0) freq)) x;
     cabs := fun v => (Qabs (re v) + Qabs (im v))%Q;
     log10 := fun x => x;
     atan2 := fun y _ =>
       if Float.ltb y (- M_PI_f) then (- M_PI_f)%Q
       else if Float.ltb M_PI_f y then M_PI_f else y |}.

(** The weight that the peak loop of [RunFineTimeSync] gives to the
    impulse response at index [i] ([probability] in the source): 1 at
    the expected position [nb_cyclic_prefix], falling with the
    distance. *)
Definition impulse_peak_probability (p : OFDM_Params) (c : OFDM_Demod_Config)
           (i : Z) : Q :=
  let expected_peak_x := nb_cyclic_prefix p in
  let distance_from_expectation := Z.abs (expected_peak_x - i) in
  let norm_distance :=
    (Float.of_int distance_from_expectation / Float.of_int (nb_symbol_period p))%Q in
  let decay_weight := (1 - sync_impulse_peak_distance_probability c)%Q in
  (1 - decay_weight * norm_distance)%Q.

(** The state [(impulse_avg, impulse_max_value, impulse_max_index)] of
    that loop when it reaches index [j]. *)
Definition fine_time_peak_state (p : OFDM_Params) (c : OFDM_Demod_Config)
           (correlation_impulse_response : list Q) (j : Z) (st : Q * Q * Z) : Prop :=
  let '(impulse_avg, impulse_max_value, impulse_max_index) := st in
  0 <= impulse_max_index < nb_fft p /\
  (impulse_avg
   == range_sum (fun i => Znth correlation_impulse_response i 0%Q) 0 j)%Q /\
  (forall i v, 0 <= i < j -> span_at correlation_impulse_response i = Ok v ->
     (impulse_peak_probability p c i * v <= impulse_max_value)%Q) /\
  (forall i v, 0 <= i < impulse_max_index ->
     span_at correlation_impulse_response i = Ok v ->
     (impulse_peak_probability p c i * v < impulse_max_value)%Q) /\
  (forall v, span_at correlation_impulse_response 0 = Ok v ->
     (v <= impulse_max_value)%Q) /\
  ((impulse_max_index = 0 /\
    span_at correlation_impulse_response 0 = Ok impulse_max_value) \/
   (impulse_max_index < j /\
    exists v, span_at correlation_impulse_response impulse_max_index = Ok v /\
              impulse_max_value = (impulse_peak_probability p c impulse_max_index * v)%Q)).

(** The example demodulator after [Process] took the first nine samples
    of the longer batch (the NULL and the PRS are captured), and after
    the coarse frequency synchronisation that follows. *)
Definition example_coarse_sync_demod : OFDM_Demod :=
  match @Process example_kernels 30 example_demod (firstn 9 example_long_batch) with
  | Ok (d, _) => d
  | Fault _ => example_demod
  end.

Definition example_fine_sync_demod : OFDM_Demod :=
  match @Process_step example_kernels 0 example_coarse_sync_demod [] with
  | Ok (d, _) => d
  | Fault _ => example_coarse_sync_demod
  end.

(** [CalculateRelativePhase(fft_in, arg_out)] statement by statement, on
    a memory [mem] that holds both spans: [rd mem i] reads [fft_in[i]]
    and [wr mem i v] is the memory after [arg_out[i] = v]. *)
Definition CalculateRelativePhase_on {Mem : Type}
           (rd : Mem -> Z -> result complex)
           (wr : Mem -> Z -> complex -> result Mem)
           (p : OFDM_Params) (mem : Mem) : result Mem :=
  let N := nb_fft p in
  mem <- for_range 0 (N - 1)
           (fun i mem =>
              a <- rd mem i ;;
              b <- rd mem (i + 1) ;;
              let vec := cmul (cconj a) b in
              wr mem i vec)
           mem ;;
  wr mem (N - 1) czero.

(** The call in [RunCoarseFreqSync],
    [CalculateRelativePhase(correlation_fft_buffer, correlation_fft_buffer)]:
    both spans are the same memory. *)
Definition CalculateRelativePhase_in_place (p : OFDM_Params) (buf : list complex)
  : result (list complex) :=
  CalculateRelativePhase_on span_at span_set p buf.

(** The call in the constructor, on two spans that do not overlap: the
    memory is the pair [(fft_in, arg_out)]. *)
Definition CalculateRelativePhase_separate (p : OFDM_Params)
           (fft_in arg_out : list complex) : result (list complex * list complex) :=
  CalculateRelativePhase_on
    (fun mem i => span_at (fst mem) i)
    (fun mem i v => out <- span_set (snd mem) i v ;; Ok (fst mem, out))
    p (fft_in, arg_out).

(** The cell of the relative phase at [i], from the input [fft_in]. *)
Definition relative_phase_cell (p : OFDM_Params) (fft_in : list complex) (i : Z)
  : complex :=
  if i <? nb_fft p - 1
  then cmul (cconj (Znth fft_in i czero)) (Znth fft_in (i + 1) czero)
  else czero.

(** What the loop of [CalculateRelativePhase] has written into [out]
    when it reaches index [j]; [rest] is the content of [out] before the
    call. *)
Definition relative_phase_written (p : OFDM_Params) (fft_in rest : list complex)
           (j : Z) (out : list complex) : Prop :=
  span_size out = nb_fft p /\
  (forall k, 0 <= k < j -> span_at out k = Ok (relative_phase_cell p fft_in k)) /\
  (forall k, j <= k < nb_fft p -> span_at out k = span_at rest k).

(** The FFT stage of [PipelineThread]: the worker's first symbol, whose
    FFT the worker before it waits for ([SignalFFT]), then its other
    symbols. *)
Definition PipelineThread_fft `{Kernels} (p : OFDM_Params) (active : list complex)
           (pipeline_fft_buffer : list complex) (pl : OFDM_Demod_Pipeline)
  : list complex :=
  let pipeline_fft_buffer :=
    calculate_fft p active pipeline_fft_buffer (symbol_start pl) (symbol_start pl + 1) in
  calculate_fft p active pipeline_fft_buffer (symbol_start pl + 1) (symbol_end pl).

(** The DQPSK stage of [PipelineThread] on
    [(pipeline_dqpsk_vec_buffer, pipeline_out_bits)]; [has_dependent] is
    [dependent_thread_data != NULL], and [WaitFFT] has returned: the FFT
    of the first symbol of the next worker is in [pipeline_fft_buffer]. *)
Definition PipelineThread_dqpsk (HIGH : Z) (p : OFDM_Params) (mapper : list Z)
           (pipeline_fft_buffer : list complex) (pl : OFDM_Demod_Pipeline)
           (has_dependent : bool) (bufs : list complex * list Z)
  : result (list complex * list Z) :=
  let symbol_end_dqpsk := Z.min (symbol_end pl) (nb_frame_symbols p - 1) in
  if has_dependent then
    bufs <- calculate_dqpsk HIGH p mapper pipeline_fft_buffer
              (symbol_start pl) (symbol_end_dqpsk - 1) bufs ;;
    calculate_dqpsk HIGH p mapper pipeline_fft_buffer
      (symbol_end_dqpsk - 1) symbol_end_dqpsk bufs
  else
    calculate_dqpsk HIGH p mapper pipeline_fft_buffer
      (symbol_start pl) symbol_end_dqpsk bufs.

(** The DQPSK stages of the workers, one after the other in the order of
    [pipelines]; as in [CreateThreads], a worker has a dependent when it
    is not the last one. *)
Fixpoint workers_dqpsk (HIGH : Z) (p : OFDM_Params) (mapper : list Z)
         (pipeline_fft_buffer : list complex) (pipelines : list OFDM_Demod_Pipeline)
         (bufs : list complex * list Z) : result (list complex * list Z) :=
  match pipelines with
  | [] => Ok bufs
  | pl :: rest =>
      let has_dependent := match rest with [] => false | _ :: _ => true end in
      bufs <- PipelineThread_dqpsk HIGH p mapper pipeline_fft_buffer pl
                has_dependent bufs ;;
      workers_dqpsk HIGH p mapper pipeline_fft_buffer rest bufs
  end.

(** A frame of three data symbols and the NULL symbol on the four-point
    FFT, and a content for its [pipeline_fft_buffer]. *)
Definition example_long_params : OFDM_Params :=
  {| nb_frame_symbols := 3; nb_symbol_period := 5; nb_null_period := 3;
     nb_data_carriers := 2; nb_fft := 4; nb_cyclic_prefix := 1 |}.

Definition example_long_fft_buffer : list complex :=
  [ Cplx 9 9; Cplx 0 1; Cplx 9 9; Cplx 1 1;
    Cplx 9 9; Cplx 1 0; Cplx 9 9; Cplx 2 1;
    Cplx 9 9; Cplx 1 2; Cplx 9 9; Cplx 3 (-1);
    czero; czero; czero; czero ].

(** The PLL kernel writes as many samples as it reads. *)
Definition pll_preserves_size `{Kernels} : Prop :=
  forall (x : list complex) (freq dt0 : Q),
    span_size (apply_pll x freq dt0) = span_size x.

(** What the PLL stage of a worker computes for symbol [i] of the frame
    [active]. *)
Definition symbol_pll `{Kernels} (p : OFDM_Params) (frequency_offset : Q)
           (active : list complex) (i : Z) : list complex :=
  apply_pll (GetDataSymbol p active i) frequency_offset
            (Float.of_int (i * nb_symbol_period p) * frequency_offset)%Q.

(** [freq_fine_offset] lies strictly inside the interval in which
    [UpdateFineFrequencyOffset] wraps it. *)
Definition fine_offset_inside (d : OFDM_Demod) : Prop :=
  0 < nb_fft (params d) ->
  (Qabs (freq_fine_offset d) < fft_bin_wrap (params d))%Q.

(** ** The scrambler of the test transmitter

    Source: [src/simulate_transmitter.cpp], class [Scrambler], which
    produces the placeholder bytes of the frame that exercises the
    demodulator.  [reg] is a [uint16_t]: in [reg << 1] and [reg << 8]
    it is promoted to [int], and the assignment to [reg] keeps the low
    16 bits. *)

(** [syncword = 0b0000000010101001] *)
Definition Scrambler_syncword : Z := 169.

(** [Reset()]: the new value of [reg]. *)
Definition Scrambler_Reset : Z := Scrambler_syncword.

(** [Process()]: the byte returned and the new value of [reg]. *)
Definition Scrambler_Process (reg : Z) : Z * Z :=
  let v := Z.land (Z.shiftr (Z.lxor reg (Z.shiftl reg 1)) 8) 255 in
  let reg := Z.lor (Z.shiftl reg 8) v mod 65536 in
  (v, reg).

(** [reg] after [n] calls of [Process()]. *)
Fixpoint Scrambler_run (n : nat) (reg : Z) : Z :=
  match n with
  | O => reg
  | S n' => Scrambler_run n' (snd (Scrambler_Process reg))
  end.

(** The registers after [0, 1, ..., n - 1] calls of [Process()]. *)
Fixpoint Scrambler_orbit (n : nat) (reg : Z) : list Z :=
  match n with
  | O => []
  | S n' => reg :: Scrambler_orbit n' (snd (Scrambler_Process reg))
  end.

(** ** Binary32 arithmetic

    The statements on the values of the soft bits and of the two
    frequency offsets depend on the rounding of [float].  For them the
    functions concerned are modelled a second time, in the module
    [Binary32], with every operation of the source rounded as IEEE 754
    binary32 arithmetic rounds it (to nearest, ties to even, with gradual
    underflow).  A binary32 number is still a rational; the finite ones
    are the multiples [m * 2^s * 2^-149] with [|m| < 2^24] and
    [0 <= s <= 254].  [round] has no largest exponent: a result of
    magnitude [2^128] or more stands for the infinity the format would
    give, and the statements on sums and products are made for operands
    that do not overflow ([finite]). *)

Module Binary32.

(** The nearest integer, ties to even. *)
Definition rne (q : Q) : Z :=
  let f := Qfloor q in
  match (q - inject_Z f ?= 1 # 2)%Q with
  | Lt => f
  | Gt => f + 1
  | Eq => if Z.even f then f else f + 1
  end.

(** The spacing of the binary32 numbers around [y >= 0], both counted in
    units of [2^-149]: 1 below [2^24], and [2^(e-23)] on
    [[2^e, 2^(e+1))]. *)
Definition shift (y : Q) : Z := Z.max 0 (Z.log2 (Qfloor y) - 23).

Definition quantum (y : Q) : Z := 2 ^ shift y.

Definition round_units (y : Q) : Z :=
  let u := quantum y in
  rne (y / inject_Z u) * u.

Definition denorm_min_inv : Q := inject_Z (2 ^ 149).

(** The binary32 number nearest to [x]. *)
Definition round (x : Q) : Q :=
  let m := (inject_Z (round_units (Qabs x * denorm_min_inv)) / denorm_min_inv)%Q in
  if Qle_bool 0 x then m else (- m)%Q.

(** The numbers of the format, without its largest exponent. *)
Definition format (x : Q) : Prop :=
  exists m s : Z,
    Z.abs m < 2 ^ 24 /\ 0 <= s /\ (x == inject_Z (m * 2 ^ s) / denorm_min_inv)%Q.

(** [FLT_MAX]; the exact result [x] of an operation is [finite] when
    the operation does not overflow. *)
Definition FLT_MAX : Q := inject_Z ((2 ^ 24 - 1) * 2 ^ 104).

Definition finite (x : Q) : Prop := (Qabs x <= FLT_MAX)%Q.

(** The operations of the source on [float]; the negation is exact. *)
Definition add (x y : Q) : Q := round (x + y).
Definition sub (x y : Q) : Q := round (x - y).
Definition mul (x y : Q) : Q := round (x * y).
Definition div (x y : Q) : Q := round (x / y).

(** [float(n)] and [(float)(n)] *)
Definition of_int (n : Z) : Q := round (inject_Z n).

(** [(viterbi_bit_t)(v)]: the value with its fraction cut off when the
    type can hold it, and undefined otherwise.  The header that declares
    [viterbi_bit_t] is outside the translation unit: the type is a
    signed integer of [width] bits. *)
Definition to_viterbi_bit_t (width : Z) (v : Q) : option Z :=
  let n := Float.to_int v in
  if (- 2 ^ (width - 1) <=? n) && (n <? 2 ^ (width - 1)) then Some n else None.

Definition convert_to_viterbi_bit (width HIGH : Z) (x : Q) : option Z :=
  let scale := of_int HIGH in
  let v := mul (- x) scale in
  to_viterbi_bit_t width v.

(** [1.01f] *)
Definition fft_bin_margin : Q := 4236247 # 4194304.

Definition fft_bin_wrap (p : OFDM_Params) : Q :=
  let fft_bin_spacing := div 1 (of_int (nb_fft p)) in
  mul (mul (1 # 2) fft_bin_spacing) fft_bin_margin.

(** [std::fmod] is exact. *)
Definition UpdateFineFrequencyOffset (d : OFDM_Demod) (delta : Q) : OFDM_Demod :=
  let d := set_freq_fine_offset d (add (freq_fine_offset d) delta) in
  set_freq_fine_offset d (Float.fmod (freq_fine_offset d) (fft_bin_wrap (params d))).

(** Steps 8 and 9 of [RunCoarseFreqSync]:
    [(predicted_freq_coarse_offset, is_fast_update, delta)]. *)
Definition coarse_freq_update (d : OFDM_Demod) (max_index : Z) : Q * bool * Q :=
  let p := params d in
  let predicted_freq_coarse_offset := div (- of_int max_index) (of_int (nb_fft p)) in
  let error := sub predicted_freq_coarse_offset (freq_coarse_offset d) in
  let large_offset_threshold := div (3 # 2) (of_int (nb_fft p)) in
  let is_large_correction := Float.gtb (Float.abs error) large_offset_threshold in
  let is_fast_update := is_large_correction || negb (is_found_coarse_freq_offset d) in
  let beta := if is_fast_update then 1%Q else sync_coarse_freq_slow_beta (cfg d) in
  let delta := mul beta error in
  (predicted_freq_coarse_offset, is_fast_update, delta).

(** Steps 7 to 11 of [RunCoarseFreqSync], on the
    [correlation_frequency_response] that steps 1 to 6 have left. *)
Definition RunCoarseFreqSync_from_response (d : OFDM_Demod)
           (correlation_frequency_response : list Q) : result (OFDM_Demod * Z) :=
  let p := params d in
  let max_carrier_offset :=
    Float.to_int (mul (sync_max_coarse_freq_correction_norm (cfg d))
                      (of_int (nb_fft p))) in
  '(max_index, _) <- coarse_peak_search p max_carrier_offset
                       correlation_frequency_response ;;
  let '(_, _, delta) := coarse_freq_update d max_index in
  let d := set_freq_coarse_offset d (add (freq_coarse_offset d) delta) in
  let d := set_is_found_coarse_freq_offset d true in
  let d := UpdateFineFrequencyOffset d (- delta)%Q in
  let d := set_state d RUNNING_FINE_TIME_SYNC in
  Ok (d, 0).

End Binary32.

(** The sizes of DAB transmission mode I, and a demodulator on them
    about to run a coarse synchronisation: an offset found earlier,
    [9700295 / 2^31] (a binary32 number), and a frequency response whose
    peak is seven bins above the centre. *)
Definition example_mode1_params : OFDM_Params :=
  {| nb_frame_symbols := 76; nb_symbol_period := 2552; nb_null_period := 2656;
     nb_data_carriers := 1536; nb_fft := 2048; nb_cyclic_prefix := 504 |}.

Definition example_mode1_demod : OFDM_Demod :=
  let d := @OFDM_Demod_new example_kernels example_mode1_params example_cfg [] [] in
  let d := set_state d RUNNING_COARSE_FREQ_SYNC in
  let d := set_is_found_coarse_freq_offset d true in
  set_freq_coarse_offset d (9700295 # 2147483648)%Q.

Definition example_mode1_response : list Q :=
  repeat 0%Q 1031 ++ [1%Q] ++ repeat 0%Q 1016.



(** A frame on the example parameters whose cyclic prefixes are rotated
    against the ends of their symbols: [conj(1) * (1 + i)] in symbol 0 and
    [conj(1) * 2i] in symbol 1; and the example demodulator with this
    frame handed to the workers. *)
Definition example_rotated_frame : list complex :=
  [ Cplx 1 1; Cplx 9 9; Cplx 0 1; Cplx 9 9; Cplx 1 0;
    Cplx 0 2; Cplx 9 9; Cplx 1 0; Cplx 9 9; Cplx 1 0;
    czero; czero; czero; czero; czero ].

Definition example_rotated_demod : OFDM_Demod :=
  set_active_buffer_data example_demod example_rotated_frame.

(** * Properties *)

(** ** The error monad and the loops *)

Lemma bind_Ok {A B : Type} (m : result A) (k : A -> result B) (b : B) :
  bind m k = Ok b -> exists a, m = Ok a /\ k a = Ok b.
Proof.
  destruct m as [a | f]; simpl; intros E; [exists a; auto | discriminate].
Qed.

Lemma for_loop_invariant {St : Type} (P : Z -> St -> Prop)
      (body : Z -> St -> result St) :
  forall n i s,
    P i s ->
    (forall j t, i <= j < i + Z.of_nat n -> P j t ->
                 exists t', body j t = Ok t' /\ P (j + 1) t') ->
    exists s', for_loop n i body s = Ok s' /\ P (i + Z.of_nat n) s'.
Proof.
  induction n as [| n IH]; intros i s Hs Hbody.
  - exists s. simpl. rewrite Z.add_0_r. auto.
  - destruct (Hbody i s) as (t & Et & Ht); [lia | exact Hs |].
    destruct (IH (i + 1) t Ht) as (s' & Es' & Hs').
    + intros j u Hj Hu. apply Hbody; [lia | exact Hu].
    + exists s'. cbn [for_loop]. rewrite Et. cbn [bind]. split; [exact Es' |].
      replace (i + Z.of_nat (S n)) with (i + 1 + Z.of_nat n) by lia. exact Hs'.
Qed.

Lemma for_range_invariant {St : Type} (P : Z -> St -> Prop)
      (body : Z -> St -> result St) (lo hi : Z) (s : St) :
  lo <= hi ->
  P lo s ->
  (forall j t, lo <= j < hi -> P j t -> exists t', body j t = Ok t' /\ P (j + 1) t') ->
  exists s', for_range lo hi body s = Ok s' /\ P hi s'.
Proof.
  intros Hle Hs Hbody. unfold for_range.
  destruct (for_loop_invariant P body (Z.to_nat (hi - lo)) lo s Hs) as (s' & E & H').
  - intros j t Hj. apply Hbody. lia.
  - exists s'. split; [exact E |].
    replace hi with (lo + Z.of_nat (Z.to_nat (hi - lo))) at 1 by lia. exact H'.
Qed.

(** ** Spans *)

Lemma span_at_Ok {A : Type} (l : list A) (i : Z) (a : A) :
  span_at l i = Ok a <-> 0 <= i < span_size l /\ nth_error l (Z.to_nat i) = Some a.
Proof.
  unfold span_at.
  destruct (0 <=? i) eqn:E0, (i <? span_size l) eqn:E1; simpl;
    try (split; [discriminate | intros [? _]; lia]).
  destruct (nth_error l (Z.to_nat i)) as [b |] eqn:En.
  - split; [intros [= ->]; split; [lia | reflexivity] | intros [_ [= ->]]; reflexivity].
  - split; [discriminate | intros [_ ?]; discriminate].
Qed.

Lemma span_at_in_bounds {A : Type} (l : list A) (i : Z) :
  0 <= i < span_size l -> exists a, span_at l i = Ok a.
Proof.
  intros Hi. unfold span_size in Hi.
  destruct (nth_error l (Z.to_nat i)) as [a |] eqn:En.
  - exists a. apply span_at_Ok. unfold span_size. auto.
  - apply nth_error_None in En. lia.
Qed.

Lemma length_list_set {A : Type} (l : list A) (n : nat) (v : A) :
  length (list_set l n v) = length l.
Proof.
  revert n; induction l as [| h t IH]; intros [| n]; simpl; auto.
Qed.

Lemma nth_error_list_set_eq {A : Type} (l : list A) (n : nat) (v : A) :
  (n < length l)%nat -> nth_error (list_set l n v) n = Some v.
Proof.
  revert n; induction l as [| h t IH]; intros [| n] Hn; simpl in *;
    try lia; auto.
  apply IH. lia.
Qed.

Lemma nth_error_list_set_neq {A : Type} (l : list A) (n m : nat) (v : A) :
  n <> m -> nth_error (list_set l n v) m = nth_error l m.
Proof.
  revert n m; induction l as [| h t IH]; intros [| n] [| m] Hnm; simpl;
    try congruence; auto.
Qed.

Lemma span_set_Ok {A : Type} (l : list A) (i : Z) (v : A) :
  0 <= i < span_size l -> span_set l i v = Ok (list_set l (Z.to_nat i) v).
Proof.
  intros Hi. unfold span_set.
  destruct (0 <=? i) eqn:E0, (i <? span_size l) eqn:E1; simpl; auto; lia.
Qed.

Lemma span_size_list_set {A : Type} (l : list A) (n : nat) (v : A) :
  span_size (list_set l n v) = span_size l.
Proof. unfold span_size. now rewrite length_list_set. Qed.

Lemma span_at_list_set_eq {A : Type} (l : list A) (i : Z) (v : A) :
  0 <= i < span_size l -> span_at (list_set l (Z.to_nat i) v) i = Ok v.
Proof.
  intros Hi. apply span_at_Ok. rewrite span_size_list_set. split; [exact Hi |].
  apply nth_error_list_set_eq. unfold span_size in Hi. lia.
Qed.

Lemma span_at_list_set_neq {A : Type} (l : list A) (i j : Z) (v : A) :
  0 <= i -> 0 <= j -> i <> j ->
  span_at (list_set l (Z.to_nat i) v) j = span_at l j.
Proof.
  intros Hi Hj Hij. unfold span_at. rewrite span_size_list_set.
  rewrite nth_error_list_set_neq by lia. reflexivity.
Qed.

Lemma subspan_Ok {A : Type} (l : list A) (offset count : Z) :
  0 <= offset -> 0 <= count -> offset + count <= span_size l ->
  subspan l offset count = Ok (slice l offset count).
Proof.
  intros H0 H1 H2. unfold subspan, slice.
  destruct (0 <=? offset) eqn:E0, (0 <=? count) eqn:E1,
           (offset + count <=? span_size l) eqn:E2; simpl; auto; lia.
Qed.

Lemma span_size_slice {A : Type} (l : list A) (offset count : Z) :
  0 <= offset -> 0 <= count -> offset + count <= span_size l ->
  span_size (slice l offset count) = count.
Proof.
  intros H0 H1 H2. unfold span_size, slice in *.
  rewrite length_firstn, length_skipn. lia.
Qed.

Lemma span_at_slice {A : Type} (l : list A) (offset count k : Z) :
  0 <= offset -> 0 <= count -> offset + count <= span_size l ->
  0 <= k < count ->
  span_at (slice l offset count) k = span_at l (offset + k).
Proof.
  intros H0 H1 H2 Hk.
  assert (Hsz := span_size_slice l offset count H0 H1 H2).
  unfold span_at. rewrite Hsz.
  replace ((0 <=? k) && (k <? count)) with true by (symmetry; apply andb_true_iff; lia).
  replace ((0 <=? offset + k) && (offset + k <? span_size l)) with true
    by (symmetry; apply andb_true_iff; lia).
  unfold slice. rewrite nth_error_firstn.
  destruct (Nat.ltb_spec (Z.to_nat k) (Z.to_nat count)) as [_ | Hge]; [| lia].
  rewrite nth_error_skipn.
  replace (Z.to_nat offset + Z.to_nat k)%nat with (Z.to_nat (offset + k)) by lia.
  reflexivity.
Qed.

(** ** Float conversions *)

Lemma to_int_nonneg (x : Q) : (0 <= x)%Q -> Float.to_int x = Qfloor x.
Proof.
  destruct x as [n d]. unfold Qle, Float.to_int, Qfloor. simpl.
  intros Hn. apply Z.quot_div_nonneg; lia.
Qed.

Lemma to_int_nonpos (x : Q) : (x <= 0)%Q -> Float.to_int x = Qceiling x.
Proof.
  destruct x as [n d]. unfold Qle, Float.to_int, Qceiling, Qfloor. simpl.
  intros Hn.
  replace n with (- - n) at 1 by lia.
  rewrite Z.quot_opp_l by lia.
  rewrite Z.quot_div_nonneg by lia. reflexivity.
Qed.

Lemma inject_Z_nonneg (b : Z) : (0 <= inject_Z b)%Q <-> 0 <= b.
Proof. unfold Qle. simpl. lia. Qed.

Lemma inject_Z_pos (b : Z) : (0 < inject_Z b)%Q <-> 0 < b.
Proof. unfold Qlt. simpl. lia. Qed.

Lemma to_int_bounded (x : Q) (b : Z) :
  (Qabs x <= inject_Z b)%Q -> - b <= Float.to_int x <= b.
Proof.
  intros Hx. apply Qabs_Qle_condition in Hx. destruct Hx as [Hlo Hhi].
  assert (0 <= b) as Hb by (apply inject_Z_nonneg; lra).
  destruct (Qlt_le_dec x 0) as [Hneg | Hpos].
  - rewrite to_int_nonpos by (apply Qlt_le_weak; exact Hneg).
    split.
    + rewrite <- (Qceiling_Z (- b)). apply Qceiling_resp_le.
      rewrite inject_Z_opp. exact Hlo.
    + assert (Qceiling x <= Qceiling 0) as H0
          by (apply Qceiling_resp_le, Qlt_le_weak; exact Hneg).
      change (Qceiling 0) with 0 in H0. lia.
  - rewrite to_int_nonneg by exact Hpos.
    split.
    + assert (Qfloor 0 <= Qfloor x) as H0 by (apply Qfloor_resp_le; exact Hpos).
      change (Qfloor 0) with 0 in H0. lia.
    + rewrite <- (Qfloor_Z b). apply Qfloor_resp_le. exact Hhi.
Qed.

Lemma ltb_true_iff (a b : Q) : Float.ltb a b = true <-> (a < b)%Q.
Proof.
  unfold Float.ltb. rewrite negb_true_iff.
  destruct (Qle_bool b a) eqn:E.
  - apply Qle_bool_iff in E. split; [discriminate | intros H; lra].
  - split; [intros _ | reflexivity].
    apply Qnot_le_lt. intros H. apply Qle_bool_iff in H. congruence.
Qed.

Lemma ltb_false_iff (a b : Q) : Float.ltb a b = false <-> (b <= a)%Q.
Proof.
  unfold Float.ltb. rewrite negb_false_iff. apply Qle_bool_iff.
Qed.

Lemma div_Ok (a b : Q) : ~ (b == 0)%Q -> Float.div a b = Ok (a / b)%Q.
Proof.
  intros Hb. unfold Float.div.
  destruct (Qeq_bool b 0) eqn:E; [| reflexivity].
  apply Qeq_bool_iff in E. contradiction.
Qed.

Lemma div_by_zero (a b : Q) : (b == 0)%Q -> Float.div a b = Fault DivisionByZero.
Proof.
  intros Hb. unfold Float.div.
  destruct (Qeq_bool b 0) eqn:E; [reflexivity |].
  apply Qeq_bool_neq in E. contradiction.
Qed.

(** ** Soft-decision bits *)

Lemma convert_to_viterbi_bit_bounded (HIGH : Z) (x : Q) :
  0 <= HIGH -> (Qabs x <= 1)%Q ->
  - HIGH <= convert_to_viterbi_bit HIGH x <= HIGH.
Proof.
  intros HH Hx. unfold convert_to_viterbi_bit, Float.of_int.
  apply to_int_bounded.
  apply Qabs_Qle_condition in Hx. destruct Hx as [Hlo Hhi].
  assert (0 <= inject_Z HIGH)%Q as Hh by (apply inject_Z_nonneg; exact HH).
  apply Qabs_Qle_condition. split; nra.
Qed.

Lemma l_inf_norm_bounds (vec : complex) :
  (Qabs (re vec) <= l_inf_norm vec)%Q /\ (Qabs (im vec) <= l_inf_norm vec)%Q.
Proof.
  unfold l_inf_norm, Float.max, Float.abs.
  destruct (Float.ltb (Qabs (re vec)) (Qabs (im vec))) eqn:E.
  - apply ltb_true_iff in E. split; lra.
  - apply ltb_false_iff in E. split; lra.
Qed.

Lemma l_inf_norm_zero (vec : complex) :
  (l_inf_norm vec == 0)%Q <-> ceq vec czero.
Proof.
  destruct (l_inf_norm_bounds vec) as [Hr Hi].
  assert (0 <= Qabs (re vec))%Q as Hr0 by apply Qabs_nonneg.
  assert (0 <= Qabs (im vec))%Q as Hi0 by apply Qabs_nonneg.
  unfold ceq, czero. simpl. split.
  - intros HA. rewrite HA in Hr, Hi.
    apply Qabs_Qle_condition in Hr. apply Qabs_Qle_condition in Hi.
    split; lra.
  - intros [Er Ei]. unfold l_inf_norm, Float.max, Float.abs.
    destruct (Float.ltb (Qabs (re vec)) (Qabs (im vec)));
      [rewrite Ei | rewrite Er]; reflexivity.
Qed.

Lemma normalised_component (a A : Q) :
  (0 < A)%Q -> (Qabs a <= A)%Q -> (Qabs (a / A) <= 1)%Q.
Proof.
  intros HA Ha. apply Qabs_Qle_condition in Ha. destruct Ha as [Hlo Hhi].
  apply Qabs_Qle_condition. split.
  - apply Qle_shift_div_l; [exact HA | lra].
  - apply Qle_shift_div_r; [exact HA | lra].
Qed.

Lemma viterbi_bits_of_carrier_positive (HIGH : Z) (vec : complex) :
  0 <= HIGH -> (0 < l_inf_norm vec)%Q ->
  exists b0 b1,
    viterbi_bits_of_carrier HIGH vec = Ok (b0, b1) /\
    Z.abs b0 <= HIGH /\ Z.abs b1 <= HIGH.
Proof.
  intros HH HA. destruct (l_inf_norm_bounds vec) as [Hr Hi].
  unfold viterbi_bits_of_carrier, cdiv_real.
  rewrite !div_Ok by lra. cbn [bind re im].
  eexists; eexists; split; [reflexivity |].
  pose proof (normalised_component (re vec) _ HA Hr) as Nr.
  pose proof (normalised_component (im vec) _ HA Hi) as Ni.
  split.
  - pose proof (convert_to_viterbi_bit_bounded HIGH _ HH Nr). lia.
  - assert (Qabs (- (im vec / l_inf_norm vec)) <= 1)%Q as Ni'
        by (rewrite Qabs_opp; exact Ni).
    pose proof (convert_to_viterbi_bit_bounded HIGH _ HH Ni'). lia.
Qed.

Lemma viterbi_bits_of_carrier_zero (HIGH : Z) (vec : complex) :
  ceq vec czero -> viterbi_bits_of_carrier HIGH vec = Fault DivisionByZero.
Proof.
  intros Hz. apply l_inf_norm_zero in Hz.
  unfold viterbi_bits_of_carrier, cdiv_real.
  rewrite div_by_zero by exact Hz. reflexivity.
Qed.

Lemma for_loop_fault {St : Type} (P : Z -> St -> Prop)
      (body : Z -> St -> result St) (f : fault) :
  forall n i s,
    P i s ->
    (forall j t, i <= j < i + Z.of_nat n -> P j t ->
                 (exists t', body j t = Ok t' /\ P (j + 1) t') \/ body j t = Fault f) ->
    (exists j, i <= j < i + Z.of_nat n /\ forall t, P j t -> body j t = Fault f) ->
    for_loop n i body s = Fault f.
Proof.
  induction n as [| n IH]; intros i s Hs Hbody (j & Hj & Hfault).
  - lia.
  - cbn [for_loop].
    destruct (Hbody i s) as [(t & Et & Ht) | Ef]; [lia | exact Hs | |].
    + rewrite Et. cbn [bind]. apply (IH (i + 1) t Ht).
      * intros k u Hk Hu. apply Hbody; [lia | exact Hu].
      * exists j. split; [| exact Hfault].
        assert (j <> i) by (intros ->; rewrite (Hfault s Hs) in Et; discriminate).
        lia.
    + rewrite Ef. reflexivity.
Qed.

Lemma l_inf_norm_nonneg (vec : complex) : (0 <= l_inf_norm vec)%Q.
Proof.
  destruct (l_inf_norm_bounds vec) as [Hr _].
  pose proof (Qabs_nonneg (re vec)). lra.
Qed.

Lemma l_inf_norm_cases (vec : complex) :
  (0 < l_inf_norm vec)%Q \/ ceq vec czero.
Proof.
  pose proof (l_inf_norm_nonneg vec) as H0.
  destruct (Qlt_le_dec 0 (l_inf_norm vec)) as [Hpos | Hle]; [left; exact Hpos |].
  right. apply l_inf_norm_zero. lra.
Qed.

Section ViterbiLoop.

Variables (HIGH N : Z) (mapper : list Z) (vec_buf : list complex).
Hypothesis HIGH_nonneg : 0 <= HIGH.

Local Abbreviation body := (CalculateViterbiBits_body HIGH N mapper vec_buf) (only parsing).
Local Abbreviation written := (viterbi_written HIGH N mapper vec_buf) (only parsing).

Lemma viterbi_body_positive (i : Z) (bit_buf : list Z) (vec : complex) :
  0 <= i < N -> span_size bit_buf = 2 * N ->
  carrier_at mapper vec_buf i vec -> (0 < l_inf_norm vec)%Q ->
  exists b0 b1,
    viterbi_bits_of_carrier HIGH vec = Ok (b0, b1) /\
    Z.abs b0 <= HIGH /\ Z.abs b1 <= HIGH /\
    body i bit_buf
    = Ok (list_set (list_set bit_buf (Z.to_nat i) b0) (Z.to_nat (i + N)) b1).
Proof.
  intros Hi Hsz (j & Ej & Ev) HA.
  destruct (viterbi_bits_of_carrier_positive HIGH vec HIGH_nonneg HA)
    as (b0 & b1 & Eb & H0 & H1).
  exists b0, b1. repeat split; auto.
  unfold CalculateViterbiBits_body. rewrite Ej. cbn [bind]. rewrite Ev. cbn [bind].
  rewrite Eb. cbn [bind].
  rewrite span_set_Ok by lia. cbn [bind].
  apply span_set_Ok. rewrite span_size_list_set. lia.
Qed.

Lemma viterbi_body_zero (i : Z) (bit_buf : list Z) (vec : complex) :
  carrier_at mapper vec_buf i vec -> ceq vec czero ->
  body i bit_buf = Fault DivisionByZero.
Proof.
  intros (j & Ej & Ev) Hz. unfold CalculateViterbiBits_body.
  rewrite Ej. cbn [bind]. rewrite Ev. cbn [bind].
  rewrite viterbi_bits_of_carrier_zero by exact Hz. reflexivity.
Qed.

Lemma viterbi_written_step (i : Z) (bit_buf : list Z) (vec : complex) :
  0 <= i < N -> written i bit_buf ->
  carrier_at mapper vec_buf i vec -> (0 < l_inf_norm vec)%Q ->
  exists bit_buf', body i bit_buf = Ok bit_buf' /\ written (i + 1) bit_buf'.
Proof.
  intros Hi [Hsz Hw] Hc HA.
  destruct (viterbi_body_positive i bit_buf vec Hi Hsz Hc HA)
    as (b0 & b1 & Eb & H0 & H1 & E).
  eexists. split; [exact E |]. split.
  - rewrite !span_size_list_set. exact Hsz.
  - intros k Hk. destruct (Z.eq_dec k i) as [-> | Hne].
    + exists vec, b0, b1. repeat split; auto.
      * rewrite span_at_list_set_neq by lia.
        apply span_at_list_set_eq. lia.
      * apply span_at_list_set_eq. rewrite span_size_list_set. lia.
    + destruct (Hw k) as (v & c0 & c1 & Hcv & Ec & E0 & E1 & B0 & B1); [lia |].
      exists v, c0, c1. repeat split; auto.
      * rewrite !span_at_list_set_neq by lia. exact E0.
      * rewrite !span_at_list_set_neq by lia. exact E1.
Qed.

Lemma CalculateViterbiBits_positive (bit_buf : list Z) :
  0 <= N -> span_size bit_buf = 2 * N ->
  (forall i, 0 <= i < N ->
     exists vec, carrier_at mapper vec_buf i vec /\ (0 < l_inf_norm vec)%Q) ->
  exists bits,
    CalculateViterbiBits HIGH N mapper vec_buf bit_buf = Ok bits /\
    written N bits.
Proof.
  intros HN Hsz Hall. unfold CalculateViterbiBits.
  apply (for_range_invariant written); [lia | |].
  - split; [exact Hsz | intros k Hk; lia].
  - intros j t Hj Ht. destruct (Hall j Hj) as (vec & Hc & HA).
    exact (viterbi_written_step j t vec Hj Ht Hc HA).
Qed.

Lemma CalculateViterbiBits_zero (bit_buf : list Z) :
  0 <= N -> span_size bit_buf = 2 * N ->
  (forall i, 0 <= i < N -> exists vec, carrier_at mapper vec_buf i vec) ->
  (exists i vec, 0 <= i < N /\ carrier_at mapper vec_buf i vec /\ ceq vec czero) ->
  CalculateViterbiBits HIGH N mapper vec_buf bit_buf = Fault DivisionByZero.
Proof.
  intros HN Hsz Hall (i & vec & Hi & Hc & Hz). unfold CalculateViterbiBits, for_range.
  apply (for_loop_fault written).
  - split; [exact Hsz | intros k Hk; lia].
  - intros j t Hj Ht. destruct (Hall j) as (v & Hv); [lia |].
    destruct (l_inf_norm_cases v) as [HA | Hzero].
    + left. apply (viterbi_written_step j t v); auto. lia.
    + right. exact (viterbi_body_zero j t v Hv Hzero).
  - exists i. split; [lia |]. intros t _. exact (viterbi_body_zero i t vec Hc Hz).
Qed.

End ViterbiLoop.

(** C10: [CalculateViterbiBits] divides every carrier by
    [A = max(|re|, |im|)] without a guard.  When every carrier read has
    [A > 0] the call returns, and both soft bits of every carrier have
    magnitude at most [SOFT_DECISION_VITERBI_HIGH]; when some carrier read
    is exactly zero the quotient by [A = 0] is evaluated (the call ends in
    the fault [DivisionByZero]).  The same holds of the loop body for a
    single carrier. *)
Theorem CalculateViterbiBits_division_unguarded
        (HIGH N : Z) (mapper : list Z) (vec_buf : list complex) (bit_buf : list Z) :
  0 <= HIGH -> 0 <= N -> span_size bit_buf = 2 * N ->
  (forall i, 0 <= i < N -> exists vec, carrier_at mapper vec_buf i vec) ->
  ((forall i vec, 0 <= i < N -> carrier_at mapper vec_buf i vec ->
                  (0 < l_inf_norm vec)%Q) ->
   exists bits,
     CalculateViterbiBits HIGH N mapper vec_buf bit_buf = Ok bits /\
     forall i, 0 <= i < N ->
       exists b0 b1,
         span_at bits i = Ok b0 /\ span_at bits (i + N) = Ok b1 /\
         Z.abs b0 <= HIGH /\ Z.abs b1 <= HIGH)
  /\
  ((exists i vec, 0 <= i < N /\ carrier_at mapper vec_buf i vec /\ ceq vec czero) ->
   CalculateViterbiBits HIGH N mapper vec_buf bit_buf = Fault DivisionByZero)
  /\
  (forall vec, (0 < l_inf_norm vec)%Q ->
     exists b0 b1, viterbi_bits_of_carrier HIGH vec = Ok (b0, b1) /\
                   Z.abs b0 <= HIGH /\ Z.abs b1 <= HIGH)
  /\
  (forall vec, ceq vec czero ->
     viterbi_bits_of_carrier HIGH vec = Fault DivisionByZero).
Proof.
  intros HH HN Hsz Hall. split; [| split; [| split]].
  - intros Hpos.
    destruct (CalculateViterbiBits_positive HIGH N mapper vec_buf HH bit_buf HN Hsz)
      as (bits & E & _ & Hw).
    + intros i Hi. destruct (Hall i Hi) as (vec & Hc).
      exists vec. split; [exact Hc | exact (Hpos i vec Hi Hc)].
    + exists bits. split; [exact E |].
      intros i Hi. destruct (Hw i Hi) as (vec & b0 & b1 & _ & _ & E0 & E1 & B0 & B1).
      exists b0, b1. auto.
  - intros Hz. apply CalculateViterbiBits_zero; auto.
  - intros vec HA. apply viterbi_bits_of_carrier_positive; auto.
  - intros vec Hz. apply viterbi_bits_of_carrier_zero; auto.
Qed.

(** On two carriers of the example: bounded bits when both are non-zero, the
    fault when one is zero. *)
Lemma CalculateViterbiBits_division_unguarded_witness :
  (exists bits,
     CalculateViterbiBits 127 2 [1; 0] [Cplx 3 (-4); Cplx 1 1] [0; 0; 0; 0] = Ok bits /\
     forall i, 0 <= i < 2 ->
       exists b0 b1,
         span_at bits i = Ok b0 /\ span_at bits (i + 2) = Ok b1 /\
         Z.abs b0 <= 127 /\ Z.abs b1 <= 127)
  /\ CalculateViterbiBits 127 2 [1; 0] [Cplx 0 0; Cplx 1 1] [0; 0; 0; 0]
     = Fault DivisionByZero.
Proof.
  assert (forall v w i, 0 <= i < 2 ->
            exists vec, carrier_at [1; 0] [v; w] i vec) as Hall.
  { intros v w i Hi. assert (i = 0 \/ i = 1) as [-> | ->] by lia.
    - exists w, 1. split; reflexivity.
    - exists v, 0. split; reflexivity. }
  split.
  - apply (CalculateViterbiBits_division_unguarded
             127 2 [1; 0] [Cplx 3 (-4); Cplx 1 1] [0; 0; 0; 0]);
      [lia | lia | reflexivity | apply Hall |].
    intros i vec Hi (j & Ej & Ev).
    assert (i = 0 \/ i = 1) as [-> | ->] by lia;
      vm_compute in Ej; injection Ej as <-;
      vm_compute in Ev; injection Ev as <-; reflexivity.
  - apply (CalculateViterbiBits_division_unguarded
             127 2 [1; 0] [Cplx 0 0; Cplx 1 1] [0; 0; 0; 0]);
      [lia | lia | reflexivity | apply Hall |].
    exists 1, (Cplx 0 0). split; [lia |]. split.
    + exists 0. split; reflexivity.
    + split; reflexivity.
Defined.

(** ** Differential demodulation *)

Lemma CalculateDQPSK_body_step (M N_fft size : Z) (in0 in1 : list complex)
      (i : Z) (st : Z * list complex) :
  0 < N_fft -> 0 <= M <= N_fft -> 2 * M <= size ->
  span_size in0 = N_fft -> span_size in1 = N_fft ->
  - M <= i < M + 1 ->
  dqpsk_written M N_fft size in0 in1 i st ->
  exists st', CalculateDQPSK_body N_fft in0 in1 i st = Ok st' /\
              dqpsk_written M N_fft size in0 in1 (i + 1) st'.
Proof.
  intros HN HM Hsize H0 H1 Hi. destruct st as [sub out].
  intros (Hsub & Hsz & Hw). cbn [fst snd] in *.
  unfold CalculateDQPSK_body.
  destruct (Z.eqb_spec i 0) as [-> | Hne].
  - eexists. split; [reflexivity |]. split; [| split]; cbn [fst snd].
    + rewrite Hsub. destruct (Z.leb_spec 0 0), (Z.leb_spec (0 + 1) 0); lia.
    + exact Hsz.
    + intros c Hc Hc0. apply Hw; lia.
  - rewrite Z.rem_mod_nonneg by lia.
    assert (0 <= (N_fft + i) mod N_fft < N_fft) as Hidx by (apply Z.mod_pos_bound; lia).
    destruct (span_at_in_bounds in1 ((N_fft + i) mod N_fft)) as (a & Ea); [lia |].
    destruct (span_at_in_bounds in0 ((N_fft + i) mod N_fft)) as (b & Eb); [lia |].
    rewrite Ea. cbn [bind]. rewrite Eb. cbn [bind].
    assert (0 <= sub < span_size out) as Hs.
    { rewrite Hsub. destruct (Z.leb_spec i 0); lia. }
    rewrite span_set_Ok by exact Hs. cbn [bind].
    eexists. split; [reflexivity |]. split; [| split]; cbn [fst snd].
    + rewrite Hsub. destruct (Z.leb_spec i 0), (Z.leb_spec (i + 1) 0); lia.
    + rewrite span_size_list_set. exact Hsz.
    + intros c Hc Hc0. destruct (Z.eq_dec c i) as [-> | Hci].
      * exists a, b. split; [exact Ea | split; [exact Eb |]].
        replace (if i <? 0 then i + M else i + M - 1) with sub
          by (rewrite Hsub; destruct (Z.leb_spec i 0), (Z.ltb_spec i 0); lia).
        apply span_at_list_set_eq. exact Hs.
      * destruct (Hw c) as (a' & b' & Ea' & Eb' & Eo); [lia | exact Hc0 |].
        exists a', b'. split; [exact Ea' | split; [exact Eb' |]].
        rewrite span_at_list_set_neq; [exact Eo | lia | |].
        -- destruct (Z.ltb_spec c 0); lia.
        -- rewrite Hsub.
           destruct (Z.leb_spec i 0), (Z.ltb_spec c 0); lia.
Qed.

Lemma CalculateDQPSK_written (nb_data_carriers nb_fft : Z)
      (in0 in1 out_vec : list complex) :
  0 < nb_fft -> 0 <= nb_data_carriers <= nb_fft ->
  span_size in0 = nb_fft -> span_size in1 = nb_fft ->
  span_size out_vec = nb_data_carriers ->
  exists st,
    CalculateDQPSK nb_data_carriers nb_fft in0 in1 out_vec = Ok st /\
    dqpsk_written (Z.quot nb_data_carriers 2) nb_fft nb_data_carriers in0 in1
                  (Z.quot nb_data_carriers 2 + 1) st.
Proof.
  intros HN Hdc H0 H1 Hout. unfold CalculateDQPSK.
  set (M := Z.quot nb_data_carriers 2).
  assert (0 <= M /\ 2 * M <= nb_data_carriers) as [HM0 HM2].
  { unfold M. rewrite Z.quot_div_nonneg by lia.
    pose proof (Z.mul_div_le nb_data_carriers 2).
    pose proof (Z.div_pos nb_data_carriers 2). lia. }
  apply (for_range_invariant (dqpsk_written M nb_fft nb_data_carriers in0 in1)).
  - lia.
  - split; [| split]; cbn [fst snd].
    + destruct (Z.leb_spec (- M) 0); lia.
    + exact Hout.
    + intros c Hc. lia.
  - intros j t Hj Ht.
    apply (CalculateDQPSK_body_step M nb_fft nb_data_carriers); auto; lia.
Qed.

Lemma conj_product_swapped (a b : complex) :
  ceq (cmul a (cconj b)) (cconj (cmul b (cconj a))).
Proof. unfold ceq, cmul, cconj. simpl. split; ring. Qed.

Lemma calculate_dqpsk_vec_cells
        (p : OFDM_Params) (pipeline_fft_buffer pipeline_dqpsk_vec_buffer : list complex)
        (s c : Z) :
  0 < nb_fft p -> 0 <= nb_data_carriers p <= nb_fft p ->
  span_size pipeline_fft_buffer = (nb_frame_symbols p + 1) * nb_fft p ->
  span_size pipeline_dqpsk_vec_buffer = (nb_frame_symbols p - 1) * nb_fft p ->
  0 <= s < nb_frame_symbols p - 1 ->
  - Z.quot (nb_data_carriers p) 2 <= c <= Z.quot (nb_data_carriers p) 2 -> c <> 0 ->
  exists out a b,
    calculate_dqpsk_vec p pipeline_fft_buffer pipeline_dqpsk_vec_buffer s = Ok out /\
    fft_cell p pipeline_fft_buffer s (dqpsk_fft_index p c) = Ok a /\
    fft_cell p pipeline_fft_buffer (s + 1) (dqpsk_fft_index p c) = Ok b /\
    span_at out (dqpsk_subcarrier_index p c) = Ok (cmul a (cconj b)) /\
    ceq (cmul a (cconj b)) (cconj (cmul b (cconj a))).
Proof.
  intros HN Hdc Hfft Hdq Hs Hc Hc0.
  set (N := nb_fft p) in *. set (D := nb_data_carriers p) in *.
  set (F := nb_frame_symbols p) in *.
  assert (0 <= (N + c) mod N < N) as Hidx by (apply Z.mod_pos_bound; lia).
  unfold calculate_dqpsk_vec. fold N D.
  rewrite (subspan_Ok pipeline_fft_buffer ((s + 0) * N) N) by nia.
  cbn [bind].
  rewrite (subspan_Ok pipeline_fft_buffer ((s + 1) * N) N) by nia.
  cbn [bind].
  rewrite (subspan_Ok pipeline_dqpsk_vec_buffer (s * D) D) by nia.
  cbn [bind].
  destruct (CalculateDQPSK_written D N
              (slice pipeline_fft_buffer ((s + 1) * N) N)
              (slice pipeline_fft_buffer ((s + 0) * N) N)
              (slice pipeline_dqpsk_vec_buffer (s * D) D))
    as ([sub out] & E & _ & _ & Hw); try lia;
    try (apply span_size_slice; nia).
  rewrite E. cbn [bind snd] in *.
  destruct (Hw c) as (a & b & Ea & Eb & Eo); [lia | exact Hc0 |].
  exists out, a, b.
  rewrite span_at_slice in Ea by nia.
  rewrite span_at_slice in Eb by nia.
  unfold fft_cell, dqpsk_fft_index, dqpsk_subcarrier_index. fold N D.
  replace (s * N + (N + c) mod N) with ((s + 0) * N + (N + c) mod N) by lia.
  repeat split; auto.
  - apply conj_product_swapped.
  - apply conj_product_swapped.
Qed.

(** ** Worker threads *)

Lemma length_CreateThreads_loop (n : nat) (nb_syms nb_threads i start : Z) :
  length (CreateThreads_loop n nb_syms nb_threads i start) = n.
Proof.
  revert i start; induction n as [| n IH]; intros i start; simpl; auto.
Qed.

Lemma span_size_CreateThreads (p : OFDM_Params) (total nb_desired : Z) :
  span_size (CreateThreads p total nb_desired)
  = Z.max 0 (CreateThreads_nb_threads p total nb_desired).
Proof.
  unfold CreateThreads, span_size. rewrite length_CreateThreads_loop. lia.
Qed.

(** C5, as the code has it: with [nb_desired_threads > 0] the number of
    workers is [min(nb_frame_symbols + 1, nb_desired_threads)]; with
    [nb_desired_threads <= 0] it is [min(nb_frame_symbols + 1,
    hardware_concurrency)], less one only when that minimum exceeds 1, so
    it is capped by [min(nb_frame_symbols + 1, max(1, hardware_concurrency - 1))]:
    a single-core host keeps one worker. *)
Theorem CreateThreads_worker_count (p : OFDM_Params)
        (total_system_threads nb_desired_threads : Z) :
  0 <= nb_frame_symbols p -> 0 <= total_system_threads ->
  let nb_syms := nb_frame_symbols p + 1 in
  let workers := span_size (CreateThreads p total_system_threads nb_desired_threads) in
  (0 < nb_desired_threads -> workers = Z.min nb_syms nb_desired_threads) /\
  (nb_desired_threads <= 0 ->
   workers = (if Z.min nb_syms total_system_threads >? 1
              then Z.min nb_syms total_system_threads - 1
              else Z.min nb_syms total_system_threads) /\
   workers <= Z.min nb_syms (Z.max 1 (total_system_threads - 1))).
Proof.
  intros HF Ht. cbv zeta. rewrite span_size_CreateThreads.
  unfold CreateThreads_nb_threads.
  split.
  - intros Hd. destruct (Z.gtb_spec nb_desired_threads 0); lia.
  - intros Hd. destruct (Z.gtb_spec nb_desired_threads 0); [lia |].
    destruct (Z.gtb_spec (Z.min (nb_frame_symbols p + 1) total_system_threads) 1); lia.
Qed.

(** On the example frame with a single-core host and the automatic choice. *)
Lemma CreateThreads_worker_count_witness :
  (0 < 0 -> span_size (CreateThreads example_params 1 0) = Z.min (2 + 1) 0) /\
  (0 <= 0 ->
   span_size (CreateThreads example_params 1 0)
   = (if Z.min (2 + 1) 1 >? 1 then Z.min (2 + 1) 1 - 1 else Z.min (2 + 1) 1) /\
   span_size (CreateThreads example_params 1 0) <= Z.min (2 + 1) (Z.max 1 (1 - 1))).
Proof.
  apply (CreateThreads_worker_count example_params 1 0); simpl; lia.
Defined.

(** C5, the stated cap fails: on a host where
    [hardware_concurrency()] is 1 the automatic choice creates one worker,
    above the stated cap [min(nb_frame_symbols + 1, hardware_concurrency - 1) = 0]. *)
Lemma CreateThreads_single_core_exceeds_cap :
  span_size (CreateThreads example_params 1 0) = 1 /\
  spec_auto_worker_cap example_params 1 = 0.
Proof. split; reflexivity. Qed.

Lemma ceil_to_int_quotient (r t : Z) :
  Float.ceil_to_int (Float.of_int r / Float.of_int t)%Q = - ((- r) / t).
Proof.
  unfold Float.ceil_to_int, Float.of_int, Qceiling.
  f_equal. rewrite Zdiv_Qdiv. apply Qfloor_comp.
  rewrite inject_Z_opp. unfold Qdiv. ring.
Qed.

Lemma ceil_quotient_bounds (r t : Z) :
  1 <= t <= r -> 1 <= - ((- r) / t) <= r - t + 1.
Proof.
  intros H. split.
  - assert ((- r) / t <= -1); [| lia].
    apply Z.div_le_upper_bound; lia.
  - assert (- (r - t + 1) <= (- r) / t); [| lia].
    apply Z.div_le_lower_bound; [lia | nia].
Qed.

Lemma CreateThreads_loop_contiguous (nb_syms nb_threads : Z) :
  forall (n : nat) (i start : Z),
    Z.of_nat n = nb_threads - i -> (1 <= n)%nat ->
    Z.of_nat n <= nb_syms - start ->
    contiguous_ranges start (CreateThreads_loop n nb_syms nb_threads i start) nb_syms.
Proof.
  induction n as [| n IH]; intros i start Hn H1 Hrem; [lia |].
  cbn [CreateThreads_loop contiguous_ranges symbol_start symbol_end].
  rewrite ceil_to_int_quotient.
  destruct (Z.eqb_spec i (nb_threads - 1)) as [Hlast | Hmore].
  - assert (n = 0%nat) as -> by lia. simpl. repeat split; lia.
  - pose proof (ceil_quotient_bounds (nb_syms - start) (nb_threads - i)) as Hc.
    split; [reflexivity |]. split; [lia |].
    apply IH; lia.
Qed.

Lemma CreateThreads_contiguous (p : OFDM_Params) (total nb_desired : Z) :
  0 <= nb_frame_symbols p ->
  1 <= CreateThreads_nb_threads p total nb_desired ->
  contiguous_ranges 0 (CreateThreads p total nb_desired) (nb_frame_symbols p + 1).
Proof.
  intros HF HW. unfold CreateThreads.
  apply CreateThreads_loop_contiguous; try lia.
  unfold CreateThreads_nb_threads in *.
  destruct (Z.gtb_spec nb_desired 0); [lia |].
  destruct (Z.gtb_spec (Z.min (nb_frame_symbols p + 1) total) 1); lia.
Qed.

(** ** Sums of phase errors *)

Lemma fold_left_Qplus_acc {A : Type} (f : A -> Q) (l : list A) (a : Q) :
  (fold_left (fun acc i => acc + f i) l a
   == a + fold_left (fun acc i => acc + f i) l 0)%Q.
Proof.
  revert a; induction l as [| x l IH]; intros a; simpl.
  - ring.
  - rewrite (IH (a + f x)%Q), (IH (0 + f x)%Q). ring.
Qed.

Lemma Zseq_nil (lo n : Z) : n <= 0 -> Zseq lo n = [].
Proof.
  intros Hn. unfold Zseq. replace (Z.to_nat n) with 0%nat by lia. reflexivity.
Qed.

Lemma seq_from_zero (m a : nat) :
  seq a m = map (fun k => (a + k)%nat) (seq 0 m).
Proof.
  revert a; induction m as [| m IH]; intros a; [reflexivity |].
  cbn [seq map]. f_equal; [lia |].
  rewrite (IH (S a)), <- seq_shift, map_map.
  apply map_ext. intros k. lia.
Qed.

Lemma Zseq_app (lo n m : Z) :
  0 <= n -> 0 <= m -> Zseq lo (n + m) = Zseq lo n ++ Zseq (lo + n) m.
Proof.
  intros Hn Hm. unfold Zseq.
  rewrite Z2Nat.inj_add, seq_app, map_app by lia. f_equal.
  rewrite (seq_from_zero (Z.to_nat m) (0 + Z.to_nat n)), map_map.
  apply map_ext. intros k. lia.
Qed.

Lemma range_sum_empty (f : Z -> Q) (lo hi : Z) : hi <= lo -> range_sum f lo hi = 0%Q.
Proof.
  intros H. unfold range_sum. rewrite Zseq_nil by lia. reflexivity.
Qed.

Lemma range_sum_split (f : Z -> Q) (lo mid hi : Z) :
  lo <= mid <= hi ->
  (range_sum f lo hi == range_sum f lo mid + range_sum f mid hi)%Q.
Proof.
  intros H. unfold range_sum.
  replace (hi - lo) with ((mid - lo) + (hi - mid)) by lia.
  rewrite Zseq_app by lia. rewrite fold_left_app.
  rewrite fold_left_Qplus_acc.
  replace (lo + (mid - lo)) with mid by lia. reflexivity.
Qed.

Lemma fmod_bounded (x y : Q) : (0 < y)%Q -> (Qabs (Float.fmod x y) < y)%Q.
Proof.
  intros Hy. unfold Float.fmod.
  set (q := (x / y)%Q).
  assert (q * y == x)%Q as Hq by (unfold q; field; lra).
  destruct (Qlt_le_dec q 0) as [Hneg | Hpos].
  - rewrite to_int_nonpos by lra.
    pose proof (Qle_ceiling q) as Hc1. pose proof (Qceiling_lt q) as Hc2.
    set (T := inject_Z (Qceiling q)) in *.
    assert (T - 1 < q)%Q as Hc3.
    { unfold T. unfold Z.sub in Hc2. rewrite inject_Z_plus in Hc2. exact Hc2. }
    assert (0 <= (T - q) * y)%Q as H1 by (apply Qmult_le_0_compat; lra).
    assert (0 < (q - (T - 1)) * y)%Q as H2 by (apply Qmult_lt_0_compat; lra).
    apply Qabs_Qlt_condition. split; lra.
  - rewrite to_int_nonneg by lra.
    pose proof (Qfloor_le q) as Hf1. pose proof (Qlt_floor q) as Hf2.
    set (T := inject_Z (Qfloor q)) in *.
    assert (q < T + 1)%Q as Hf3.
    { unfold T. rewrite inject_Z_plus in Hf2. exact Hf2. }
    assert (0 <= (q - T) * y)%Q as H1 by (apply Qmult_le_0_compat; lra).
    assert (0 < (T + 1 - q) * y)%Q as H2 by (apply Qmult_lt_0_compat; lra).
    apply Qabs_Qlt_condition. split; lra.
Qed.

Lemma fft_bin_wrap_pos (p : OFDM_Params) : 0 < nb_fft p -> (0 < fft_bin_wrap p)%Q.
Proof.
  intros HN. unfold fft_bin_wrap, Float.of_int.
  assert (0 < inject_Z (nb_fft p))%Q as H by (apply inject_Z_pos; exact HN).
  assert (0 < 1 / inject_Z (nb_fft p))%Q as H' by (apply Qlt_shift_div_l; lra).
  apply Qmult_lt_0_compat; [apply Qmult_lt_0_compat |]; [reflexivity | exact H' | reflexivity].
Qed.

Lemma UpdateFineFrequencyOffset_value (d : OFDM_Demod) (delta : Q) :
  freq_fine_offset (UpdateFineFrequencyOffset d delta)
  = Float.fmod (freq_fine_offset d + delta)%Q (fft_bin_wrap (params d)).
Proof. reflexivity. Qed.

Lemma UpdateFineFrequencyOffset_bounded (d : OFDM_Demod) (delta : Q) :
  0 < nb_fft (params d) ->
  (Qabs (freq_fine_offset (UpdateFineFrequencyOffset d delta))
   <= fft_bin_wrap (params d))%Q.
Proof.
  intros HN. rewrite UpdateFineFrequencyOffset_value.
  apply Qlt_le_weak, fmod_bounded, fft_bin_wrap_pos. exact HN.
Qed.




(** ** Coarse frequency synchronisation *)

Lemma span_size_map {A B : Type} (f : A -> B) (l : list A) :
  span_size (map f l) = span_size l.
Proof. unfold span_size. now rewrite length_map. Qed.

Lemma span_size_Zseq (lo n : Z) : span_size (Zseq lo n) = Z.max 0 n.
Proof. unfold span_size, Zseq. rewrite length_map, length_seq. lia. Qed.

Lemma span_size_CalculateMagnitude `{Kernels} (p : OFDM_Params) (buf : list complex) :
  span_size (CalculateMagnitude p buf) = Z.max 0 (nb_fft p).
Proof. unfold CalculateMagnitude. now rewrite span_size_map, span_size_Zseq. Qed.

Lemma span_size_coarse_frequency_response `{Kernels} (d : OFDM_Demod) :
  span_size (coarse_frequency_response d) = Z.max 0 (nb_fft (params d)).
Proof. apply span_size_CalculateMagnitude. Qed.

Lemma span_size_fine_time_impulse_response `{Kernels} (d : OFDM_Demod) :
  span_size (fine_time_impulse_response d) = Z.max 0 (nb_fft (params d)).
Proof.
  unfold fine_time_impulse_response. now rewrite span_size_map, span_size_Zseq.
Qed.

Lemma coarse_peak_search_Ok (p : OFDM_Params) (max_carrier_offset : Z)
      (correlation_frequency_response : list Q) :
  1 <= nb_fft p ->
  span_size correlation_frequency_response = nb_fft p ->
  exists st,
    coarse_peak_search p max_carrier_offset correlation_frequency_response = Ok st /\
    coarse_peak_state p (clamped_carrier_offset p max_carrier_offset)
                      correlation_frequency_response st.
Proof.
  intros HN Hsz. unfold coarse_peak_search.
  set (N := nb_fft p) in *. set (M := N / 2).
  assert (0 <= M /\ 2 * M <= N) as [HM0 HM2].
  { unfold M. pose proof (Z.mul_div_le N 2). pose proof (Z.div_pos N 2). lia. }
  set (w := if (if max_carrier_offset <? 0 then 0 else max_carrier_offset) >? M
            then M else if max_carrier_offset <? 0 then 0 else max_carrier_offset).
  assert (w = clamped_carrier_offset p max_carrier_offset) as Hw.
  { unfold w, clamped_carrier_offset. fold N M.
    destruct (Z.ltb_spec max_carrier_offset 0);
      [destruct (Z.gtb_spec 0 M) | destruct (Z.gtb_spec max_carrier_offset M)]; lia. }
  rewrite <- Hw. assert (0 <= w <= M) as Hwb by (rewrite Hw; unfold clamped_carrier_offset; fold N M; lia).
  clearbody w.
  destruct (span_at_in_bounds correlation_frequency_response (- w + M)) as (v0 & E0);
    [lia |].
  rewrite E0. cbn [bind].
  apply (for_range_invariant
           (fun _ => coarse_peak_state p w correlation_frequency_response)).
  - lia.
  - unfold coarse_peak_state. cbn [fst snd]. fold N M. repeat split; try lia. exact E0.
  - intros i [mi mv] Hi (Hr & Hb & Ev). cbn [fst snd] in *. fold N M in Hb, Ev.
    destruct (Z.eqb_spec (i + M) N) as [Heq | Hne].
    + eexists. split; [reflexivity |].
      unfold coarse_peak_state. cbn [fst snd]. fold N M. auto.
    + destruct (span_at_in_bounds correlation_frequency_response (i + M)) as (v & Ei);
        [lia |].
      rewrite Ei. cbn [bind].
      destruct (Float.gtb v mv); (eexists; split; [reflexivity |]);
        unfold coarse_peak_state; cbn [fst snd]; fold N M; repeat split; auto; lia.
Qed.

Lemma RunCoarseFreqSync_Ok `{Kernels} (d : OFDM_Demod) (buf : list complex) :
  1 <= nb_fft (params d) ->
  exists d',
    RunCoarseFreqSync d buf = Ok (d', 0) /\
    state d' = RUNNING_FINE_TIME_SYNC /\
    same_buffers d d' /\
    (0 < nb_fft (params d) ->
     freq_fine_offset d' = freq_fine_offset d \/
     (Qabs (freq_fine_offset d') <= fft_bin_wrap (params d))%Q).
Proof.
  intros HN. unfold RunCoarseFreqSync.
  destruct (sync_is_coarse_freq_correction (cfg d)); cbn [negb].
  - cbv zeta.
    destruct (coarse_peak_search_Ok (params d)
                (Float.to_int (sync_max_coarse_freq_correction_norm (cfg d)
                               * Float.of_int (nb_fft (params d))))
                (coarse_frequency_response d) HN) as ([mi mv] & E & _).
    { rewrite span_size_coarse_frequency_response. lia. }
    rewrite E. cbn [bind]. unfold coarse_freq_update. cbv zeta.
    eexists. split; [reflexivity |]. split; [reflexivity |].
    split; [repeat split |].
    intros HN'. right.
    match goal with
    | |- (Qabs (freq_fine_offset (set_state (UpdateFineFrequencyOffset ?d0 ?x) _))
          <= _)%Q =>
        apply (UpdateFineFrequencyOffset_bounded d0 x)
    end.
    exact HN'.
  - eexists. split; [reflexivity |]. split; [reflexivity |].
    split; [repeat split |]. intros _. left. reflexivity.
Qed.

(** C9: for every value of [cfg.sync.max_coarse_freq_correction_norm]
    and every [correlation_frequency_response] of [nb_fft >= 1] cells, the
    peak search performs all its checked reads without leaving
    [[0, nb_fft)]: the half-width it uses lies in [[0, nb_fft/2]], the
    first read (at [-half_width + nb_fft/2]) and every read of the window
    other than the skipped index [nb_fft] are inside the buffer, the
    search returns, and the winning offset names a cell of the buffer.
    Hence [RunCoarseFreqSync] returns whatever the configuration is. *)
Theorem coarse_peak_search_in_bounds `{Kernels} (p : OFDM_Params)
        (max_coarse_freq_correction_norm : Q)
        (correlation_frequency_response : list Q) :
  1 <= nb_fft p ->
  span_size correlation_frequency_response = nb_fft p ->
  let max_carrier_offset :=
    Float.to_int (max_coarse_freq_correction_norm * Float.of_int (nb_fft p))%Q in
  let half_width := clamped_carrier_offset p max_carrier_offset in
  0 <= half_width <= nb_fft p / 2 /\
  (forall i, - half_width <= i <= half_width -> i + nb_fft p / 2 <> nb_fft p ->
             0 <= i + nb_fft p / 2 < nb_fft p) /\
  0 <= - half_width + nb_fft p / 2 < nb_fft p /\
  (exists max_index max_value,
     coarse_peak_search p max_carrier_offset correlation_frequency_response
     = Ok (max_index, max_value) /\
     - half_width <= max_index <= half_width /\
     0 <= max_index + nb_fft p / 2 < nb_fft p /\
     span_at correlation_frequency_response (max_index + nb_fft p / 2) = Ok max_value) /\
  (forall d buf, params d = p -> exists d', RunCoarseFreqSync d buf = Ok (d', 0)).
Proof.
  intros HN Hsz. cbv zeta.
  set (raw := Float.to_int _).
  pose proof (Z.mul_div_le (nb_fft p) 2) as H2.
  pose proof (Z.div_pos (nb_fft p) 2) as H0.
  assert (0 <= clamped_carrier_offset p raw <= nb_fft p / 2) as Hw
      by (unfold clamped_carrier_offset; lia).
  split; [exact Hw |]. split; [intros i Hi Hne; lia |]. split; [lia |]. split.
  - destruct (coarse_peak_search_Ok p raw correlation_frequency_response HN Hsz)
      as ([mi mv] & E & Hr & Hb & Ev).
    exists mi, mv. cbn [fst snd] in *. auto.
  - intros d buf Hd.
    destruct (RunCoarseFreqSync_Ok d buf) as (d' & E & _); [rewrite Hd; exact HN |].
    exists d'. exact E.
Qed.

(** On a four-cell response with a search width far beyond the buffer. *)
Lemma coarse_peak_search_in_bounds_witness :
  exists max_index max_value,
    coarse_peak_search example_params
      (Float.to_int (1000 * Float.of_int (nb_fft example_params))%Q)
      [1; 5; 2; 7]%Q
    = Ok (max_index, max_value) /\
    - 2 <= max_index <= 2 /\
    0 <= max_index + 4 / 2 < 4 /\
    span_at [1; 5; 2; 7]%Q (max_index + 4 / 2) = Ok max_value.
Proof.
  apply (@coarse_peak_search_in_bounds example_kernels example_params 1000
           [1; 5; 2; 7]%Q);
    [simpl; lia | reflexivity].
Defined.

(** ** Fine time synchronisation *)

Lemma fine_time_peak_Ok (p : OFDM_Params) (c : OFDM_Demod_Config)
      (correlation_impulse_response : list Q) :
  1 <= nb_fft p ->
  span_size correlation_impulse_response = nb_fft p ->
  exists impulse_avg impulse_max_value impulse_max_index,
    fine_time_peak p c correlation_impulse_response
    = Ok (impulse_avg, impulse_max_value, impulse_max_index) /\
    0 <= impulse_max_index < nb_fft p.
Proof.
  intros HN Hsz. unfold fine_time_peak.
  destruct (span_at_in_bounds correlation_impulse_response 0) as (v0 & E0); [lia |].
  rewrite E0. cbn [bind].
  match goal with
  | |- context [for_range 0 (nb_fft p) ?body ?init] =>
      destruct (for_range_invariant
                  (fun (_ : Z) (st : Q * Q * Z) => 0 <= snd st < nb_fft p)
                  body 0 (nb_fft p) init) as ([[a m] k] & E & Hk)
  end.
  - lia.
  - cbn [snd]. lia.
  - intros i [[a m] k] Hi Hk. cbn [snd] in Hk.
    destruct (span_at_in_bounds correlation_impulse_response i) as (v & Ei); [lia |].
    rewrite Ei. cbn [bind]. cbv zeta.
    match goal with
    | |- context [if ?b then _ else _] => destruct b
    end; (eexists; split; [reflexivity |]); cbn [snd]; lia.
  - rewrite E. cbn [bind snd] in *. eexists; eexists; eexists.
    split; [reflexivity | exact Hk].
Qed.

(** C7: whenever the peak loop of [RunFineTimeSync] ends with
    [impulse_max_value - impulse_avg < impulse_peak_threshold_db], the
    call is [Reset()] followed by [return 0]: it returns normally with no
    sample consumed, and afterwards the state is
    [FINDING_NULL_POWER_DIP], the correlation buffer has length 0,
    [total_frames_desync] is one more than before,
    [is_found_coarse_freq_offset] is false, and [freq_coarse_offset],
    [freq_fine_offset] and [fine_time_offset] are zero. *)
Theorem RunFineTimeSync_insufficient_peak `{Kernels}
        (d : OFDM_Demod) (buf : list complex)
        (impulse_avg impulse_max_value : Q) (impulse_max_index : Z) :
  fine_time_peak (params d) (cfg d) (fine_time_impulse_response d)
  = Ok (impulse_avg, impulse_max_value, impulse_max_index) ->
  (impulse_max_value - impulse_avg < sync_impulse_peak_threshold_db (cfg d))%Q ->
  exists d',
    RunFineTimeSync d buf = Ok (d', 0) /\
    d' = Reset d /\
    state d' = FINDING_NULL_POWER_DIP /\
    rb_length (correlation_time_buffer d') = 0 /\
    total_frames_desync d' = total_frames_desync d + 1 /\
    is_found_coarse_freq_offset d' = false /\
    freq_coarse_offset d' = 0%Q /\
    freq_fine_offset d' = 0%Q /\
    fine_time_offset d' = 0.
Proof.
  intros Epeak Hlow. exists (Reset d).
  unfold RunFineTimeSync. cbv zeta. rewrite Epeak. cbn [bind].
  apply ltb_true_iff in Hlow. rewrite Hlow.
  repeat split.
Qed.

(** On the locked example demodulator, whose captured PRS is silence. *)
Lemma RunFineTimeSync_insufficient_peak_witness :
  exists d',
    @RunFineTimeSync example_kernels example_locked_demod [Cplx 1 1] = Ok (d', 0) /\
    d' = Reset example_locked_demod /\
    state d' = FINDING_NULL_POWER_DIP /\
    rb_length (correlation_time_buffer d') = 0 /\
    total_frames_desync d' = total_frames_desync example_locked_demod + 1 /\
    is_found_coarse_freq_offset d' = false /\
    freq_coarse_offset d' = 0%Q /\
    freq_fine_offset d' = 0%Q /\
    fine_time_offset d' = 0.
Proof.
  apply (@RunFineTimeSync_insufficient_peak example_kernels example_locked_demod
           [Cplx 1 1] (0 # 4)%Q 0%Q 0);
    vm_compute; reflexivity.
Defined.

(** ** Buffers *)

Lemma length_blit {A : Type} (dst : list A) (offset : Z) (src : list A) :
  length (blit dst offset src) = length dst.
Proof.
  unfold blit. rewrite length_firstn, !length_app, length_firstn, length_skipn. lia.
Qed.

Lemma span_size_blit {A : Type} (dst : list A) (offset : Z) (src : list A) :
  span_size (blit dst offset src) = span_size dst.
Proof. unfold span_size. now rewrite length_blit. Qed.

Lemma span_size_slice_le {A : Type} (l : list A) (offset count : Z) :
  span_size (slice l offset count) <= Z.max 0 count.
Proof. unfold span_size, slice. rewrite length_firstn. lia. Qed.

Lemma rb_ConsumeBuffer_spec (b : ReconstructionBuffer) (src : list complex) :
  0 <= rb_length b <= rb_capacity b ->
  let b' := fst (rb_ConsumeBuffer b src) in
  let nb_read := snd (rb_ConsumeBuffer b src) in
  rb_capacity b' = rb_capacity b /\
  rb_length b' = rb_length b + nb_read /\
  0 <= nb_read <= span_size src /\
  rb_length b' <= rb_capacity b /\
  nb_read = Z.min (span_size src) (rb_capacity b - rb_length b).
Proof.
  intros Hb. cbv zeta. unfold rb_ConsumeBuffer. cbn [fst snd rb_length].
  unfold rb_capacity in *. cbn [rb_data]. rewrite span_size_blit.
  assert (0 <= span_size src) by (unfold span_size; lia).
  repeat split; lia.
Qed.

Lemma rb_capacity_rb_set (b : ReconstructionBuffer) (i : Z) (v : complex) :
  rb_capacity (rb_set b i v) = rb_capacity b /\
  rb_length (rb_set b i v) = rb_length b.
Proof.
  unfold rb_capacity, rb_set. cbn [rb_data rb_length].
  rewrite span_size_list_set. auto.
Qed.

Lemma rb_copy_from_spec (b : ReconstructionBuffer) (n : Z) (src : Z -> complex) :
  rb_capacity (rb_copy_from b n src) = rb_capacity b /\
  rb_length (rb_copy_from b n src) = rb_length b.
Proof.
  unfold rb_copy_from. generalize (Zseq 0 n) as l. intros l.
  revert b; induction l as [| i l IH]; intros b; cbn [fold_left]; [auto |].
  destruct (IH (rb_set b i (src i))) as [Hc Hl].
  destruct (rb_capacity_rb_set b i (src i)) as [Hc' Hl'].
  split; congruence.
Qed.

Lemma span_size_rb_copy_from (b : ReconstructionBuffer) (n : Z) (src : Z -> complex) :
  span_size (rb_data (rb_copy_from b n src)) = span_size (rb_data b).
Proof. exact (proj1 (rb_copy_from_spec b n src)). Qed.

Lemma cb_ConsumeBuffer_all_spec (b : CircularBuffer) (src : list complex) :
  0 <= cb_capacity b ->
  cb_capacity (cb_ConsumeBuffer_all b src) = cb_capacity b /\
  cb_Length (cb_ConsumeBuffer_all b src) <= cb_capacity b.
Proof.
  intros Hc. unfold cb_ConsumeBuffer_all, cb_Length, span_size.
  cbn [cb_capacity cb_items]. rewrite length_skipn. split; [reflexivity | lia].
Qed.

Lemma cb_SetLength_zero (b : CircularBuffer) :
  cb_capacity (cb_SetLength b 0) = cb_capacity b /\
  cb_Length (cb_SetLength b 0) = 0.
Proof. unfold cb_SetLength, cb_Length. simpl. auto. Qed.

Lemma span_size_nonneg {A : Type} (l : list A) : 0 <= span_size l.
Proof. unfold span_size. lia. Qed.

Lemma span_size_repeat {A : Type} (a : A) (n : Z) :
  span_size (repeat a (Z.to_nat n)) = Z.max 0 n.
Proof. unfold span_size. rewrite repeat_length. lia. Qed.

Lemma OFDM_Demod_new_ok `{Kernels} (p : OFDM_Params) (c : OFDM_Demod_Config)
      (prs_fft_ref : list complex) (mapper : list Z) :
  params_ok p -> demod_ok (OFDM_Demod_new p c prs_fft_ref mapper).
Proof.
  intros Hp. split; [exact Hp |].
  destruct Hp as (HN & Hcp & HP & Hnull & HF).
  unfold buffers_ok, OFDM_Demod_new, rb_capacity, cb_Length, frame_buffer_capacity.
  cbn [params correlation_time_buffer inactive_buffer active_buffer_data
       null_power_dip_buffer state rb_data rb_length cb_capacity cb_items].
  rewrite !span_size_repeat.
  assert (0 <= (nb_frame_symbols p + 1) * nb_symbol_period p) by nia.
  repeat split; try discriminate; try (unfold span_size; simpl; lia); lia.
Qed.

(** ** The handlers of the state machine *)

Lemma ReadNullPRS_progress (d : OFDM_Demod) (buf : list complex) :
  demod_ok d -> state d = READING_NULL_AND_PRS -> 1 <= span_size buf ->
  exists d' nb_read,
    ReadNullPRS d buf = Ok (d', nb_read) /\
    handler_progress d (span_size buf) d' nb_read.
Proof.
  intros [Hp Hb] Hst Hbuf. unfold ReadNullPRS.
  destruct Hb as (Hc1 & Hc2 & Hi1 & Hi2 & Ha & Hn1 & Hn2 & Hroom1 & Hroom2).
  specialize (Hroom1 Hst).
  pose proof (rb_ConsumeBuffer_spec (correlation_time_buffer d) buf Hc2) as Hs.
  cbv zeta in Hs.
  destruct (rb_ConsumeBuffer (correlation_time_buffer d) buf) as [b n].
  cbn [fst snd] in Hs. destruct Hs as (Hcap & Hlen & Hn & Hle & Hmin).
  destruct Hp as (HN & Hcp & HP & Hnull & HF).
  demod_cbn. unfold rb_IsFull.
  destruct (Z.eqb_spec (rb_length b) (rb_capacity b)) as [Hfull | Hnot]; demod_cbn;
    (eexists; eexists; split; [reflexivity |]);
    unfold handler_progress, demod_ok, buffers_ok, params_ok; rewrite Hst; demod_cbn;
    repeat split; try congruence; try lia;
    intros; try discriminate; try lia.
Qed.

Lemma ReadSymbols_progress (d : OFDM_Demod) (buf : list complex) :
  demod_ok d -> state d = READING_SYMBOLS -> 1 <= span_size buf ->
  exists d' nb_read,
    ReadSymbols d buf = Ok (d', nb_read) /\
    handler_progress d (span_size buf) d' nb_read.
Proof.
  intros [Hp Hb] Hst Hbuf. unfold ReadSymbols.
  destruct Hb as (Hc1 & Hc2 & Hi1 & Hi2 & Ha & Hn1 & Hn2 & Hroom1 & Hroom2).
  specialize (Hroom2 Hst).
  pose proof (rb_ConsumeBuffer_spec (inactive_buffer d) buf Hi2) as Hs.
  cbv zeta in Hs.
  destruct (rb_ConsumeBuffer (inactive_buffer d) buf) as [b n].
  cbn [fst snd] in Hs. destruct Hs as (Hcap & Hlen & Hn & Hle & Hmin).
  destruct Hp as (HN & Hcp & HP & Hnull & HF).
  cbv zeta. demod_cbn. unfold rb_IsFull.
  destruct (Z.eqb_spec (rb_length b) (rb_capacity b)) as [Hfull | Hnot]; demod_cbn.
  - eexists; eexists; split; [reflexivity |].
    unfold handler_progress, demod_ok, buffers_ok, params_ok; rewrite Hst; demod_cbn.
    destruct (rb_copy_from_spec
                (rb_SetLength (correlation_time_buffer d) (nb_null_period (params d)))
                (nb_null_period (params d))
                (fun i => Znth (GetNullSymbol (params d) (rb_data b)) i czero))
      as [Hcc Hcl].
    rewrite Hcc, Hcl. unfold rb_capacity in *. demod_cbn.
    repeat split; try congruence; try lia; intros; try discriminate; try lia.
  - eexists; eexists; split; [reflexivity |].
    unfold handler_progress, demod_ok, buffers_ok, params_ok; rewrite Hst; demod_cbn.
    repeat split; try congruence; try lia; intros; try discriminate; try lia.
Qed.

Lemma RunCoarseFreqSync_progress `{Kernels} (d : OFDM_Demod) (buf : list complex) :
  demod_ok d -> state d = RUNNING_COARSE_FREQ_SYNC -> 1 <= span_size buf ->
  exists d' nb_read,
    RunCoarseFreqSync d buf = Ok (d', nb_read) /\
    handler_progress d (span_size buf) d' nb_read.
Proof.
  intros [Hp Hb] Hst Hbuf.
  destruct (RunCoarseFreqSync_Ok d buf) as (d' & E & Hst' & Hsame & _).
  { destruct Hp; lia. }
  exists d', 0. split; [exact E |].
  destruct Hsame as (Ep & Ec & En & Ecorr & Ei & Ea).
  unfold handler_progress, demod_ok, buffers_ok. rewrite Hst, Hst', Ep, Ec, En, Ecorr, Ei, Ea.
  destruct Hb as (Hc1 & Hc2 & Hi1 & Hi2 & Ha & Hn1 & Hn2 & _ & _).
  cbn [state_rank].
  split; [split; [exact Hp |] |]; repeat split; auto; try lia; try discriminate.
Qed.

Lemma RunFineTimeSync_progress `{Kernels} (d : OFDM_Demod) (buf : list complex) :
  demod_ok d -> state d = RUNNING_FINE_TIME_SYNC -> 1 <= span_size buf ->
  exists d' nb_read,
    RunFineTimeSync d buf = Ok (d', nb_read) /\
    handler_progress d (span_size buf) d' nb_read.
Proof.
  intros [Hp Hb] Hst Hbuf.
  destruct Hp as (HN & Hcp & HP & Hnull & HF).
  destruct Hb as (Hc1 & Hc2 & Hi1 & Hi2 & Ha & Hn1 & Hn2 & _ & _).
  destruct (fine_time_peak_Ok (params d) (cfg d) (fine_time_impulse_response d) HN)
    as (avg & mv & idx & E & Hidx).
  { rewrite span_size_fine_time_impulse_response. lia. }
  unfold RunFineTimeSync. cbv zeta. rewrite E. cbn [bind].
  destruct (Float.ltb (mv - avg) (sync_impulse_peak_threshold_db (cfg d))).
  - eexists; eexists; split; [reflexivity |].
    unfold handler_progress, demod_ok, buffers_ok, params_ok, Reset, rb_capacity in *.
    rewrite Hst. demod_cbn. cbn [state_rank].
    repeat split; try congruence; try lia; intros; try discriminate; try lia.
  - set (prs_buf := slice _ _ _).
    assert (0 <= 0 <= rb_capacity (rb_Reset (inactive_buffer d))) as H0.
    { unfold rb_capacity in *. demod_cbn. pose proof (span_size_nonneg (rb_data (inactive_buffer d))). lia. }
    pose proof (rb_ConsumeBuffer_spec (rb_Reset (inactive_buffer d)) prs_buf H0) as Hs.
    cbv zeta in Hs. destruct Hs as (Hcap & Hlen & Hn & Hle & Hmin).
    assert (span_size prs_buf
            <= nb_symbol_period (params d) + nb_cyclic_prefix (params d)) as Hprs.
    { pose proof (span_size_slice_le
                    (rb_data (correlation_time_buffer d))
                    (nb_null_period (params d) + (idx - nb_cyclic_prefix (params d)))
                    (nb_symbol_period (params d) - (idx - nb_cyclic_prefix (params d)))).
      fold prs_buf in H0. unfold prs_buf. lia. }
    assert (nb_symbol_period (params d) + nb_cyclic_prefix (params d)
            < frame_buffer_capacity (params d)) as Hroom.
    { unfold frame_buffer_capacity. nia. }
    eexists; eexists; split; [reflexivity |].
    unfold handler_progress, demod_ok, buffers_ok, params_ok, rb_capacity in *.
    rewrite Hst. demod_cbn. cbn [state_rank].
    repeat split; try congruence; try lia; intros; try discriminate; try lia.
Qed.

Lemma FindNullPowerDip_loop_Ok (buf : list complex) (K M : Z) (t0 t1 : Q) :
  1 <= K ->
  forall (fuel : nat) (i : Z) (start_found : bool),
    0 <= i -> M - i <= Z.of_nat fuel ->
    exists start_found' brk,
      FindNullPowerDip_loop fuel buf K M t0 t1 i start_found = Ok (start_found', brk) /\
      forall n, brk = Some n -> 1 <= n < M + K.
Proof.
  intros HK. induction fuel as [| fuel IH]; intros i sf Hi Hfuel.
  - cbn [FindNullPowerDip_loop].
    destruct (Z.ltb_spec i M); [lia |].
    eexists; eexists; split; [reflexivity | discriminate].
  - cbn [FindNullPowerDip_loop].
    destruct (Z.ltb_spec i M) as [Hlt | Hge].
    + destruct sf.
      * destruct (Float.gtb _ t1).
        -- eexists; eexists; split; [reflexivity |]. intros n [= <-]. lia.
        -- apply IH; lia.
      * apply IH; lia.
    + eexists; eexists; split; [reflexivity | discriminate].
Qed.

Lemma FindNullPowerDip_progress (fuel : nat) (d : OFDM_Demod) (buf : list complex) :
  demod_ok d -> state d = FINDING_NULL_POWER_DIP -> 1 <= span_size buf ->
  1 <= signal_l1_nb_samples (cfg d) -> span_size buf <= Z.of_nat fuel ->
  exists d' nb_read,
    FindNullPowerDip fuel d buf = Ok (d', nb_read) /\
    handler_progress d (span_size buf) d' nb_read.
Proof.
  intros [Hp Hb] Hst Hbuf HK Hfuel.
  destruct Hp as (HN & Hcp & HP & Hnull & HF).
  destruct Hb as (Hc1 & Hc2 & Hi1 & Hi2 & Ha & Hn1 & Hn2 & _ & _).
  unfold FindNullPowerDip. cbv zeta.
  match goal with
  | |- context [FindNullPowerDip_loop fuel buf ?K ?M ?t0 ?t1 0 ?sf] =>
      destruct (FindNullPowerDip_loop_Ok buf K M t0 t1 HK fuel 0 sf)
        as (sf' & brk & E & Hbrk); [lia | lia |]
  end.
  rewrite E. cbn [bind]. demod_cbn.
  set (nb_read := match brk with Some n => n | None => span_size buf end).
  assert (1 <= nb_read <= span_size buf) as Hread.
  { unfold nb_read. destruct brk as [n |]; [specialize (Hbrk n eq_refl) |]; lia. }
  set (npd := cb_ConsumeBuffer_all (null_power_dip_buffer d) (slice buf 0 nb_read)).
  destruct (cb_ConsumeBuffer_all_spec (null_power_dip_buffer d) (slice buf 0 nb_read))
    as [Hcap Hlen]; [lia |]. fold npd in Hcap, Hlen.
  destruct (match brk with Some _ => true | None => is_null_end_found d end); demod_cbn.
  - eexists; eexists; split; [reflexivity |].
    destruct (rb_copy_from_spec (correlation_time_buffer d) (cb_Length npd)
                (fun i => cb_at npd (i + cb_GetIndex npd))) as [Hcc Hcl].
    destruct (cb_SetLength_zero npd) as [Hz1 Hz2].
    unfold handler_progress, demod_ok, buffers_ok, params_ok, rb_capacity in *.
    rewrite Hst. demod_cbn. rewrite Hcc, Hz1, Hz2.
    pose proof (span_size_nonneg (cb_items npd)) as Hnn. unfold cb_Length in *.
    repeat split; try congruence; try lia; intros; try discriminate; try lia.
  - eexists; eexists; split; [reflexivity |].
    unfold handler_progress, demod_ok, buffers_ok, params_ok, rb_capacity in *.
    rewrite Hst. demod_cbn.
    repeat split; try congruence; try lia; intros; try discriminate; try lia.
Qed.

(** ** The loop of [Process] *)

Lemma Process_step_progress `{Kernels} (fuel : nat) (d : OFDM_Demod)
      (block : list complex) :
  demod_ok d -> 1 <= signal_l1_nb_samples (cfg d) ->
  1 <= span_size block -> span_size block <= Z.of_nat fuel ->
  exists d' nb_read,
    Process_step fuel d block = Ok (d', nb_read) /\
    handler_progress d (span_size block) d' nb_read.
Proof.
  intros Hok HK Hblock Hfuel. unfold Process_step.
  destruct (state d) eqn:Hst.
  - apply FindNullPowerDip_progress; auto.
  - apply ReadNullPRS_progress; auto.
  - apply RunCoarseFreqSync_progress; auto.
  - apply RunFineTimeSync_progress; auto.
  - apply ReadSymbols_progress; auto.
Qed.

Lemma state_rank_bounds (s : State) : 0 <= state_rank s <= 2.
Proof. destruct s; simpl; lia. Qed.

Lemma Process_loop_consumes `{Kernels} (inner : nat) (buf : list complex) :
  span_size buf <= Z.of_nat inner ->
  forall (fuel : nat) (d : OFDM_Demod) (curr_index : Z),
    demod_ok d -> reachable d -> 1 <= signal_l1_nb_samples (cfg d) ->
    0 <= curr_index <= span_size buf ->
    3 * (span_size buf - curr_index) + state_rank (state d) < Z.of_nat fuel ->
    exists d',
      Process_loop fuel inner d buf curr_index = Ok (d', span_size buf) /\
      demod_ok d' /\ reachable d' /\ cfg d' = cfg d /\ params d' = params d.
Proof.
  intros Hinner. induction fuel as [| fuel IH]; intros d curr Hok Hreach HK Hcurr Hfuel.
  - pose proof (state_rank_bounds (state d)). lia.
  - cbn [Process_loop].
    destruct (Z.ltb_spec curr (span_size buf)) as [Hlt | Hge].
    + set (block := slice buf curr (span_size buf - curr)).
      assert (span_size block = span_size buf - curr) as Hblock
          by (apply span_size_slice; lia).
      destruct (Process_step_progress inner d block Hok HK) as (d1 & n & E & Hprog);
        [lia | lia |].
      rewrite E. cbn [bind].
      destruct Hprog as (Hok1 & Hcfg & Hpar & Hn & Hcase).
      pose proof (state_rank_bounds (state d)).
      pose proof (state_rank_bounds (state d1)).
      destruct (IH d1 (curr + n)) as (d' & E' & Hok' & Hreach' & Hcfg' & Hpar').
      * exact Hok1.
      * exact (reachable_step d d1 Hreach (step_handler inner d block d1 n E)).
      * rewrite Hcfg. exact HK.
      * lia.
      * destruct (state d); lia.
      * exists d'. split; [exact E' |]. split; [exact Hok' |]. split; [exact Hreach' |].
        split; [rewrite Hcfg'; exact Hcfg | rewrite Hpar'; exact Hpar].
    + exists d. replace curr with (span_size buf) by lia. auto.
Qed.

Lemma UpdateSignalAverage_loop_Ok (block : list complex) (K L M : Z) (beta : Q) :
  1 <= L ->
  forall (fuel : nat) (i : Z) (avg : Q),
    M - i <= Z.of_nat fuel ->
    exists avg', UpdateSignalAverage_loop fuel block K L M beta i avg = Ok avg'.
Proof.
  intros HL. induction fuel as [| fuel IH]; intros i avg Hfuel;
    cbn [UpdateSignalAverage_loop]; destruct (Z.ltb_spec i M); try lia;
    try (eexists; reflexivity).
  apply IH. lia.
Qed.

Lemma UpdateSignalAverage_loop_stuck (block : list complex) (K M : Z) (beta : Q) (i : Z) :
  i < M ->
  forall (fuel : nat) (avg : Q),
    UpdateSignalAverage_loop fuel block K 0 M beta i avg = Fault OutOfFuel.
Proof.
  intros Hi. induction fuel as [| fuel IH]; intros avg;
    cbn [UpdateSignalAverage_loop]; destruct (Z.ltb_spec i M); try lia;
    [reflexivity |].
  rewrite Z.add_0_r. apply IH.
Qed.

Lemma UpdateSignalAverage_Ok (fuel : nat) (d : OFDM_Demod) (buf : list complex) :
  1 <= signal_l1_nb_samples (cfg d) -> 1 <= signal_l1_nb_decimate (cfg d) ->
  span_size buf <= Z.of_nat fuel ->
  exists avg,
    UpdateSignalAverage fuel d buf = Ok (set_signal_l1_average d avg).
Proof.
  intros HK HD Hfuel. unfold UpdateSignalAverage.
  destruct (Z.ltb_spec (span_size buf) (signal_l1_nb_samples (cfg d))).
  - exists (signal_l1_average d). destruct d; reflexivity.
  - cbv zeta.
    match goal with
    | |- context [UpdateSignalAverage_loop fuel buf ?K ?L ?M ?b 0 ?a] =>
        destruct (UpdateSignalAverage_loop_Ok buf K L M b) with (fuel := fuel)
                                                               (i := 0) (avg := a)
          as (avg' & E); [nia | lia |]
    end.
    rewrite E. cbn [bind]. exists avg'. reflexivity.
Qed.

(** ** The fine frequency offset along an execution *)

Lemma fine_offset_in_range_same (d d' : OFDM_Demod) :
  params d' = params d -> freq_fine_offset d' = freq_fine_offset d ->
  fine_offset_in_range d -> fine_offset_in_range d'.
Proof. unfold fine_offset_in_range. intros -> ->. auto. Qed.

Lemma fine_offset_in_range_zero (d : OFDM_Demod) :
  freq_fine_offset d = 0%Q -> fine_offset_in_range d.
Proof.
  unfold fine_offset_in_range. intros -> HN.
  apply Qlt_le_weak. exact (fft_bin_wrap_pos (params d) HN).
Qed.

Lemma FindNullPowerDip_fine_offset (fuel : nat) (d d' : OFDM_Demod)
      (buf : list complex) (n : Z) :
  FindNullPowerDip fuel d buf = Ok (d', n) ->
  params d' = params d /\ freq_fine_offset d' = freq_fine_offset d.
Proof.
  unfold FindNullPowerDip. cbv zeta. intros E.
  apply bind_Ok in E. destruct E as ([sf brk] & _ & E). demod_cbn.
  destruct (match brk with Some _ => true | None => is_null_end_found d end);
    demod_cbn; injection E as <- <-; split; reflexivity.
Qed.

Lemma ReadNullPRS_fine_offset (d d' : OFDM_Demod) (buf : list complex) (n : Z) :
  ReadNullPRS d buf = Ok (d', n) ->
  params d' = params d /\ freq_fine_offset d' = freq_fine_offset d.
Proof.
  unfold ReadNullPRS. destruct (rb_ConsumeBuffer _ buf) as [b k]. demod_cbn.
  destruct (rb_IsFull b); demod_cbn; intros E; injection E as <- <-;
    split; reflexivity.
Qed.

Lemma ReadSymbols_fine_offset (d d' : OFDM_Demod) (buf : list complex) (n : Z) :
  ReadSymbols d buf = Ok (d', n) ->
  params d' = params d /\ freq_fine_offset d' = freq_fine_offset d.
Proof.
  unfold ReadSymbols. cbv zeta. destruct (rb_ConsumeBuffer _ buf) as [b k]. demod_cbn.
  destruct (rb_IsFull b); demod_cbn; intros E; injection E as <- <-;
    split; reflexivity.
Qed.

Lemma RunCoarseFreqSync_fine_offset `{Kernels} (d d' : OFDM_Demod)
      (buf : list complex) (n : Z) :
  RunCoarseFreqSync d buf = Ok (d', n) ->
  fine_offset_in_range d -> fine_offset_in_range d'.
Proof.
  unfold RunCoarseFreqSync.
  destruct (sync_is_coarse_freq_correction (cfg d)); cbn [negb]; cbv zeta; intros E Hin.
  - apply bind_Ok in E. destruct E as ([mi mv] & _ & E).
    unfold coarse_freq_update in E. cbv zeta in E. injection E as <- <-.
    intros HN.
    match goal with
    | |- context [set_state (UpdateFineFrequencyOffset ?d0 ?x) _] =>
        exact (UpdateFineFrequencyOffset_bounded d0 x HN)
    end.
  - injection E as <- <-. exact Hin.
Qed.

Lemma RunFineTimeSync_fine_offset `{Kernels} (d d' : OFDM_Demod)
      (buf : list complex) (n : Z) :
  RunFineTimeSync d buf = Ok (d', n) ->
  fine_offset_in_range d -> fine_offset_in_range d'.
Proof.
  unfold RunFineTimeSync. cbv zeta. intros E Hin.
  apply bind_Ok in E. destruct E as ([[avg mv] idx] & _ & E).
  destruct (Float.ltb _ _); injection E as <- <-.
  - apply fine_offset_in_range_zero. reflexivity.
  - exact Hin.
Qed.

Lemma step_fine_offset_in_range `{Kernels} (d d' : OFDM_Demod) :
  step d d' -> fine_offset_in_range d -> fine_offset_in_range d'.
Proof.
  intros Hstep Hin. destruct Hstep as [fuel d block d' n E | fuel d buf d' E | d pls | d | d c].
  - unfold Process_step in E. destruct (state d).
    + destruct (FindNullPowerDip_fine_offset _ _ _ _ _ E) as [Ep Ef].
      exact (fine_offset_in_range_same d d' Ep Ef Hin).
    + destruct (ReadNullPRS_fine_offset _ _ _ _ E) as [Ep Ef].
      exact (fine_offset_in_range_same d d' Ep Ef Hin).
    + exact (RunCoarseFreqSync_fine_offset _ _ _ _ E Hin).
    + exact (RunFineTimeSync_fine_offset _ _ _ _ E Hin).
    + destruct (ReadSymbols_fine_offset _ _ _ _ E) as [Ep Ef].
      exact (fine_offset_in_range_same d d' Ep Ef Hin).
  - unfold UpdateSignalAverage in E. cbv zeta in E.
    destruct (span_size buf <? signal_l1_nb_samples (cfg d)).
    + injection E as <-. exact Hin.
    + apply bind_Ok in E. destruct E as (avg & _ & E). injection E as <-. exact Hin.
  - intros HN. exact (UpdateFineFrequencyOffset_bounded d _ HN).
  - apply fine_offset_in_range_zero. reflexivity.
  - exact Hin.
Qed.

Lemma fft_bin_wrap_as_specified (p : OFDM_Params) :
  (fft_bin_wrap p == (1 # 2) / Float.of_int (nb_fft p) * (101 # 100))%Q.
Proof. unfold fft_bin_wrap, Qdiv. ring. Qed.

(** C2: at every point of every execution -- after construction, after
    every [UpdateFineFrequencyOffset] (from the coarse counter-adjustment
    of the ingest thread or from the coordinator), after every [Reset]
    and after every other step -- [freq_fine_offset] lies in
    [[-0.5/nb_fft * 1.01, +0.5/nb_fft * 1.01]] (for [nb_fft > 0]). *)
Theorem freq_fine_offset_within_half_bin `{Kernels} (d : OFDM_Demod) :
  reachable d -> 0 < nb_fft (params d) ->
  (- ((1 # 2) / Float.of_int (nb_fft (params d)) * (101 # 100))
   <= freq_fine_offset d
   <= (1 # 2) / Float.of_int (nb_fft (params d)) * (101 # 100))%Q.
Proof.
  intros Hreach HN.
  assert (fine_offset_in_range d) as Hin.
  { clear HN. induction Hreach as [p c ref mapper | d d' _ IH Hstep].
    - apply fine_offset_in_range_zero. reflexivity.
    - exact (step_fine_offset_in_range d d' Hstep IH). }
  specialize (Hin HN). rewrite fft_bin_wrap_as_specified in Hin.
  apply Qabs_Qle_condition in Hin. exact Hin.
Qed.

(** After one coordinator frame on the fresh example demodulator. *)
Lemma freq_fine_offset_within_half_bin_witness :
  let d :=
    CoordinatorThread example_demod
      [{| symbol_start := 0; symbol_end := 3; average_phase_error := 3 |}] in
  (- ((1 # 2) / Float.of_int (nb_fft (params d)) * (101 # 100))
   <= freq_fine_offset d
   <= (1 # 2) / Float.of_int (nb_fft (params d)) * (101 # 100))%Q.
Proof.
  apply (@freq_fine_offset_within_half_bin example_kernels).
  - eapply reachable_step; [apply reachable_new | apply step_coordinator].
  - vm_compute. reflexivity.
Defined.

(** ** The buffers along an execution *)

Lemma Process_step_params `{Kernels} (fuel : nat) (d d' : OFDM_Demod)
      (block : list complex) (n : Z) :
  Process_step fuel d block = Ok (d', n) -> params d' = params d.
Proof.
  unfold Process_step. destruct (state d); intros E.
  - exact (proj1 (FindNullPowerDip_fine_offset _ _ _ _ _ E)).
  - exact (proj1 (ReadNullPRS_fine_offset _ _ _ _ E)).
  - unfold RunCoarseFreqSync in E.
    destruct (sync_is_coarse_freq_correction (cfg d)); cbn [negb] in E; cbv zeta in E.
    + apply bind_Ok in E. destruct E as ([mi mv] & _ & E).
      unfold coarse_freq_update in E. cbv zeta in E. injection E as <- <-. reflexivity.
    + injection E as <- <-. reflexivity.
  - unfold RunFineTimeSync in E. cbv zeta in E.
    apply bind_Ok in E. destruct E as ([[avg mv] idx] & _ & E).
    destruct (Float.ltb _ _); injection E as <- <-; reflexivity.
  - exact (proj1 (ReadSymbols_fine_offset _ _ _ _ E)).
Qed.

Lemma step_params `{Kernels} (d d' : OFDM_Demod) : step d d' -> params d' = params d.
Proof.
  intros Hstep. destruct Hstep as [fuel d block d' n E | fuel d buf d' E | d pls | d | d c];
    try reflexivity.
  - exact (Process_step_params _ _ _ _ _ E).
  - unfold UpdateSignalAverage in E. cbv zeta in E.
    destruct (span_size buf <? signal_l1_nb_samples (cfg d)).
    + injection E as <-. reflexivity.
    + apply bind_Ok in E. destruct E as (avg & _ & E). injection E as <-. reflexivity.
Qed.

Lemma Process_step_demod_ok `{Kernels} (fuel : nat) (d d' : OFDM_Demod)
      (block : list complex) (n : Z) :
  Process_step fuel d block = Ok (d', n) -> demod_ok d -> demod_ok d'.
Proof.
  unfold Process_step. intros E [Hp Hb].
  pose proof Hp as (HN & Hcp & HP & Hnull & HF).
  destruct Hb as (Hc1 & Hc2 & Hi1 & Hi2 & Ha & Hn1 & Hn2 & Hroom1 & Hroom2).
  destruct (state d) eqn:Hst.
  - (* FindNullPowerDip *)
    unfold FindNullPowerDip in E. cbv zeta in E.
    apply bind_Ok in E. destruct E as ([sf brk] & _ & E). demod_cbn.
    set (nb_read := match brk with Some k => k | None => span_size block end) in E.
    set (npd := cb_ConsumeBuffer_all (null_power_dip_buffer d) (slice block 0 nb_read)) in E.
    destruct (cb_ConsumeBuffer_all_spec (null_power_dip_buffer d) (slice block 0 nb_read))
      as [Hcap Hlen]; [lia |]. fold npd in Hcap, Hlen.
    destruct (match brk with Some _ => true | None => is_null_end_found d end);
      demod_cbn; injection E as <- <-.
    + destruct (cb_SetLength_zero npd) as [Hz1 Hz2].
      unfold demod_ok, buffers_ok, params_ok, rb_capacity in *.
      demod_cbn. rewrite !span_size_rb_copy_from, Hz1, Hz2.
      pose proof (span_size_nonneg (cb_items npd)) as Hnn. unfold cb_Length in *.
      repeat split; try congruence; try lia; intros; try discriminate; try lia.
    + unfold demod_ok, buffers_ok, params_ok, rb_capacity in *.
      demod_cbn. rewrite Hst.
      repeat split; try congruence; try lia; intros; try discriminate; try lia.
  - (* ReadNullPRS *)
    unfold ReadNullPRS in E. specialize (Hroom1 eq_refl).
    pose proof (rb_ConsumeBuffer_spec (correlation_time_buffer d) block Hc2) as Hs.
    cbv zeta in Hs.
    destruct (rb_ConsumeBuffer (correlation_time_buffer d) block) as [b k].
    cbn [fst snd] in Hs. destruct Hs as (Hcap & Hlen & Hk & Hle & Hmin).
    demod_cbn. unfold rb_IsFull in E.
    destruct (Z.eqb_spec (rb_length b) (rb_capacity b)) as [Hfull | Hnot]; demod_cbn;
      injection E as <- <-;
      unfold demod_ok, buffers_ok, params_ok; demod_cbn; try rewrite Hst;
      repeat split; try congruence; try lia; intros; try discriminate; try lia.
  - (* RunCoarseFreqSync *)
    destruct (RunCoarseFreqSync_Ok d block HN) as (d1 & E1 & Hst1 & Hsame & _).
    rewrite E1 in E. injection E as <- <-.
    destruct Hsame as (Ep & Ec & En & Ecorr & Ei & Ea).
    unfold demod_ok, buffers_ok. rewrite Hst1, Ep, En, Ecorr, Ei, Ea.
    split; [exact Hp |]. repeat split; auto; try lia; try discriminate.
  - (* RunFineTimeSync *)
    destruct (fine_time_peak_Ok (params d) (cfg d) (fine_time_impulse_response d) HN)
      as (avg & mv & idx & E0 & Hidx).
    { rewrite span_size_fine_time_impulse_response. lia. }
    unfold RunFineTimeSync in E. cbv zeta in E. rewrite E0 in E. cbn [bind] in E.
    destruct (Float.ltb (mv - avg) (sync_impulse_peak_threshold_db (cfg d))).
    + injection E as <- <-.
      unfold demod_ok, buffers_ok, params_ok, Reset, rb_capacity in *. demod_cbn.
      repeat split; try congruence; try lia; intros; try discriminate; try lia.
    + set (prs_buf := slice _ _ _) in E.
      assert (0 <= 0 <= rb_capacity (rb_Reset (inactive_buffer d))) as H0.
      { unfold rb_capacity in *. demod_cbn.
        pose proof (span_size_nonneg (rb_data (inactive_buffer d))). lia. }
      pose proof (rb_ConsumeBuffer_spec (rb_Reset (inactive_buffer d)) prs_buf H0) as Hs.
      cbv zeta in Hs. destruct Hs as (Hcap & Hlen & Hk & Hle & Hmin).
      assert (span_size prs_buf
              <= nb_symbol_period (params d) + nb_cyclic_prefix (params d)) as Hprs.
      { pose proof (span_size_slice_le
                      (rb_data (correlation_time_buffer d))
                      (nb_null_period (params d) + (idx - nb_cyclic_prefix (params d)))
                      (nb_symbol_period (params d) - (idx - nb_cyclic_prefix (params d)))).
        unfold prs_buf. lia. }
      assert (nb_symbol_period (params d) + nb_cyclic_prefix (params d)
              < frame_buffer_capacity (params d)) as Hroom.
      { unfold frame_buffer_capacity. nia. }
      injection E as <- <-.
      unfold demod_ok, buffers_ok, params_ok, rb_capacity in *. demod_cbn.
      unfold rb_ConsumeBuffer, rb_capacity. demod_cbn. rewrite ?span_size_blit.
      pose proof (span_size_nonneg prs_buf).
      repeat split; try congruence; try lia; intros; try discriminate; try lia.
  - (* ReadSymbols *)
    unfold ReadSymbols in E. specialize (Hroom2 eq_refl).
    pose proof (rb_ConsumeBuffer_spec (inactive_buffer d) block Hi2) as Hs.
    cbv zeta in Hs.
    destruct (rb_ConsumeBuffer (inactive_buffer d) block) as [b k].
    cbn [fst snd] in Hs. destruct Hs as (Hcap & Hlen & Hk & Hle & Hmin).
    cbv zeta in E. demod_cbn. unfold rb_IsFull in E.
    destruct (Z.eqb_spec (rb_length b) (rb_capacity b)) as [Hfull | Hnot]; demod_cbn;
      injection E as <- <-.
    + unfold demod_ok, buffers_ok, params_ok. demod_cbn.
      destruct (rb_copy_from_spec
                  (rb_SetLength (correlation_time_buffer d) (nb_null_period (params d)))
                  (nb_null_period (params d))
                  (fun i => Znth (GetNullSymbol (params d) (rb_data b)) i czero))
        as [Hcc Hcl].
      rewrite Hcc, Hcl. unfold rb_capacity in *. demod_cbn.
      repeat split; try congruence; try lia; intros; try discriminate; try lia.
    + unfold demod_ok, buffers_ok, params_ok. demod_cbn. rewrite Hst.
      repeat split; try congruence; try lia; intros; try discriminate; try lia.
Qed.

Lemma step_demod_ok `{Kernels} (d d' : OFDM_Demod) :
  step d d' -> demod_ok d -> demod_ok d'.
Proof.
  intros Hstep Hok.
  destruct Hstep as [fuel d block d' n E | fuel d buf d' E | d pls | d | d c].
  - exact (Process_step_demod_ok _ _ _ _ _ E Hok).
  - unfold UpdateSignalAverage in E. cbv zeta in E.
    destruct (span_size buf <? signal_l1_nb_samples (cfg d)).
    + injection E as <-. exact Hok.
    + apply bind_Ok in E. destruct E as (avg & _ & E). injection E as <-. exact Hok.
  - exact Hok.
  - destruct Hok as [Hp Hb]. pose proof Hp as (HN & Hcp & HP & Hnull & HF).
    destruct Hb as (Hc1 & Hc2 & Hi1 & Hi2 & Ha & Hn1 & Hn2 & Hroom1 & Hroom2).
    unfold demod_ok, buffers_ok, params_ok, Reset, rb_capacity in *. demod_cbn.
    repeat split; try congruence; try lia; intros; try discriminate; try lia.
  - exact Hok.
Qed.

Lemma reachable_demod_ok `{Kernels} (d : OFDM_Demod) :
  reachable d -> params_ok (params d) -> demod_ok d.
Proof.
  induction 1 as [p c ref mapper | d d' _ IH Hstep]; intros Hp.
  - apply OFDM_Demod_new_ok. exact Hp.
  - apply (step_demod_ok d d' Hstep). apply IH.
    rewrite <- (step_params d d' Hstep). exact Hp.
Qed.

(** C3, as the code has it: for every input batch of [N] samples, with
    [cfg.signal_l1.nb_samples >= 1] and [cfg.signal_l1.nb_decimate >= 1],
    at any point of an execution of a demodulator constructed for a
    well-formed transmission mode, [Process] terminates (with enough
    iterations allowed it returns) and its index has advanced by exactly
    [N]; each handler consumes at most the remaining samples, the two
    states that consume no sample ([RUNNING_COARSE_FREQ_SYNC],
    [RUNNING_FINE_TIME_SYNC]) always leave for a different state, and
    every other handler consumes at least one remaining sample. *)
Theorem Process_consumes_batch `{Kernels} (d : OFDM_Demod) (buf : list complex)
        (fuel : nat) :
  reachable d -> params_ok (params d) ->
  1 <= signal_l1_nb_samples (cfg d) -> 1 <= signal_l1_nb_decimate (cfg d) ->
  3 * span_size buf + 3 <= Z.of_nat fuel ->
  (exists d', Process fuel d buf = Ok (d', span_size buf) /\
              reachable d' /\ cfg d' = cfg d /\ params d' = params d) /\
  (forall d0 block,
     reachable d0 -> params_ok (params d0) ->
     1 <= signal_l1_nb_samples (cfg d0) ->
     1 <= span_size block <= span_size buf ->
     exists d1 nb_read,
       Process_step fuel d0 block = Ok (d1, nb_read) /\
       handler_progress d0 (span_size block) d1 nb_read).
Proof.
  intros Hreach Hp HK HD Hfuel. pose proof (span_size_nonneg buf) as Hnn.
  pose proof (reachable_demod_ok d Hreach Hp) as Hok. split.
  - unfold Process.
    destruct (UpdateSignalAverage_Ok fuel d buf HK HD) as (avg & E); [lia |].
    rewrite E. cbn [bind].
    destruct (Process_loop_consumes fuel buf) with
        (fuel := fuel) (d := set_signal_l1_average d avg) (curr_index := 0)
      as (d' & E' & Hok' & Hreach' & Hcfg & Hpar); auto; try lia.
    + exact (reachable_step d _ Hreach (step_signal_average fuel d buf _ E)).
    + pose proof (state_rank_bounds (state (set_signal_l1_average d avg))). lia.
    + exists d'. auto.
  - intros d0 block Hreach0 Hp0 HK0 Hblock.
    apply Process_step_progress; auto; try lia.
    exact (reachable_demod_ok d0 Hreach0 Hp0).
Qed.

(** A batch of six samples on the fresh example demodulator. *)
Lemma Process_consumes_batch_witness :
  exists d',
    @Process example_kernels 21 example_demod
             [Cplx 1 1; Cplx 0 0; Cplx 0 0; Cplx 2 (-1); Cplx 1 0; Cplx 0 1]
    = Ok (d', 6) /\
    @reachable example_kernels d' /\
    cfg d' = cfg example_demod /\ params d' = params example_demod.
Proof.
  apply (@Process_consumes_batch example_kernels example_demod
           [Cplx 1 1; Cplx 0 0; Cplx 0 0; Cplx 2 (-1); Cplx 1 0; Cplx 0 1] 21);
    [ apply reachable_new
    | vm_compute; intuition discriminate
    | vm_compute; discriminate
    | vm_compute; discriminate
    | vm_compute; discriminate ].
Defined.

(** C3, termination fails without a bound on the stride: with [cfg.signal_l1.nb_samples = 1]
    and [cfg.signal_l1.nb_decimate = 0], on a batch of two samples the
    loop of [UpdateSignalAverage] at the head of [Process] advances by
    [L = K * nb_decimate = 0] and never ends. *)
Lemma Process_zero_decimate_never_returns :
  let d := set_cfg example_demod example_cfg_zero_decimate in
  @reachable example_kernels d /\ params_ok (params d) /\
  signal_l1_nb_samples (cfg d) = 1 /\
  @Process_never_returns example_kernels d [czero; czero].
Proof.
  cbv zeta. split; [| split; [| split]].
  - eapply reachable_step; [apply reachable_new | apply step_cfg].
  - vm_compute. intuition discriminate.
  - reflexivity.
  - intros fuel. unfold Process, UpdateSignalAverage.
    cbn [cfg set_cfg signal_l1_nb_samples signal_l1_nb_decimate
         example_cfg_zero_decimate].
    change (span_size [czero; czero]) with 2.
    cbn [Z.ltb Z.compare Pos.compare Pos.compare_cont Z.sub Z.add Z.opp Z.pos_sub
         Pos.pred_double Z.mul].
    rewrite UpdateSignalAverage_loop_stuck by lia. reflexivity.
Qed.

(** ** The FFT of the frame and its differential demodulation *)

Lemma span_at_blit_inside {A : Type} (dst : list A) (offset : Z) (src : list A) (k : Z) :
  0 <= offset -> offset + span_size src <= span_size dst ->
  offset <= k < offset + span_size src ->
  span_at (blit dst offset src) k = span_at src (k - offset).
Proof.
  intros H0 Hfit Hk. unfold span_at. rewrite span_size_blit.
  pose proof (span_size_nonneg src) as Hs.
  replace ((0 <=? k) && (k <? span_size dst)) with true
    by (symmetry; apply andb_true_iff; lia).
  replace ((0 <=? k - offset) && (k - offset <? span_size src)) with true
    by (symmetry; apply andb_true_iff; lia).
  unfold blit, span_size in *. rewrite nth_error_firstn.
  destruct (Nat.ltb_spec (Z.to_nat k) (length dst)) as [_ | Hge]; [| lia].
  rewrite nth_error_app2 by (rewrite length_firstn; lia).
  rewrite length_firstn.
  rewrite nth_error_app1 by lia.
  replace (Z.to_nat k - Nat.min (Z.to_nat offset) (length dst))%nat
    with (Z.to_nat (k - offset)) by lia.
  reflexivity.
Qed.

Lemma span_at_blit_outside {A : Type} (dst : list A) (offset : Z) (src : list A) (k : Z) :
  0 <= offset -> offset + span_size src <= span_size dst ->
  k < offset \/ offset + span_size src <= k ->
  span_at (blit dst offset src) k = span_at dst k.
Proof.
  intros H0 Hfit Hk. unfold span_at. rewrite span_size_blit.
  pose proof (span_size_nonneg src) as Hs.
  destruct ((0 <=? k) && (k <? span_size dst)) eqn:Hin; [| reflexivity].
  apply andb_true_iff in Hin. destruct Hin as [Hk0 Hk1].
  apply Z.leb_le in Hk0. apply Z.ltb_lt in Hk1.
  unfold blit, span_size in *. rewrite nth_error_firstn.
  destruct (Nat.ltb_spec (Z.to_nat k) (length dst)) as [_ | Hge]; [| lia].
  destruct Hk as [Hlow | Hhigh].
  - rewrite nth_error_app1 by (rewrite length_firstn; lia).
    rewrite nth_error_firstn.
    destruct (Nat.ltb_spec (Z.to_nat k) (Z.to_nat offset)); [reflexivity | lia].
  - rewrite nth_error_app2 by (rewrite length_firstn; lia).
    rewrite length_firstn.
    rewrite nth_error_app2 by lia.
    rewrite nth_error_skipn.
    replace (Z.to_nat offset + length src
             + (Z.to_nat k - Nat.min (Z.to_nat offset) (length dst) - length src))%nat
      with (Z.to_nat k) by lia.
    reflexivity.
Qed.

Section FrameFFT.

Context `{Kernels}.
Variables (p : OFDM_Params) (active : list complex).
Hypothesis fft_size : fft_preserves_size.
Hypothesis mode_ok : params_ok p.
Hypothesis active_size : span_size active = frame_buffer_capacity p.

Lemma span_size_symbol_fft (i : Z) :
  0 <= i <= nb_frame_symbols p -> span_size (symbol_fft p active i) = nb_fft p.
Proof.
  intros Hi. destruct mode_ok as (HN & Hcp & HP & Hnull & HF).
  unfold symbol_fft, CalculateFFT, GetDataSymbol. cbv zeta.
  assert (span_size (slice active (i * nb_symbol_period p) (nb_symbol_period p))
          = nb_symbol_period p) as Hsym.
  { apply span_size_slice; try nia.
    rewrite active_size. unfold frame_buffer_capacity. nia. }
  assert (span_size (slice (slice active (i * nb_symbol_period p) (nb_symbol_period p))
                           (nb_cyclic_prefix p) (nb_fft p)) = nb_fft p) as Hdata.
  { apply span_size_slice; lia. }
  apply span_size_slice; try lia.
  rewrite fft_size. rewrite span_size_slice; lia.
Qed.

Lemma calculate_fft_cells_fold (symbols : list Z) :
  (forall i, In i symbols -> 0 <= i <= nb_frame_symbols p) ->
  forall (buffer : list complex) (s k : Z),
    span_size buffer = (nb_frame_symbols p + 1) * nb_fft p ->
    0 <= s <= nb_frame_symbols p -> 0 <= k < nb_fft p ->
    span_at (fold_left (fun b i => blit b (i * nb_fft p) (symbol_fft p active i))
                       symbols buffer)
            (s * nb_fft p + k)
    = if in_dec Z.eq_dec s symbols
      then span_at (symbol_fft p active s) k
      else span_at buffer (s * nb_fft p + k).
Proof.
  destruct mode_ok as (HN & Hcp & HP & Hnull & HF).
  induction symbols as [| i rest IH]; intros Hrange buffer s k Hsz Hs Hk.
  - reflexivity.
  - cbn [fold_left].
    assert (0 <= i <= nb_frame_symbols p) as Hi by (apply Hrange; left; reflexivity).
    pose proof (span_size_symbol_fft i Hi) as Hfi.
    rewrite IH; try assumption.
    + destruct (in_dec Z.eq_dec s rest) as [Hin | Hnin];
        destruct (in_dec Z.eq_dec s (i :: rest)) as [Hin' | Hnin'];
        try reflexivity.
      * exfalso. apply Hnin'. right. exact Hin.
      * destruct Hin' as [-> | Hin']; [| contradiction].
        rewrite span_at_blit_inside by (rewrite ?Hfi; nia).
        f_equal. lia.
      * rewrite span_at_blit_outside; [reflexivity | nia | rewrite Hfi; nia |].
        rewrite Hfi.
        assert (s <> i) by (intros ->; apply Hnin'; left; reflexivity).
        nia.
    + intros j Hj. apply Hrange. right. exact Hj.
    + rewrite span_size_blit. exact Hsz.
Qed.

Lemma In_Zseq (lo n i : Z) : In i (Zseq lo n) <-> lo <= i < lo + n.
Proof.
  unfold Zseq. rewrite in_map_iff. split.
  - intros (k & <- & Hk). apply in_seq in Hk. lia.
  - intros Hi. exists (Z.to_nat (i - lo)). split; [lia |]. apply in_seq. lia.
Qed.

Lemma span_size_fold_blit (symbols : list Z) (buffer : list complex) :
  span_size (fold_left (fun b i => blit b (i * nb_fft p) (symbol_fft p active i))
                       symbols buffer)
  = span_size buffer.
Proof.
  revert buffer; induction symbols as [| i rest IH]; intros buffer; cbn [fold_left].
  - reflexivity.
  - rewrite IH. apply span_size_blit.
Qed.

(** After the FFT stage over the whole frame, the cell [fft[s][k]] of
    [pipeline_fft_buffer] is bin [k] of the FFT of symbol [s]. *)
Lemma calculate_fft_cell (pipeline_fft_buffer : list complex) (s k : Z) :
  span_size pipeline_fft_buffer = (nb_frame_symbols p + 1) * nb_fft p ->
  0 <= s <= nb_frame_symbols p -> 0 <= k < nb_fft p ->
  fft_cell p (calculate_fft p active pipeline_fft_buffer 0 (nb_frame_symbols p + 1)) s k
  = span_at (symbol_fft p active s) k.
Proof.
  intros Hsz Hs Hk. unfold fft_cell, calculate_fft.
  rewrite calculate_fft_cells_fold; auto.
  - destruct (in_dec Z.eq_dec s (Zseq 0 (nb_frame_symbols p + 1 - 0))) as [_ | Hn];
      [reflexivity |].
    exfalso. apply Hn. apply In_Zseq. lia.
  - intros i Hi. apply In_Zseq in Hi. lia.
Qed.

End FrameFFT.

(** C1, as the code has it: the lambda calls
    [CalculateDQPSK(fft_buf_1, fft_buf_0, dqpsk_vec_buf)], so inside the
    function [in0] is the FFT of symbol [s+1] and [in1] the FFT of symbol
    [s].  With [fft[s]] the FFT of symbol [s] after cyclic-prefix removal,
    as the FFT stage leaves it in [pipeline_fft_buffer]: for every symbol
    pair [(s, s+1)] with [s] in [[0, nb_frame_symbols - 1)] and every data
    carrier [c] in [[-M, +M]], [c <> 0], the call returns and the entry
    written for the carrier is
    [fft[s][fft_index(c)] * conj(fft[s+1][fft_index(c)])], with
    [fft_index(c) = (nb_fft + c) mod nb_fft]: the complex conjugate of the
    product [fft[s+1][fft_index(c)] * conj(fft[s][fft_index(c)])]. *)
Theorem calculate_dqpsk_vec_entry `{Kernels}
        (p : OFDM_Params) (active : list complex)
        (fft_buffer_before pipeline_dqpsk_vec_buffer : list complex) (s c : Z) :
  fft_preserves_size -> params_ok p ->
  0 <= nb_data_carriers p <= nb_fft p ->
  span_size active = frame_buffer_capacity p ->
  span_size fft_buffer_before = (nb_frame_symbols p + 1) * nb_fft p ->
  span_size pipeline_dqpsk_vec_buffer = (nb_frame_symbols p - 1) * nb_fft p ->
  0 <= s < nb_frame_symbols p - 1 ->
  - Z.quot (nb_data_carriers p) 2 <= c <= Z.quot (nb_data_carriers p) 2 -> c <> 0 ->
  let pipeline_fft_buffer :=
    calculate_fft p active fft_buffer_before 0 (nb_frame_symbols p + 1) in
  exists out a b,
    calculate_dqpsk_vec p pipeline_fft_buffer pipeline_dqpsk_vec_buffer s = Ok out /\
    span_at (symbol_fft p active s) (dqpsk_fft_index p c) = Ok a /\
    span_at (symbol_fft p active (s + 1)) (dqpsk_fft_index p c) = Ok b /\
    span_at out (dqpsk_subcarrier_index p c) = Ok (cmul a (cconj b)) /\
    ceq (cmul a (cconj b)) (cconj (cmul b (cconj a))).
Proof.
  intros Hfft Hp Hdc Hact Hbuf Hdq Hs Hc Hc0. cbv zeta.
  pose proof Hp as (HN & Hcp & HP & Hnull & HF).
  set (fftb := calculate_fft p active fft_buffer_before 0 (nb_frame_symbols p + 1)).
  assert (span_size fftb = (nb_frame_symbols p + 1) * nb_fft p) as Hsz.
  { unfold fftb, calculate_fft. rewrite span_size_fold_blit. exact Hbuf. }
  destruct (calculate_dqpsk_vec_cells p fftb pipeline_dqpsk_vec_buffer s c)
    as (out & a & b & E & Ea & Eb & Eo & Hconj); auto; try lia.
  assert (0 <= dqpsk_fft_index p c < nb_fft p) as Hidx
      by (unfold dqpsk_fft_index; apply Z.mod_pos_bound; lia).
  unfold fftb in Ea, Eb.
  rewrite (calculate_fft_cell p active Hfft Hp Hact) in Ea by (auto; lia).
  rewrite (calculate_fft_cell p active Hfft Hp Hact) in Eb by (auto; lia).
  exists out, a, b. auto.
Qed.

(** Carrier [-1] of the symbol pair [(0, 1)] of the example frame. *)
Lemma calculate_dqpsk_vec_entry_witness :
  exists out a b,
    calculate_dqpsk_vec example_params
      (@calculate_fft example_kernels example_params example_active_buffer
                      (repeat czero 12) 0 (2 + 1))
      (repeat czero 4) 0 = Ok out /\
    span_at (@symbol_fft example_kernels example_params example_active_buffer 0)
            (dqpsk_fft_index example_params (-1)) = Ok a /\
    span_at (@symbol_fft example_kernels example_params example_active_buffer (0 + 1))
            (dqpsk_fft_index example_params (-1)) = Ok b /\
    span_at out (dqpsk_subcarrier_index example_params (-1)) = Ok (cmul a (cconj b)) /\
    ceq (cmul a (cconj b)) (cconj (cmul b (cconj a))).
Proof.
  apply (@calculate_dqpsk_vec_entry example_kernels example_params
           example_active_buffer (repeat czero 12) (repeat czero 4) 0 (-1));
    try (intros l; reflexivity);
    vm_compute; intuition discriminate.
Defined.

(** C1, the specification's formula fails: on the example frame (the
    example FFT copies its input) the entry of carrier [-1] for the symbol
    pair [(0, 1)] is [3 + i], while [fft[1][3] * conj(fft[0][3])] is
    [3 - i]. *)
Lemma calculate_dqpsk_vec_not_later_times_conj_earlier :
  let pipeline_fft_buffer :=
    @calculate_fft example_kernels example_params example_active_buffer
                   (repeat czero 12) 0 3 in
  pipeline_fft_buffer = example_fft_buffer /\
  exists out a b,
    calculate_dqpsk_vec example_params pipeline_fft_buffer (repeat czero 4) 0 = Ok out /\
    span_at out (dqpsk_subcarrier_index example_params (-1)) = Ok (Cplx 3 1) /\
    span_at (@symbol_fft example_kernels example_params example_active_buffer 0)
            (dqpsk_fft_index example_params (-1)) = Ok a /\
    span_at (@symbol_fft example_kernels example_params example_active_buffer 1)
            (dqpsk_fft_index example_params (-1)) = Ok b /\
    cmul b (cconj a) = Cplx 3 (-1).
Proof.
  cbv zeta. split; [vm_compute; reflexivity |].
  eexists. exists (Cplx 1 1), (Cplx 2 1).
  repeat split; vm_compute; reflexivity.
Qed.

(** ** Further properties of the state machine and the workers *)

(** X1: in every state reachable from the constructor on a well-formed
    transmission mode, the buffers keep the capacities the constructor
    gave them, their fill levels stay within the capacities, and a state
    that reads samples ([READING_NULL_AND_PRS], [READING_SYMBOLS]) has
    room left in the buffer it fills. *)
Theorem reachable_buffers_within_capacity `{Kernels} (d : OFDM_Demod) :
  reachable d -> params_ok (params d) ->
  let p := params d in
  rb_capacity (correlation_time_buffer d) = nb_null_period p + nb_symbol_period p /\
  0 <= rb_length (correlation_time_buffer d) <= nb_null_period p + nb_symbol_period p /\
  rb_capacity (inactive_buffer d) = frame_buffer_capacity p /\
  0 <= rb_length (inactive_buffer d) <= frame_buffer_capacity p /\
  span_size (active_buffer_data d) = frame_buffer_capacity p /\
  cb_Length (null_power_dip_buffer d) <= nb_null_period p /\
  (state d = READING_NULL_AND_PRS ->
   rb_length (correlation_time_buffer d) < nb_null_period p + nb_symbol_period p) /\
  (state d = READING_SYMBOLS ->
   rb_length (inactive_buffer d) < frame_buffer_capacity p).
Proof.
  intros Hreach Hp. cbv zeta.
  destruct (reachable_demod_ok d Hreach Hp)
    as (_ & Hc1 & Hc2 & Hi1 & Hi2 & Ha & Hn1 & Hn2 & Hroom1 & Hroom2).
  rewrite <- Hc1, <- Hi1. repeat split; auto; lia.
Qed.

(** After a change of [cfg] and a [Reset] of the fresh example demodulator. *)
Lemma reachable_buffers_within_capacity_witness :
  let d := Reset (set_cfg example_demod example_cfg) in
  rb_capacity (correlation_time_buffer d) = 3 + 5 /\
  0 <= rb_length (correlation_time_buffer d) <= 3 + 5 /\
  rb_capacity (inactive_buffer d) = frame_buffer_capacity example_params /\
  0 <= rb_length (inactive_buffer d) <= frame_buffer_capacity example_params /\
  span_size (active_buffer_data d) = frame_buffer_capacity example_params /\
  cb_Length (null_power_dip_buffer d) <= 3 /\
  (state d = READING_NULL_AND_PRS -> rb_length (correlation_time_buffer d) < 3 + 5) /\
  (state d = READING_SYMBOLS ->
   rb_length (inactive_buffer d) < frame_buffer_capacity example_params).
Proof.
  apply (@reachable_buffers_within_capacity example_kernels
           (Reset (set_cfg example_demod example_cfg))).
  - eapply reachable_step; [| apply step_reset].
    eapply reachable_step; [apply reachable_new | apply step_cfg].
  - vm_compute. intuition discriminate.
Defined.

(** X2: when [CreateThreads] makes at least one worker, the symbol ranges
    of the workers follow one another without gap or overlap from symbol
    0 to symbol [nb_frame_symbols + 1] (the NULL symbol included), each
    range running forward. *)
Theorem CreateThreads_ranges_partition (p : OFDM_Params)
        (total_system_threads nb_desired_threads : Z) :
  0 <= nb_frame_symbols p ->
  1 <= CreateThreads_nb_threads p total_system_threads nb_desired_threads ->
  contiguous_ranges 0 (CreateThreads p total_system_threads nb_desired_threads)
                    (nb_frame_symbols p + 1).
Proof. apply CreateThreads_contiguous. Qed.

(** Two workers requested on the example frame. *)
Lemma CreateThreads_ranges_partition_witness :
  contiguous_ranges 0 (CreateThreads example_params 8 2) (2 + 1).
Proof.
  apply (CreateThreads_ranges_partition example_params 8 2); vm_compute; discriminate.
Defined.

(** X3: during the null search a batch no longer than
    [cfg.signal_l1.nb_samples] is consumed whole, and when no end of a
    null was pending the state does not change. *)
Theorem FindNullPowerDip_short_batch (fuel : nat) (d : OFDM_Demod) (buf : list complex) :
  span_size buf <= signal_l1_nb_samples (cfg d) ->
  is_null_end_found d = false ->
  exists d',
    FindNullPowerDip fuel d buf = Ok (d', span_size buf) /\
    state d' = state d /\
    is_null_start_found d' = is_null_start_found d /\
    correlation_time_buffer d' = correlation_time_buffer d.
Proof.
  intros Hshort Hend. unfold FindNullPowerDip. cbv zeta.
  assert (forall K M t0 t1 sf,
             M <= 0 -> FindNullPowerDip_loop fuel buf K M t0 t1 0 sf = Ok (sf, None))
    as Hloop.
  { intros K M t0 t1 sf HM. destruct fuel; cbn [FindNullPowerDip_loop];
      destruct (Z.ltb_spec 0 M); try lia; reflexivity. }
  rewrite Hloop by lia. cbn [bind]. demod_cbn. rewrite Hend. demod_cbn.
  eexists. split; [reflexivity |]. repeat split.
Qed.

(** A batch of one sample with blocks of one sample. *)
Lemma FindNullPowerDip_short_batch_witness :
  exists d',
    FindNullPowerDip 0 example_demod [Cplx 1 1] = Ok (d', span_size [Cplx 1 1]) /\
    state d' = state example_demod /\
    is_null_start_found d' = is_null_start_found example_demod /\
    correlation_time_buffer d' = correlation_time_buffer example_demod.
Proof.
  apply (FindNullPowerDip_short_batch 0 example_demod [Cplx 1 1]);
    [vm_compute; discriminate | reflexivity].
Defined.

(** ** The state machine as a whole *)

Lemma FindNullPowerDip_inv (fuel : nat) (d d' : OFDM_Demod) (buf : list complex) (n : Z) :
  FindNullPowerDip fuel d buf = Ok (d', n) ->
  same_configuration d d' /\
  total_frames_desync d' = total_frames_desync d /\
  active_buffer_data d' = active_buffer_data d /\
  inactive_buffer d' = inactive_buffer d /\
  ((state d' = state d /\ is_null_end_found d' = is_null_end_found d /\
    is_null_end_found d' = false) \/
   (state d' = READING_NULL_AND_PRS /\ is_null_start_found d' = false /\
    is_null_end_found d' = false /\ cb_Length (null_power_dip_buffer d') = 0)).
Proof.
  unfold FindNullPowerDip. cbv zeta. intros E.
  apply bind_Ok in E. destruct E as ([sf brk] & _ & E). cbv zeta in E. demod_cbn.
  destruct (match brk with Some _ => true | None => is_null_end_found d end) eqn:Eend;
    demod_cbn; injection E as <- <-; unfold same_configuration; demod_cbn.
  - repeat split; auto.
  - destruct brk; [discriminate |]. repeat split; auto.
Qed.

Lemma ReadNullPRS_inv (d d' : OFDM_Demod) (buf : list complex) (n : Z) :
  ReadNullPRS d buf = Ok (d', n) ->
  same_configuration d d' /\
  total_frames_desync d' = total_frames_desync d /\
  active_buffer_data d' = active_buffer_data d /\
  inactive_buffer d' = inactive_buffer d /\
  is_null_start_found d' = is_null_start_found d /\
  is_null_end_found d' = is_null_end_found d /\
  null_power_dip_buffer d' = null_power_dip_buffer d /\
  (state d' = state d \/ state d' = RUNNING_COARSE_FREQ_SYNC).
Proof.
  unfold ReadNullPRS. intros E.
  destruct (rb_ConsumeBuffer (correlation_time_buffer d) buf) as [b m].
  demod_cbn. destruct (rb_IsFull b); demod_cbn; injection E as <- <-;
    unfold same_configuration; demod_cbn; repeat split; auto.
Qed.

Lemma RunCoarseFreqSync_inv `{Kernels} (d d' : OFDM_Demod) (buf : list complex) (n : Z) :
  RunCoarseFreqSync d buf = Ok (d', n) ->
  same_configuration d d' /\
  total_frames_desync d' = total_frames_desync d /\
  active_buffer_data d' = active_buffer_data d /\
  inactive_buffer d' = inactive_buffer d /\
  is_null_start_found d' = is_null_start_found d /\
  is_null_end_found d' = is_null_end_found d /\
  null_power_dip_buffer d' = null_power_dip_buffer d /\
  state d' = RUNNING_FINE_TIME_SYNC.
Proof.
  unfold RunCoarseFreqSync. intros E.
  destruct (sync_is_coarse_freq_correction (cfg d)); cbn [negb] in E.
  - cbv zeta in E. apply bind_Ok in E. destruct E as ([mi mv] & _ & E).
    cbv zeta in E. destruct (coarse_freq_update d mi) as [[pr fast] delta].
    injection E as <- <-. unfold same_configuration, UpdateFineFrequencyOffset.
    demod_cbn. repeat split; auto.
  - injection E as <- <-. unfold same_configuration. demod_cbn. repeat split; auto.
Qed.

Lemma RunFineTimeSync_inv `{Kernels} (d d' : OFDM_Demod) (buf : list complex) (n : Z) :
  RunFineTimeSync d buf = Ok (d', n) ->
  same_configuration d d' /\
  active_buffer_data d' = active_buffer_data d /\
  is_null_start_found d' = is_null_start_found d /\
  is_null_end_found d' = is_null_end_found d /\
  null_power_dip_buffer d' = null_power_dip_buffer d /\
  ((state d' = FINDING_NULL_POWER_DIP /\
    total_frames_desync d' = total_frames_desync d + 1) \/
   (state d' = READING_SYMBOLS /\
    total_frames_desync d' = total_frames_desync d)).
Proof.
  unfold RunFineTimeSync. cbv zeta. intros E.
  apply bind_Ok in E. destruct E as ([[avg mv] mi] & _ & E). cbv zeta in E.
  destruct (Float.ltb (mv - avg) (sync_impulse_peak_threshold_db (cfg d)));
    injection E as <- <-; unfold same_configuration, Reset; demod_cbn;
    repeat split; auto.
Qed.

Lemma ReadSymbols_inv (d d' : OFDM_Demod) (buf : list complex) (n : Z) :
  ReadSymbols d buf = Ok (d', n) ->
  same_configuration d d' /\
  total_frames_desync d' = total_frames_desync d /\
  is_null_start_found d' = is_null_start_found d /\
  is_null_end_found d' = is_null_end_found d /\
  null_power_dip_buffer d' = null_power_dip_buffer d /\
  (state d' = state d \/ state d' = READING_NULL_AND_PRS).
Proof.
  unfold ReadSymbols. cbv zeta. intros E.
  destruct (rb_ConsumeBuffer (inactive_buffer d) buf) as [b m].
  demod_cbn. destruct (rb_IsFull b); demod_cbn; injection E as <- <-;
    unfold same_configuration; demod_cbn; repeat split; auto.
Qed.

(** X4: the state machine follows one graph.  A handler called in state
    [s] leaves the object in a state of [next_states s]:
    [FINDING_NULL_POWER_DIP] stays or goes to [READING_NULL_AND_PRS], which
    stays or goes to [RUNNING_COARSE_FREQ_SYNC], which goes to
    [RUNNING_FINE_TIME_SYNC], which goes to [READING_SYMBOLS] or back to
    [FINDING_NULL_POWER_DIP], and [READING_SYMBOLS] stays or goes to
    [READING_NULL_AND_PRS].  No handler touches [total_frames_read], and
    [total_frames_desync] grows, by one, exactly on the transition from
    [RUNNING_FINE_TIME_SYNC] to [FINDING_NULL_POWER_DIP]. *)
Theorem Process_step_transitions `{Kernels} (fuel : nat) (d d' : OFDM_Demod)
        (block : list complex) (nb_read : Z) :
  Process_step fuel d block = Ok (d', nb_read) ->
  In (state d') (next_states (state d)) /\
  total_frames_read d' = total_frames_read d /\
  total_frames_desync d'
  = total_frames_desync d
    + match state d, state d' with
      | RUNNING_FINE_TIME_SYNC, FINDING_NULL_POWER_DIP => 1
      | _, _ => 0
      end.
Proof.
  unfold Process_step. intros E. destruct (state d) eqn:Hst.
  - apply FindNullPowerDip_inv in E.
    destruct E as ((_ & _ & _ & _ & _ & Hr) & Hd & _ & _ & [(Hs & _) | (Hs & _)]);
      rewrite Hs, ?Hst; cbn; repeat split; auto; lia.
  - apply ReadNullPRS_inv in E.
    destruct E as ((_ & _ & _ & _ & _ & Hr) & Hd & _ & _ & _ & _ & _ & [Hs | Hs]);
      rewrite Hs, ?Hst; cbn; repeat split; auto; lia.
  - apply RunCoarseFreqSync_inv in E.
    destruct E as ((_ & _ & _ & _ & _ & Hr) & Hd & _ & _ & _ & _ & _ & Hs);
      rewrite Hs; cbn; repeat split; auto; lia.
  - apply RunFineTimeSync_inv in E.
    destruct E as ((_ & _ & _ & _ & _ & Hr) & _ & _ & _ & _ & [(Hs & Hd) | (Hs & Hd)]);
      rewrite Hs; cbn; repeat split; auto; lia.
  - apply ReadSymbols_inv in E.
    destruct E as ((_ & _ & _ & _ & _ & Hr) & Hd & _ & _ & _ & [Hs | Hs]);
      rewrite Hs, ?Hst; cbn; repeat split; auto; lia.
Qed.

Lemma UpdateSignalAverage_result (fuel : nat) (d d' : OFDM_Demod) (buf : list complex) :
  UpdateSignalAverage fuel d buf = Ok d' ->
  exists avg, d' = set_signal_l1_average d avg.
Proof.
  unfold UpdateSignalAverage. intros E.
  destruct (span_size buf <? signal_l1_nb_samples (cfg d)).
  - injection E as <-. exists (signal_l1_average d). destruct d; reflexivity.
  - cbv zeta in E. apply bind_Ok in E. destruct E as (avg & _ & E).
    injection E as <-. exists avg. reflexivity.
Qed.

Lemma Process_step_null_search_idle `{Kernels} (fuel : nat) (d d' : OFDM_Demod)
      (block : list complex) (n : Z) :
  Process_step fuel d block = Ok (d', n) ->
  null_search_idle d -> null_search_idle d'.
Proof.
  unfold Process_step, null_search_idle. intros E [He Hidle].
  destruct (state d) eqn:Hst.
  - apply FindNullPowerDip_inv in E.
    destruct E as (_ & _ & _ & _ & [(Hs & _ & He') | (Hs & Hs' & He' & Hl)]).
    + split; [exact He' |]. intros Hne. congruence.
    + auto.
  - apply ReadNullPRS_inv in E.
    destruct E as (_ & _ & _ & _ & Es & Ee & En & Hs).
    rewrite Es, Ee, En. split; [exact He |]. intros _. apply Hidle. discriminate.
  - apply RunCoarseFreqSync_inv in E.
    destruct E as (_ & _ & _ & _ & Es & Ee & En & Hs).
    rewrite Es, Ee, En. split; [exact He |]. intros _. apply Hidle. discriminate.
  - apply RunFineTimeSync_inv in E.
    destruct E as (_ & _ & Es & Ee & En & Hs).
    rewrite Es, Ee, En. split; [exact He |]. intros _. apply Hidle. discriminate.
  - apply ReadSymbols_inv in E.
    destruct E as (_ & _ & Es & Ee & En & Hs).
    rewrite Es, Ee, En. split; [exact He |]. intros _. apply Hidle. discriminate.
Qed.

Lemma step_null_search_idle `{Kernels} (d d' : OFDM_Demod) :
  step d d' -> null_search_idle d -> null_search_idle d'.
Proof.
  intros Hstep Hidle. destruct Hstep as [fuel d block d' n E | fuel d buf d' E | d pls | d | d c].
  - exact (Process_step_null_search_idle fuel d d' block n E Hidle).
  - apply UpdateSignalAverage_result in E. destruct E as (avg & ->). exact Hidle.
  - exact Hidle.
  - destruct Hidle as [He _]. split; [exact He |].
    unfold Reset. demod_cbn. intros Hne. congruence.
  - exact Hidle.
Qed.

(** X5: in every state reachable from the constructor [is_null_end_found]
    is false between two calls, and outside [FINDING_NULL_POWER_DIP] so is
    [is_null_start_found], and [null_power_dip_buffer] is empty: a null
    search never starts from the flags or the samples of an earlier
    one. *)
Theorem reachable_null_search_idle `{Kernels} (d : OFDM_Demod) :
  reachable d ->
  is_null_end_found d = false /\
  (state d <> FINDING_NULL_POWER_DIP ->
   is_null_start_found d = false /\ cb_Length (null_power_dip_buffer d) = 0).
Proof.
  intros Hr. change (null_search_idle d). induction Hr as [p c ref mapper | d d' _ IH Hstep].
  - split; [reflexivity |]. intros Hne. exfalso. apply Hne. reflexivity.
  - exact (step_null_search_idle d d' Hstep IH).
Qed.

Lemma example_measured_reachable : @reachable example_kernels example_measured_demod.
Proof.
  eapply reachable_step; [apply (@reachable_new example_kernels) |].
  apply (@step_signal_average example_kernels 6 example_demod example_batch).
  vm_compute. reflexivity.
Qed.

Lemma example_null_found_reachable : @reachable example_kernels example_null_found_demod.
Proof.
  eapply reachable_step; [apply example_measured_reachable |].
  apply (@step_handler example_kernels 6 example_measured_demod example_batch
                       example_null_found_demod 4).
  vm_compute. reflexivity.
Qed.

(** After the end of a NULL symbol was found in the example batch. *)
Lemma reachable_null_search_idle_witness :
  is_null_end_found example_null_found_demod = false /\
  (state example_null_found_demod <> FINDING_NULL_POWER_DIP ->
   is_null_start_found example_null_found_demod = false /\
   cb_Length (null_power_dip_buffer example_null_found_demod) = 0).
Proof.
  apply (@reachable_null_search_idle example_kernels example_null_found_demod).
  exact example_null_found_reachable.
Defined.

Lemma same_configuration_refl (d : OFDM_Demod) : same_configuration d d.
Proof. unfold same_configuration. repeat split. Qed.

Lemma same_configuration_trans (d1 d2 d3 : OFDM_Demod) :
  same_configuration d1 d2 -> same_configuration d2 d3 -> same_configuration d1 d3.
Proof.
  unfold same_configuration.
  intros (A1 & A2 & A3 & A4 & A5 & A6) (B1 & B2 & B3 & B4 & B5 & B6).
  repeat split; congruence.
Qed.

Lemma Process_step_same_configuration `{Kernels} (fuel : nat) (d d' : OFDM_Demod)
      (block : list complex) (n : Z) :
  Process_step fuel d block = Ok (d', n) ->
  same_configuration d d' /\ total_frames_desync d <= total_frames_desync d'.
Proof.
  unfold Process_step. intros E. destruct (state d).
  - apply FindNullPowerDip_inv in E. destruct E as (Hc & Hd & _). split; [exact Hc | lia].
  - apply ReadNullPRS_inv in E. destruct E as (Hc & Hd & _). split; [exact Hc | lia].
  - apply RunCoarseFreqSync_inv in E. destruct E as (Hc & Hd & _). split; [exact Hc | lia].
  - apply RunFineTimeSync_inv in E.
    destruct E as (Hc & _ & _ & _ & _ & [(_ & Hd) | (_ & Hd)]); split; auto; lia.
  - apply ReadSymbols_inv in E. destruct E as (Hc & Hd & _). split; [exact Hc | lia].
Qed.

Lemma Process_loop_same_configuration `{Kernels} (inner : nat) (buf : list complex) :
  forall (fuel : nat) (d d' : OFDM_Demod) (curr_index n : Z),
    Process_loop fuel inner d buf curr_index = Ok (d', n) ->
    same_configuration d d' /\ total_frames_desync d <= total_frames_desync d'.
Proof.
  induction fuel as [| fuel IH]; intros d d' curr n E; cbn [Process_loop] in E;
    destruct (curr <? span_size buf); try discriminate;
    try (injection E as <- <-; split; [apply same_configuration_refl | lia]).
  apply bind_Ok in E. destruct E as ([d1 m] & E1 & E2). cbv zeta in E2.
  apply Process_step_same_configuration in E1. destruct E1 as [Hc1 Hd1].
  apply IH in E2. destruct E2 as [Hc2 Hd2].
  split; [exact (same_configuration_trans d d1 d' Hc1 Hc2) | lia].
Qed.

(** X6: whatever the batch, [Process] leaves [params], [cfg],
    [carrier_mapper], the two PRS references and [total_frames_read] as
    they were, and never lowers [total_frames_desync]. *)
Theorem Process_leaves_configuration `{Kernels} (fuel : nat) (d d' : OFDM_Demod)
        (buf : list complex) (n : Z) :
  Process fuel d buf = Ok (d', n) ->
  params d' = params d /\ cfg d' = cfg d /\
  carrier_mapper d' = carrier_mapper d /\
  correlation_prs_fft_reference d' = correlation_prs_fft_reference d /\
  correlation_prs_time_reference d' = correlation_prs_time_reference d /\
  total_frames_read d' = total_frames_read d /\
  total_frames_desync d <= total_frames_desync d'.
Proof.
  unfold Process. intros E. apply bind_Ok in E. destruct E as (d1 & E1 & E2).
  apply UpdateSignalAverage_result in E1. destruct E1 as (avg & ->).
  apply Process_loop_same_configuration in E2.
  destruct E2 as ((A1 & A2 & A3 & A4 & A5 & A6) & Hd).
  demod_cbn. repeat split; auto.
Qed.

(** The example batch processed by the fresh example demodulator. *)
Lemma Process_leaves_configuration_witness :
  let d' := example_processed_demod in
  params d' = params example_demod /\ cfg d' = cfg example_demod /\
  carrier_mapper d' = carrier_mapper example_demod /\
  correlation_prs_fft_reference d' = correlation_prs_fft_reference example_demod /\
  correlation_prs_time_reference d' = correlation_prs_time_reference example_demod /\
  total_frames_read d' = total_frames_read example_demod /\
  total_frames_desync example_demod <= total_frames_desync d'.
Proof.
  apply (@Process_leaves_configuration example_kernels 20 example_demod
           example_processed_demod example_batch 6).
  vm_compute. reflexivity.
Defined.

(** A failed fine time synchronisation on the locked example
    demodulator. *)
Lemma Process_step_transitions_witness :
  let d := example_locked_demod in
  let d' := Reset example_locked_demod in
  In (state d') (next_states (state d)) /\
  total_frames_read d' = total_frames_read d /\
  total_frames_desync d'
  = total_frames_desync d
    + match state d, state d' with
      | RUNNING_FINE_TIME_SYNC, FINDING_NULL_POWER_DIP => 1
      | _, _ => 0
      end.
Proof.
  apply (@Process_step_transitions example_kernels 0 example_locked_demod
           (Reset example_locked_demod) [Cplx 1 1] 0).
  vm_compute. reflexivity.
Defined.

(** ** Double buffering *)

Lemma Process_loop_reachable `{Kernels} (inner : nat) (buf : list complex) :
  forall (fuel : nat) (d d' : OFDM_Demod) (curr_index n : Z),
    Process_loop fuel inner d buf curr_index = Ok (d', n) ->
    reachable d -> reachable d'.
Proof.
  induction fuel as [| fuel IH]; intros d d' curr n E Hr; cbn [Process_loop] in E;
    destruct (curr <? span_size buf); try discriminate;
    try (injection E as <- <-; exact Hr).
  apply bind_Ok in E. destruct E as ([d1 m] & E1 & E2). cbv zeta in E2.
  apply (IH d1 d' (curr + m) n E2).
  exact (reachable_step d d1 Hr (step_handler inner d _ d1 m E1)).
Qed.

Lemma Process_reachable `{Kernels} (fuel : nat) (d d' : OFDM_Demod)
      (buf : list complex) (n : Z) :
  Process fuel d buf = Ok (d', n) -> reachable d -> reachable d'.
Proof.
  unfold Process. intros E Hr. apply bind_Ok in E. destruct E as (d1 & E1 & E2).
  apply (Process_loop_reachable fuel buf fuel d1 d' 0 n E2).
  exact (reachable_step d d1 Hr (step_signal_average fuel d buf d1 E1)).
Qed.

Lemma example_reading_reachable : @reachable example_kernels example_reading_demod.
Proof.
  apply (@Process_reachable example_kernels 40 example_demod example_reading_demod
           example_long_batch 12).
  - vm_compute. reflexivity.
  - apply (@reachable_new example_kernels).
Qed.

(** X7: the ingest thread writes [active_buffer_data] only when it hands
    a frame over.  In a state reachable from the constructor a handler
    either leaves [active_buffer_data] as it was, or it is [ReadSymbols]
    completing the frame: it then took exactly the samples that were
    missing, the new active buffer is the completed frame (the samples
    collected before, followed by the ones just taken), the old active
    storage is the new, empty inactive buffer, and the state is
    [READING_NULL_AND_PRS]. *)
Theorem active_buffer_written_only_on_handoff `{Kernels} (fuel : nat)
        (d d' : OFDM_Demod) (block : list complex) (nb_read : Z) :
  reachable d -> params_ok (params d) ->
  Process_step fuel d block = Ok (d', nb_read) ->
  active_buffer_data d' = active_buffer_data d \/
  (state d = READING_SYMBOLS /\ state d' = READING_NULL_AND_PRS /\
   nb_read = frame_buffer_capacity (params d) - rb_length (inactive_buffer d) /\
   nb_read <= span_size block /\
   rb_data (inactive_buffer d') = active_buffer_data d /\
   rb_length (inactive_buffer d') = 0 /\
   span_size (active_buffer_data d') = frame_buffer_capacity (params d) /\
   (forall k, 0 <= k < rb_length (inactive_buffer d) ->
      span_at (active_buffer_data d') k = span_at (rb_data (inactive_buffer d)) k) /\
   (forall k, 0 <= k < nb_read ->
      span_at (active_buffer_data d') (rb_length (inactive_buffer d) + k)
      = span_at block k)).
Proof.
  intros Hreach Hpar E. destruct (reachable_demod_ok d Hreach Hpar) as [Hp Hb].
  unfold Process_step in E. destruct (state d) eqn:Hst.
  - apply FindNullPowerDip_inv in E. left. tauto.
  - apply ReadNullPRS_inv in E. left. tauto.
  - apply RunCoarseFreqSync_inv in E. left. tauto.
  - apply RunFineTimeSync_inv in E. left. tauto.
  - unfold ReadSymbols in E. cbv zeta in E.
    destruct Hb as (Hc1 & Hc2 & Hi1 & Hi2 & Ha & Hn1 & Hn2 & Hroom1 & Hroom2).
    pose proof (rb_ConsumeBuffer_spec (inactive_buffer d) block Hi2) as Hs.
    cbv zeta in Hs. unfold rb_ConsumeBuffer in *. cbv zeta in *. cbn [fst snd] in Hs.
    destruct Hs as (Hcap & Hlen & Hn & Hle & Hmin).
    set (m := Z.max 0 (Z.min (span_size block)
                             (rb_capacity (inactive_buffer d)
                              - rb_length (inactive_buffer d)))) in *.
    demod_cbn. unfold rb_IsFull, rb_capacity in *. demod_cbn.
    rewrite span_size_blit in *.
    destruct (Z.eqb_spec (rb_length (inactive_buffer d) + m)
                         (span_size (rb_data (inactive_buffer d)))) as [Hfull | Hnot];
      demod_cbn; injection E as <- <-; demod_cbn; [right | left; reflexivity].
    assert (span_size (slice block 0 m) = m) as Hsl by (apply span_size_slice; lia).
    repeat split; auto; try lia.
    + rewrite span_size_blit. exact Hi1.
    + intros k Hk. apply span_at_blit_outside; lia.
    + intros k Hk. rewrite span_at_blit_inside by lia.
      replace (rb_length (inactive_buffer d) + k - rb_length (inactive_buffer d))
        with k by lia.
      rewrite span_at_slice by lia. reflexivity.
Qed.

(** The block that completes the example frame: seven samples are
    taken and the buffers are swapped. *)
Lemma active_buffer_written_only_on_handoff_witness :
  let d := example_reading_demod in
  let d' := example_handoff_demod in
  let block := example_frame_tail in
  let nb_read := 7 in
  active_buffer_data d' = active_buffer_data d \/
  (state d = READING_SYMBOLS /\ state d' = READING_NULL_AND_PRS /\
   nb_read = frame_buffer_capacity (params d) - rb_length (inactive_buffer d) /\
   nb_read <= span_size block /\
   rb_data (inactive_buffer d') = active_buffer_data d /\
   rb_length (inactive_buffer d') = 0 /\
   span_size (active_buffer_data d') = frame_buffer_capacity (params d) /\
   (forall k, 0 <= k < rb_length (inactive_buffer d) ->
      span_at (active_buffer_data d') k = span_at (rb_data (inactive_buffer d)) k) /\
   (forall k, 0 <= k < nb_read ->
      span_at (active_buffer_data d') (rb_length (inactive_buffer d) + k)
      = span_at block k)).
Proof.
  apply (@active_buffer_written_only_on_handoff example_kernels 9
           example_reading_demod example_handoff_demod example_frame_tail 7).
  - exact example_reading_reachable.
  - vm_compute. intuition discriminate.
  - vm_compute. reflexivity.
Defined.

(** ** The signal average and the null search *)






Lemma CalculateL1Average_nonneg (block : list complex) :
  (0 <= CalculateL1Average block)%Q.
Proof.
  unfold CalculateL1Average. cbv zeta.
  assert (forall acc : Q,
             (0 <= acc)%Q ->
             (0 <= fold_left (fun acc v => acc + (Float.abs (re v) + Float.abs (im v)))
                             block acc)%Q) as Hs.
  { induction block as [| v block IH]; intros acc Hacc; simpl; [exact Hacc |].
    apply IH. unfold Float.abs.
    pose proof (Qabs_nonneg (re v)). pose proof (Qabs_nonneg (im v)). lra. }
  specialize (Hs 0%Q (Qle_refl 0)). set (S := fold_left _ block 0%Q) in *.
  unfold Float.of_int.
  destruct (Z.eq_dec (span_size block) 0) as [Hz | Hnz].
  - rewrite Hz. change (inject_Z 0) with 0%Q. unfold Qdiv, Qinv. simpl.
    rewrite Qmult_0_r. lra.
  - apply Qle_shift_div_l; [| lra].
    apply inject_Z_pos. pose proof (span_size_nonneg block). lia.
Qed.




Lemma FindNullPowerDip_loop_no_start (buf : list complex) (K M : Z) (t0 t1 : Q) :
  (t0 <= 0)%Q ->
  forall (fuel : nat) (i : Z) (sf : bool) (brk : option Z),
    FindNullPowerDip_loop fuel buf K M t0 t1 i false = Ok (sf, brk) ->
    sf = false /\ brk = None.
Proof.
  intros Ht. induction fuel as [| fuel IH]; intros i sf brk E;
    cbn [FindNullPowerDip_loop] in E; destruct (i <? M); try discriminate;
    try (injection E as <- <-; split; reflexivity).
  pose proof (CalculateL1Average_nonneg (slice buf i K)) as Hl.
  destruct (Float.ltb (CalculateL1Average (slice buf i K)) t0) eqn:Elt.
  - apply ltb_true_iff in Elt. lra.
  - apply IH in E. exact E.
Qed.

(** X9: while the start threshold [signal_l1_average * thresh_null_start]
    is not positive (as after construction, where the average is zero), no
    block can lie below it: [FindNullPowerDip] takes the whole batch, stays
    in its state and finds neither a start nor an end of a NULL symbol. *)
Theorem FindNullPowerDip_needs_signal_average (fuel : nat) (d : OFDM_Demod)
        (buf : list complex) :
  1 <= signal_l1_nb_samples (cfg d) -> span_size buf <= Z.of_nat fuel ->
  is_null_start_found d = false -> is_null_end_found d = false ->
  (signal_l1_average d * null_l1_search_thresh_null_start (cfg d) <= 0)%Q ->
  exists d',
    FindNullPowerDip fuel d buf = Ok (d', span_size buf) /\
    state d' = state d /\
    is_null_start_found d' = false /\ is_null_end_found d' = false /\
    correlation_time_buffer d' = correlation_time_buffer d.
Proof.
  intros HK Hfuel Hs He Ht. unfold FindNullPowerDip. cbv zeta.
  match goal with
  | |- context [FindNullPowerDip_loop fuel buf ?K ?M ?t0 ?t1 0 ?sf] =>
      destruct (FindNullPowerDip_loop_Ok buf K M t0 t1 HK fuel 0 sf)
        as (sf' & brk & E & _); [lia | lia |]
  end.
  rewrite E. rewrite Hs in E.
  apply FindNullPowerDip_loop_no_start in E; [| exact Ht]. destruct E as [-> ->].
  cbn [bind]. demod_cbn. rewrite He. demod_cbn.
  eexists. split; [reflexivity |]. demod_cbn. repeat split; auto.
Qed.

(** The fresh example demodulator, whose signal average is still zero,
    on the example batch. *)
Lemma FindNullPowerDip_needs_signal_average_witness :
  exists d',
    FindNullPowerDip 6 example_demod example_batch = Ok (d', span_size example_batch) /\
    state d' = state example_demod /\
    is_null_start_found d' = false /\ is_null_end_found d' = false /\
    correlation_time_buffer d' = correlation_time_buffer example_demod.
Proof.
  apply (FindNullPowerDip_needs_signal_average 6 example_demod example_batch);
    vm_compute; try reflexivity; discriminate.
Defined.

Lemma FindNullPowerDip_loop_break (buf : list complex) (K M : Z) (t0 t1 : Q) :
  forall (fuel : nat) (i : Z) (sf sf' : bool) (n : Z),
    FindNullPowerDip_loop fuel buf K M t0 t1 i sf = Ok (sf', Some n) ->
    1 <= K -> 0 <= i -> i mod K = 0 ->
    sf' = true /\ i + K <= n < M + K /\ n mod K = 0 /\
    (t1 < CalculateL1Average (slice buf (n - K) K))%Q.
Proof.
  induction fuel as [| fuel IH]; intros i sf sf' n E HK Hi Hmod;
    cbn [FindNullPowerDip_loop] in E; destruct (Z.ltb_spec i M); try discriminate.
  assert ((i + K) mod K = 0) as Hmod'.
  { rewrite <- Zplus_mod_idemp_r, Z_mod_same_full, Z.add_0_r. exact Hmod. }
  destruct sf.
  - destruct (Float.gtb (CalculateL1Average (slice buf i K)) t1) eqn:Egt.
    + injection E as <- <-. replace (i + K - K) with i by lia.
      unfold Float.gtb in Egt. apply ltb_true_iff in Egt.
      repeat split; auto; lia.
    + apply IH in E; try lia; auto.
      destruct E as (A & B & C & D). repeat split; auto; lia.
  - apply IH in E; try lia; auto.
    destruct E as (A & B & C & D). repeat split; auto; lia.
Qed.

(** X10: when [FindNullPowerDip] leaves its state, the new state is
    [READING_NULL_AND_PRS]; the number of samples taken is a multiple of the
    block size [K = cfg.signal_l1.nb_samples], at least [K] and strictly
    less than the batch (a sample is left for [ReadNullPRS]); the last
    block taken is the one whose L1 average exceeded the end threshold; and
    both flags of the search are clear again. *)
Theorem FindNullPowerDip_end_of_null (fuel : nat) (d d' : OFDM_Demod)
        (buf : list complex) (nb_read : Z) :
  1 <= signal_l1_nb_samples (cfg d) ->
  is_null_end_found d = false ->
  FindNullPowerDip fuel d buf = Ok (d', nb_read) ->
  state d' <> state d ->
  let K := signal_l1_nb_samples (cfg d) in
  state d' = READING_NULL_AND_PRS /\
  K <= nb_read < span_size buf /\ nb_read mod K = 0 /\
  (signal_l1_average d * null_l1_search_thresh_null_end (cfg d)
   < CalculateL1Average (slice buf (nb_read - K) K))%Q /\
  is_null_start_found d' = false /\ is_null_end_found d' = false.
Proof.
  intros HK He E Hne. cbv zeta. unfold FindNullPowerDip in E. cbv zeta in E.
  apply bind_Ok in E. destruct E as ([sf brk] & Eloop & E). cbv zeta in E.
  demod_cbn. rewrite He in E.
  destruct brk as [n |]; demod_cbn.
  - injection E as <- <-. demod_cbn.
    apply FindNullPowerDip_loop_break in Eloop; try lia; [| reflexivity].
    destruct Eloop as (_ & Hn & Hmod & Hl).
    repeat split; auto; lia.
  - injection E as <- <-. demod_cbn. exfalso. apply Hne. reflexivity.
Qed.

(** The example batch on the example demodulator that has measured it:
    the dip is the third sample, its end the fourth. *)
Lemma FindNullPowerDip_end_of_null_witness :
  let d := example_measured_demod in
  let d' := example_null_found_demod in
  let nb_read := 4 in
  let K := signal_l1_nb_samples (cfg d) in
  state d' = READING_NULL_AND_PRS /\
  K <= nb_read < span_size example_batch /\ nb_read mod K = 0 /\
  (signal_l1_average d * null_l1_search_thresh_null_end (cfg d)
   < CalculateL1Average (slice example_batch (nb_read - K) K))%Q /\
  is_null_start_found d' = false /\ is_null_end_found d' = false.
Proof.
  apply (FindNullPowerDip_end_of_null 6 example_measured_demod example_null_found_demod
           example_batch 4).
  - vm_compute. discriminate.
  - reflexivity.
  - vm_compute. reflexivity.
  - vm_compute. discriminate.
Defined.

(** ** The peak of the coarse frequency search *)

(** X11: the peak search of [RunCoarseFreqSync] returns the first
    maximum of its window: [max_value] is the cell that [max_index] names,
    no cell of the window [[-half_width, half_width]] is larger, and every
    cell of the window before [max_index] is strictly smaller. *)
Theorem coarse_peak_search_first_maximum (p : OFDM_Params) (max_carrier_offset : Z)
        (correlation_frequency_response : list Q) :
  1 <= nb_fft p ->
  span_size correlation_frequency_response = nb_fft p ->
  let M := nb_fft p / 2 in
  let half_width := clamped_carrier_offset p max_carrier_offset in
  exists max_index max_value,
    coarse_peak_search p max_carrier_offset correlation_frequency_response
    = Ok (max_index, max_value) /\
    - half_width <= max_index <= half_width /\
    span_at correlation_frequency_response (max_index + M) = Ok max_value /\
    (forall i v, - half_width <= i <= half_width ->
       span_at correlation_frequency_response (i + M) = Ok v -> (v <= max_value)%Q) /\
    (forall i v, - half_width <= i < max_index ->
       span_at correlation_frequency_response (i + M) = Ok v -> (v < max_value)%Q).
Proof.
  intros HN Hsz. cbv zeta. unfold coarse_peak_search.
  set (N := nb_fft p) in *. set (M := N / 2).
  assert (0 <= M /\ 2 * M <= N) as [HM0 HM2].
  { unfold M. pose proof (Z.mul_div_le N 2). pose proof (Z.div_pos N 2). lia. }
  set (w := if (if max_carrier_offset <? 0 then 0 else max_carrier_offset) >? M
            then M else if max_carrier_offset <? 0 then 0 else max_carrier_offset).
  assert (w = clamped_carrier_offset p max_carrier_offset) as Hw.
  { unfold w, clamped_carrier_offset. fold N M.
    destruct (Z.ltb_spec max_carrier_offset 0);
      [destruct (Z.gtb_spec 0 M) | destruct (Z.gtb_spec max_carrier_offset M)]; lia. }
  rewrite <- Hw.
  assert (0 <= w <= M) as Hwb
      by (rewrite Hw; unfold clamped_carrier_offset; fold N M; lia).
  clearbody w.
  destruct (span_at_in_bounds correlation_frequency_response (- w + M)) as (v0 & E0);
    [lia |].
  rewrite E0. cbn [bind].
  destruct (for_range_invariant
              (coarse_peak_first_maximum p w correlation_frequency_response)
              (fun i '(max_index, max_value) =>
                 let fft_index := i + M in
                 if fft_index =? N then Ok (max_index, max_value)
                 else
                   value <- span_at correlation_frequency_response fft_index ;;
                   if Float.gtb value max_value then Ok (i, value)
                   else Ok (max_index, max_value))
              (- w) (w + 1) (- w, v0)) as ([mi mv] & E & Hinv).
  - lia.
  - unfold coarse_peak_first_maximum. cbn [fst snd]. fold N M.
    repeat split; try lia; try exact E0; intros; lia.
  - intros i [mi mv] Hi (Hr & Ev & Hmax & Hfirst). cbn [fst snd] in *.
    fold N M in Ev, Hmax, Hfirst. cbv zeta.
    destruct (Z.eqb_spec (i + M) N) as [Heq | Hne].
    + eexists. split; [reflexivity |].
      unfold coarse_peak_first_maximum. cbn [fst snd]. fold N M.
      repeat split; auto; try lia.
      intros i' v Hi' Ev'. destruct (Z.eq_dec i' i) as [-> | Hd].
      * rewrite Heq in Ev'. unfold span_at in Ev'. rewrite Hsz in Ev'.
        fold N in Ev'. rewrite Z.ltb_irrefl, andb_false_r in Ev'. discriminate.
      * apply (Hmax i' v); [lia | exact Ev'].
    + destruct (span_at_in_bounds correlation_frequency_response (i + M)) as (v & Ei);
        [lia |].
      rewrite Ei. cbn [bind].
      destruct (Float.gtb v mv) eqn:Egt; (eexists; split; [reflexivity |]);
        unfold coarse_peak_first_maximum; cbn [fst snd]; fold N M.
      * unfold Float.gtb in Egt. apply ltb_true_iff in Egt.
        repeat split; auto; try lia.
        -- intros i' v' Hi' Ev'. destruct (Z.eq_dec i' i) as [-> | Hd].
           ++ rewrite Ei in Ev'. injection Ev' as <-. apply Qle_refl.
           ++ apply Qle_trans with mv; [apply (Hmax i' v'); [lia | exact Ev'] |].
              apply Qlt_le_weak. exact Egt.
        -- intros i' v' Hi' Ev'.
           apply Qle_lt_trans with mv; [apply (Hmax i' v'); [lia | exact Ev'] | exact Egt].
      * unfold Float.gtb in Egt. apply ltb_false_iff in Egt.
        repeat split; auto; try lia.
        intros i' v' Hi' Ev'. destruct (Z.eq_dec i' i) as [-> | Hd].
        -- rewrite Ei in Ev'. injection Ev' as <-. exact Egt.
        -- apply (Hmax i' v'); [lia | exact Ev'].
  - exists mi, mv.
    destruct Hinv as (Hr & Ev & Hmax & Hfirst). cbn [fst snd] in *. fold N M in Ev, Hmax, Hfirst.
    split; [exact E |]. repeat split; auto; try lia.
    intros i v Hi. apply Hmax. lia.
Qed.

(** A response with two equal peaks: the search returns the first. *)
Lemma coarse_peak_search_first_maximum_witness :
  let response := [1; 7; 2; 7]%Q in
  let M := nb_fft example_params / 2 in
  let half_width := clamped_carrier_offset example_params 5 in
  exists max_index max_value,
    coarse_peak_search example_params 5 response = Ok (max_index, max_value) /\
    - half_width <= max_index <= half_width /\
    span_at response (max_index + M) = Ok max_value /\
    (forall i v, - half_width <= i <= half_width ->
       span_at response (i + M) = Ok v -> (v <= max_value)%Q) /\
    (forall i v, - half_width <= i < max_index ->
       span_at response (i + M) = Ok v -> (v < max_value)%Q).
Proof.
  apply (coarse_peak_search_first_maximum example_params 5 [1; 7; 2; 7]%Q);
    [vm_compute; discriminate | reflexivity].
Defined.

(** ** Index maps *)

Lemma span_at_Znth {A : Type} (l : list A) (i : Z) (a default : A) :
  span_at l i = Ok a -> Znth l i default = a.
Proof.
  unfold span_at, Znth. intros E.
  destruct (Z.leb_spec 0 i); cbn [andb] in E; [| discriminate].
  destruct (i <? span_size l); [| discriminate].
  destruct (Z.ltb_spec i 0); [lia |].
  destruct (nth_error l (Z.to_nat i)) eqn:En; [| discriminate].
  injection E as <-. apply nth_error_nth. exact En.
Qed.

Lemma span_at_map_Zseq {B : Type} (f : Z -> B) (lo n k : Z) :
  0 <= k < n -> span_at (map f (Zseq lo n)) k = Ok (f (lo + k)).
Proof.
  intros Hk. unfold span_at. rewrite span_size_map, span_size_Zseq.
  replace ((0 <=? k) && (k <? Z.max 0 n)) with true
    by (symmetry; apply andb_true_iff; lia).
  unfold Zseq. rewrite map_map.
  rewrite nth_error_map, nth_error_seq.
  destruct (Nat.ltb_spec (Z.to_nat k) (Z.to_nat n)); [| lia].
  cbn [option_map]. do 2 f_equal. lia.
Qed.

(** X12: [CalculateMagnitude] rotates the spectrum by [nb_fft / 2]: the
    cell that the peak search reads for offset [i] (index [i + nb_fft/2]) is
    [20 log10 |.|] of FFT bin [(i - nb_fft mod 2) mod nb_fft]; for an even
    [nb_fft] this is bin [i mod nb_fft], so offset 0 is the DC bin. *)
Theorem CalculateMagnitude_centres_spectrum `{Kernels} (p : OFDM_Params)
        (fft_buf : list complex) (i : Z) :
  1 <= nb_fft p -> span_size fft_buf = nb_fft p ->
  let N := nb_fft p in
  let M := N / 2 in
  - M <= i < N - M ->
  exists v,
    span_at fft_buf ((i - N mod 2) mod N) = Ok v /\
    span_at (CalculateMagnitude p fft_buf) (i + M) = Ok (20 * log10 (cabs v))%Q.
Proof.
  intros HN Hsz. cbv zeta. set (N := nb_fft p) in *. set (M := N / 2). intros Hi.
  assert (2 * M + N mod 2 = N) as HM.
  { unfold M. pose proof (Z.div_mod N 2). lia. }
  assert ((i + M + M) mod N = (i - N mod 2) mod N) as Hbin.
  { replace (i + M + M) with (i - N mod 2 + 1 * N) by lia. apply Z.mod_add. lia. }
  destruct (span_at_in_bounds fft_buf ((i - N mod 2) mod N)) as (v & Ev).
  { rewrite Hsz. fold N. apply Z.mod_pos_bound. lia. }
  exists v. split; [exact Ev |].
  unfold CalculateMagnitude. cbv zeta. fold N M.
  rewrite span_at_map_Zseq by lia. cbn beta.
  replace (0 + (i + M) + M) with (i + M + M) by lia.
  rewrite Hbin. rewrite (span_at_Znth fft_buf _ v czero Ev). reflexivity.
Qed.

(** The bin of frequency [-1] of a four-point spectrum. *)
Lemma CalculateMagnitude_centres_spectrum_witness :
  let fft_buf := [Cplx 1 0; Cplx 2 0; Cplx 3 0; Cplx 0 4] in
  exists v,
    span_at fft_buf ((-1 - 4 mod 2) mod 4) = Ok v /\
    span_at (@CalculateMagnitude example_kernels example_params fft_buf) (-1 + 4 / 2)
    = Ok (20 * @log10 example_kernels (@cabs example_kernels v))%Q.
Proof.
  apply (@CalculateMagnitude_centres_spectrum example_kernels example_params
           [Cplx 1 0; Cplx 2 0; Cplx 3 0; Cplx 0 4] (-1));
    [cbn; lia | reflexivity | cbn; lia].
Defined.

(** ** The conversion to [int] and [fmod] *)

Lemma to_int_comp (x y : Q) : (x == y)%Q -> Float.to_int x = Float.to_int y.
Proof.
  intros E. destruct (Qlt_le_dec x 0) as [Hneg | Hpos].
  - rewrite (to_int_nonpos x), (to_int_nonpos y) by lra.
    unfold Qceiling. f_equal. apply Qfloor_comp. rewrite E. reflexivity.
  - rewrite (to_int_nonneg x), (to_int_nonneg y) by lra.
    apply Qfloor_comp. exact E.
Qed.

Lemma to_int_small (x : Q) : (Qabs x < 1)%Q -> Float.to_int x = 0.
Proof.
  intros Hx. apply Qabs_Qlt_condition in Hx. destruct Hx as [Hlo Hhi].
  destruct (Qlt_le_dec x 0) as [Hneg | Hpos].
  - rewrite to_int_nonpos by lra.
    pose proof (Qle_ceiling x) as H1. pose proof (Qceiling_lt x) as H2.
    assert (inject_Z (Qceiling x) - 1 < x)%Q as H3.
    { unfold Z.sub in H2. rewrite inject_Z_plus in H2. exact H2. }
    assert (-1 < inject_Z (Qceiling x))%Q as H4 by lra.
    assert (inject_Z (Qceiling x) < 1)%Q as H5 by lra.
    change (-1)%Q with (inject_Z (-1)) in H4. change 1%Q with (inject_Z 1) in H5.
    rewrite <- Zlt_Qlt in H4, H5. lia.
  - rewrite to_int_nonneg by lra.
    pose proof (Qfloor_le x) as H1. pose proof (Qlt_floor x) as H2.
    rewrite inject_Z_plus in H2.
    assert (-1 < inject_Z (Qfloor x))%Q as H4 by (change (inject_Z 1) with 1%Q in H2; lra).
    assert (inject_Z (Qfloor x) < 1)%Q as H5 by lra.
    change (-1)%Q with (inject_Z (-1)) in H4. change 1%Q with (inject_Z 1) in H5.
    rewrite <- Zlt_Qlt in H4, H5. lia.
Qed.

Lemma fmod_small (x y : Q) : (0 < y)%Q -> (Qabs x < y)%Q -> (Float.fmod x y == x)%Q.
Proof.
  intros Hy Hx. unfold Float.fmod.
  assert (Float.to_int (x / y) = 0) as ->.
  { apply to_int_small. apply Qabs_Qlt_condition in Hx. destruct Hx as [Hlo Hhi].
    apply Qabs_Qlt_condition. split.
    - apply Qlt_shift_div_l; [exact Hy | lra].
    - apply Qlt_shift_div_r; [exact Hy | lra]. }
  change (inject_Z 0) with 0%Q. ring.
Qed.

Lemma fmod_sign (x y : Q) :
  (0 < y)%Q ->
  ((0 <= x -> 0 <= Float.fmod x y <= x) /\ (x <= 0 -> x <= Float.fmod x y <= 0))%Q.
Proof.
  intros Hy. unfold Float.fmod. set (q := (x / y)%Q).
  assert (q * y == x)%Q as Hq by (unfold q; field; lra).
  split; intros Hx.
  - assert (0 <= q)%Q as Hq0 by (unfold q; apply Qle_shift_div_l; lra).
    rewrite to_int_nonneg by exact Hq0.
    pose proof (Qfloor_le q) as Hf1.
    assert (0 <= Qfloor q) as Hf0.
    { change 0 with (Qfloor 0). apply Qfloor_resp_le. exact Hq0. }
    apply inject_Z_nonneg in Hf0. set (T := inject_Z (Qfloor q)) in *.
    assert (0 <= (q - T) * y)%Q as H1 by (apply Qmult_le_0_compat; lra).
    assert (0 <= T * y)%Q as H2 by (apply Qmult_le_0_compat; lra).
    split; lra.
  - assert (q <= 0)%Q as Hq0 by (unfold q; apply Qle_shift_div_r; lra).
    rewrite to_int_nonpos by exact Hq0.
    pose proof (Qle_ceiling q) as Hc1.
    assert (Qceiling q <= 0) as Hc0.
    { change 0 with (Qceiling 0). apply Qceiling_resp_le. exact Hq0. }
    assert (inject_Z (Qceiling q) <= 0)%Q as Hc0'.
    { change 0%Q with (inject_Z 0). rewrite <- Zle_Qle. exact Hc0. }
    set (T := inject_Z (Qceiling q)) in *.
    assert (0 <= (T - q) * y)%Q as H1 by (apply Qmult_le_0_compat; lra).
    assert (0 <= (- T) * y)%Q as H2 by (apply Qmult_le_0_compat; lra).
    split; lra.
Qed.

(** ** The size of the coordinator's correction *)








(** ** Fine time synchronisation *)

Lemma range_sum_snoc (f : Z -> Q) (lo hi : Z) :
  lo <= hi -> (range_sum f lo (hi + 1) == range_sum f lo hi + f hi)%Q.
Proof.
  intros Hle. rewrite (range_sum_split f lo hi (hi + 1)) by lia.
  assert (range_sum f hi (hi + 1) == f hi)%Q as ->; [| reflexivity].
  unfold range_sum. replace (hi + 1 - hi) with 1 by lia.
  change (Zseq hi 1) with [hi + Z.of_nat 0]. cbn [fold_left Z.of_nat].
  rewrite Z.add_0_r. ring.
Qed.

(** X16: the peak loop of [RunFineTimeSync] returns the mean of the
    impulse response as [impulse_avg], and as [impulse_max_value] the
    largest of the unweighted first cell and the weighted cells
    [probability(i) * response[i]]: no weighted cell is above it, every
    weighted cell before [impulse_max_index] is strictly below it, and it
    is either the unweighted first cell (index 0) or the weighted cell at
    [impulse_max_index]. *)
Theorem fine_time_peak_weighted_maximum (p : OFDM_Params) (c : OFDM_Demod_Config)
        (correlation_impulse_response : list Q) :
  1 <= nb_fft p ->
  span_size correlation_impulse_response = nb_fft p ->
  exists impulse_avg impulse_max_value impulse_max_index,
    fine_time_peak p c correlation_impulse_response
    = Ok (impulse_avg, impulse_max_value, impulse_max_index) /\
    0 <= impulse_max_index < nb_fft p /\
    (impulse_avg
     == range_sum (fun i => Znth correlation_impulse_response i 0%Q) 0 (nb_fft p)
        / Float.of_int (nb_fft p))%Q /\
    (forall i v, 0 <= i < nb_fft p -> span_at correlation_impulse_response i = Ok v ->
       (impulse_peak_probability p c i * v <= impulse_max_value)%Q) /\
    (forall i v, 0 <= i < impulse_max_index ->
       span_at correlation_impulse_response i = Ok v ->
       (impulse_peak_probability p c i * v < impulse_max_value)%Q) /\
    (forall v, span_at correlation_impulse_response 0 = Ok v ->
       (v <= impulse_max_value)%Q) /\
    ((impulse_max_index = 0 /\
      span_at correlation_impulse_response 0 = Ok impulse_max_value) \/
     (exists v, span_at correlation_impulse_response impulse_max_index = Ok v /\
                impulse_max_value
                = (impulse_peak_probability p c impulse_max_index * v)%Q)).
Proof.
  intros HN Hsz. unfold fine_time_peak.
  destruct (span_at_in_bounds correlation_impulse_response 0) as (v0 & E0); [lia |].
  rewrite E0. cbn [bind].
  match goal with
  | |- context [for_range 0 (nb_fft p) ?body ?init] =>
      destruct (for_range_invariant
                  (fine_time_peak_state p c correlation_impulse_response)
                  body 0 (nb_fft p) init) as ([[a m] k] & E & Hk)
  end.
  - lia.
  - unfold fine_time_peak_state. split; [lia |]. split.
    { rewrite range_sum_empty by lia. reflexivity. }
    split; [intros; lia |]. split; [intros; lia |]. split.
    { intros v Ev. rewrite E0 in Ev. injection Ev as <-. apply Qle_refl. }
    left. split; [reflexivity | exact E0].
  - intros i [[a m] k] Hi (Hk & Havg & Hmax & Hfirst & H0 & Hwhich).
    destruct (span_at_in_bounds correlation_impulse_response i) as (v & Ei); [lia |].
    rewrite Ei. cbn [bind]. cbv zeta.
    change (1 - (1 - sync_impulse_peak_distance_probability c)
                * (Float.of_int (Z.abs (nb_cyclic_prefix p - i))
                   / Float.of_int (nb_symbol_period p)))%Q
      with (impulse_peak_probability p c i).
    assert (a + v == range_sum (fun i => Znth correlation_impulse_response i 0%Q)
                               0 (i + 1))%Q as Havg'.
    { rewrite range_sum_snoc by lia. rewrite <- Havg.
      rewrite (span_at_Znth correlation_impulse_response i v 0%Q Ei). reflexivity. }
    destruct (Float.gtb (impulse_peak_probability p c i * v) m) eqn:Egt;
      (eexists; split; [reflexivity |]); unfold fine_time_peak_state.
    + unfold Float.gtb in Egt. apply ltb_true_iff in Egt.
      split; [lia |]. split; [exact Havg' |]. split; [| split; [| split]].
      * intros i' v' Hi' Ev'. destruct (Z.eq_dec i' i) as [-> | Hd].
        -- rewrite Ei in Ev'. injection Ev' as <-. apply Qle_refl.
        -- apply Qle_trans with m; [apply (Hmax i' v'); [lia | exact Ev'] |].
           apply Qlt_le_weak. exact Egt.
      * intros i' v' Hi' Ev'.
        apply Qle_lt_trans with m; [apply (Hmax i' v'); [lia | exact Ev'] | exact Egt].
      * intros v' Ev'. apply Qle_trans with m; [exact (H0 v' Ev') |].
        apply Qlt_le_weak. exact Egt.
      * right. split; [lia |]. exists v. split; [exact Ei | reflexivity].
    + unfold Float.gtb in Egt. apply ltb_false_iff in Egt.
      split; [exact Hk |]. split; [exact Havg' |]. split; [| split; [| split]].
      * intros i' v' Hi' Ev'. destruct (Z.eq_dec i' i) as [-> | Hd].
        -- rewrite Ei in Ev'. injection Ev' as <-. exact Egt.
        -- apply (Hmax i' v'); [lia | exact Ev'].
      * exact Hfirst.
      * exact H0.
      * destruct Hwhich as [Hz | (Hlt & Hv)]; [left; exact Hz | right].
        split; [lia | exact Hv].
  - rewrite E. cbn [bind]. rewrite <- E0.
    destruct Hk as (Hk & Havg & Hmax & Hfirst & H0 & Hwhich).
    eexists; eexists; eexists. split; [reflexivity |].
    split; [exact Hk |]. split.
    { rewrite Havg. reflexivity. }
    split; [exact Hmax |]. split; [exact Hfirst |]. split; [exact H0 |].
    destruct Hwhich as [Hz | (_ & Hv)]; [left; exact Hz | right; exact Hv].
Qed.

(** An impulse response whose largest value lies far from the expected
    position: the weighted search prefers the peak at the cyclic prefix. *)
Lemma fine_time_peak_weighted_maximum_witness :
  let p := example_params in
  let c := example_cfg in
  let response := [1; 50; 2; 51]%Q in
  exists impulse_avg impulse_max_value impulse_max_index,
    fine_time_peak p c response = Ok (impulse_avg, impulse_max_value, impulse_max_index) /\
    0 <= impulse_max_index < nb_fft p /\
    (impulse_avg
     == range_sum (fun i => Znth response i 0%Q) 0 (nb_fft p)
        / Float.of_int (nb_fft p))%Q /\
    (forall i v, 0 <= i < nb_fft p -> span_at response i = Ok v ->
       (impulse_peak_probability p c i * v <= impulse_max_value)%Q) /\
    (forall i v, 0 <= i < impulse_max_index -> span_at response i = Ok v ->
       (impulse_peak_probability p c i * v < impulse_max_value)%Q) /\
    (forall v, span_at response 0 = Ok v -> (v <= impulse_max_value)%Q) /\
    ((impulse_max_index = 0 /\ span_at response 0 = Ok impulse_max_value) \/
     (exists v, span_at response impulse_max_index = Ok v /\
                impulse_max_value
                = (impulse_peak_probability p c impulse_max_index * v)%Q)).
Proof.
  apply (fine_time_peak_weighted_maximum example_params example_cfg [1; 50; 2; 51]%Q);
    [cbn; lia | reflexivity].
Defined.

(** X17: when the peak is at least [impulse_peak_threshold_db] above the
    mean, [RunFineTimeSync] returns with no sample taken in state
    [READING_SYMBOLS]; [fine_time_offset] is the peak index less the cyclic
    prefix, within [[-nb_cyclic_prefix, nb_fft - nb_cyclic_prefix)]; the
    inactive frame buffer holds the [nb_symbol_period - fine_time_offset]
    captured samples from the detected start of the PRS on; the
    correlation buffer is emptied; and [total_frames_desync] and the two
    frequency offsets are unchanged.  (For [nb_cyclic_prefix <=
    nb_null_period], in a state reachable from the constructor.) *)
Theorem RunFineTimeSync_locks `{Kernels} (d : OFDM_Demod) (buf : list complex)
        (impulse_avg impulse_max_value : Q) (impulse_max_index : Z) :
  reachable d -> params_ok (params d) ->
  nb_cyclic_prefix (params d) <= nb_null_period (params d) ->
  fine_time_peak (params d) (cfg d) (fine_time_impulse_response d)
  = Ok (impulse_avg, impulse_max_value, impulse_max_index) ->
  (sync_impulse_peak_threshold_db (cfg d) <= impulse_max_value - impulse_avg)%Q ->
  let p := params d in
  let offset := impulse_max_index - nb_cyclic_prefix p in
  exists d',
    RunFineTimeSync d buf = Ok (d', 0) /\
    state d' = READING_SYMBOLS /\
    fine_time_offset d' = offset /\
    - nb_cyclic_prefix p <= offset < nb_fft p - nb_cyclic_prefix p /\
    rb_length (inactive_buffer d') = nb_symbol_period p - offset /\
    (forall k, 0 <= k < nb_symbol_period p - offset ->
       span_at (rb_data (inactive_buffer d')) k
       = span_at (rb_data (correlation_time_buffer d)) (nb_null_period p + offset + k)) /\
    rb_length (correlation_time_buffer d') = 0 /\
    total_frames_desync d' = total_frames_desync d /\
    freq_coarse_offset d' = freq_coarse_offset d /\
    freq_fine_offset d' = freq_fine_offset d.
Proof.
  intros Hreach Hpar Hcpn E Hthr. cbv zeta.
  destruct (reachable_demod_ok d Hreach Hpar) as [Hp Hb].
  destruct Hp as (HN & Hcp & HP & Hnull & HF).
  destruct Hb as (Hc1 & Hc2 & Hi1 & Hi2 & Ha & Hn1 & Hn2 & _ & _).
  destruct (fine_time_peak_Ok (params d) (cfg d) (fine_time_impulse_response d) HN)
    as (avg & mv & idx & E' & Hidx).
  { rewrite span_size_fine_time_impulse_response. lia. }
  rewrite E in E'. injection E' as <- <- <-.
  unfold RunFineTimeSync. cbv zeta. rewrite E. cbn [bind].
  assert (Float.ltb (impulse_max_value - impulse_avg)
                    (sync_impulse_peak_threshold_db (cfg d)) = false) as ->
      by (apply ltb_false_iff; exact Hthr).
  set (p := params d) in *.
  set (offset := impulse_max_index - nb_cyclic_prefix p).
  set (prs_buf := slice (rb_data (correlation_time_buffer d))
                        (nb_null_period p + offset) (nb_symbol_period p - offset)).
  unfold rb_capacity in *.
  assert (span_size prs_buf = nb_symbol_period p - offset) as Hprs
      by (apply span_size_slice; unfold offset; lia).
  assert (nb_symbol_period p - offset <= frame_buffer_capacity p) as Hroom
      by (unfold frame_buffer_capacity, offset; nia).
  eexists. split; [reflexivity |].
  unfold rb_ConsumeBuffer, rb_capacity. demod_cbn. rewrite Hprs, Hi1.
  replace (Z.max 0 (Z.min (nb_symbol_period p - offset) (frame_buffer_capacity p - 0)))
    with (nb_symbol_period p - offset) by (unfold offset; lia).
  repeat split; auto; try (unfold offset; lia).
  intros k Hk.
  assert (span_size (slice prs_buf 0 (nb_symbol_period p - offset))
          = nb_symbol_period p - offset) as Hsl
      by (apply span_size_slice; unfold offset in *; lia).
  rewrite span_at_blit_inside by (rewrite ?Hsl; unfold offset in *; lia).
  rewrite Z.sub_0_r, span_at_slice by (unfold offset in *; lia).
  unfold prs_buf. rewrite span_at_slice by (unfold offset in *; lia).
  reflexivity.
Qed.

Lemma example_fine_sync_reachable :
  @reachable example_kernels example_fine_sync_demod.
Proof.
  eapply reachable_step.
  - apply (@Process_reachable example_kernels 30 example_demod example_coarse_sync_demod
             (firstn 9 example_long_batch) 9).
    + vm_compute. reflexivity.
    + apply (@reachable_new example_kernels).
  - apply (@step_handler example_kernels 0 example_coarse_sync_demod []
                         example_fine_sync_demod 0).
    vm_compute. reflexivity.
Qed.

(** The example demodulator with the PRS of the longer batch captured:
    the peak of the impulse response is at the cyclic prefix. *)
Lemma RunFineTimeSync_locks_witness :
  let H := example_kernels in
  let d := example_fine_sync_demod in
  let p := params d in
  let offset := 1 - nb_cyclic_prefix p in
  exists d',
    RunFineTimeSync d [] = Ok (d', 0) /\
    state d' = READING_SYMBOLS /\
    fine_time_offset d' = offset /\
    - nb_cyclic_prefix p <= offset < nb_fft p - nb_cyclic_prefix p /\
    rb_length (inactive_buffer d') = nb_symbol_period p - offset /\
    (forall k, 0 <= k < nb_symbol_period p - offset ->
       span_at (rb_data (inactive_buffer d')) k
       = span_at (rb_data (correlation_time_buffer d)) (nb_null_period p + offset + k)) /\
    rb_length (correlation_time_buffer d') = 0 /\
    total_frames_desync d' = total_frames_desync d /\
    freq_coarse_offset d' = freq_coarse_offset d /\
    freq_fine_offset d' = freq_fine_offset d.
Proof.
  apply (@RunFineTimeSync_locks example_kernels example_fine_sync_demod []
           (120 # 4)%Q (30000 # 500)%Q 1).
  - exact example_fine_sync_reachable.
  - vm_compute. intuition discriminate.
  - vm_compute. discriminate.
  - vm_compute. reflexivity.
  - vm_compute. discriminate.
Defined.


(** ** [CalculateRelativePhase] on aliased spans *)

Lemma span_ext {A : Type} (l1 l2 : list A) :
  span_size l1 = span_size l2 ->
  (forall k, 0 <= k < span_size l1 -> span_at l1 k = span_at l2 k) ->
  l1 = l2.
Proof.
  intros Hsz Hat. apply nth_error_ext. intros n.
  destruct (Nat.ltb_spec n (length l1)) as [Hlt | Hge].
  - specialize (Hat (Z.of_nat n)). unfold span_at, span_size in *.
    replace ((0 <=? Z.of_nat n) && (Z.of_nat n <? Z.of_nat (length l1))) with true in Hat
      by (symmetry; apply andb_true_iff; lia).
    replace ((0 <=? Z.of_nat n) && (Z.of_nat n <? Z.of_nat (length l2))) with true in Hat
      by (symmetry; apply andb_true_iff; lia).
    rewrite Nat2Z.id in Hat. specialize (Hat ltac:(lia)).
    destruct (nth_error l1 n) eqn:E1, (nth_error l2 n) eqn:E2; congruence.
  - unfold span_size in Hsz.
    rewrite (proj2 (nth_error_None l1 n)), (proj2 (nth_error_None l2 n)) by lia.
    reflexivity.
Qed.

Lemma CalculateRelativePhase_cells (p : OFDM_Params) (fft_in : list complex) (k : Z) :
  0 <= k < nb_fft p ->
  span_at (CalculateRelativePhase p fft_in) k = Ok (relative_phase_cell p fft_in k).
Proof.
  intros Hk. unfold CalculateRelativePhase. cbv zeta.
  rewrite span_at_map_Zseq by lia. reflexivity.
Qed.

Lemma relative_phase_written_all (p : OFDM_Params) (fft_in rest out : list complex) :
  relative_phase_written p fft_in rest (nb_fft p) out ->
  out = CalculateRelativePhase p fft_in.
Proof.
  intros (Hsz & Hdone & _). apply span_ext.
  - rewrite Hsz. unfold CalculateRelativePhase. cbv zeta.
    rewrite span_size_map, span_size_Zseq. pose proof (span_size_nonneg out). lia.
  - intros k Hk. rewrite Hsz in Hk.
    rewrite Hdone, CalculateRelativePhase_cells by lia. reflexivity.
Qed.

Lemma relative_phase_written_step (p : OFDM_Params) (fft_in rest out : list complex)
      (i : Z) (v : complex) :
  0 <= i < nb_fft p ->
  v = relative_phase_cell p fft_in i ->
  relative_phase_written p fft_in rest i out ->
  relative_phase_written p fft_in rest (i + 1) (list_set out (Z.to_nat i) v).
Proof.
  intros Hi -> (Hsz & Hdone & Hrest). unfold relative_phase_written.
  rewrite span_size_list_set. split; [exact Hsz |]. split.
  - intros k Hk. destruct (Z.eq_dec k i) as [-> | Hne].
    + apply span_at_list_set_eq. lia.
    + rewrite span_at_list_set_neq by lia. apply Hdone. lia.
  - intros k Hk. rewrite span_at_list_set_neq by lia. apply Hrest. lia.
Qed.

(** X18: [CalculateRelativePhase] may run in place.  Called with the same
    span as input and output, as [RunCoarseFreqSync] does, its loop writes
    cell [i] before it reads cell [i + 1], and the result is the one it
    computes into a separate output: [conj(in[i]) * in[i + 1]] in every
    cell but the last, which is zero; the input of the separate call is
    left as it was. *)
Theorem CalculateRelativePhase_in_place_agrees (p : OFDM_Params) (buf : list complex) :
  1 <= nb_fft p -> span_size buf = nb_fft p ->
  CalculateRelativePhase_in_place p buf = Ok (CalculateRelativePhase p buf) /\
  (forall arg_out, span_size arg_out = nb_fft p ->
     CalculateRelativePhase_separate p buf arg_out
     = Ok (buf, CalculateRelativePhase p buf)).
Proof.
  intros HN Hsz. set (N := nb_fft p) in *. split.
  - unfold CalculateRelativePhase_in_place, CalculateRelativePhase_on. cbv zeta. fold N.
    destruct (for_range_invariant
                (relative_phase_written p buf buf)
                (fun i mem =>
                   a <- span_at mem i ;;
                   b <- span_at mem (i + 1) ;;
                   span_set mem i (cmul (cconj a) b))
                0 (N - 1) buf) as (out & E & Hout).
    + lia.
    + unfold relative_phase_written. fold N. repeat split; auto. intros; lia.
    + intros i mem Hi Hw. pose proof Hw as (Hmsz & Hdone & Hrest). fold N in Hmsz, Hrest.
      destruct (span_at_in_bounds buf i) as (a & Ea); [lia |].
      destruct (span_at_in_bounds buf (i + 1)) as (b & Eb); [lia |].
      rewrite (Hrest i), Ea by lia. cbn [bind].
      rewrite (Hrest (i + 1)), Eb by lia. cbn [bind].
      rewrite span_set_Ok by lia.
      eexists. split; [reflexivity |].
      apply relative_phase_written_step; [fold N; lia | | exact Hw].
      unfold relative_phase_cell. fold N.
      destruct (Z.ltb_spec i (N - 1)); [| lia].
      rewrite (span_at_Znth buf i a czero Ea), (span_at_Znth buf (i + 1) b czero Eb).
      reflexivity.
    + rewrite E. cbn [bind].
      pose proof Hout as (Hmsz & _). fold N in Hmsz.
      rewrite span_set_Ok by lia. f_equal.
      apply (relative_phase_written_all p buf buf).
      replace (nb_fft p) with (N - 1 + 1) by (unfold N; lia).
      apply relative_phase_written_step; [fold N; lia | | exact Hout].
      unfold relative_phase_cell. fold N.
      destruct (Z.ltb_spec (N - 1) (N - 1)); [lia | reflexivity].
  - intros arg_out Hosz.
    unfold CalculateRelativePhase_separate, CalculateRelativePhase_on. cbv zeta. fold N.
    destruct (for_range_invariant
                (fun j (mem : list complex * list complex) =>
                   fst mem = buf /\ relative_phase_written p buf arg_out j (snd mem))
                (fun i (mem : list complex * list complex) =>
                   a <- span_at (fst mem) i ;;
                   b <- span_at (fst mem) (i + 1) ;;
                   out <- span_set (snd mem) i (cmul (cconj a) b) ;;
                   Ok (fst mem, out))
                0 (N - 1) (buf, arg_out)) as ([m_in m_out] & E & Hin & Hout).
    + lia.
    + cbn [fst snd]. split; [reflexivity |].
      unfold relative_phase_written. fold N. repeat split; auto. intros; lia.
    + intros i [m_in m_out] Hi [Hin Hw]. cbn [fst snd] in *. subst m_in.
      pose proof Hw as (Hmsz & Hdone & Hrest). fold N in Hmsz, Hrest.
      destruct (span_at_in_bounds buf i) as (a & Ea); [lia |].
      destruct (span_at_in_bounds buf (i + 1)) as (b & Eb); [lia |].
      rewrite Ea, Eb. cbn [bind]. rewrite span_set_Ok by lia. cbn [bind].
      eexists. split; [reflexivity |]. cbn [fst snd]. split; [reflexivity |].
      apply relative_phase_written_step; [fold N; lia | | exact Hw].
      unfold relative_phase_cell. fold N.
      destruct (Z.ltb_spec i (N - 1)); [| lia].
      rewrite (span_at_Znth buf i a czero Ea), (span_at_Znth buf (i + 1) b czero Eb).
      reflexivity.
    + rewrite E. cbn [bind fst snd] in *. subst m_in.
      pose proof Hout as (Hmsz & _). fold N in Hmsz.
      rewrite span_set_Ok by lia. cbn [bind]. do 2 f_equal.
      apply (relative_phase_written_all p buf arg_out).
      replace (nb_fft p) with (N - 1 + 1) by (unfold N; lia).
      apply relative_phase_written_step; [fold N; lia | | exact Hout].
      unfold relative_phase_cell. fold N.
      destruct (Z.ltb_spec (N - 1) (N - 1)); [lia | reflexivity].
Qed.

(** A four-point spectrum, in place and into a second buffer. *)
Lemma CalculateRelativePhase_in_place_agrees_witness :
  let buf := [Cplx 1 0; Cplx 0 1; Cplx (-1) 0; Cplx 0 (-1)] in
  CalculateRelativePhase_in_place example_params buf
  = Ok (CalculateRelativePhase example_params buf) /\
  (forall arg_out, span_size arg_out = nb_fft example_params ->
     CalculateRelativePhase_separate example_params buf arg_out
     = Ok (buf, CalculateRelativePhase example_params buf)).
Proof.
  apply (CalculateRelativePhase_in_place_agrees example_params
           [Cplx 1 0; Cplx 0 1; Cplx (-1) 0; Cplx 0 (-1)]);
    [cbn; lia | reflexivity].
Defined.

(** ** The shares of the workers *)

Lemma ceil_quotient_spec (r t : Z) :
  1 <= t -> let s := - ((- r) / t) in r <= s * t /\ (s - 1) * t < r.
Proof.
  intros Ht. cbv zeta.
  pose proof (Z.mul_div_le (- r) t ltac:(lia)).
  pose proof (Z.mul_succ_div_gt (- r) t ltac:(lia)).
  nia.
Qed.

Lemma CreateThreads_loop_balanced (nb_syms nb_threads q c : Z) :
  0 <= q <= c ->
  forall (n : nat) (i start : Z),
    Z.of_nat n = nb_threads - i ->
    q * (nb_threads - i) <= nb_syms - start <= c * (nb_threads - i) ->
    Forall (fun pl => q <= symbol_end pl - symbol_start pl <= c)
           (CreateThreads_loop n nb_syms nb_threads i start).
Proof.
  intros Hqc. induction n as [| n IH]; intros i start Hn Hrem; [constructor |].
  cbn [CreateThreads_loop]. rewrite ceil_to_int_quotient.
  destruct (Z.eqb_spec i (nb_threads - 1)) as [Hlast | Hmore].
  - assert (n = 0%nat) as -> by lia. constructor; [| constructor].
    cbn [symbol_start symbol_end]. nia.
  - pose proof (ceil_quotient_spec (nb_syms - start) (nb_threads - i) ltac:(lia)) as Hs.
    cbv zeta in Hs. set (s := - (- (nb_syms - start) / (nb_threads - i))) in *.
    assert (q <= s <= c) as Hsize by nia.
    constructor.
    + cbn [symbol_start symbol_end]. lia.
    + apply IH; [lia |].
      replace (nb_threads - (i + 1)) with (nb_threads - i - 1) by lia.
      replace (nb_syms - (start + s)) with (nb_syms - start - s) by lia.
      split; nia.
Qed.

(** X19: the symbol ranges that [CreateThreads] carves are balanced: with
    [W >= 1] workers for [S = nb_frame_symbols + 1] symbols, every worker
    gets at least [floor(S / W) >= 1] and at most [ceil(S / W)] symbols, so
    none is empty. *)
Theorem CreateThreads_balanced (p : OFDM_Params)
        (total_system_threads nb_desired_threads : Z) :
  0 <= nb_frame_symbols p ->
  1 <= CreateThreads_nb_threads p total_system_threads nb_desired_threads ->
  let nb_syms := nb_frame_symbols p + 1 in
  let nb_threads := CreateThreads_nb_threads p total_system_threads nb_desired_threads in
  1 <= nb_syms / nb_threads /\
  Forall (fun pl =>
            nb_syms / nb_threads <= symbol_end pl - symbol_start pl
            <= (nb_syms + nb_threads - 1) / nb_threads)
         (CreateThreads p total_system_threads nb_desired_threads).
Proof.
  intros HF HW. cbv zeta.
  set (W := CreateThreads_nb_threads p total_system_threads nb_desired_threads) in *.
  set (S := nb_frame_symbols p + 1).
  assert (W <= S) as HWS.
  { unfold W, S, CreateThreads_nb_threads in *.
    destruct (Z.gtb_spec nb_desired_threads 0); [lia |].
    destruct (Z.gtb_spec (Z.min (nb_frame_symbols p + 1) total_system_threads) 1); lia. }
  assert (1 <= S / W) as Hq by (apply Z.div_le_lower_bound; lia).
  split; [exact Hq |].
  unfold CreateThreads. fold W S.
  pose proof (Z.mul_div_le S W ltac:(lia)).
  pose proof (Z.mul_succ_div_gt (S + W - 1) W ltac:(lia)).
  pose proof (Z.div_le_mono S (S + W - 1) W ltac:(lia) ltac:(lia)).
  apply CreateThreads_loop_balanced; lia.
Qed.

(** Four workers on a frame of ten symbols and the NULL symbol. *)
Lemma CreateThreads_balanced_witness :
  let p := {| nb_frame_symbols := 10; nb_symbol_period := 5; nb_null_period := 3;
              nb_data_carriers := 2; nb_fft := 4; nb_cyclic_prefix := 1 |} in
  let nb_syms := nb_frame_symbols p + 1 in
  let nb_threads := CreateThreads_nb_threads p 8 4 in
  1 <= nb_syms / nb_threads /\
  Forall (fun pl =>
            nb_syms / nb_threads <= symbol_end pl - symbol_start pl
            <= (nb_syms + nb_threads - 1) / nb_threads)
         (CreateThreads p 8 4).
Proof.
  apply (CreateThreads_balanced
           {| nb_frame_symbols := 10; nb_symbol_period := 5; nb_null_period := 3;
              nb_data_carriers := 2; nb_fft := 4; nb_cyclic_prefix := 1 |} 8 4);
    vm_compute; discriminate.
Defined.

(** ** The stages of the workers, put together *)

Lemma calculate_fft_split `{Kernels} (p : OFDM_Params) (active buffer : list complex)
      (a b c : Z) :
  a <= b <= c ->
  calculate_fft p active buffer a c
  = calculate_fft p active (calculate_fft p active buffer a b) b c.
Proof.
  intros Habc. unfold calculate_fft.
  replace (c - a) with ((b - a) + (c - b)) by lia.
  rewrite Zseq_app, fold_left_app by lia.
  replace (a + (b - a)) with b by lia. reflexivity.
Qed.

Lemma workers_fft_contiguous `{Kernels} (p : OFDM_Params) (active : list complex)
      (stop : Z) :
  forall (pipelines : list OFDM_Demod_Pipeline) (start : Z) (buffer : list complex),
    contiguous_ranges start pipelines stop ->
    Forall (fun pl => 1 <= symbol_end pl - symbol_start pl) pipelines ->
    fold_left (PipelineThread_fft p active) pipelines buffer
    = calculate_fft p active buffer start stop.
Proof.
  induction pipelines as [| pl rest IH]; intros start buffer Hc Hne.
  - simpl in Hc. subst stop. unfold calculate_fft. rewrite Zseq_nil by lia. reflexivity.
  - destruct Hc as (Hs & Hle & Hrest). inversion Hne as [| ? ? Hpl Hne']; subst.
    cbn [fold_left]. rewrite (IH (symbol_end pl) _ Hrest Hne').
    unfold PipelineThread_fft. cbv zeta.
    assert (symbol_end pl <= stop) as Hstop.
    { clear - Hrest. revert Hrest. generalize (symbol_end pl).
      induction rest as [| q rest IHr]; intros e Hr; simpl in Hr; [lia |].
      destruct Hr as (_ & Hq & Hr). specialize (IHr _ Hr). lia. }
    rewrite <- (calculate_fft_split p active buffer (symbol_start pl)
                  (symbol_start pl + 1) (symbol_end pl)) by lia.
    rewrite <- (calculate_fft_split p active buffer (symbol_start pl)
                  (symbol_end pl) stop) by lia.
    reflexivity.
Qed.

Lemma CreateThreads_nonempty_ranges (p : OFDM_Params) (total nb_desired : Z) :
  0 <= nb_frame_symbols p ->
  1 <= CreateThreads_nb_threads p total nb_desired ->
  Forall (fun pl => 1 <= symbol_end pl - symbol_start pl)
         (CreateThreads p total nb_desired).
Proof.
  intros HF HW.
  set (W := CreateThreads_nb_threads p total nb_desired) in *.
  assert (W <= nb_frame_symbols p + 1) as HWS.
  { unfold W, CreateThreads_nb_threads in *.
    destruct (Z.gtb_spec nb_desired 0); [lia |].
    destruct (Z.gtb_spec (Z.min (nb_frame_symbols p + 1) total) 1); lia. }
  unfold CreateThreads. fold W.
  eapply Forall_impl;
    [| apply (CreateThreads_loop_balanced (nb_frame_symbols p + 1) W 1
                (nb_frame_symbols p + 1)); first [lia | nia]].
  intros pl Hpl. cbv beta in Hpl. lia.
Qed.

(** X20: the FFT stages of the workers of [CreateThreads] (the first
    symbol of a worker, then its others) fill [pipeline_fft_buffer] as one
    pass of [calculate_fft] over the whole frame does: every cell
    [fft[s][k]], the NULL symbol included, is bin [k] of the FFT of symbol
    [s] with its cyclic prefix removed. *)
Theorem PipelineThread_fft_covers_frame `{Kernels} (p : OFDM_Params)
        (active pipeline_fft_buffer : list complex)
        (total_system_threads nb_desired_threads : Z) :
  fft_preserves_size -> params_ok p ->
  span_size active = frame_buffer_capacity p ->
  span_size pipeline_fft_buffer = (nb_frame_symbols p + 1) * nb_fft p ->
  1 <= CreateThreads_nb_threads p total_system_threads nb_desired_threads ->
  let after :=
    fold_left (PipelineThread_fft p active)
              (CreateThreads p total_system_threads nb_desired_threads)
              pipeline_fft_buffer in
  after = calculate_fft p active pipeline_fft_buffer 0 (nb_frame_symbols p + 1) /\
  (forall s k, 0 <= s <= nb_frame_symbols p -> 0 <= k < nb_fft p ->
     fft_cell p after s k = span_at (symbol_fft p active s) k).
Proof.
  intros Hfft Hp Hact Hbuf HW. cbv zeta.
  assert (0 <= nb_frame_symbols p) as HF by (destruct Hp as (_ & _ & _ & _ & HF); lia).
  rewrite (workers_fft_contiguous p active (nb_frame_symbols p + 1) _ 0).
  - split; [reflexivity |]. intros s k Hs Hk.
    apply calculate_fft_cell; assumption.
  - apply CreateThreads_contiguous; assumption.
  - apply CreateThreads_nonempty_ranges; assumption.
Qed.

(** Two workers on the example frame. *)
Lemma PipelineThread_fft_covers_frame_witness :
  let H := example_kernels in
  let p := example_params in
  let active := example_active_buffer in
  let before := repeat czero 12 in
  let after := fold_left (PipelineThread_fft p active) (CreateThreads p 8 2) before in
  after = calculate_fft p active before 0 (nb_frame_symbols p + 1) /\
  (forall s k, 0 <= s <= nb_frame_symbols p -> 0 <= k < nb_fft p ->
     fft_cell p after s k = span_at (symbol_fft p active s) k).
Proof.
  apply (@PipelineThread_fft_covers_frame example_kernels example_params
           example_active_buffer (repeat czero 12) 8 2).
  - intros l. reflexivity.
  - vm_compute. intuition discriminate.
  - reflexivity.
  - reflexivity.
  - vm_compute. discriminate.
Defined.

Lemma for_loop_app {St : Type} (body : Z -> St -> result St) :
  forall (n m : nat) (i : Z) (s : St),
    for_loop (n + m) i body s
    = (s' <- for_loop n i body s ;; for_loop m (i + Z.of_nat n) body s').
Proof.
  induction n as [| n IH]; intros m i s.
  - cbn [for_loop Nat.add bind Z.of_nat]. rewrite Z.add_0_r. reflexivity.
  - cbn [for_loop Nat.add]. destruct (body i s) as [s1 | f]; cbn [bind]; [| reflexivity].
    rewrite IH. replace (i + 1 + Z.of_nat n) with (i + Z.of_nat (S n)) by lia.
    reflexivity.
Qed.

Lemma for_range_split {St : Type} (body : Z -> St -> result St) (a b c : Z) (s : St) :
  a <= b <= c ->
  for_range a c body s = (s' <- for_range a b body s ;; for_range b c body s').
Proof.
  intros Habc. unfold for_range.
  replace (Z.to_nat (c - a)) with (Z.to_nat (b - a) + Z.to_nat (c - b))%nat by lia.
  rewrite for_loop_app. replace (a + Z.of_nat (Z.to_nat (b - a))) with b by lia.
  reflexivity.
Qed.

Lemma calculate_dqpsk_split (HIGH : Z) (p : OFDM_Params) (mapper : list Z)
      (fft_buffer : list complex) (a b c : Z) (bufs : list complex * list Z) :
  a <= b <= c ->
  calculate_dqpsk HIGH p mapper fft_buffer a c bufs
  = (bufs <- calculate_dqpsk HIGH p mapper fft_buffer a b bufs ;;
     calculate_dqpsk HIGH p mapper fft_buffer b c bufs).
Proof. intros Habc. unfold calculate_dqpsk. apply for_range_split. exact Habc. Qed.

Lemma contiguous_ranges_end (pipelines : list OFDM_Demod_Pipeline) :
  forall start stop, contiguous_ranges start pipelines stop -> start <= stop.
Proof.
  induction pipelines as [| pl rest IH]; intros start stop Hc; simpl in Hc; [lia |].
  destruct Hc as (_ & Hle & Hrest). specialize (IH _ _ Hrest). lia.
Qed.

Lemma workers_dqpsk_contiguous (HIGH : Z) (p : OFDM_Params) (mapper : list Z)
      (fft_buffer : list complex) :
  forall (pipelines : list OFDM_Demod_Pipeline) (start : Z)
         (bufs : list complex * list Z),
    pipelines <> [] ->
    contiguous_ranges start pipelines (nb_frame_symbols p + 1) ->
    Forall (fun pl => 2 <= symbol_end pl - symbol_start pl) pipelines ->
    workers_dqpsk HIGH p mapper fft_buffer pipelines bufs
    = calculate_dqpsk HIGH p mapper fft_buffer start (nb_frame_symbols p - 1) bufs.
Proof.
  induction pipelines as [| pl rest IH]; intros start bufs Hne Hc Hsz; [congruence |].
  destruct Hc as (Hs & Hle & Hrest). inversion Hsz as [| ? ? Hpl Hsz']; subst.
  cbn [workers_dqpsk]. cbv zeta. unfold PipelineThread_dqpsk. cbv zeta.
  destruct rest as [| pl' rest'].
  - simpl in Hrest. rewrite Hrest.
    replace (Z.min (nb_frame_symbols p + 1) (nb_frame_symbols p - 1))
      with (nb_frame_symbols p - 1) by lia.
    destruct (calculate_dqpsk HIGH p mapper fft_buffer (symbol_start pl)
                              (nb_frame_symbols p - 1) bufs); reflexivity.
  - assert (symbol_end pl + 2 <= nb_frame_symbols p + 1) as Hroom.
    { destruct Hrest as (Hs' & _ & Hrest'). inversion Hsz' as [| ? ? Hpl' _]; subst.
      pose proof (contiguous_ranges_end _ _ _ Hrest'). lia. }
    replace (Z.min (symbol_end pl) (nb_frame_symbols p - 1)) with (symbol_end pl) by lia.
    rewrite (calculate_dqpsk_split HIGH p mapper fft_buffer (symbol_start pl)
               (symbol_end pl) (nb_frame_symbols p - 1)) by lia.
    rewrite (calculate_dqpsk_split HIGH p mapper fft_buffer (symbol_start pl)
               (symbol_end pl - 1) (symbol_end pl)) by lia.
    destruct (calculate_dqpsk HIGH p mapper fft_buffer (symbol_start pl)
                              (symbol_end pl - 1) bufs) as [b1 | f]; cbn [bind];
      [| reflexivity].
    destruct (calculate_dqpsk HIGH p mapper fft_buffer (symbol_end pl - 1)
                              (symbol_end pl) b1) as [b2 | f]; cbn [bind];
      [| reflexivity].
    apply IH; [discriminate | exact Hrest | exact Hsz'].
Qed.

(** X21: when every worker has at least two symbols
    ([2 * W <= nb_frame_symbols + 1]), the DQPSK stages of the workers of
    [CreateThreads], run one after the other, do what one pass of
    [calculate_dqpsk] over the symbol pairs [[0, nb_frame_symbols - 1)]
    does: every pair is demodulated once, by one worker, and the results
    (or the fault) are the same. *)
Theorem workers_dqpsk_covers_frame (HIGH : Z) (p : OFDM_Params) (mapper : list Z)
        (pipeline_fft_buffer : list complex)
        (total_system_threads nb_desired_threads : Z)
        (bufs : list complex * list Z) :
  0 <= nb_frame_symbols p ->
  1 <= CreateThreads_nb_threads p total_system_threads nb_desired_threads ->
  2 * CreateThreads_nb_threads p total_system_threads nb_desired_threads
  <= nb_frame_symbols p + 1 ->
  workers_dqpsk HIGH p mapper pipeline_fft_buffer
                (CreateThreads p total_system_threads nb_desired_threads) bufs
  = calculate_dqpsk HIGH p mapper pipeline_fft_buffer 0 (nb_frame_symbols p - 1) bufs.
Proof.
  intros HF HW H2.
  set (W := CreateThreads_nb_threads p total_system_threads nb_desired_threads) in *.
  apply workers_dqpsk_contiguous.
  - intros Hnil. pose proof (span_size_CreateThreads p total_system_threads
                               nb_desired_threads) as Hsz.
    rewrite Hnil in Hsz. fold W in Hsz. unfold span_size in Hsz. simpl in Hsz. lia.
  - apply CreateThreads_contiguous; assumption.
  - unfold CreateThreads. fold W.
    assert (2 <= (nb_frame_symbols p + 1) / W) as Hq
        by (apply Z.div_le_lower_bound; lia).
    pose proof (Z.mul_div_le (nb_frame_symbols p + 1) W ltac:(lia)).
    eapply Forall_impl;
      [| apply (CreateThreads_loop_balanced (nb_frame_symbols p + 1) W
                  ((nb_frame_symbols p + 1) / W) (nb_frame_symbols p + 1)); nia].
    intros pl Hpl. cbv beta in Hpl. lia.
Qed.

(** Two workers on a frame of three data symbols and the NULL symbol. *)
Lemma workers_dqpsk_covers_frame_witness :
  let p := example_long_params in
  let bufs := (repeat czero 8, repeat 0 8) in
  workers_dqpsk 127 p [1; 0] example_long_fft_buffer (CreateThreads p 8 2) bufs
  = calculate_dqpsk 127 p [1; 0] example_long_fft_buffer 0 (nb_frame_symbols p - 1) bufs.
Proof.
  apply (workers_dqpsk_covers_frame 127 example_long_params [1; 0]
           example_long_fft_buffer 8 2 (repeat czero 8, repeat 0 8));
    vm_compute; discriminate.
Defined.

(** ** The PLL stage touches the worker's own symbols only *)

Lemma NoDup_Zseq (lo n : Z) : NoDup (Zseq lo n).
Proof.
  unfold Zseq. generalize (seq_NoDup (Z.to_nat n) 0).
  generalize (seq 0 (Z.to_nat n)). intros l Hnd.
  induction Hnd as [| a l Hnotin Hnd IH]; cbn [map]; constructor; [| exact IH].
  intros Hin. apply in_map_iff in Hin. destruct Hin as (b & Hb & Hin).
  assert (b = a) by lia. subst b. contradiction.
Qed.

Section FramePLL.

Context `{Kernels}.
Variables (p : OFDM_Params) (frequency_offset : Q).
Hypothesis pll_size : pll_preserves_size.
Hypothesis mode_ok : params_ok p.

Lemma symbol_period_pos : 1 <= nb_symbol_period p.
Proof. destruct mode_ok as (HN & Hcp & HP & _). lia. Qed.

Lemma span_size_GetDataSymbol (buffer : list complex) (i : Z) :
  span_size buffer = frame_buffer_capacity p -> 0 <= i <= nb_frame_symbols p ->
  span_size (GetDataSymbol p buffer i) = nb_symbol_period p.
Proof.
  intros Hsz Hi. pose proof symbol_period_pos as Hsp.
  unfold GetDataSymbol. apply span_size_slice; try nia.
  rewrite Hsz. unfold frame_buffer_capacity. nia.
Qed.

Lemma span_size_symbol_pll (buffer : list complex) (i : Z) :
  span_size buffer = frame_buffer_capacity p -> 0 <= i <= nb_frame_symbols p ->
  span_size (symbol_pll p frequency_offset buffer i) = nb_symbol_period p.
Proof.
  intros Hsz Hi. unfold symbol_pll. rewrite pll_size.
  apply span_size_GetDataSymbol; assumption.
Qed.

Lemma GetDataSymbol_blit_other (buffer src : list complex) (i s : Z) :
  span_size buffer = frame_buffer_capacity p ->
  span_size src = nb_symbol_period p ->
  0 <= i <= nb_frame_symbols p -> 0 <= s <= nb_frame_symbols p -> s <> i ->
  GetDataSymbol p (blit buffer (i * nb_symbol_period p) src) s = GetDataSymbol p buffer s.
Proof.
  intros Hsz Hsrc Hi Hs Hne. pose proof symbol_period_pos as Hsp.
  assert (span_size (blit buffer (i * nb_symbol_period p) src) = frame_buffer_capacity p)
    as Hsz' by (rewrite span_size_blit; exact Hsz).
  apply span_ext.
  - rewrite !span_size_GetDataSymbol by assumption. reflexivity.
  - intros k Hk. rewrite span_size_GetDataSymbol in Hk by assumption.
    unfold GetDataSymbol.
    rewrite !span_at_slice
      by (rewrite ?Hsz', ?Hsz; unfold frame_buffer_capacity; nia).
    apply span_at_blit_outside; [nia | |].
    + rewrite Hsz, Hsrc. unfold frame_buffer_capacity. nia.
    + rewrite Hsrc. nia.
Qed.

Lemma apply_pll_cells_fold (symbols : list Z) :
  NoDup symbols ->
  (forall i, In i symbols -> 0 <= i <= nb_frame_symbols p) ->
  forall (buffer : list complex) (s k : Z),
    span_size buffer = frame_buffer_capacity p ->
    0 <= s <= nb_frame_symbols p -> 0 <= k < nb_symbol_period p ->
    span_at (fold_left
               (fun active i =>
                  blit active (i * nb_symbol_period p)
                       (symbol_pll p frequency_offset active i))
               symbols buffer)
            (s * nb_symbol_period p + k)
    = if in_dec Z.eq_dec s symbols
      then span_at (symbol_pll p frequency_offset buffer s) k
      else span_at buffer (s * nb_symbol_period p + k).
Proof.
  pose proof symbol_period_pos as Hsp.
  induction symbols as [| i rest IH]; intros Hnd Hrange buffer s k Hsz Hs Hk.
  - reflexivity.
  - cbn [fold_left].
    assert (0 <= i <= nb_frame_symbols p) as Hi by (apply Hrange; left; reflexivity).
    inversion Hnd as [| ? ? Hnotin Hnd']; subst.
    pose proof (span_size_symbol_pll buffer i Hsz Hi) as Hpi.
    rewrite IH; try assumption.
    + destruct (in_dec Z.eq_dec s rest) as [Hin | Hnin];
        destruct (in_dec Z.eq_dec s (i :: rest)) as [Hin' | Hnin'].
      * assert (s <> i) as Hne by (intros ->; contradiction).
        unfold symbol_pll at 1.
        rewrite GetDataSymbol_blit_other by assumption. reflexivity.
      * exfalso. apply Hnin'. right. exact Hin.
      * destruct Hin' as [-> | Hin']; [| contradiction].
        rewrite span_at_blit_inside.
        -- f_equal. lia.
        -- nia.
        -- rewrite Hpi, Hsz. unfold frame_buffer_capacity. nia.
        -- rewrite Hpi. nia.
      * assert (s <> i) as Hne by (intros ->; apply Hnin'; left; reflexivity).
        apply span_at_blit_outside; [nia | |].
        -- rewrite Hpi, Hsz. unfold frame_buffer_capacity. nia.
        -- rewrite Hpi. nia.
    + intros j Hj. apply Hrange. right. exact Hj.
    + rewrite span_size_blit. exact Hsz.
Qed.

Lemma span_size_PipelineThread_apply_pll (active : list complex)
      (pl : OFDM_Demod_Pipeline) :
  span_size (PipelineThread_apply_pll p frequency_offset active pl) = span_size active.
Proof.
  unfold PipelineThread_apply_pll.
  generalize (Zseq (symbol_start pl) (symbol_end pl - symbol_start pl)).
  intros symbols. revert active.
  induction symbols as [| i rest IH]; intros active; cbn [fold_left]; [reflexivity |].
  rewrite IH. apply span_size_blit.
Qed.

Lemma PipelineThread_apply_pll_cell (active : list complex) (pl : OFDM_Demod_Pipeline)
      (s k : Z) :
  span_size active = frame_buffer_capacity p ->
  0 <= symbol_start pl -> symbol_end pl <= nb_frame_symbols p + 1 ->
  0 <= s <= nb_frame_symbols p -> 0 <= k < nb_symbol_period p ->
  span_at (PipelineThread_apply_pll p frequency_offset active pl)
          (s * nb_symbol_period p + k)
  = if (symbol_start pl <=? s) && (s <? symbol_end pl)
    then span_at (symbol_pll p frequency_offset active s) k
    else span_at active (s * nb_symbol_period p + k).
Proof.
  intros Hsz Hlo Hhi Hs Hk. unfold PipelineThread_apply_pll.
  change (fun active0 i =>
            blit active0 (i * nb_symbol_period p)
                 (apply_pll (GetDataSymbol p active0 i) frequency_offset
                            (Float.of_int (i * nb_symbol_period p) * frequency_offset)))
    with (fun active0 i =>
            blit active0 (i * nb_symbol_period p)
                 (symbol_pll p frequency_offset active0 i)).
  rewrite apply_pll_cells_fold; try assumption.
  - destruct (in_dec Z.eq_dec s (Zseq (symbol_start pl) (symbol_end pl - symbol_start pl)))
      as [Hin | Hnin].
    + apply In_Zseq in Hin.
      replace ((symbol_start pl <=? s) && (s <? symbol_end pl)) with true
        by (symmetry; apply andb_true_iff; lia).
      reflexivity.
    + replace ((symbol_start pl <=? s) && (s <? symbol_end pl)) with false;
        [reflexivity |].
      symmetry. apply andb_false_iff.
      destruct (Z.leb_spec (symbol_start pl) s); [| left; reflexivity].
      destruct (Z.ltb_spec s (symbol_end pl)); [| right; reflexivity].
      exfalso. apply Hnin. apply In_Zseq. lia.
  - apply NoDup_Zseq.
  - intros i Hi. apply In_Zseq in Hi. lia.
Qed.

Lemma symbol_pll_apply_pll_other (active : list complex) (pl : OFDM_Demod_Pipeline)
      (s : Z) :
  span_size active = frame_buffer_capacity p ->
  0 <= symbol_start pl -> symbol_end pl <= nb_frame_symbols p + 1 ->
  0 <= s <= nb_frame_symbols p ->
  (symbol_start pl <=? s) && (s <? symbol_end pl) = false ->
  symbol_pll p frequency_offset (PipelineThread_apply_pll p frequency_offset active pl) s
  = symbol_pll p frequency_offset active s.
Proof.
  intros Hsz Hlo Hhi Hs Hout. pose proof symbol_period_pos as Hsp.
  unfold symbol_pll. f_equal.
  assert (span_size (PipelineThread_apply_pll p frequency_offset active pl)
          = frame_buffer_capacity p) as Hsz'
      by (rewrite span_size_PipelineThread_apply_pll; exact Hsz).
  apply span_ext.
  - rewrite !span_size_GetDataSymbol by assumption. reflexivity.
  - intros k Hk. rewrite span_size_GetDataSymbol in Hk by assumption.
    unfold GetDataSymbol.
    rewrite !span_at_slice
      by (rewrite ?Hsz', ?Hsz; unfold frame_buffer_capacity; nia).
    rewrite PipelineThread_apply_pll_cell by assumption.
    rewrite Hout. reflexivity.
Qed.

Lemma two_workers_pll_cell (active : list complex) (a b : OFDM_Demod_Pipeline)
      (s k : Z) :
  span_size active = frame_buffer_capacity p ->
  0 <= symbol_start a -> symbol_end a <= nb_frame_symbols p + 1 ->
  0 <= symbol_start b -> symbol_end b <= nb_frame_symbols p + 1 ->
  symbol_end a <= symbol_start b \/ symbol_end b <= symbol_start a ->
  0 <= s <= nb_frame_symbols p -> 0 <= k < nb_symbol_period p ->
  span_at (PipelineThread_apply_pll p frequency_offset
             (PipelineThread_apply_pll p frequency_offset active a) b)
          (s * nb_symbol_period p + k)
  = if ((symbol_start a <=? s) && (s <? symbol_end a))
       || ((symbol_start b <=? s) && (s <? symbol_end b))
    then span_at (symbol_pll p frequency_offset active s) k
    else span_at active (s * nb_symbol_period p + k).
Proof.
  intros Hsz Ha0 Ha1 Hb0 Hb1 Hdisj Hs Hk.
  assert (span_size (PipelineThread_apply_pll p frequency_offset active a)
          = frame_buffer_capacity p) as Hsz'
      by (rewrite span_size_PipelineThread_apply_pll; exact Hsz).
  rewrite PipelineThread_apply_pll_cell by assumption.
  destruct ((symbol_start b <=? s) && (s <? symbol_end b)) eqn:Eb.
  - assert ((symbol_start a <=? s) && (s <? symbol_end a) = false) as Ea.
    { apply andb_true_iff in Eb. apply andb_false_iff.
      destruct (Z.leb_spec (symbol_start a) s); [| left; reflexivity].
      destruct (Z.ltb_spec s (symbol_end a)); [| right; reflexivity]. lia. }
    rewrite Ea. cbn [orb].
    rewrite symbol_pll_apply_pll_other by assumption. reflexivity.
  - rewrite orb_false_r. apply PipelineThread_apply_pll_cell; assumption.
Qed.

Lemma PipelineThread_apply_pll_swap (active : list complex)
      (a b : OFDM_Demod_Pipeline) :
  span_size active = frame_buffer_capacity p ->
  0 <= symbol_start a -> symbol_end a <= nb_frame_symbols p + 1 ->
  0 <= symbol_start b -> symbol_end b <= nb_frame_symbols p + 1 ->
  symbol_end a <= symbol_start b \/ symbol_end b <= symbol_start a ->
  PipelineThread_apply_pll p frequency_offset
    (PipelineThread_apply_pll p frequency_offset active a) b
  = PipelineThread_apply_pll p frequency_offset
      (PipelineThread_apply_pll p frequency_offset active b) a.
Proof.
  intros Hsz Ha0 Ha1 Hb0 Hb1 Hdisj. pose proof symbol_period_pos as Hsp.
  apply span_ext.
  - rewrite !span_size_PipelineThread_apply_pll. reflexivity.
  - intros j Hj. rewrite !span_size_PipelineThread_apply_pll, Hsz in Hj.
    unfold frame_buffer_capacity in Hj.
    pose proof (Z.div_mod j (nb_symbol_period p) ltac:(lia)) as Hdm.
    pose proof (Z.mod_pos_bound j (nb_symbol_period p) ltac:(lia)) as Hmod.
    set (s := j / nb_symbol_period p) in *. set (k := j mod nb_symbol_period p) in *.
    assert (0 <= s <= nb_frame_symbols p) as Hs by nia.
    replace j with (s * nb_symbol_period p + k) by lia.
    rewrite !two_workers_pll_cell by (try assumption; tauto).
    rewrite orb_comm. reflexivity.
Qed.

End FramePLL.

(** X22: the PLL stage of a worker rewrites its own symbols only.  For a
    size-preserving PLL kernel, the active buffer keeps its size, a sample
    of a symbol in [[symbol_start, symbol_end)] becomes the PLL of the
    symbol as it was before the stage (with [dt_start = i *
    nb_symbol_period * frequency_offset]), and every other sample is left
    as it was. *)
Theorem PipelineThread_apply_pll_own_symbols `{Kernels} (p : OFDM_Params)
        (frequency_offset : Q) (active : list complex) (pl : OFDM_Demod_Pipeline) :
  pll_preserves_size -> params_ok p ->
  span_size active = frame_buffer_capacity p ->
  0 <= symbol_start pl -> symbol_end pl <= nb_frame_symbols p + 1 ->
  let after := PipelineThread_apply_pll p frequency_offset active pl in
  span_size after = span_size active /\
  (forall s k, 0 <= s <= nb_frame_symbols p -> 0 <= k < nb_symbol_period p ->
     span_at after (s * nb_symbol_period p + k)
     = if (symbol_start pl <=? s) && (s <? symbol_end pl)
       then span_at (apply_pll (GetDataSymbol p active s) frequency_offset
                               (Float.of_int (s * nb_symbol_period p) * frequency_offset))
                    k
       else span_at active (s * nb_symbol_period p + k)).
Proof.
  intros Hpll Hp Hsz Hlo Hhi. cbv zeta. split.
  - apply span_size_PipelineThread_apply_pll.
  - intros s k Hs Hk.
    apply (PipelineThread_apply_pll_cell p frequency_offset Hpll Hp); assumption.
Qed.

(** X23: the PLL stages of two workers with disjoint symbol ranges
    commute: the active buffer after both is the same whichever runs
    first. *)
Theorem PipelineThread_apply_pll_commutes `{Kernels} (p : OFDM_Params)
        (frequency_offset : Q) (active : list complex) (a b : OFDM_Demod_Pipeline) :
  pll_preserves_size -> params_ok p ->
  span_size active = frame_buffer_capacity p ->
  0 <= symbol_start a -> symbol_end a <= nb_frame_symbols p + 1 ->
  0 <= symbol_start b -> symbol_end b <= nb_frame_symbols p + 1 ->
  symbol_end a <= symbol_start b \/ symbol_end b <= symbol_start a ->
  PipelineThread_apply_pll p frequency_offset
    (PipelineThread_apply_pll p frequency_offset active a) b
  = PipelineThread_apply_pll p frequency_offset
      (PipelineThread_apply_pll p frequency_offset active b) a.
Proof.
  intros Hpll Hp. apply (PipelineThread_apply_pll_swap p frequency_offset Hpll Hp).
Qed.

(** ** Soft bits at full scale *)

Lemma to_int_inject_Z (z : Z) : Float.to_int (inject_Z z) = z.
Proof. unfold Float.to_int, inject_Z. cbn [Qnum Qden]. apply Z.quot_1_r. Qed.

Lemma convert_to_viterbi_bit_full_scale (HIGH : Z) (x : Q) :
  0 <= HIGH -> (Qabs x == 1)%Q -> Z.abs (convert_to_viterbi_bit HIGH x) = HIGH.
Proof.
  intros HH Hx. unfold convert_to_viterbi_bit, Float.of_int.
  destruct (Qlt_le_dec x 0) as [Hneg | Hpos].
  - rewrite Qabs_neg in Hx by lra.
    rewrite (to_int_comp _ (inject_Z HIGH)), to_int_inject_Z; [lia |].
    assert (x == -1)%Q as -> by lra. ring.
  - rewrite Qabs_pos in Hx by lra.
    rewrite (to_int_comp _ (inject_Z (- HIGH))), to_int_inject_Z; [lia |].
    rewrite Hx, inject_Z_opp. ring.
Qed.

Lemma convert_to_viterbi_bit_sign (HIGH : Z) (x : Q) :
  0 <= HIGH ->
  ((0 <= x)%Q -> convert_to_viterbi_bit HIGH x <= 0) /\
  ((x <= 0)%Q -> 0 <= convert_to_viterbi_bit HIGH x).
Proof.
  intros HH. unfold convert_to_viterbi_bit, Float.of_int.
  assert (0 <= inject_Z HIGH)%Q as Hh by (apply inject_Z_nonneg; exact HH).
  split; intros Hx.
  - assert (- x * inject_Z HIGH <= 0)%Q as Hv by nra.
    rewrite to_int_nonpos by exact Hv.
    change 0 with (Qceiling 0). apply Qceiling_resp_le. exact Hv.
  - assert (0 <= - x * inject_Z HIGH)%Q as Hv by nra.
    rewrite to_int_nonneg by exact Hv.
    change 0 with (Qfloor 0). apply Qfloor_resp_le. exact Hv.
Qed.

Lemma Qabs_quotient_one (a A : Q) : (0 < A)%Q -> (Qabs a == A)%Q -> (Qabs (a / A) == 1)%Q.
Proof.
  intros HA Ha. unfold Qdiv. rewrite Qabs_Qmult, Qabs_Qinv, Ha.
  rewrite (Qabs_pos A) by lra. field. lra.
Qed.

(** X24: for a non-zero carrier, [CalculateViterbiBits] writes two soft
    bits of which at least one is at full scale
    ([|b| = SOFT_DECISION_VITERBI_HIGH]), both when [|re| = |im|] (the case
    of the comment on the L-infinity norm); the first bit has the sign
    opposite to the real part, the second the sign of the imaginary
    part. *)
Theorem viterbi_bits_full_scale (HIGH : Z) (vec : complex) :
  0 <= HIGH -> (0 < l_inf_norm vec)%Q ->
  exists b0 b1,
    viterbi_bits_of_carrier HIGH vec = Ok (b0, b1) /\
    (Z.abs b0 = HIGH \/ Z.abs b1 = HIGH) /\
    ((Qabs (re vec) == Qabs (im vec))%Q -> Z.abs b0 = HIGH /\ Z.abs b1 = HIGH) /\
    ((0 <= re vec)%Q -> b0 <= 0) /\ ((re vec <= 0)%Q -> 0 <= b0) /\
    ((0 <= im vec)%Q -> 0 <= b1) /\ ((im vec <= 0)%Q -> b1 <= 0).
Proof.
  intros HH HA. destruct (l_inf_norm_bounds vec) as [Hr Hi].
  unfold viterbi_bits_of_carrier, cdiv_real.
  rewrite !div_Ok by lra. cbn [bind re im].
  eexists; eexists; split; [reflexivity |].
  set (A := l_inf_norm vec) in *.
  assert ((Qabs (re vec) == A)%Q -> Z.abs (convert_to_viterbi_bit HIGH (re vec / A)) = HIGH)
    as Hfull0.
  { intros E. apply convert_to_viterbi_bit_full_scale; [exact HH |].
    apply Qabs_quotient_one; assumption. }
  assert ((Qabs (im vec) == A)%Q ->
          Z.abs (convert_to_viterbi_bit HIGH (- (im vec / A))) = HIGH) as Hfull1.
  { intros E. apply convert_to_viterbi_bit_full_scale; [exact HH |].
    rewrite Qabs_opp. apply Qabs_quotient_one; assumption. }
  assert ((Qabs (re vec) == A)%Q \/ (Qabs (im vec) == A)%Q) as Hwhich.
  { unfold A, l_inf_norm, Float.max, Float.abs.
    destruct (Float.ltb (Qabs (re vec)) (Qabs (im vec))); [right | left]; reflexivity. }
  destruct (convert_to_viterbi_bit_sign HIGH (re vec / A) HH) as [Hs0 Hs0'].
  destruct (convert_to_viterbi_bit_sign HIGH (- (im vec / A)) HH) as [Hs1 Hs1'].
  split; [| split; [| split; [| split; [| split]]]].
  - destruct Hwhich as [E | E]; [left; exact (Hfull0 E) | right; exact (Hfull1 E)].
  - intros Eeq. split; [apply Hfull0 | apply Hfull1];
      destruct Hwhich as [E | E]; lra.
  - intros Hre. apply Hs0. apply Qle_shift_div_l; lra.
  - intros Hre. apply Hs0'. apply Qle_shift_div_r; lra.
  - intros Him. apply Hs1'.
    assert (0 <= im vec / A)%Q by (apply Qle_shift_div_l; lra). lra.
  - intros Him. apply Hs1.
    assert (im vec / A <= 0)%Q by (apply Qle_shift_div_r; lra). lra.
Qed.

(** A carrier on the diagonal and [SOFT_DECISION_VITERBI_HIGH = 127]. *)
Lemma viterbi_bits_full_scale_witness :
  let vec := Cplx (3 # 2) (- 3 # 2) in
  exists b0 b1,
    viterbi_bits_of_carrier 127 vec = Ok (b0, b1) /\
    (Z.abs b0 = 127 \/ Z.abs b1 = 127) /\
    ((Qabs (re vec) == Qabs (im vec))%Q -> Z.abs b0 = 127 /\ Z.abs b1 = 127) /\
    ((0 <= re vec)%Q -> b0 <= 0) /\ ((re vec <= 0)%Q -> 0 <= b0) /\
    ((0 <= im vec)%Q -> 0 <= b1) /\ ((im vec <= 0)%Q -> b1 <= 0).
Proof.
  apply (viterbi_bits_full_scale 127 (Cplx (3 # 2) (- 3 # 2))); [lia | reflexivity].
Defined.

(** ** A frame without workers *)

Lemma RunCoarseFreqSync_fine_offset_value `{Kernels} (d d' : OFDM_Demod)
      (buf : list complex) (n : Z) :
  RunCoarseFreqSync d buf = Ok (d', n) ->
  params d' = params d /\
  (freq_fine_offset d' = freq_fine_offset d \/
   exists delta, freq_fine_offset d'
                 = Float.fmod (freq_fine_offset d + delta)%Q (fft_bin_wrap (params d))).
Proof.
  unfold RunCoarseFreqSync. intros E.
  destruct (sync_is_coarse_freq_correction (cfg d)); cbn [negb] in E.
  - cbv zeta in E. apply bind_Ok in E. destruct E as ([mi mv] & _ & E).
    cbv zeta in E. destruct (coarse_freq_update d mi) as [[pr fast] delta].
    injection E as <- <-. unfold UpdateFineFrequencyOffset. demod_cbn.
    split; [reflexivity |]. right. eexists. reflexivity.
  - injection E as <- <-. demod_cbn. split; [reflexivity | left; reflexivity].
Qed.

Lemma RunFineTimeSync_fine_offset_value `{Kernels} (d d' : OFDM_Demod)
      (buf : list complex) (n : Z) :
  RunFineTimeSync d buf = Ok (d', n) ->
  params d' = params d /\
  (freq_fine_offset d' = freq_fine_offset d \/ freq_fine_offset d' = 0%Q).
Proof.
  unfold RunFineTimeSync. cbv zeta. intros E.
  apply bind_Ok in E. destruct E as ([[avg mv] mi] & _ & E). cbv zeta in E.
  destruct (Float.ltb (mv - avg) (sync_impulse_peak_threshold_db (cfg d)));
    injection E as <- <-; unfold Reset; demod_cbn; split; auto.
Qed.

Lemma fine_offset_inside_cases (d d' : OFDM_Demod) :
  params d' = params d ->
  (freq_fine_offset d' = freq_fine_offset d \/ freq_fine_offset d' = 0%Q \/
   exists delta, freq_fine_offset d'
                 = Float.fmod (freq_fine_offset d + delta)%Q (fft_bin_wrap (params d))) ->
  fine_offset_inside d -> fine_offset_inside d'.
Proof.
  unfold fine_offset_inside. intros Hp Hcases Hin HN. rewrite Hp in *.
  pose proof (fft_bin_wrap_pos (params d) HN) as Hw.
  destruct Hcases as [-> | [-> | (delta & ->)]].
  - exact (Hin HN).
  - exact Hw.
  - apply fmod_bounded. exact Hw.
Qed.

Lemma step_fine_offset_inside `{Kernels} (d d' : OFDM_Demod) :
  step d d' -> fine_offset_inside d -> fine_offset_inside d'.
Proof.
  intros Hstep. destruct Hstep as [fuel d block d' n E | fuel d buf d' E | d pls | d | d c].
  - unfold Process_step in E. destruct (state d).
    + apply FindNullPowerDip_fine_offset in E. destruct E as [Hp Hf].
      apply fine_offset_inside_cases; auto.
    + apply ReadNullPRS_fine_offset in E. destruct E as [Hp Hf].
      apply fine_offset_inside_cases; auto.
    + apply RunCoarseFreqSync_fine_offset_value in E. destruct E as [Hp Hf].
      apply fine_offset_inside_cases; tauto.
    + apply RunFineTimeSync_fine_offset_value in E. destruct E as [Hp Hf].
      apply fine_offset_inside_cases; tauto.
    + apply ReadSymbols_fine_offset in E. destruct E as [Hp Hf].
      apply fine_offset_inside_cases; auto.
  - apply UpdateSignalAverage_result in E. destruct E as (avg & ->).
    apply fine_offset_inside_cases; auto.
  - apply fine_offset_inside_cases; [reflexivity |]. right. right.
    eexists. reflexivity.
  - apply fine_offset_inside_cases; [reflexivity |]. right. left. reflexivity.
  - apply fine_offset_inside_cases; auto.
Qed.

Lemma reachable_fine_offset_inside `{Kernels} (d : OFDM_Demod) :
  reachable d -> fine_offset_inside d.
Proof.
  intros Hr. induction Hr as [p c ref mapper | d d' _ IH Hstep].
  - intros HN. cbn [freq_fine_offset OFDM_Demod_new params] in *.
    apply fft_bin_wrap_pos. exact HN.
  - exact (step_fine_offset_inside d d' Hstep IH).
Qed.

(** X25: when [hardware_concurrency()] is 0 and no number of threads is
    requested, [CreateThreads] makes no worker.  In every state reachable
    from the constructor [freq_fine_offset] is strictly inside the wrap, so
    a coordinator frame over no worker leaves its value as it is and only
    counts the frame. *)
Theorem CoordinatorThread_without_workers `{Kernels} (d : OFDM_Demod)
        (nb_desired_threads : Z) :
  reachable d -> 0 < nb_fft (params d) -> nb_desired_threads <= 0 ->
  let pipelines := CreateThreads (params d) 0 nb_desired_threads in
  pipelines = [] /\
  (Qabs (freq_fine_offset d) < fft_bin_wrap (params d))%Q /\
  (freq_fine_offset (CoordinatorThread d pipelines) == freq_fine_offset d)%Q /\
  total_frames_read (CoordinatorThread d pipelines) = total_frames_read d + 1.
Proof.
  intros Hr HN Hd. cbv zeta.
  assert (CreateThreads (params d) 0 nb_desired_threads = []) as ->.
  { unfold CreateThreads, CreateThreads_nb_threads.
    destruct (Z.gtb_spec nb_desired_threads 0); [lia |].
    destruct (Z.gtb_spec (Z.min (nb_frame_symbols (params d) + 1) 0) 1); [lia |].
    replace (Z.to_nat (Z.min (nb_frame_symbols (params d) + 1) 0)) with 0%nat by lia.
    reflexivity. }
  pose proof (reachable_fine_offset_inside d Hr HN) as Hin.
  pose proof (fft_bin_wrap_pos (params d) HN) as Hw.
  split; [reflexivity |]. split; [exact Hin |]. split; [| reflexivity].
  unfold CoordinatorThread. demod_cbn. rewrite UpdateFineFrequencyOffset_value.
  assert (CoordinatorThread_delta d [] == 0)%Q as Hdelta.
  { unfold CoordinatorThread_delta, CoordinatorThread_average_cyclic_error,
      CalculateFineFrequencyError. cbv zeta. cbn [fold_left].
    unfold Qdiv. ring. }
  assert (Qabs (freq_fine_offset d + CoordinatorThread_delta d [])
          < fft_bin_wrap (params d))%Q as Hs.
  { eapply Qle_lt_trans; [| exact Hin].
    apply Qle_lteq. right. apply Qabs_wd. rewrite Hdelta. ring. }
  rewrite (fmod_small _ _ Hw Hs), Hdelta. ring.
Qed.

(** The example demodulator after the longer batch, on a host whose
    [hardware_concurrency()] is zero. *)
Lemma CoordinatorThread_without_workers_witness :
  let H := example_kernels in
  let d := example_reading_demod in
  let pipelines := CreateThreads (params d) 0 0 in
  pipelines = [] /\
  (Qabs (freq_fine_offset d) < fft_bin_wrap (params d))%Q /\
  (freq_fine_offset (CoordinatorThread d pipelines) == freq_fine_offset d)%Q /\
  total_frames_read (CoordinatorThread d pipelines) = total_frames_read d + 1.
Proof.
  apply (@CoordinatorThread_without_workers example_kernels example_reading_demod 0).
  - exact example_reading_reachable.
  - vm_compute. reflexivity.
  - lia.
Defined.

Lemma example_worker_kernels_pll_size : @pll_preserves_size example_worker_kernels.
Proof. intros x freq dt0. apply span_size_map. Qed.

(** The worker of symbol 1 of the example frame, with a frequency
    offset of one half. *)
Lemma PipelineThread_apply_pll_own_symbols_witness :
  let H := example_worker_kernels in
  let p := example_params in
  let active := example_active_buffer in
  let pl := {| symbol_start := 1; symbol_end := 2; average_phase_error := 0 |} in
  let after := PipelineThread_apply_pll p (1 # 2) active pl in
  span_size after = span_size active /\
  (forall s k, 0 <= s <= nb_frame_symbols p -> 0 <= k < nb_symbol_period p ->
     span_at after (s * nb_symbol_period p + k)
     = if (symbol_start pl <=? s) && (s <? symbol_end pl)
       then span_at (apply_pll (GetDataSymbol p active s) (1 # 2)
                               (Float.of_int (s * nb_symbol_period p) * (1 # 2)))
                    k
       else span_at active (s * nb_symbol_period p + k)).
Proof.
  apply (@PipelineThread_apply_pll_own_symbols example_worker_kernels example_params
           (1 # 2) example_active_buffer
           {| symbol_start := 1; symbol_end := 2; average_phase_error := 0 |}).
  - exact example_worker_kernels_pll_size.
  - vm_compute. intuition discriminate.
  - reflexivity.
  - cbn. lia.
  - cbn. lia.
Defined.

(** The two workers of a dual-worker split of the example frame, in
    both orders. *)
Lemma PipelineThread_apply_pll_commutes_witness :
  let H := example_worker_kernels in
  let p := example_params in
  let active := example_active_buffer in
  let a := {| symbol_start := 0; symbol_end := 2; average_phase_error := 0 |} in
  let b := {| symbol_start := 2; symbol_end := 3; average_phase_error := 0 |} in
  PipelineThread_apply_pll p (1 # 2) (PipelineThread_apply_pll p (1 # 2) active a) b
  = PipelineThread_apply_pll p (1 # 2) (PipelineThread_apply_pll p (1 # 2) active b) a.
Proof.
  apply (@PipelineThread_apply_pll_commutes example_worker_kernels example_params
           (1 # 2) example_active_buffer
           {| symbol_start := 0; symbol_end := 2; average_phase_error := 0 |}
           {| symbol_start := 2; symbol_end := 3; average_phase_error := 0 |}).
  - exact example_worker_kernels_pll_size.
  - vm_compute. intuition discriminate.
  - reflexivity.
  - cbn. lia.
  - cbn. lia.
  - cbn. lia.
  - cbn. lia.
  - left. cbn. lia.
Defined.

(** ** The coarse frequency offset approaches the prediction *)



(** ** The weights of the impulse peak search *)

(** X28: for [0 <= impulse_peak_distance_probability <= 1] the weight of
    every index of the impulse response lies between
    [impulse_peak_distance_probability] and 1, and it is 1 at the expected
    position [nb_cyclic_prefix]. *)
Theorem impulse_peak_probability_range (p : OFDM_Params) (c : OFDM_Demod_Config) (i : Z) :
  params_ok p ->
  (0 <= sync_impulse_peak_distance_probability c <= 1)%Q ->
  0 <= i < nb_fft p ->
  (sync_impulse_peak_distance_probability c <= impulse_peak_probability p c i <= 1)%Q /\
  (impulse_peak_probability p c (nb_cyclic_prefix p) == 1)%Q.
Proof.
  intros (HN & Hcp & HP & _) HQ Hi. unfold impulse_peak_probability, Float.of_int.
  cbv zeta. split.
  - set (dist := Z.abs (nb_cyclic_prefix p - i)).
    assert (0 <= dist <= nb_symbol_period p) as Hd by (unfold dist; lia).
    assert (0 < inject_Z (nb_symbol_period p))%Q as Hsp by (apply inject_Z_pos; lia).
    assert (0 <= inject_Z dist / inject_Z (nb_symbol_period p) <= 1)%Q as [Hn0 Hn1].
    { split.
      - apply Qle_shift_div_l; [exact Hsp |]. rewrite Qmult_0_l.
        apply inject_Z_nonneg. lia.
      - apply Qle_shift_div_r; [exact Hsp |]. rewrite Qmult_1_l.
        rewrite <- Zle_Qle. lia. }
    set (nd := (inject_Z dist / inject_Z (nb_symbol_period p))%Q) in *.
    set (P := sync_impulse_peak_distance_probability c) in *.
    assert (0 <= (1 - P) * nd)%Q by (apply Qmult_le_0_compat; lra).
    assert (0 <= (1 - P) * (1 - nd))%Q by (apply Qmult_le_0_compat; lra).
    split; lra.
  - rewrite Z.sub_diag. cbn [Z.abs]. change (inject_Z 0) with 0%Q.
    unfold Qdiv. ring.
Qed.

(** The last index of the example impulse response. *)
Lemma impulse_peak_probability_range_witness :
  (sync_impulse_peak_distance_probability example_cfg
   <= impulse_peak_probability example_params example_cfg 3 <= 1)%Q /\
  (impulse_peak_probability example_params example_cfg (nb_cyclic_prefix example_params)
   == 1)%Q.
Proof.
  apply (impulse_peak_probability_range example_params example_cfg 3).
  - vm_compute. intuition discriminate.
  - vm_compute. split; discriminate.
  - cbn. lia.
Defined.

(** ** The scrambler of the test transmitter *)

Lemma Scrambler_Process_bits (reg j : Z) :
  0 <= j < 8 ->
  Z.testbit (fst (Scrambler_Process reg)) j
  = xorb (Z.testbit reg (j + 8)) (Z.testbit reg (j + 7)).
Proof.
  intros Hj. unfold Scrambler_Process. cbn [fst].
  rewrite Z.land_spec, Z.shiftr_spec, Z.lxor_spec, Z.shiftl_spec by lia.
  change 255 with (Z.ones 8). rewrite Z.ones_spec_low by lia.
  rewrite andb_true_r. replace (j + 8 - 1) with (j + 7) by lia. reflexivity.
Qed.

Lemma Scrambler_byte_range (reg : Z) :
  0 <= fst (Scrambler_Process reg) < 256.
Proof.
  unfold Scrambler_Process. cbn [fst].
  change 255 with (Z.ones 8). rewrite Z.land_ones by lia.
  apply Z.mod_pos_bound. reflexivity.
Qed.

Lemma lor_shifted_byte (a v : Z) :
  0 <= v < 256 -> Z.lor (Z.shiftl a 8) v = a * 256 + v.
Proof.
  intros Hv. rewrite Z.shiftl_mul_pow2 by lia.
  assert (Z.land (a * 2 ^ 8) v = 0) as Hdisjoint.
  { apply Z.bits_inj'. intros n Hn. rewrite Z.land_spec, Z.bits_0.
    destruct (Z.lt_ge_cases n 8) as [Hlo | Hhi].
    - rewrite Z.mul_pow2_bits_low by lia. reflexivity.
    - replace v with (v mod 2 ^ 8) by (apply Z.mod_small; exact Hv).
      rewrite Z.mod_pow2_bits_high by lia. apply andb_false_r. }
  rewrite <- Z.lxor_lor, <- Z.add_nocarry_lxor by exact Hdisjoint.
  reflexivity.
Qed.

Lemma Scrambler_Process_register (reg : Z) :
  snd (Scrambler_Process reg) = (reg mod 256) * 256 + fst (Scrambler_Process reg).
Proof.
  pose proof (Scrambler_byte_range reg) as Hv.
  unfold Scrambler_Process in *. cbn [fst snd] in *.
  set (v := Z.land _ 255) in *.
  rewrite lor_shifted_byte by exact Hv.
  pose proof (Z.div_mod reg 256 ltac:(lia)) as Hdm.
  pose proof (Z.mod_pos_bound reg 256 ltac:(lia)) as Hm.
  replace (reg * 256 + v) with ((reg mod 256) * 256 + v + (reg / 256) * 65536) by lia.
  rewrite Z.mod_add by lia. apply Z.mod_small. lia.
Qed.

(** X29: a call of [Scrambler::Process()] on a 16-bit register returns a
    byte whose bit [j] is bit [j + 8] of the register xor bit [j + 7], and
    leaves the register with its former low byte as high byte and the
    returned byte as low byte. *)
Theorem Scrambler_Process_byte (reg : Z) :
  0 <= reg < 65536 ->
  let v := fst (Scrambler_Process reg) in
  let reg' := snd (Scrambler_Process reg) in
  0 <= v < 256 /\
  reg' = (reg mod 256) * 256 + v /\
  0 <= reg' < 65536 /\
  (forall j, 0 <= j < 8 ->
     Z.testbit v j = xorb (Z.testbit reg (j + 8)) (Z.testbit reg (j + 7))).
Proof.
  intros Hr. cbv zeta.
  pose proof (Scrambler_byte_range reg) as Hv.
  pose proof (Scrambler_Process_register reg) as Hreg.
  pose proof (Z.mod_pos_bound reg 256 ltac:(lia)) as Hm.
  split; [exact Hv |]. split; [exact Hreg |]. split; [lia |].
  intros j Hj. apply Scrambler_Process_bits. exact Hj.
Qed.

(** The first call after [Reset()]. *)
Lemma Scrambler_Process_byte_witness :
  let reg := Scrambler_Reset in
  let v := fst (Scrambler_Process reg) in
  let reg' := snd (Scrambler_Process reg) in
  0 <= v < 256 /\
  reg' = (reg mod 256) * 256 + v /\
  0 <= reg' < 65536 /\
  (forall j, 0 <= j < 8 ->
     Z.testbit v j = xorb (Z.testbit reg (j + 8)) (Z.testbit reg (j + 7))).
Proof.
  apply (Scrambler_Process_byte Scrambler_Reset).
  unfold Scrambler_Reset, Scrambler_syncword. lia.
Defined.

Lemma Scrambler_Process_same_bits (a b : Z) :
  0 <= a < 65536 -> 0 <= b < 65536 ->
  snd (Scrambler_Process a) = snd (Scrambler_Process b) ->
  forall k : nat, (k <= 8)%nat ->
    Z.testbit a (7 + Z.of_nat k) = Z.testbit b (7 + Z.of_nat k).
Proof.
  intros Ha Hb E.
  rewrite !Scrambler_Process_register in E.
  pose proof (Scrambler_byte_range a) as Hva.
  pose proof (Scrambler_byte_range b) as Hvb.
  pose proof (Z.mod_pos_bound a 256 ltac:(lia)) as Hma.
  pose proof (Z.mod_pos_bound b 256 ltac:(lia)) as Hmb.
  assert (a mod 2 ^ 8 = b mod 2 ^ 8) as Hlow by (change (2 ^ 8) with 256; lia).
  assert (fst (Scrambler_Process a) = fst (Scrambler_Process b)) as Hv by lia.
  induction k as [| k IH]; intros Hk.
  - cbn [Z.of_nat]. rewrite Z.add_0_r.
    rewrite <- (Z.mod_pow2_bits_low a 8 7), <- (Z.mod_pow2_bits_low b 8 7) by lia.
    rewrite Hlow. reflexivity.
  - specialize (IH ltac:(lia)).
    pose proof (Scrambler_Process_bits a (Z.of_nat k) ltac:(lia)) as Ba.
    pose proof (Scrambler_Process_bits b (Z.of_nat k) ltac:(lia)) as Bb.
    rewrite Hv in Ba. rewrite Ba in Bb.
    replace (7 + Z.of_nat (S k)) with (Z.of_nat k + 8) by lia.
    replace (7 + Z.of_nat k) with (Z.of_nat k + 7) in IH by lia.
    rewrite IH in Bb.
    destruct (Z.testbit a (Z.of_nat k + 8)), (Z.testbit b (Z.of_nat k + 8)),
             (Z.testbit b (Z.of_nat k + 7)); simpl in Bb; congruence.
Qed.

Lemma Scrambler_Process_injective (a b : Z) :
  0 <= a < 65536 -> 0 <= b < 65536 ->
  snd (Scrambler_Process a) = snd (Scrambler_Process b) -> a = b.
Proof.
  intros Ha Hb E.
  pose proof (Scrambler_Process_same_bits a b Ha Hb E) as Hhigh.
  rewrite !Scrambler_Process_register in E.
  pose proof (Scrambler_byte_range a) as Hva.
  pose proof (Scrambler_byte_range b) as Hvb.
  pose proof (Z.mod_pos_bound a 256 ltac:(lia)) as Hma.
  pose proof (Z.mod_pos_bound b 256 ltac:(lia)) as Hmb.
  assert (a mod 2 ^ 8 = b mod 2 ^ 8) as Hlow by (change (2 ^ 8) with 256; lia).
  apply Z.bits_inj'. intros n Hn.
  destruct (Z.lt_ge_cases n 8) as [H8 | H8].
  - rewrite <- (Z.mod_pow2_bits_low a 8 n), <- (Z.mod_pow2_bits_low b 8 n) by lia.
    rewrite Hlow. reflexivity.
  - destruct (Z.lt_ge_cases n 16) as [H16 | H16].
    + specialize (Hhigh (Z.to_nat (n - 7)) ltac:(lia)).
      replace (7 + Z.of_nat (Z.to_nat (n - 7))) with n in Hhigh by lia. exact Hhigh.
    + replace a with (a mod 2 ^ 16) by (apply Z.mod_small; change (2 ^ 16) with 65536; lia).
      replace b with (b mod 2 ^ 16) by (apply Z.mod_small; change (2 ^ 16) with 65536; lia).
      rewrite !Z.mod_pow2_bits_high by lia. reflexivity.
Qed.

Lemma Scrambler_Process_in_range (reg : Z) :
  0 <= snd (Scrambler_Process reg) < 65536.
Proof.
  rewrite Scrambler_Process_register.
  pose proof (Scrambler_byte_range reg).
  pose proof (Z.mod_pos_bound reg 256 ltac:(lia)). lia.
Qed.

Lemma Scrambler_orbit_nth (n : nat) :
  forall (m : nat) (reg : Z),
    (m < n)%nat -> nth m (Scrambler_orbit n reg) 0 = Scrambler_run m reg.
Proof.
  induction n as [| n IH]; intros m reg Hm; [lia |].
  destruct m as [| m]; cbn [Scrambler_orbit nth Scrambler_run]; [reflexivity |].
  apply IH. lia.
Qed.

(** X30: [Scrambler::Process()] is one-to-one on the 16-bit registers, so
    a register that is not zero never becomes zero; from the syncword of
    [Reset()] the register comes back to the syncword after 255 calls, and
    not before, so the placeholder bytes repeat every 255 bytes. *)
Theorem Scrambler_never_stalls (n : nat) (reg_a reg_b : Z) :
  0 <= reg_a < 65536 -> 0 <= reg_b < 65536 ->
  (snd (Scrambler_Process reg_a) = snd (Scrambler_Process reg_b) -> reg_a = reg_b) /\
  (reg_a <> 0 -> Scrambler_run n reg_a <> 0) /\
  Scrambler_run 255 Scrambler_Reset = Scrambler_Reset /\
  (forall m, (0 < m < 255)%nat -> Scrambler_run m Scrambler_Reset <> Scrambler_Reset).
Proof.
  intros Ha Hb.
  split; [apply Scrambler_Process_injective; assumption |]. split; [| split].
  - revert reg_a Ha. induction n as [| n IH]; intros reg Hr Hnz; cbn [Scrambler_run];
      [exact Hnz |].
    apply IH; [apply Scrambler_Process_in_range |].
    intros Hz. apply Hnz. apply (Scrambler_Process_injective reg 0 Hr ltac:(lia)).
    rewrite Hz. reflexivity.
  - vm_compute. reflexivity.
  - intros m Hm. rewrite <- (Scrambler_orbit_nth 255 m Scrambler_Reset) by lia.
    assert (forallb (fun reg => negb (reg =? Scrambler_Reset))
                    (tl (Scrambler_orbit 255 Scrambler_Reset)) = true) as Hall
        by (vm_compute; reflexivity).
    rewrite forallb_forall in Hall.
    destruct m as [| m]; [lia |].
    assert (In (nth (S m) (Scrambler_orbit 255 Scrambler_Reset) 0)
               (tl (Scrambler_orbit 255 Scrambler_Reset))) as Hin.
    { change (Scrambler_orbit 255 Scrambler_Reset)
        with (Scrambler_Reset
                :: Scrambler_orbit 254 (snd (Scrambler_Process Scrambler_Reset))).
      cbn [nth tl]. apply nth_In.
      assert (forall k r, length (Scrambler_orbit k r) = k) as Hlen
          by (induction k; intros r; cbn [Scrambler_orbit length]; auto).
      rewrite Hlen. lia. }
    specialize (Hall _ Hin). apply negb_true_iff, Z.eqb_neq in Hall. exact Hall.
Qed.

(** Two registers one bit apart, ten calls. *)
Lemma Scrambler_never_stalls_witness :
  let n := 10%nat in
  let reg_a := 169 in
  let reg_b := 168 in
  (snd (Scrambler_Process reg_a) = snd (Scrambler_Process reg_b) -> reg_a = reg_b) /\
  (reg_a <> 0 -> Scrambler_run n reg_a <> 0) /\
  Scrambler_run 255 Scrambler_Reset = Scrambler_Reset /\
  (forall m, (0 < m < 255)%nat -> Scrambler_run m Scrambler_Reset <> Scrambler_Reset).
Proof.
  apply (Scrambler_never_stalls 10 169 168); lia.
Defined.

(** ** Rounding to binary32 *)

Lemma floor_bounds (q : Q) :
  (inject_Z (Qfloor q) <= q)%Q /\ (q < inject_Z (Qfloor q) + 1)%Q.
Proof.
  split; [apply Qfloor_le |].
  pose proof (Qlt_floor q) as H. rewrite inject_Z_plus in H. exact H.
Qed.

Lemma rne_error (q : Q) : (Qabs (inject_Z (Binary32.rne q) - q) <= 1 # 2)%Q.
Proof.
  unfold Binary32.rne. destruct (floor_bounds q) as [Hlo Hhi].
  set (f := Qfloor q) in *.
  apply Qabs_Qle_condition.
  destruct (Qcompare_spec (q - inject_Z f) (1 # 2)) as [E | L | G].
  - destruct (Z.even f); [| rewrite inject_Z_plus]; 
      change (inject_Z 1) with 1%Q; split; lra.
  - split; lra.
  - rewrite inject_Z_plus. change (inject_Z 1) with 1%Q. split; lra.
Qed.

Lemma rne_floor_or_next (q : Q) :
  Binary32.rne q = Qfloor q \/ Binary32.rne q = Qfloor q + 1.
Proof.
  unfold Binary32.rne.
  destruct (q - inject_Z (Qfloor q) ?= 1 # 2)%Q; auto.
  destruct (Z.even (Qfloor q)); auto.
Qed.

Lemma rne_inject_Z (n : Z) : Binary32.rne (inject_Z n) = n.
Proof.
  unfold Binary32.rne. rewrite Qfloor_Z.
  destruct (Qcompare_spec (inject_Z n - inject_Z n) (1 # 2)) as [E | L | G];
    [lra | reflexivity | lra].
Qed.

Lemma rne_le (a b : Q) : (a <= b)%Q -> Binary32.rne a <= Binary32.rne b.
Proof.
  intros Hab.
  pose proof (Qfloor_resp_le a b Hab) as Hf.
  destruct (floor_bounds a) as [Halo Hahi]. destruct (floor_bounds b) as [Hblo Hbhi].
  destruct (Z.eq_dec (Qfloor a) (Qfloor b)) as [E | NE].
  - unfold Binary32.rne. rewrite <- E in *.
    set (f := Qfloor a) in *.
    destruct (Qcompare_spec (a - inject_Z f) (1 # 2));
      destruct (Qcompare_spec (b - inject_Z f) (1 # 2));
      destruct (Z.even f); try lia; lra.
  - destruct (rne_floor_or_next a) as [-> | ->];
      destruct (rne_floor_or_next b) as [-> | ->]; lia.
Qed.

Lemma rne_comp (a b : Q) : (a == b)%Q -> Binary32.rne a = Binary32.rne b.
Proof.
  intros E. apply Z.le_antisymm; apply rne_le; rewrite E; apply Qle_refl.
Qed.

Lemma shift_nonneg (y : Q) : 0 <= Binary32.shift y.
Proof. unfold Binary32.shift. lia. Qed.

Lemma quantum_pos (y : Q) : 0 < Binary32.quantum y.
Proof. unfold Binary32.quantum. apply Z.pow_pos_nonneg; [lia | apply shift_nonneg]. Qed.

Lemma quantum_pos_Q (y : Q) : (0 < inject_Z (Binary32.quantum y))%Q.
Proof. apply inject_Z_pos, quantum_pos. Qed.

Lemma shift_le (a b : Q) : (a <= b)%Q -> Binary32.shift a <= Binary32.shift b.
Proof.
  intros Hab. unfold Binary32.shift.
  pose proof (Z.log2_le_mono _ _ (Qfloor_resp_le a b Hab)). lia.
Qed.

Lemma shift_comp (a b : Q) : (a == b)%Q -> Binary32.shift a = Binary32.shift b.
Proof. intros E. unfold Binary32.shift. rewrite (Qfloor_comp a b E). reflexivity. Qed.

Lemma floor_nonneg (y : Q) : (0 <= y)%Q -> 0 <= Qfloor y.
Proof. intros H. change 0 with (Qfloor 0). apply Qfloor_resp_le. exact H. Qed.

(** Counted in quanta, a non-negative number is below [2^24], and at
    least [2^23] above the first binade. *)
Lemma floor_lt_quanta (y : Q) :
  (0 <= y)%Q -> Qfloor y + 1 <= 2 ^ 24 * Binary32.quantum y.
Proof.
  intros Hy. pose proof (floor_nonneg y Hy) as Hn.
  unfold Binary32.quantum, Binary32.shift. set (n := Qfloor y) in *.
  rewrite <- Z.pow_add_r by lia.
  destruct (Z.eq_dec n 0) as [-> | Hne].
  - change (Z.log2 0) with 0. simpl Z.max.
    change (2 ^ (24 + 0)) with 16777216. lia.
  - pose proof (Z.log2_spec n ltac:(lia)) as [_ Hhi].
    pose proof (Z.log2_nonneg n).
    assert (2 ^ Z.succ (Z.log2 n) <= 2 ^ (24 + Z.max 0 (Z.log2 n - 23)))
      by (apply Z.pow_le_mono_r; lia).
    lia.
Qed.

Lemma quanta_le_floor (y : Q) :
  0 < Binary32.shift y -> 2 ^ 23 * Binary32.quantum y <= Qfloor y.
Proof.
  unfold Binary32.quantum, Binary32.shift. set (n := Qfloor y). intros HL.
  assert (0 < n) as Hn.
  { destruct (Z_lt_le_dec 0 n) as [H | H]; [exact H |].
    rewrite (Z.log2_nonpos n H) in HL. lia. }
  pose proof (Z.log2_spec n Hn) as [Hlo _].
  rewrite <- Z.pow_add_r by lia.
  replace (23 + Z.max 0 (Z.log2 n - 23)) with (Z.log2 n) by lia. exact Hlo.
Qed.

Lemma scaled_lt (y : Q) :
  (0 <= y)%Q -> (y / inject_Z (Binary32.quantum y) < inject_Z (2 ^ 24))%Q.
Proof.
  intros Hy. apply Qlt_shift_div_r; [apply quantum_pos_Q |].
  rewrite <- inject_Z_mult.
  destruct (floor_bounds y) as [_ Hhi].
  eapply Qlt_le_trans; [exact Hhi |].
  change 1%Q with (inject_Z 1). rewrite <- inject_Z_plus.
  rewrite <- Zle_Qle. apply floor_lt_quanta. exact Hy.
Qed.

Lemma scaled_ge (y : Q) :
  0 < Binary32.shift y -> (inject_Z (2 ^ 23) <= y / inject_Z (Binary32.quantum y))%Q.
Proof.
  intros HL. apply Qle_shift_div_l; [apply quantum_pos_Q |].
  rewrite <- inject_Z_mult.
  destruct (floor_bounds y) as [Hlo _].
  eapply Qle_trans; [| exact Hlo].
  rewrite <- Zle_Qle. apply quanta_le_floor. exact HL.
Qed.

Lemma round_units_nonneg (y : Q) : (0 <= y)%Q -> 0 <= Binary32.round_units y.
Proof.
  intros Hy. unfold Binary32.round_units. cbv zeta.
  apply Z.mul_nonneg_nonneg; [| pose proof (quantum_pos y); lia].
  rewrite <- (rne_inject_Z 0). apply rne_le.
  apply Qle_shift_div_l; [apply quantum_pos_Q |].
  change (inject_Z 0) with 0%Q. lra.
Qed.

Lemma round_units_comp (a b : Q) :
  (a == b)%Q -> Binary32.round_units a = Binary32.round_units b.
Proof.
  intros E. unfold Binary32.round_units, Binary32.quantum. cbv zeta.
  rewrite (shift_comp a b E). f_equal. apply rne_comp. rewrite E. reflexivity.
Qed.

Lemma round_units_le (a b : Q) :
  (0 <= a)%Q -> (a <= b)%Q -> Binary32.round_units a <= Binary32.round_units b.
Proof.
  intros Ha Hab. assert (0 <= b)%Q as Hb by lra.
  pose proof (shift_le a b Hab) as HL.
  destruct (Z.eq_dec (Binary32.shift a) (Binary32.shift b)) as [E | NE].
  - unfold Binary32.round_units, Binary32.quantum. cbv zeta. rewrite E.
    apply Z.mul_le_mono_nonneg_r.
    + apply Z.pow_nonneg. lia.
    + apply rne_le. 
      assert (0 < inject_Z (2 ^ Binary32.shift b))%Q as Hu
          by (apply inject_Z_pos, Z.pow_pos_nonneg; [lia | apply shift_nonneg]).
      apply Qle_shift_div_l; [exact Hu |].
      setoid_replace (a / inject_Z (2 ^ Binary32.shift b) * inject_Z (2 ^ Binary32.shift b))%Q
        with a by (field; lra).
      exact Hab.
  - assert (Binary32.shift a < Binary32.shift b) as Hlt by lia.
    pose proof (shift_nonneg a) as Hsa.
    apply Z.le_trans with (2 ^ 24 * Binary32.quantum a).
    + unfold Binary32.round_units. cbv zeta.
      apply Z.mul_le_mono_nonneg_r; [pose proof (quantum_pos a); lia |].
      rewrite <- (rne_inject_Z (2 ^ 24)). apply rne_le.
      apply Qlt_le_weak, scaled_lt. exact Ha.
    + apply Z.le_trans with (2 ^ 23 * Binary32.quantum b).
      * unfold Binary32.quantum. rewrite <- !Z.pow_add_r by lia.
        apply Z.pow_le_mono_r; lia.
      * unfold Binary32.round_units. cbv zeta.
        apply Z.mul_le_mono_nonneg_r; [pose proof (quantum_pos b); lia |].
        rewrite <- (rne_inject_Z (2 ^ 23)). apply rne_le.
        apply scaled_ge. lia.
Qed.

Lemma round_units_multiple (k L : Z) :
  0 <= k -> 0 <= L -> Binary32.shift (inject_Z (k * 2 ^ L)) = L ->
  Binary32.round_units (inject_Z (k * 2 ^ L)) = k * 2 ^ L.
Proof.
  intros Hk HL E. unfold Binary32.round_units, Binary32.quantum. cbv zeta. rewrite E.
  f_equal. rewrite <- (rne_inject_Z k) at 2. apply rne_comp.
  assert (0 < inject_Z (2 ^ L))%Q as Hu
      by (apply inject_Z_pos, Z.pow_pos_nonneg; lia).
  rewrite inject_Z_mult. field. lra.
Qed.

(** A number of at most 24 significant bits is not changed. *)
Lemma round_units_exact (m s : Z) :
  0 <= m <= 2 ^ 24 -> 0 <= s ->
  Binary32.round_units (inject_Z (m * 2 ^ s)) = m * 2 ^ s.
Proof.
  intros Hm Hs.
  destruct (Z.eq_dec m 0) as [-> | Hm0]; [reflexivity |].
  assert (Binary32.shift (inject_Z (m * 2 ^ s)) = Z.max 0 (Z.log2 m + s - 23)) as EL.
  { unfold Binary32.shift. rewrite Qfloor_Z, Z.log2_mul_pow2 by lia.
    f_equal. lia. }
  destruct (Z.eq_dec m (2 ^ 24)) as [-> | Hm24].
  - rewrite Z.log2_pow2 in EL by lia.
    replace (2 ^ 24 * 2 ^ s) with (2 ^ 23 * 2 ^ (s + 1)) in *
      by (rewrite <- !Z.pow_add_r by lia; f_equal; lia).
    apply round_units_multiple; [lia | lia |]. rewrite EL. lia.
  - assert (Z.log2 m < 24) as Hlog by (apply Z.log2_lt_pow2; lia).
    set (L := Z.max 0 (Z.log2 m + s - 23)) in *.
    assert (0 <= L <= s) as HLs by (unfold L; pose proof (Z.log2_nonneg m); lia).
    replace (m * 2 ^ s) with ((m * 2 ^ (s - L)) * 2 ^ L) in *
      by (rewrite <- Z.mul_assoc, <- Z.pow_add_r by lia; do 2 f_equal; lia).
    apply round_units_multiple; [| lia | exact EL].
    apply Z.mul_nonneg_nonneg; [lia | apply Z.pow_nonneg; lia].
Qed.

Lemma round_units_error (y : Q) :
  (0 <= y)%Q ->
  (Qabs (inject_Z (Binary32.round_units y) - y)
   <= (1 # 2) * inject_Z (Binary32.quantum y))%Q.
Proof.
  intros Hy. unfold Binary32.round_units. cbv zeta.
  pose proof (quantum_pos_Q y) as Hu. set (u := inject_Z (Binary32.quantum y)) in *.
  pose proof (rne_error (y / u)) as He. set (r := inject_Z (Binary32.rne (y / u))) in *.
  rewrite inject_Z_mult. fold u r.
  setoid_replace (r * u - y)%Q with ((r - y / u) * u)%Q by (field; lra).
  rewrite Qabs_Qmult, (Qabs_pos u) by lra.
  apply Qmult_le_compat_r; lra.
Qed.

Lemma quantum_small (y : Q) :
  (0 <= y)%Q ->
  (inject_Z (Binary32.quantum y) <= 1 + y * (1 # 2 ^ 23))%Q.
Proof.
  intros Hy.
  destruct (Z.eq_dec (Binary32.shift y) 0) as [E | NE].
  - unfold Binary32.quantum. rewrite E. change (inject_Z (2 ^ 0)) with 1%Q.
    assert (0 <= y * (1 # 2 ^ 23))%Q by (apply Qmult_le_0_compat; [exact Hy | discriminate]).
    lra.
  - pose proof (shift_nonneg y).
    pose proof (quanta_le_floor y ltac:(lia)) as Hq.
    rewrite Zle_Qle, inject_Z_mult in Hq.
    destruct (floor_bounds y) as [Hlo _].
    change (inject_Z (2 ^ 23)) with (8388608 # 1)%Q in Hq.
    change (1 # 2 ^ 23)%Q with (1 # 8388608)%Q.
    set (u := inject_Z (Binary32.quantum y)) in *. lra.
Qed.

(** The error of rounding: half a quantum, that is at most [2^-24] of
    the value, or half a unit below the first binade. *)
Lemma round_units_error_bound (y : Q) :
  (0 <= y)%Q ->
  (Qabs (inject_Z (Binary32.round_units y) - y) <= (1 # 2) + y * (1 # 2 ^ 24))%Q.
Proof.
  intros Hy. pose proof (round_units_error y Hy) as He.
  pose proof (quantum_small y Hy) as Hq.
  change (1 # 2 ^ 23)%Q with (1 # 8388608)%Q in Hq.
  change (1 # 2 ^ 24)%Q with (1 # 16777216)%Q.
  set (u := inject_Z (Binary32.quantum y)) in *. lra.
Qed.

Lemma denorm_min_inv_pos : (0 < Binary32.denorm_min_inv)%Q.
Proof. reflexivity. Qed.

Lemma round_of_nonneg (x : Q) :
  (0 <= x)%Q ->
  Binary32.round x
  = (inject_Z (Binary32.round_units (x * Binary32.denorm_min_inv))
     / Binary32.denorm_min_inv)%Q.
Proof.
  intros Hx. unfold Binary32.round. cbv zeta.
  assert (Qle_bool 0 x = true) as -> by (apply Qle_bool_iff; exact Hx).
  rewrite (round_units_comp (Qabs x * Binary32.denorm_min_inv)
                            (x * Binary32.denorm_min_inv)); [reflexivity |].
  rewrite Qabs_pos by exact Hx. reflexivity.
Qed.

Lemma round_of_neg (x : Q) :
  (x < 0)%Q ->
  Binary32.round x
  = (- (inject_Z (Binary32.round_units (- x * Binary32.denorm_min_inv))
        / Binary32.denorm_min_inv))%Q.
Proof.
  intros Hx. unfold Binary32.round. cbv zeta.
  assert (Qle_bool 0 x = false) as ->.
  { destruct (Qle_bool 0 x) eqn:E; [| reflexivity].
    apply Qle_bool_iff in E. lra. }
  rewrite (round_units_comp (Qabs x * Binary32.denorm_min_inv)
                            (- x * Binary32.denorm_min_inv)); [reflexivity |].
  rewrite Qabs_neg by lra. reflexivity.
Qed.

Lemma round_comp (x y : Q) : (x == y)%Q -> Binary32.round x = Binary32.round y.
Proof.
  intros E. destruct (Qlt_le_dec x 0) as [Hneg | Hpos].
  - rewrite (round_of_neg x), (round_of_neg y) by lra.
    do 3 f_equal. apply round_units_comp. rewrite E. reflexivity.
  - rewrite (round_of_nonneg x), (round_of_nonneg y) by lra.
    do 2 f_equal. apply round_units_comp. rewrite E. reflexivity.
Qed.

Lemma round_zero : (Binary32.round 0 == 0)%Q.
Proof. reflexivity. Qed.

Lemma round_nonneg (x : Q) : (0 <= x)%Q -> (0 <= Binary32.round x)%Q.
Proof.
  intros Hx. rewrite round_of_nonneg by exact Hx.
  apply Qle_shift_div_l; [apply denorm_min_inv_pos |].
  rewrite Qmult_0_l. apply inject_Z_nonneg, round_units_nonneg.
  apply Qmult_le_0_compat; [exact Hx | apply Qlt_le_weak, denorm_min_inv_pos].
Qed.

Lemma round_opp (x : Q) : (Binary32.round (- x) == - Binary32.round x)%Q.
Proof.
  destruct (Q_dec x 0) as [[Hneg | Hpos] | Hz].
  - rewrite (round_of_neg x), (round_of_nonneg (- x)) by lra.
    rewrite Qopp_involutive. reflexivity.
  - rewrite (round_of_neg (- x)), (round_of_nonneg x) by lra.
    rewrite (round_units_comp (- - x * Binary32.denorm_min_inv)
                              (x * Binary32.denorm_min_inv));
      [reflexivity | ring].
  - rewrite (round_comp (- x) 0), (round_comp x 0) by lra. reflexivity.
Qed.

Lemma round_nonpos (x : Q) : (x <= 0)%Q -> (Binary32.round x <= 0)%Q.
Proof.
  intros Hx. pose proof (round_nonneg (- x) ltac:(lra)) as H.
  rewrite round_opp in H. lra.
Qed.

Lemma round_le_nonneg (a b : Q) :
  (0 <= a)%Q -> (a <= b)%Q -> (Binary32.round a <= Binary32.round b)%Q.
Proof.
  intros Ha Hab. rewrite (round_of_nonneg a), (round_of_nonneg b) by lra.
  pose proof denorm_min_inv_pos as HD.
  apply Qmult_le_compat_r; [| apply Qlt_le_weak, Qinv_lt_0_compat; exact HD].
  rewrite <- Zle_Qle. apply round_units_le.
  - apply Qmult_le_0_compat; lra.
  - apply Qmult_le_compat_r; lra.
Qed.

(** Rounding is monotone. *)
Lemma round_le (a b : Q) : (a <= b)%Q -> (Binary32.round a <= Binary32.round b)%Q.
Proof.
  intros Hab. destruct (Qlt_le_dec a 0) as [Ha | Ha].
  - destruct (Qlt_le_dec b 0) as [Hb | Hb].
    + pose proof (round_le_nonneg (- b) (- a) ltac:(lra) ltac:(lra)) as H.
      rewrite !round_opp in H. lra.
    + pose proof (round_nonpos a ltac:(lra)). pose proof (round_nonneg b Hb). lra.
  - apply round_le_nonneg; assumption.
Qed.

Lemma round_exact_units (m s : Z) :
  0 <= m <= 2 ^ 24 -> 0 <= s ->
  (Binary32.round (inject_Z (m * 2 ^ s) / Binary32.denorm_min_inv)
   == inject_Z (m * 2 ^ s) / Binary32.denorm_min_inv)%Q.
Proof.
  intros Hm Hs. pose proof denorm_min_inv_pos as HD.
  assert (0 <= inject_Z (m * 2 ^ s))%Q as Hn.
  { apply inject_Z_nonneg. apply Z.mul_nonneg_nonneg; [lia | apply Z.pow_nonneg; lia]. }
  rewrite round_of_nonneg.
  - rewrite (round_units_comp _ (inject_Z (m * 2 ^ s))) by (field; lra).
    rewrite round_units_exact by assumption. reflexivity.
  - apply Qle_shift_div_l; [exact HD | lra].
Qed.

(** The numbers [m / 2^k] with [|m| <= 2^24] and [0 <= k <= 149] are
    binary32 numbers; so are the integers up to [2^24]. *)
Lemma round_dyadic (m k : Z) :
  Z.abs m <= 2 ^ 24 -> 0 <= k <= 149 ->
  (Binary32.round (inject_Z m / inject_Z (2 ^ k)) == inject_Z m / inject_Z (2 ^ k))%Q.
Proof.
  intros Hm Hk.
  assert (0 < inject_Z (2 ^ k))%Q as Hpk
      by (apply inject_Z_pos, Z.pow_pos_nonneg; lia).
  assert (forall n, 0 <= n <= 2 ^ 24 ->
            (inject_Z n / inject_Z (2 ^ k)
             == inject_Z (n * 2 ^ (149 - k)) / Binary32.denorm_min_inv)%Q) as Hunits.
  { intros n Hn. unfold Binary32.denorm_min_inv.
    replace (2 ^ 149) with (2 ^ k * 2 ^ (149 - k))
      by (rewrite <- Z.pow_add_r by lia; f_equal; lia).
    assert (0 < inject_Z (2 ^ (149 - k)))%Q
      by (apply inject_Z_pos, Z.pow_pos_nonneg; lia).
    rewrite !inject_Z_mult. field. split; lra. }
  destruct (Z_lt_le_dec m 0) as [Hneg | Hpos].
  - assert (inject_Z m / inject_Z (2 ^ k) == - (inject_Z (- m) / inject_Z (2 ^ k)))%Q as Eo
        by (rewrite inject_Z_opp; field; lra).
    rewrite (round_comp _ _ Eo), Eo, round_opp. apply Qopp_comp.
    rewrite (round_comp _ _ (Hunits (- m) ltac:(lia))), Hunits by lia.
    apply round_exact_units; lia.
  - rewrite (round_comp _ _ (Hunits m ltac:(lia))), Hunits by lia.
    apply round_exact_units; lia.
Qed.

Lemma round_inject_Z (n : Z) :
  Z.abs n <= 2 ^ 24 -> (Binary32.round (inject_Z n) == inject_Z n)%Q.
Proof.
  intros Hn. pose proof (round_dyadic n 0 Hn ltac:(lia)) as H.
  change (inject_Z (2 ^ 0)) with 1%Q in H.
  rewrite (round_comp (inject_Z n) (inject_Z n / 1)) by (field).
  rewrite H. field.
Qed.

Lemma of_int_exact (n : Z) :
  Z.abs n <= 2 ^ 24 -> (Binary32.of_int n == inject_Z n)%Q.
Proof. apply round_inject_Z. Qed.

(** The result of a rounding is a number of the format: rounding it
    again changes nothing. *)
Lemma round_idempotent (x : Q) : (Binary32.round (Binary32.round x) == Binary32.round x)%Q.
Proof.
  assert (forall y, (0 <= y)%Q ->
            (Binary32.round (Binary32.round y) == Binary32.round y)%Q) as Hpos.
  { intros y Hy. rewrite (round_of_nonneg y Hy).
    set (z := (y * Binary32.denorm_min_inv)%Q).
    assert (0 <= z)%Q as Hz
        by (apply Qmult_le_0_compat; [exact Hy | apply Qlt_le_weak, denorm_min_inv_pos]).
    unfold Binary32.round_units, Binary32.quantum. cbv zeta.
    apply round_exact_units; [| apply shift_nonneg].
    split.
    - rewrite <- (rne_inject_Z 0). apply rne_le.
      apply Qle_shift_div_l; [apply quantum_pos_Q |].
      change (inject_Z 0) with 0%Q. lra.
    - rewrite <- (rne_inject_Z (2 ^ 24)). apply rne_le.
      apply Qlt_le_weak. apply (scaled_lt z Hz). }
  destruct (Qlt_le_dec x 0) as [Hneg | Hx]; [| apply Hpos; exact Hx].
  pose proof (Hpos (- x)%Q ltac:(lra)) as H.
  rewrite (round_comp (Binary32.round (- x)) (- Binary32.round x)) in H
    by apply round_opp.
  rewrite !round_opp in H. lra.
Qed.

(** The error of one rounding. *)
Lemma round_error (x : Q) :
  (Qabs (Binary32.round x - x) <= Qabs x * (1 # 2 ^ 24) + (1 # 2 ^ 150))%Q.
Proof.
  assert (forall y, (0 <= y)%Q ->
            (Qabs (Binary32.round y - y) <= y * (1 # 2 ^ 24) + (1 # 2 ^ 150))%Q) as Hpos.
  { intros y Hy. rewrite (round_of_nonneg y Hy).
    pose proof denorm_min_inv_pos as HD.
    set (z := (y * Binary32.denorm_min_inv)%Q).
    assert (0 <= z)%Q as Hz by (apply Qmult_le_0_compat; lra).
    pose proof (round_units_error_bound z Hz) as He.
    set (r := inject_Z (Binary32.round_units z)) in *.
    setoid_replace (r / Binary32.denorm_min_inv - y)%Q
      with ((r - z) * / Binary32.denorm_min_inv)%Q by (unfold z; field; lra).
    rewrite Qabs_Qmult, (Qabs_pos (/ Binary32.denorm_min_inv))
      by (apply Qlt_le_weak, Qinv_lt_0_compat; exact HD).
    apply Qle_trans with (((1 # 2) + z * (1 # 2 ^ 24)) * / Binary32.denorm_min_inv)%Q.
    - apply Qmult_le_compat_r; [exact He |].
      apply Qlt_le_weak, Qinv_lt_0_compat; exact HD.
    - apply Qle_lteq. right.
      assert ((1 # 2) * / Binary32.denorm_min_inv == 1 # 2 ^ 150)%Q as K by reflexivity.
      rewrite <- K. unfold z. set (c := (1 # 2 ^ 24)%Q). field. lra. }
  destruct (Qlt_le_dec x 0) as [Hneg | Hx].
  - pose proof (Hpos (- x)%Q ltac:(lra)) as H. rewrite round_opp in H.
    rewrite (Qabs_neg x) by lra.
    setoid_replace (Binary32.round x - x)%Q with (- (- Binary32.round x - - x))%Q by ring.
    rewrite Qabs_opp. exact H.
  - rewrite (Qabs_pos x) by exact Hx. apply Hpos. exact Hx.
Qed.

(** [round] is the rounding of the format: its result is a number of
    the format, no number of the format is nearer, and of two nearest
    ones it takes the one with the even significand. *)
Lemma rne_nearest (q : Q) :
  (Qabs (inject_Z (Binary32.rne q) - q) <= q - inject_Z (Qfloor q))%Q /\
  (Qabs (inject_Z (Binary32.rne q) - q) <= inject_Z (Qfloor q) + 1 - q)%Q.
Proof.
  unfold Binary32.rne. destruct (floor_bounds q) as [Hlo Hhi].
  set (f := Qfloor q) in *.
  destruct (Qcompare_spec (q - inject_Z f) (1 # 2)) as [E | L | G].
  - destruct (Z.even f); [| rewrite inject_Z_plus; change (inject_Z 1) with 1%Q];
      split; apply Qabs_Qle_condition; split; lra.
  - split; apply Qabs_Qle_condition; split; lra.
  - rewrite inject_Z_plus. change (inject_Z 1) with 1%Q.
    split; apply Qabs_Qle_condition; split; lra.
Qed.

Lemma rne_tie (n : Z) :
  Binary32.rne (inject_Z n + (1 # 2)) = if Z.even n then n else n + 1.
Proof.
  unfold Binary32.rne.
  assert (Qfloor (inject_Z n + (1 # 2)) = n) as ->.
  { pose proof (Qfloor_le (inject_Z n + (1 # 2))) as H1.
    pose proof (Qlt_floor (inject_Z n + (1 # 2))) as H2.
    set (f := Qfloor _) in *.
    assert (inject_Z f < inject_Z (n + 1))%Q as H3
        by (rewrite inject_Z_plus; change (inject_Z 1) with 1%Q; lra).
    assert (inject_Z n < inject_Z (f + 1))%Q as H4 by lra.
    rewrite <- Zlt_Qlt in H3, H4. lia. }
  destruct (Qcompare_spec (inject_Z n + (1 # 2) - inject_Z n) (1 # 2)) as [E | L | G];
    [reflexivity | lra | lra].
Qed.

(** Between two neighbouring multiples of the quantum there is no
    number of the format. *)
Lemma format_units_gap (y : Q) (m s : Z) :
  (0 <= y)%Q -> Z.abs m < 2 ^ 24 -> 0 <= s ->
  let u := Binary32.quantum y in
  let a := Qfloor (y / inject_Z u) in
  m * 2 ^ s <= a * u \/ (a + 1) * u <= m * 2 ^ s.
Proof.
  intros Hy Hm Hs. cbv zeta.
  pose proof (quantum_pos y) as Hu. pose proof (quantum_pos_Q y) as HuQ.
  pose proof (shift_nonneg y) as HL.
  set (a := Qfloor (y / inject_Z (Binary32.quantum y))).
  assert (0 <= a) as Ha.
  { apply floor_nonneg. apply Qle_shift_div_l; [exact HuQ | lra]. }
  destruct (Z_lt_le_dec m 0) as [Hneg | Hpos].
  { left. assert (m * 2 ^ s <= 0).
    { apply Z.mul_nonpos_nonneg; [lia | apply Z.pow_nonneg; lia]. }
    assert (0 <= a * Binary32.quantum y) by (apply Z.mul_nonneg_nonneg; lia).
    lia. }
  destruct (Z_lt_le_dec s (Binary32.shift y)) as [Hlt | Hge].
  - left.
    assert (inject_Z (2 ^ 23) <= y / inject_Z (Binary32.quantum y))%Q as Hq
        by (apply scaled_ge; lia).
    pose proof (Qfloor_resp_le _ _ Hq) as Hfa. rewrite Qfloor_Z in Hfa. fold a in Hfa.
    unfold Binary32.quantum in *.
    apply Z.le_trans with (2 ^ 24 * 2 ^ s).
    + apply Z.mul_le_mono_nonneg_r; [apply Z.pow_nonneg; lia | lia].
    + apply Z.le_trans with (2 ^ 23 * 2 ^ Binary32.shift y).
      * rewrite <- !Z.pow_add_r by lia. apply Z.pow_le_mono_r; lia.
      * apply Z.mul_le_mono_nonneg_r; [apply Z.pow_nonneg; lia | lia].
  - unfold Binary32.quantum in *.
    replace (2 ^ s) with (2 ^ (s - Binary32.shift y) * 2 ^ Binary32.shift y)
      by (rewrite <- Z.pow_add_r by lia; f_equal; lia).
    rewrite Z.mul_assoc.
    set (n := m * 2 ^ (s - Binary32.shift y)).
    destruct (Z_le_gt_dec n a) as [Hle | Hgt].
    + left. apply Z.mul_le_mono_nonneg_r; lia.
    + right. apply Z.mul_le_mono_nonneg_r; lia.
Qed.

Lemma round_units_nearest (y : Q) (m s : Z) :
  (0 <= y)%Q -> Z.abs m < 2 ^ 24 -> 0 <= s ->
  (Qabs (inject_Z (Binary32.round_units y) - y) <= Qabs (inject_Z (m * 2 ^ s) - y))%Q.
Proof.
  intros Hy Hm Hs.
  pose proof (quantum_pos_Q y) as HuQ.
  destruct (format_units_gap y m s Hy Hm Hs) as [Hlo | Hhi];
    cbv zeta in *; unfold Binary32.round_units; cbv zeta;
    set (u := Binary32.quantum y) in *; set (q := (y / inject_Z u)%Q) in *;
    destruct (rne_nearest q) as [N1 N2]; destruct (floor_bounds q) as [F1 F2];
    set (a := Qfloor q) in *; set (r := inject_Z (Binary32.rne q)) in *;
    rewrite inject_Z_mult; fold r;
    assert (y == q * inject_Z u)%Q as Ey by (unfold q; field; lra);
    (assert (r * inject_Z u - y == (r - q) * inject_Z u)%Q as -> by (rewrite Ey; ring));
    rewrite Qabs_Qmult, (Qabs_pos (inject_Z u)) by lra.
  - rewrite Zle_Qle, (inject_Z_mult a u) in Hlo.
    assert ((q - inject_Z a) * inject_Z u <= y - inject_Z (m * 2 ^ s))%Q as H1.
    { setoid_replace ((q - inject_Z a) * inject_Z u)%Q
        with (q * inject_Z u - inject_Z a * inject_Z u)%Q by ring.
      rewrite <- Ey. lra. }
    apply Qle_trans with ((q - inject_Z a) * inject_Z u)%Q.
    + apply Qmult_le_compat_r; [exact N1 | lra].
    + apply Qle_trans with (y - inject_Z (m * 2 ^ s))%Q; [exact H1 |].
      rewrite <- Qabs_opp. eapply Qle_trans; [| apply Qle_Qabs]. lra.
  - rewrite Zle_Qle, (inject_Z_mult (a + 1) u), inject_Z_plus in Hhi.
    change (inject_Z 1) with 1%Q in Hhi.
    assert ((inject_Z a + 1 - q) * inject_Z u <= inject_Z (m * 2 ^ s) - y)%Q as H1.
    { setoid_replace ((inject_Z a + 1 - q) * inject_Z u)%Q
        with ((inject_Z a + 1) * inject_Z u - q * inject_Z u)%Q by ring.
      rewrite <- Ey. lra. }
    apply Qle_trans with ((inject_Z a + 1 - q) * inject_Z u)%Q.
    + apply Qmult_le_compat_r; [exact N2 | lra].
    + apply Qle_trans with (inject_Z (m * 2 ^ s) - y)%Q; [exact H1 |].
      apply Qle_Qabs.
Qed.

Lemma format_opp (f : Q) : Binary32.format f -> Binary32.format (- f).
Proof.
  intros (m & s & Hm & Hs & E). exists (- m), s.
  split; [lia |]. split; [exact Hs |].
  rewrite E, Z.mul_opp_l, inject_Z_opp. unfold Qdiv. ring.
Qed.

Lemma round_format (x : Q) : Binary32.format (Binary32.round x).
Proof.
  assert (forall y, (0 <= y)%Q -> Binary32.format (Binary32.round y)) as Hpos.
  { intros y Hy. rewrite (round_of_nonneg y Hy).
    set (z := (y * Binary32.denorm_min_inv)%Q).
    assert (0 <= z)%Q as Hz
        by (apply Qmult_le_0_compat; [exact Hy | apply Qlt_le_weak, denorm_min_inv_pos]).
    unfold Binary32.round_units, Binary32.quantum. cbv zeta.
    pose proof (shift_nonneg z) as HL.
    set (r := Binary32.rne (z / inject_Z (2 ^ Binary32.shift z))).
    assert (0 <= r <= 2 ^ 24) as Hr.
    { unfold r. split.
      - rewrite <- (rne_inject_Z 0). apply rne_le.
        apply Qle_shift_div_l; [apply quantum_pos_Q |].
        change (inject_Z 0) with 0%Q. lra.
      - rewrite <- (rne_inject_Z (2 ^ 24)). apply rne_le.
        apply Qlt_le_weak. apply (scaled_lt z Hz). }
    destruct (Z.eq_dec r (2 ^ 24)) as [E | NE].
    - exists (2 ^ 23), (Binary32.shift z + 1).
      split; [lia |]. split; [lia |]. rewrite E.
      replace (2 ^ 24 * 2 ^ Binary32.shift z) with (2 ^ 23 * 2 ^ (Binary32.shift z + 1))
        by (rewrite <- !Z.pow_add_r by lia; f_equal; lia).
      reflexivity.
    - exists r, (Binary32.shift z). split; [lia |]. split; [lia | reflexivity]. }
  destruct (Qlt_le_dec x 0) as [Hneg | Hx]; [| apply Hpos; exact Hx].
  pose proof (format_opp _ (Hpos (- x)%Q ltac:(lra))) as (m & s & Hm & Hs & E).
  exists m, s. split; [exact Hm |]. split; [exact Hs |].
  rewrite <- E, round_opp. ring.
Qed.

Lemma round_nearest (x f : Q) :
  Binary32.format f -> (Qabs (Binary32.round x - x) <= Qabs (f - x))%Q.
Proof.
  assert (forall y g, (0 <= y)%Q -> Binary32.format g ->
            (Qabs (Binary32.round y - y) <= Qabs (g - y))%Q) as Hpos.
  { intros y g Hy (m & s & Hm & Hs & E). rewrite (round_of_nonneg y Hy).
    pose proof denorm_min_inv_pos as HD.
    set (z := (y * Binary32.denorm_min_inv)%Q).
    assert (0 <= z)%Q as Hz by (apply Qmult_le_0_compat; lra).
    pose proof (round_units_nearest z m s Hz Hm Hs) as Hn.
    set (r := inject_Z (Binary32.round_units z)) in *.
    set (F := inject_Z (m * 2 ^ s)) in *.
    setoid_replace (r / Binary32.denorm_min_inv - y)%Q
      with ((r - z) * / Binary32.denorm_min_inv)%Q by (unfold z; field; lra).
    setoid_replace (g - y)%Q
      with ((F - z) * / Binary32.denorm_min_inv)%Q by (rewrite E; unfold z; field; lra).
    rewrite !Qabs_Qmult.
    apply Qmult_le_compat_r; [exact Hn | apply Qabs_nonneg]. }
  intros Hf. destruct (Qlt_le_dec x 0) as [Hneg | Hx]; [| apply Hpos; assumption].
  pose proof (Hpos (- x)%Q (- f)%Q ltac:(lra) (format_opp f Hf)) as H.
  rewrite round_opp in H.
  setoid_replace (Binary32.round x - x)%Q with (- (- Binary32.round x - - x))%Q by ring.
  setoid_replace (f - x)%Q with (- (- f - - x))%Q by ring.
  rewrite !Qabs_opp. exact H.
Qed.

(** A result that does not overflow is rounded to a finite number. *)
Lemma round_finite (x : Q) : Binary32.finite x -> Binary32.finite (Binary32.round x).
Proof.
  unfold Binary32.finite. intros Hx.
  assert (Binary32.round Binary32.FLT_MAX == Binary32.FLT_MAX)%Q as Emax.
  { assert (Binary32.FLT_MAX
            == inject_Z ((2 ^ 24 - 1) * 2 ^ 253) / Binary32.denorm_min_inv)%Q as E
        by reflexivity.
    rewrite (round_comp _ _ E), E. apply round_exact_units; lia. }
  apply Qabs_Qle_condition in Hx. destruct Hx as [Hlo Hhi].
  apply Qabs_Qle_condition. split.
  - rewrite <- Emax, <- round_opp. apply round_le. exact Hlo.
  - rewrite <- Emax. apply round_le. exact Hhi.
Qed.

(** ** The soft-bit conversion in binary32 *)









(** The exact model cuts the fraction of the exact product: on this
    input it gives 0 where the code, and the binary32 model, give -1. *)
Lemma convert_to_viterbi_bit_rounded_product :
  Binary32.convert_to_viterbi_bit 8 127 (2113665 # 2 ^ 28) = Some (-1) /\
  convert_to_viterbi_bit 127 (2113665 # 2 ^ 28) = 0.
Proof. split; vm_compute; reflexivity. Qed.

(** ** The wrap of the fine frequency offset in binary32 *)

Lemma of_int_nb_fft (n : Z) :
  1 <= n <= 2 ^ 24 -> (Binary32.of_int n == inject_Z n)%Q /\ (1 <= inject_Z n)%Q.
Proof.
  intros Hn. split; [apply of_int_exact; lia |].
  change 1%Q with (inject_Z 1). rewrite <- Zle_Qle. lia.
Qed.

Lemma fft_bin_wrap_binary32_lower (p : OFDM_Params) :
  1 <= nb_fft p <= 2 ^ 24 -> (1 # 2 ^ 25 <= Binary32.fft_bin_wrap p)%Q.
Proof.
  intros HN. destruct (of_int_nb_fft _ HN) as [EN HN1].
  assert (inject_Z (nb_fft p) <= inject_Z (2 ^ 24))%Q as HN2
      by (rewrite <- Zle_Qle; lia).
  change (inject_Z (2 ^ 24)) with (16777216 # 1)%Q in HN2.
  unfold Binary32.fft_bin_wrap, Binary32.mul, Binary32.div. cbv zeta.
  set (N := Binary32.of_int (nb_fft p)) in *. rewrite <- EN in HN1, HN2.
  set (s := Binary32.round (1 / N)).
  assert (1 # 2 ^ 24 <= s)%Q as Hs.
  { unfold s. change (1 # 2 ^ 24)%Q with (inject_Z 1 / inject_Z (2 ^ 24))%Q.
    rewrite <- (round_dyadic 1 24) by lia. apply round_le.
    change (inject_Z 1 / inject_Z (2 ^ 24))%Q with (1 # 16777216)%Q.
    apply Qle_shift_div_l; lra. }
  set (h := Binary32.round ((1 # 2) * s)).
  assert (1 # 2 ^ 25 <= h)%Q as Hh.
  { unfold h. change (1 # 2 ^ 25)%Q with (inject_Z 1 / inject_Z (2 ^ 25))%Q.
    rewrite <- (round_dyadic 1 25) by lia. apply round_le.
    change (inject_Z 1 / inject_Z (2 ^ 25))%Q with (1 # 33554432)%Q.
    change (1 # 2 ^ 24)%Q with (1 # 16777216)%Q in Hs. lra. }
  change (1 # 2 ^ 25)%Q with (inject_Z 1 / inject_Z (2 ^ 25))%Q.
  rewrite <- (round_dyadic 1 25) by lia. apply round_le.
  change (inject_Z 1 / inject_Z (2 ^ 25))%Q with (1 # 33554432)%Q.
  change (1 # 2 ^ 25)%Q with (1 # 33554432)%Q in Hh.
  unfold Binary32.fft_bin_margin. lra.
Qed.

Lemma fft_bin_wrap_binary32_pos (p : OFDM_Params) :
  1 <= nb_fft p <= 2 ^ 24 -> (0 < Binary32.fft_bin_wrap p)%Q.
Proof.
  intros HN. pose proof (fft_bin_wrap_binary32_lower p HN) as H.
  eapply Qlt_le_trans; [| exact H]. reflexivity.
Qed.

(** For a power of two, as the FFT sizes of the DAB modes are, the wrap
    is computed without a rounding error. *)
Lemma fft_bin_wrap_binary32_pow2 (p : OFDM_Params) (k : Z) :
  0 <= k <= 24 -> nb_fft p = 2 ^ k ->
  (Binary32.fft_bin_wrap p
   == Binary32.fft_bin_margin * (1 # 2) / inject_Z (nb_fft p))%Q.
Proof.
  intros Hk EN.
  assert (1 <= nb_fft p <= 2 ^ 24) as HN.
  { rewrite EN. split; [pose proof (Z.pow_pos_nonneg 2 k); lia |].
    apply Z.pow_le_mono_r; lia. }
  destruct (of_int_nb_fft _ HN) as [EN' HN1].
  assert (0 < inject_Z (2 ^ k))%Q as Hpk by (apply inject_Z_pos, Z.pow_pos_nonneg; lia).
  assert (inject_Z (2 ^ (k + 1)) == 2 * inject_Z (2 ^ k))%Q as Ek1.
  { rewrite Z.pow_add_r, inject_Z_mult by lia. change (inject_Z (2 ^ 1)) with 2%Q. ring. }
  assert (inject_Z (2 ^ (k + 23)) == 8388608 * inject_Z (2 ^ k))%Q as Ek23.
  { rewrite Z.pow_add_r, inject_Z_mult by lia.
    change (inject_Z (2 ^ 23)) with 8388608%Q. ring. }
  unfold Binary32.fft_bin_wrap, Binary32.mul, Binary32.div. cbv zeta.
  rewrite EN in *.
  assert (Binary32.round (1 / Binary32.of_int (2 ^ k)) == inject_Z 1 / inject_Z (2 ^ k))%Q
    as Es.
  { rewrite (round_comp _ (inject_Z 1 / inject_Z (2 ^ k))).
    - apply round_dyadic; lia.
    - rewrite EN'. reflexivity. }
  assert (Binary32.round ((1 # 2) * Binary32.round (1 / Binary32.of_int (2 ^ k)))
          == inject_Z 1 / inject_Z (2 ^ (k + 1)))%Q as Eh.
  { rewrite (round_comp _ (inject_Z 1 / inject_Z (2 ^ (k + 1)))).
    - apply round_dyadic; lia.
    - rewrite Es, Ek1. change (inject_Z 1) with 1%Q. field. lra. }
  rewrite (round_comp _ (inject_Z 4236247 / inject_Z (2 ^ (k + 23)))).
  - rewrite round_dyadic by lia. rewrite Ek23.
    unfold Binary32.fft_bin_margin. change (inject_Z 4236247) with 4236247%Q.
    field. lra.
  - rewrite Eh, Ek1, Ek23. unfold Binary32.fft_bin_margin.
    change (inject_Z 4236247) with 4236247%Q. change (inject_Z 1) with 1%Q.
    field. lra.
Qed.

Lemma UpdateFineFrequencyOffset_binary32_value (d : OFDM_Demod) (delta : Q) :
  freq_fine_offset (Binary32.UpdateFineFrequencyOffset d delta)
  = Float.fmod (Binary32.round (freq_fine_offset d + delta))
               (Binary32.fft_bin_wrap (params d)).
Proof. reflexivity. Qed.

(** X13: [UpdateFineFrequencyOffset(delta)], in binary32, takes a whole
    multiple of [fft_bin_wrap] off the sum [freq_fine_offset + delta] as
    the addition rounds it, toward zero: the result has the sign of the
    sum and at most the size of the rounded sum, it is the rounded sum
    itself when that is inside the wrap, and it is always strictly inside
    the wrap.  (The sum is one that does not overflow.)  The wrap is
    positive; for an FFT size that is a power of
    two it is exactly [1.01f * 0.5 / nb_fft], where [1.01f] is
    [4236247 / 4194304], below [0.505 / nb_fft]. *)
Theorem UpdateFineFrequencyOffset_wraps_toward_zero (d : OFDM_Demod) (delta : Q) :
  1 <= nb_fft (params d) <= 2 ^ 24 ->
  Binary32.finite (freq_fine_offset d + delta) ->
  let x := (freq_fine_offset d + delta)%Q in
  let s := Binary32.add (freq_fine_offset d) delta in
  let w := Binary32.fft_bin_wrap (params d) in
  let y := freq_fine_offset (Binary32.UpdateFineFrequencyOffset d delta) in
  (0 < w)%Q /\ Binary32.finite s /\
  (exists k : Z, y == s - inject_Z k * w)%Q /\
  (0 <= x -> 0 <= y <= s)%Q /\
  (x <= 0 -> s <= y <= 0)%Q /\
  (Qabs s < w -> y == s)%Q /\
  (Qabs y < w)%Q /\
  (forall k, 0 <= k <= 24 -> nb_fft (params d) = 2 ^ k ->
     (w == (4236247 # 4194304) * (1 # 2) / inject_Z (nb_fft (params d)))%Q /\
     (w < (101 # 200) / inject_Z (nb_fft (params d)))%Q).
Proof.
  intros HN Hfin. cbv zeta. rewrite UpdateFineFrequencyOffset_binary32_value.
  unfold Binary32.add.
  pose proof (fft_bin_wrap_binary32_pos (params d) HN) as Hw.
  set (w := Binary32.fft_bin_wrap (params d)) in *.
  set (x := (freq_fine_offset d + delta)%Q) in *.
  destruct (fmod_sign (Binary32.round x) w Hw) as [Hpos Hneg].
  split; [exact Hw |]. split; [apply round_finite; exact Hfin |].
  split; [| split; [| split; [| split; [| split]]]].
  - eexists. unfold Float.fmod. reflexivity.
  - intros Hx. apply Hpos, round_nonneg, Hx.
  - intros Hx. apply Hneg, round_nonpos, Hx.
  - apply fmod_small. exact Hw.
  - apply fmod_bounded. exact Hw.
  - intros k Hk EN.
    pose proof (fft_bin_wrap_binary32_pow2 (params d) k Hk EN) as E. fold w in E.
    unfold Binary32.fft_bin_margin in E. split; [exact E |].
    rewrite E.
    assert (0 < inject_Z (nb_fft (params d)))%Q as HNq by (apply inject_Z_pos; lia).
    apply Qlt_shift_div_l; [exact HNq |].
    setoid_replace ((4236247 # 4194304) * (1 # 2) / inject_Z (nb_fft (params d))
                    * inject_Z (nb_fft (params d)))%Q
      with ((4236247 # 4194304) * (1 # 2))%Q by (field; lra).
    reflexivity.
Qed.

(** The locked example demodulator ([nb_fft = 4], offset [1/16]) with
    the update [0.2f]: the sum is rounded, and the wrap is taken off it
    twice. *)
Lemma UpdateFineFrequencyOffset_wraps_toward_zero_witness :
  let d := example_locked_demod in
  let delta := (13421773 # 67108864)%Q in
  let x := (freq_fine_offset d + delta)%Q in
  let s := Binary32.add (freq_fine_offset d) delta in
  let w := Binary32.fft_bin_wrap (params d) in
  let y := freq_fine_offset (Binary32.UpdateFineFrequencyOffset d delta) in
  (0 < w)%Q /\ Binary32.finite s /\
  (exists k : Z, y == s - inject_Z k * w)%Q /\
  (0 <= x -> 0 <= y <= s)%Q /\
  (x <= 0 -> s <= y <= 0)%Q /\
  (Qabs s < w -> y == s)%Q /\
  (Qabs y < w)%Q /\
  (forall k, 0 <= k <= 24 -> nb_fft (params d) = 2 ^ k ->
     (w == (4236247 # 4194304) * (1 # 2) / inject_Z (nb_fft (params d)))%Q /\
     (w < (101 # 200) / inject_Z (nb_fft (params d)))%Q).
Proof.
  apply (UpdateFineFrequencyOffset_wraps_toward_zero example_locked_demod
           (13421773 # 67108864));
    [cbn; lia | vm_compute; discriminate].
Defined.

(** The values of two updates on [nb_fft = 4]: the update of the witness
    (exact sum [17616077 / 2^26], rounded sum [4404019 / 2^24], wrap
    [4236247 / 2^25]), and a sum equal to the wrap, which wraps to zero. *)
Lemma UpdateFineFrequencyOffset_binary32_values :
  (Binary32.add (freq_fine_offset example_locked_demod) (13421773 # 67108864)
   == 4404019 # 16777216)%Q /\
  (Binary32.fft_bin_wrap (params example_locked_demod) == 4236247 # 33554432)%Q /\
  (freq_fine_offset
     (Binary32.UpdateFineFrequencyOffset example_locked_demod (13421773 # 67108864))
   == 41943 # 4194304)%Q /\
  (freq_fine_offset
     (Binary32.UpdateFineFrequencyOffset (set_freq_fine_offset example_locked_demod 0)
                                         (4236247 # 33554432))
   == 0)%Q.
Proof. repeat split; vm_compute; reflexivity. Qed.

(** ** The coarse frequency offset in binary32 *)

Lemma coarse_peak_search_window_maximum (p : OFDM_Params) (max_carrier_offset : Z)
        (correlation_frequency_response : list Q) :
  1 <= nb_fft p ->
  span_size correlation_frequency_response = nb_fft p ->
  let M := nb_fft p / 2 in
  let half_width := clamped_carrier_offset p max_carrier_offset in
  exists max_index max_value,
    coarse_peak_search p max_carrier_offset correlation_frequency_response
    = Ok (max_index, max_value) /\
    - half_width <= max_index <= half_width /\
    span_at correlation_frequency_response (max_index + M) = Ok max_value /\
    (forall i v, - half_width <= i <= half_width ->
       span_at correlation_frequency_response (i + M) = Ok v -> (v <= max_value)%Q) /\
    (forall i v, - half_width <= i < max_index ->
       span_at correlation_frequency_response (i + M) = Ok v -> (v < max_value)%Q).
Proof.
  intros HN Hsz. cbv zeta. unfold coarse_peak_search.
  set (N := nb_fft p) in *. set (M := N / 2).
  assert (0 <= M /\ 2 * M <= N) as [HM0 HM2].
  { unfold M. pose proof (Z.mul_div_le N 2). pose proof (Z.div_pos N 2). lia. }
  set (w := if (if max_carrier_offset <? 0 then 0 else max_carrier_offset) >? M
            then M else if max_carrier_offset <? 0 then 0 else max_carrier_offset).
  assert (w = clamped_carrier_offset p max_carrier_offset) as Hw.
  { unfold w, clamped_carrier_offset. fold N M.
    destruct (Z.ltb_spec max_carrier_offset 0);
      [destruct (Z.gtb_spec 0 M) | destruct (Z.gtb_spec max_carrier_offset M)]; lia. }
  rewrite <- Hw.
  assert (0 <= w <= M) as Hwb
      by (rewrite Hw; unfold clamped_carrier_offset; fold N M; lia).
  clearbody w.
  destruct (span_at_in_bounds correlation_frequency_response (- w + M)) as (v0 & E0);
    [lia |].
  rewrite E0. cbn [bind].
  destruct (for_range_invariant
              (coarse_peak_first_maximum p w correlation_frequency_response)
              (fun i '(max_index, max_value) =>
                 let fft_index := i + M in
                 if fft_index =? N then Ok (max_index, max_value)
                 else
                   value <- span_at correlation_frequency_response fft_index ;;
                   if Float.gtb value max_value then Ok (i, value)
                   else Ok (max_index, max_value))
              (- w) (w + 1) (- w, v0)) as ([mi mv] & E & Hinv).
  - lia.
  - unfold coarse_peak_first_maximum. cbn [fst snd]. fold N M.
    repeat split; try lia; try exact E0; intros; lia.
  - intros i [mi mv] Hi (Hr & Ev & Hmax & Hfirst). cbn [fst snd] in *.
    fold N M in Ev, Hmax, Hfirst. cbv zeta.
    destruct (Z.eqb_spec (i + M) N) as [Heq | Hne].
    + eexists. split; [reflexivity |].
      unfold coarse_peak_first_maximum. cbn [fst snd]. fold N M.
      repeat split; auto; try lia.
      intros i' v Hi' Ev'. destruct (Z.eq_dec i' i) as [-> | Hd].
      * rewrite Heq in Ev'. unfold span_at in Ev'. rewrite Hsz in Ev'.
        fold N in Ev'. rewrite Z.ltb_irrefl, andb_false_r in Ev'. discriminate.
      * apply (Hmax i' v); [lia | exact Ev'].
    + destruct (span_at_in_bounds correlation_frequency_response (i + M)) as (v & Ei);
        [lia |].
      rewrite Ei. cbn [bind].
      destruct (Float.gtb v mv) eqn:Egt; (eexists; split; [reflexivity |]);
        unfold coarse_peak_first_maximum; cbn [fst snd]; fold N M.
      * unfold Float.gtb in Egt. apply ltb_true_iff in Egt.
        repeat split; auto; try lia.
        -- intros i' v' Hi' Ev'. destruct (Z.eq_dec i' i) as [-> | Hd].
           ++ rewrite Ei in Ev'. injection Ev' as <-. apply Qle_refl.
           ++ apply Qle_trans with mv; [apply (Hmax i' v'); [lia | exact Ev'] |].
              apply Qlt_le_weak. exact Egt.
        -- intros i' v' Hi' Ev'.
           apply Qle_lt_trans with mv; [apply (Hmax i' v'); [lia | exact Ev'] | exact Egt].
      * unfold Float.gtb in Egt. apply ltb_false_iff in Egt.
        repeat split; auto; try lia.
        intros i' v' Hi' Ev'. destruct (Z.eq_dec i' i) as [-> | Hd].
        -- rewrite Ei in Ev'. injection Ev' as <-. exact Egt.
        -- apply (Hmax i' v'); [lia | exact Ev'].
  - exists mi, mv.
    destruct Hinv as (Hr & Ev & Hmax & Hfirst). cbn [fst snd] in *. fold N M in Ev, Hmax, Hfirst.
    split; [exact E |]. repeat split; auto; try lia.
    intros i v Hi. apply Hmax. lia.
Qed.

Lemma clamped_carrier_offset_bounds (p : OFDM_Params) (max_carrier_offset : Z) :
  1 <= nb_fft p ->
  0 <= clamped_carrier_offset p max_carrier_offset <= nb_fft p / 2 /\
  2 * (nb_fft p / 2) <= nb_fft p.
Proof.
  intros HN. unfold clamped_carrier_offset.
  pose proof (Z.mul_div_le (nb_fft p) 2). pose proof (Z.div_pos (nb_fft p) 2). lia.
Qed.

Lemma mul_one_rounded (x : Q) : (Binary32.mul 1 (Binary32.round x) == Binary32.round x)%Q.
Proof.
  unfold Binary32.mul.
  rewrite (round_comp (1 * Binary32.round x) (Binary32.round x)) by ring.
  apply round_idempotent.
Qed.

(** Two roundings in a row, as in [c + (p - c)]: the result is within
    [2^-24 (|p| + 2 |p - c|) + 2^-148] of [p]. *)
Lemma add_sub_error (p c : Q) :
  (Qabs (Binary32.add c (Binary32.sub p c) - p)
   <= (1 # 2 ^ 24) * (Qabs p + 2 * Qabs (p - c)) + (1 # 2 ^ 148))%Q.
Proof.
  unfold Binary32.add, Binary32.sub.
  set (e := Binary32.round (p - c)).
  pose proof (round_error (p - c)) as H1. fold e in H1.
  pose proof (round_error (c + e)) as H2.
  set (c' := Binary32.round (c + e)) in *.
  assert (Qabs (c' - p) <= Qabs (c' - (c + e)) + Qabs (e - (p - c)))%Q as T1.
  { setoid_replace (c' - p)%Q with ((c' - (c + e)) + (e - (p - c)))%Q by ring.
    apply Qabs_triangle. }
  assert (Qabs (c + e) <= Qabs p + Qabs (e - (p - c)))%Q as T2.
  { setoid_replace (c + e)%Q with (p + (e - (p - c)))%Q at 1 by ring.
    apply Qabs_triangle. }
  pose proof (Qabs_nonneg (p - c)) as N1. pose proof (Qabs_nonneg p) as N2.
  set (A := Qabs (p - c)) in *. set (B := Qabs p) in *.
  set (E1 := Qabs (e - (p - c))) in *. set (E2 := Qabs (c' - (c + e))) in *.
  set (S := Qabs (c + e)) in *.
  let v := eval vm_compute in (2 ^ 24)%positive in change (2 ^ 24)%positive with v in *.
  let v := eval vm_compute in (2 ^ 150)%positive in change (2 ^ 150)%positive with v in *.
  let v := eval vm_compute in (2 ^ 148)%positive in change (2 ^ 148)%positive with v.
  lra.
Qed.

Lemma predicted_offset_pow2 (max_index n k : Z) :
  Z.abs max_index <= 2 ^ 24 -> 0 <= k <= 24 -> n = 2 ^ k ->
  (Binary32.div (- Binary32.of_int max_index) (Binary32.of_int n)
   == inject_Z (- max_index) * (1 / inject_Z n))%Q.
Proof.
  intros Hi Hk ->. unfold Binary32.div.
  assert (Z.abs (2 ^ k) <= 2 ^ 24) as Hn.
  { rewrite Z.abs_eq by (apply Z.pow_nonneg; lia). apply Z.pow_le_mono_r; lia. }
  assert (0 < inject_Z (2 ^ k))%Q as Hpk by (apply inject_Z_pos, Z.pow_pos_nonneg; lia).
  rewrite (round_comp _ (inject_Z (- max_index) / inject_Z (2 ^ k))).
  - rewrite round_dyadic by lia. field. lra.
  - rewrite !of_int_exact by assumption. rewrite inject_Z_opp. reflexivity.
Qed.

Lemma predicted_offset_error (max_index n : Z) :
  Z.abs max_index <= 2 ^ 24 -> 1 <= n <= 2 ^ 24 ->
  (Qabs (Binary32.div (- Binary32.of_int max_index) (Binary32.of_int n)
         - inject_Z (- max_index) / inject_Z n)
   <= Qabs (inject_Z (- max_index) / inject_Z n) * (1 # 2 ^ 24) + (1 # 2 ^ 150))%Q.
Proof.
  intros Hi Hn. unfold Binary32.div.
  rewrite (round_comp _ (inject_Z (- max_index) / inject_Z n)).
  - apply round_error.
  - rewrite !of_int_exact by lia. rewrite inject_Z_opp. reflexivity.
Qed.

Lemma predicted_offset_bound (max_index n : Z) :
  1 <= n <= 2 ^ 24 -> 2 * Z.abs max_index <= n ->
  (Qabs (Binary32.div (- Binary32.of_int max_index) (Binary32.of_int n)) <= 1 # 2)%Q.
Proof.
  intros Hn Hi. unfold Binary32.div.
  assert (0 < inject_Z n)%Q as Hnq by (apply inject_Z_pos; lia).
  rewrite (round_comp _ (inject_Z (- max_index) / inject_Z n))
    by (rewrite !of_int_exact by lia; rewrite inject_Z_opp; reflexivity).
  assert (round_half : (Binary32.round (1 # 2) == 1 # 2)%Q) by reflexivity.
  assert (- (1 # 2) <= inject_Z (- max_index) / inject_Z n <= 1 # 2)%Q as [Hlo Hhi].
  { assert (inject_Z (2 * - max_index) <= inject_Z n)%Q as H1
        by (rewrite <- Zle_Qle; lia).
    assert (inject_Z (- n) <= inject_Z (2 * - max_index))%Q as H2
        by (rewrite <- Zle_Qle; lia).
    rewrite inject_Z_mult in H1, H2. rewrite inject_Z_opp in H2.
    change (inject_Z 2) with 2%Q in H1, H2.
    split.
    - apply Qle_shift_div_l; [exact Hnq | lra].
    - apply Qle_shift_div_r; [exact Hnq | lra]. }
  apply Qabs_Qle_condition. split.
  - rewrite <- round_half, <- round_opp. apply round_le. exact Hlo.
  - rewrite <- round_half. apply round_le. exact Hhi.
Qed.

(** The sum [c + fl(p - c)] does not overflow. *)
Lemma add_sub_finite (p c : Q) :
  (Qabs p <= 1 # 2)%Q -> Binary32.finite c ->
  Binary32.finite (Binary32.add c (Binary32.sub p c)).
Proof.
  intros Hp Hc. unfold Binary32.add. apply round_finite.
  unfold Binary32.finite in *. unfold Binary32.sub.
  set (e := Binary32.round (p - c)).
  pose proof (round_error (p - c)) as H1. fold e in H1.
  assert (Qabs (c + e) <= Qabs p + Qabs (e - (p - c)))%Q as T2.
  { setoid_replace (c + e)%Q with (p + (e - (p - c)))%Q at 1 by ring.
    apply Qabs_triangle. }
  assert (Qabs (p - c) <= Qabs p + Qabs c)%Q as T3.
  { setoid_replace (p - c)%Q with (p + - c)%Q by ring.
    rewrite <- (Qabs_opp c). apply Qabs_triangle. }
  pose proof (Qabs_nonneg p) as N1. pose proof (Qabs_nonneg c) as N2.
  set (A := Qabs (p - c)) in *. set (B := Qabs p) in *. set (C := Qabs c) in *.
  set (E1 := Qabs (e - (p - c))) in *. set (S := Qabs (c + e)) in *.
  let v := eval vm_compute in Binary32.FLT_MAX in change Binary32.FLT_MAX with v in *.
  let v := eval vm_compute in (2 ^ 24)%positive in change (2 ^ 24)%positive with v in *.
  let v := eval vm_compute in (2 ^ 150)%positive in change (2 ^ 150)%positive with v in *.
  lra.
Qed.

(** C8, as the code has it: on the frequency response that steps 1 to 6
    have computed, the peak search returns the first maximum [i*] of its
    window, and [RunCoarseFreqSync] returns having consumed no sample.
    The prediction is [p = fl(-i* / nb_fft)], which is [-i*] times
    [1/nb_fft] when [nb_fft] is a power of two.  After a fast update --
    one taken because [|fl(p - c)| > fl(1.5 / nb_fft)] for the previous
    offset [c], or because [is_found_coarse_freq_offset] was false --
    [freq_coarse_offset] is the binary32 sum [fl(c + fl(p - c))]: it is [p]
    when the subtraction [p - c] is exact, as it is for [c = 0], the value
    at the first estimate after the construction or a [Reset]; for
    another finite [c] it is finite and within
    [2^-24 (|p| + 2 |p - c|) + 2^-148] of [p], and need not be [p]. *)
Theorem RunCoarseFreqSync_fast_update (d : OFDM_Demod)
        (correlation_frequency_response : list Q) :
  1 <= nb_fft (params d) <= 2 ^ 24 ->
  span_size correlation_frequency_response = nb_fft (params d) ->
  Binary32.finite (freq_coarse_offset d) ->
  let p := params d in
  let c := freq_coarse_offset d in
  let half_width :=
    clamped_carrier_offset p
      (Float.to_int (Binary32.mul (sync_max_coarse_freq_correction_norm (cfg d))
                                  (Binary32.of_int (nb_fft p)))) in
  exists max_index max_value d',
    Binary32.RunCoarseFreqSync_from_response d correlation_frequency_response
    = Ok (d', 0) /\
    is_found_coarse_freq_offset d' = true /\
    - half_width <= max_index <= half_width /\
    span_at correlation_frequency_response (max_index + nb_fft p / 2) = Ok max_value /\
    (forall i v, - half_width <= i <= half_width ->
       span_at correlation_frequency_response (i + nb_fft p / 2) = Ok v ->
       (v <= max_value)%Q) /\
    (forall i v, - half_width <= i < max_index ->
       span_at correlation_frequency_response (i + nb_fft p / 2) = Ok v ->
       (v < max_value)%Q) /\
    let predicted :=
      Binary32.div (- Binary32.of_int max_index) (Binary32.of_int (nb_fft p)) in
    (Qabs (predicted - inject_Z (- max_index) / inject_Z (nb_fft p))
     <= Qabs (inject_Z (- max_index) / inject_Z (nb_fft p)) * (1 # 2 ^ 24)
        + (1 # 2 ^ 150))%Q /\
    (forall k, 0 <= k <= 24 -> nb_fft p = 2 ^ k ->
       (predicted == inject_Z (- max_index) * (1 / inject_Z (nb_fft p)))%Q) /\
    (Float.gtb (Float.abs (Binary32.sub predicted c))
               (Binary32.div (3 # 2) (Binary32.of_int (nb_fft p))) = true
     \/ is_found_coarse_freq_offset d = false ->
     (freq_coarse_offset d' == Binary32.add c (Binary32.sub predicted c))%Q /\
     Binary32.finite (freq_coarse_offset d') /\
     ((Binary32.sub predicted c == predicted - c)%Q ->
      (freq_coarse_offset d' == predicted)%Q) /\
     ((c == 0)%Q -> (freq_coarse_offset d' == predicted)%Q) /\
     (Qabs (freq_coarse_offset d' - predicted)
      <= (1 # 2 ^ 24) * (Qabs predicted + 2 * Qabs (predicted - c)) + (1 # 2 ^ 148))%Q).
Proof.
  intros HN Hsz Hfin. cbv zeta.
  set (raw := Float.to_int (Binary32.mul (sync_max_coarse_freq_correction_norm (cfg d))
                                         (Binary32.of_int (nb_fft (params d))))).
  destruct (coarse_peak_search_window_maximum (params d) raw
              correlation_frequency_response ltac:(lia) Hsz)
    as (mi & mv & E & Hr & Ev & Hmax & Hfirst).
  destruct (clamped_carrier_offset_bounds (params d) raw ltac:(lia)) as [Hw HM].
  assert (Z.abs mi <= 2 ^ 24) as Hmi by lia.
  exists mi, mv.
  unfold Binary32.RunCoarseFreqSync_from_response. cbv zeta. fold raw.
  rewrite E. cbn [bind]. unfold Binary32.coarse_freq_update. cbv zeta.
  eexists. split; [reflexivity |]. split; [reflexivity |].
  split; [exact Hr |]. split; [exact Ev |]. split; [exact Hmax |].
  split; [exact Hfirst |].
  split; [apply predicted_offset_error; lia |].
  split; [intros k Hk EN; apply (predicted_offset_pow2 mi _ k); assumption |].
  intros Hfast.
  set (predicted := Binary32.div (- Binary32.of_int mi)
                                 (Binary32.of_int (nb_fft (params d)))) in *.
  set (c := freq_coarse_offset d) in *.
  assert (Float.gtb (Float.abs (Binary32.sub predicted c))
                    (Binary32.div (3 # 2) (Binary32.of_int (nb_fft (params d))))
          || negb (is_found_coarse_freq_offset d) = true) as Hb.
  { destruct Hfast as [-> | ->]; [reflexivity | apply orb_true_r]. }
  cbn [freq_coarse_offset set_state Binary32.UpdateFineFrequencyOffset
       set_freq_fine_offset set_is_found_coarse_freq_offset set_freq_coarse_offset].
  fold c. rewrite Hb.
  assert (Binary32.add c (Binary32.mul 1 (Binary32.sub predicted c))
          = Binary32.add c (Binary32.sub predicted c)) as Eadd.
  { unfold Binary32.add. apply round_comp.
    unfold Binary32.sub. rewrite mul_one_rounded. reflexivity. }
  rewrite Eadd.
  split; [reflexivity |]. split.
  { apply add_sub_finite; [| exact Hfin].
    apply predicted_offset_bound; lia. }
  assert (Binary32.round predicted == predicted)%Q as Ep
      by (unfold predicted, Binary32.div; apply round_idempotent).
  assert ((Binary32.sub predicted c == predicted - c)%Q ->
          (Binary32.add c (Binary32.sub predicted c) == predicted)%Q) as Hexact.
  { intros He. unfold Binary32.add.
    rewrite (round_comp (c + Binary32.sub predicted c) predicted) by (rewrite He; ring).
    exact Ep. }
  split; [exact Hexact |]. split.
  - intros Hc. apply Hexact. unfold Binary32.sub.
    rewrite (round_comp (predicted - c) predicted) by (rewrite Hc; ring).
    rewrite Ep, Hc. ring.
  - apply add_sub_error.
Qed.

(** Transmission mode I, a previous offset of [9700295 / 2^31] and a peak
    seven bins above the centre. *)
Lemma RunCoarseFreqSync_fast_update_witness :
  let d := example_mode1_demod in
  let correlation_frequency_response := example_mode1_response in
  let p := params d in
  let c := freq_coarse_offset d in
  let half_width :=
    clamped_carrier_offset p
      (Float.to_int (Binary32.mul (sync_max_coarse_freq_correction_norm (cfg d))
                                  (Binary32.of_int (nb_fft p)))) in
  exists max_index max_value d',
    Binary32.RunCoarseFreqSync_from_response d correlation_frequency_response
    = Ok (d', 0) /\
    is_found_coarse_freq_offset d' = true /\
    - half_width <= max_index <= half_width /\
    span_at correlation_frequency_response (max_index + nb_fft p / 2) = Ok max_value /\
    (forall i v, - half_width <= i <= half_width ->
       span_at correlation_frequency_response (i + nb_fft p / 2) = Ok v ->
       (v <= max_value)%Q) /\
    (forall i v, - half_width <= i < max_index ->
       span_at correlation_frequency_response (i + nb_fft p / 2) = Ok v ->
       (v < max_value)%Q) /\
    let predicted :=
      Binary32.div (- Binary32.of_int max_index) (Binary32.of_int (nb_fft p)) in
    (Qabs (predicted - inject_Z (- max_index) / inject_Z (nb_fft p))
     <= Qabs (inject_Z (- max_index) / inject_Z (nb_fft p)) * (1 # 2 ^ 24)
        + (1 # 2 ^ 150))%Q /\
    (forall k, 0 <= k <= 24 -> nb_fft p = 2 ^ k ->
       (predicted == inject_Z (- max_index) * (1 / inject_Z (nb_fft p)))%Q) /\
    (Float.gtb (Float.abs (Binary32.sub predicted c))
               (Binary32.div (3 # 2) (Binary32.of_int (nb_fft p))) = true
     \/ is_found_coarse_freq_offset d = false ->
     (freq_coarse_offset d' == Binary32.add c (Binary32.sub predicted c))%Q /\
     Binary32.finite (freq_coarse_offset d') /\
     ((Binary32.sub predicted c == predicted - c)%Q ->
      (freq_coarse_offset d' == predicted)%Q) /\
     ((c == 0)%Q -> (freq_coarse_offset d' == predicted)%Q) /\
     (Qabs (freq_coarse_offset d' - predicted)
      <= (1 # 2 ^ 24) * (Qabs predicted + 2 * Qabs (predicted - c)) + (1 # 2 ^ 148))%Q).
Proof.
  apply (RunCoarseFreqSync_fast_update example_mode1_demod example_mode1_response);
    [cbn; lia | vm_compute; reflexivity | vm_compute; discriminate].
Defined.

(** C8, the stated value fails: in transmission mode I
    ([nb_fft = 2048]), with the previous offset [9700295 / 2^31] and the
    peak at [i* = 7], the update is a fast one
    ([|fl(p - c)| = 17040328 / 2^31 > 1.5 / 2048]) and leaves
    [freq_coarse_offset = -7340033 / 2^31]: not [-7/2048], which is
    [-7340032 / 2^31], and not a multiple of [1/2048]. *)
Lemma RunCoarseFreqSync_fast_update_inexact :
  let d := example_mode1_demod in
  coarse_peak_search (params d)
    (Float.to_int (Binary32.mul (sync_max_coarse_freq_correction_norm (cfg d))
                                (Binary32.of_int (nb_fft (params d)))))
    example_mode1_response = Ok (7, 1%Q) /\
  (exists predicted delta,
     Binary32.coarse_freq_update d 7 = (predicted, true, delta) /\
     (predicted == - 7 # 2048)%Q /\ (delta == - 17040328 # 2147483648)%Q) /\
  exists d',
    Binary32.RunCoarseFreqSync_from_response d example_mode1_response = Ok (d', 0) /\
    (freq_coarse_offset d' == - 7340033 # 2147483648)%Q /\
    ~ (freq_coarse_offset d' == - 7 # 2048)%Q /\
    (forall k : Z, ~ (freq_coarse_offset d' == inject_Z k * (1 / inject_Z 2048))%Q).
Proof.
  cbv zeta.
  assert (coarse_peak_search (params example_mode1_demod)
            (Float.to_int
               (Binary32.mul (sync_max_coarse_freq_correction_norm (cfg example_mode1_demod))
                             (Binary32.of_int (nb_fft (params example_mode1_demod)))))
            example_mode1_response = Ok (7, 1%Q)) as E7 by (vm_compute; reflexivity).
  set (predicted := Binary32.div (- Binary32.of_int 7) (Binary32.of_int 2048)).
  set (delta := Binary32.mul 1 (Binary32.sub predicted
                                             (freq_coarse_offset example_mode1_demod))).
  assert (Binary32.coarse_freq_update example_mode1_demod 7 = (predicted, true, delta))
    as Eu by (vm_compute; reflexivity).
  split; [exact E7 |]. split.
  { exists predicted, delta. split; [exact Eu |]. split; vm_compute; reflexivity. }
  unfold Binary32.RunCoarseFreqSync_from_response. cbv zeta.
  rewrite E7. cbn [bind]. rewrite Eu.
  eexists. split; [reflexivity |].
  cbn [freq_coarse_offset set_state Binary32.UpdateFineFrequencyOffset
       set_freq_fine_offset set_is_found_coarse_freq_offset set_freq_coarse_offset].
  assert (Binary32.add (freq_coarse_offset example_mode1_demod) delta
          == - 7340033 # 2147483648)%Q as E by (vm_compute; reflexivity).
  split; [exact E |]. split.
  - rewrite E. intros H. vm_compute in H. discriminate.
  - intros k. rewrite E. intros H.
    unfold Qeq in H. cbn in H. lia.
Qed.

(** ** The coordinator's mean of the cyclic phase errors *)












(** The values of that frame: the first worker stores [1 + 2] for the
    two data symbols, the second, which has the NULL symbol only, stores
    0; the quotient is the mean 3/2, and the offset moves by
    [-(9/10) * (1/4) * (3/2) / TWO_PI]. *)
Lemma CoordinatorThread_rotated_frame_values :
  let H := example_worker_kernels in
  let d := example_rotated_demod in
  let frame := workers_phase_error d (CreateThreads (params d) 4 0) in
  map average_phase_error (snd frame) = [3%Q; 0%Q] /\
  (CoordinatorThread_average_cyclic_error (params d) (snd frame) == 3 # 2)%Q /\
  (CoordinatorThread_delta d (snd frame) == - (27 # 80) / TWO_PI)%Q /\
  (freq_fine_offset (CoordinatorThread d (snd frame)) == - (27 # 80) / TWO_PI)%Q.
Proof. repeat split; vm_compute; reflexivity. Qed.


(** ** The combined offset, and two updates, in binary32 *)

Lemma round_error_pair (a b : Q) :
  (Qabs ((Binary32.round a - a) + (Binary32.round b - b))
   <= (1 # 2 ^ 24) * (Qabs a + Qabs b) + (1 # 2 ^ 149))%Q.
Proof.
  pose proof (round_error a) as Ha. pose proof (round_error b) as Hb.
  pose proof (Qabs_triangle (Binary32.round a - a) (Binary32.round b - b)) as T.
  set (A := Qabs a) in *. set (B := Qabs b) in *.
  set (EA := Qabs (Binary32.round a - a)) in *.
  set (EB := Qabs (Binary32.round b - b)) in *.
  set (S := Qabs _) in *.
  let v := eval vm_compute in (2 ^ 24)%positive in change (2 ^ 24)%positive with v in *.
  let v := eval vm_compute in (2 ^ 150)%positive in change (2 ^ 150)%positive with v in *.
  let v := eval vm_compute in (2 ^ 149)%positive in change (2 ^ 149)%positive with v.
  lra.
Qed.

(** X14: with the counter-adjustment of step 11, [RunCoarseFreqSync]
    leaves the sum [freq_coarse_offset + freq_fine_offset] (the offset the
    PLL applies) where it was, up to a whole multiple of [fft_bin_wrap]
    and the rounding of the two additions: for the [delta] of steps 8 and
    9, the new offsets are [fl(c + delta)] and [fl(f - delta)] less [k]
    wraps, and the sum has moved by [-k] wraps and at most
    [2^-24 (|c + delta| + |f - delta|) + 2^-149]; [k] is zero when the
    counter-adjusted fine offset stays inside the wrap.  (For a [delta]
    and sums that do not overflow.) *)
Theorem RunCoarseFreqSync_combined_offset (d : OFDM_Demod)
        (correlation_frequency_response : list Q) :
  1 <= nb_fft (params d) <= 2 ^ 24 ->
  span_size correlation_frequency_response = nb_fft (params d) ->
  let c := freq_coarse_offset d in
  let f := freq_fine_offset d in
  let w := Binary32.fft_bin_wrap (params d) in
  exists (max_index : Z) (max_value : Q) (d' : OFDM_Demod) (k : Z),
    coarse_peak_search (params d)
      (Float.to_int (Binary32.mul (sync_max_coarse_freq_correction_norm (cfg d))
                                  (Binary32.of_int (nb_fft (params d)))))
      correlation_frequency_response = Ok (max_index, max_value) /\
    Binary32.RunCoarseFreqSync_from_response d correlation_frequency_response
    = Ok (d', 0) /\
    let delta := snd (Binary32.coarse_freq_update d max_index) in
    (Binary32.finite delta -> Binary32.finite (c + delta) ->
     Binary32.finite (f - delta) ->
     freq_coarse_offset d' = Binary32.add c delta /\
     (freq_fine_offset d' == Binary32.add f (- delta) - inject_Z k * w)%Q /\
     (Qabs (freq_coarse_offset d' + freq_fine_offset d' - (c + f) + inject_Z k * w)
      <= (1 # 2 ^ 24) * (Qabs (c + delta) + Qabs (f - delta)) + (1 # 2 ^ 149))%Q /\
     ((Qabs (Binary32.add f (- delta)) < w)%Q -> k = 0)).
Proof.
  intros HN Hsz. cbv zeta.
  set (raw := Float.to_int (Binary32.mul (sync_max_coarse_freq_correction_norm (cfg d))
                                         (Binary32.of_int (nb_fft (params d))))).
  destruct (coarse_peak_search_window_maximum (params d) raw
              correlation_frequency_response ltac:(lia) Hsz)
    as (mi & mv & E & _).
  pose proof (fft_bin_wrap_binary32_pos (params d) HN) as Hw.
  unfold Binary32.RunCoarseFreqSync_from_response. cbv zeta. fold raw.
  rewrite E. cbn [bind]. exists mi, mv.
  destruct (Binary32.coarse_freq_update d mi) as [[predicted fast] delta]. cbn [snd].
  eexists.
  exists (Float.to_int (Binary32.add (freq_fine_offset d) (- delta)
                        / Binary32.fft_bin_wrap (params d))).
  split; [reflexivity |]. split; [reflexivity |].
  cbn [freq_coarse_offset freq_fine_offset params set_state
       Binary32.UpdateFineFrequencyOffset
       set_freq_fine_offset set_is_found_coarse_freq_offset set_freq_coarse_offset].
  set (c := freq_coarse_offset d). set (f := freq_fine_offset d).
  set (w := Binary32.fft_bin_wrap (params d)) in *.
  intros _ _ _.
  split; [reflexivity |]. split; [unfold Float.fmod; reflexivity |]. split.
  - unfold Float.fmod. unfold Binary32.add.
    rewrite (round_comp (f + - delta) (f - delta)) by ring.
    setoid_replace (Binary32.round (c + delta)
                    + (Binary32.round (f - delta)
                       - inject_Z (Float.to_int (Binary32.round (f - delta) / w)) * w)
                    - (c + f)
                    + inject_Z (Float.to_int (Binary32.round (f - delta) / w)) * w)%Q
      with ((Binary32.round (c + delta) - (c + delta))
            + (Binary32.round (f - delta) - (f - delta)))%Q by ring.
    apply round_error_pair.
  - intros Hsmall. apply to_int_small.
    apply Qabs_Qlt_condition in Hsmall. destruct Hsmall as [Hlo Hhi].
    apply Qabs_Qlt_condition. split.
    + apply Qlt_shift_div_l; [exact Hw | lra].
    + apply Qlt_shift_div_r; [exact Hw | lra].
Qed.

(** Transmission mode I with the previous offset [9700295 / 2^31]: the
    fast update of the coarse offset by [-17040328 / 2^31] is
    counter-adjusted in the fine offset, which wraps. *)
Lemma RunCoarseFreqSync_combined_offset_witness :
  let d := example_mode1_demod in
  let correlation_frequency_response := example_mode1_response in
  let c := freq_coarse_offset d in
  let f := freq_fine_offset d in
  let w := Binary32.fft_bin_wrap (params d) in
  exists (max_index : Z) (max_value : Q) (d' : OFDM_Demod) (k : Z),
    coarse_peak_search (params d)
      (Float.to_int (Binary32.mul (sync_max_coarse_freq_correction_norm (cfg d))
                                  (Binary32.of_int (nb_fft (params d)))))
      correlation_frequency_response = Ok (max_index, max_value) /\
    Binary32.RunCoarseFreqSync_from_response d correlation_frequency_response
    = Ok (d', 0) /\
    let delta := snd (Binary32.coarse_freq_update d max_index) in
    (Binary32.finite delta -> Binary32.finite (c + delta) ->
     Binary32.finite (f - delta) ->
     freq_coarse_offset d' = Binary32.add c delta /\
     (freq_fine_offset d' == Binary32.add f (- delta) - inject_Z k * w)%Q /\
     (Qabs (freq_coarse_offset d' + freq_fine_offset d' - (c + f) + inject_Z k * w)
      <= (1 # 2 ^ 24) * (Qabs (c + delta) + Qabs (f - delta)) + (1 # 2 ^ 149))%Q /\
     ((Qabs (Binary32.add f (- delta)) < w)%Q -> k = 0)).
Proof.
  apply (RunCoarseFreqSync_combined_offset example_mode1_demod example_mode1_response);
    [cbn; lia | vm_compute; reflexivity].
Defined.

Lemma two_updates_error (d : OFDM_Demod) (a b : Q) :
  1 <= nb_fft (params d) <= 2 ^ 24 ->
  let f := freq_fine_offset d in
  let w := Binary32.fft_bin_wrap (params d) in
  let ab := freq_fine_offset
              (Binary32.UpdateFineFrequencyOffset
                 (Binary32.UpdateFineFrequencyOffset d a) b) in
  exists k : Z,
    (Qabs (ab - (f + a + b) + inject_Z k * w)
     <= (1 # 2 ^ 24) * (Qabs (f + a) + Qabs b + w) + (1 # 2 ^ 149))%Q.
Proof.
  intros HN. cbv zeta.
  pose proof (fft_bin_wrap_binary32_pos (params d) HN) as Hw.
  rewrite !UpdateFineFrequencyOffset_binary32_value.
  assert (params (Binary32.UpdateFineFrequencyOffset d a) = params d) as -> by reflexivity.
  set (w := Binary32.fft_bin_wrap (params d)) in *. set (f := freq_fine_offset d).
  set (y := Float.fmod (Binary32.round (f + a)) w).
  pose proof (fmod_bounded (Binary32.round (f + a)) w Hw) as Hy. fold y in Hy.
  exists (Float.to_int (Binary32.round (f + a) / w)
          + Float.to_int (Binary32.round (y + b) / w)).
  assert (Float.fmod (Binary32.round (y + b)) w
          - (f + a + b)
          + inject_Z (Float.to_int (Binary32.round (f + a) / w)
                      + Float.to_int (Binary32.round (y + b) / w)) * w
          == (Binary32.round (f + a) - (f + a)) + (Binary32.round (y + b) - (y + b)))%Q
    as ->.
  { unfold y, Float.fmod. rewrite inject_Z_plus. ring. }
  eapply Qle_trans; [apply round_error_pair |].
  pose proof (Qabs_triangle y b) as T.
  pose proof (Qabs_nonneg (f + a)) as N1.
  set (A := Qabs (f + a)) in *. set (B := Qabs b) in *. set (Y := Qabs y) in *.
  set (YB := Qabs (y + b)) in *.
  let v := eval vm_compute in (2 ^ 24)%positive in change (2 ^ 24)%positive with v.
  lra.
Qed.

(** X26: two updates of the fine frequency offset, as the ingest thread
    and the coordinator make them under the mutex, give in either order
    the sum [freq_fine_offset + delta_a + delta_b] up to a whole multiple
    of [fft_bin_wrap] and the rounding of the two additions, which is at
    most [2^-24 (|f + delta_a| + |delta_b| + wrap) + 2^-149] for the order
    a, b; and when no addition rounds and no partial sum leaves the wrap,
    both orders give the sum itself.  (The updates and the sums are ones
    that do not overflow.) *)
Theorem UpdateFineFrequencyOffset_order (d : OFDM_Demod) (delta_a delta_b : Q) :
  1 <= nb_fft (params d) <= 2 ^ 24 ->
  Binary32.finite delta_a -> Binary32.finite delta_b ->
  Binary32.finite (freq_fine_offset d + delta_a) ->
  Binary32.finite (freq_fine_offset d + delta_b) ->
  let f := freq_fine_offset d in
  let w := Binary32.fft_bin_wrap (params d) in
  let ab := freq_fine_offset
              (Binary32.UpdateFineFrequencyOffset
                 (Binary32.UpdateFineFrequencyOffset d delta_a) delta_b) in
  let ba := freq_fine_offset
              (Binary32.UpdateFineFrequencyOffset
                 (Binary32.UpdateFineFrequencyOffset d delta_b) delta_a) in
  (exists k : Z,
     Qabs (ab - (f + delta_a + delta_b) + inject_Z k * w)
     <= (1 # 2 ^ 24) * (Qabs (f + delta_a) + Qabs delta_b + w) + (1 # 2 ^ 149))%Q /\
  (exists k : Z,
     Qabs (ba - (f + delta_a + delta_b) + inject_Z k * w)
     <= (1 # 2 ^ 24) * (Qabs (f + delta_b) + Qabs delta_a + w) + (1 # 2 ^ 149))%Q /\
  (Binary32.round (f + delta_a) == f + delta_a ->
   Binary32.round (f + delta_b) == f + delta_b ->
   Binary32.round (f + delta_a + delta_b) == f + delta_a + delta_b ->
   Qabs (f + delta_a) < w -> Qabs (f + delta_b) < w ->
   Qabs (f + delta_a + delta_b) < w ->
   ab == f + delta_a + delta_b /\ ba == f + delta_a + delta_b)%Q.
Proof.
  intros HN _ _ _ _. cbv zeta.
  pose proof (fft_bin_wrap_binary32_pos (params d) HN) as Hw.
  split; [exact (two_updates_error d delta_a delta_b HN) |]. split.
  - destruct (two_updates_error d delta_b delta_a HN) as (k & Hk). exists k.
    setoid_replace (freq_fine_offset d + delta_a + delta_b)%Q
      with (freq_fine_offset d + delta_b + delta_a)%Q by ring.
    exact Hk.
  - intros Ra Rb Rab Ha Hb Hab.
    rewrite !UpdateFineFrequencyOffset_binary32_value.
    assert (params (Binary32.UpdateFineFrequencyOffset d delta_a) = params d) as ->
        by reflexivity.
    assert (params (Binary32.UpdateFineFrequencyOffset d delta_b) = params d) as ->
        by reflexivity.
    set (w := Binary32.fft_bin_wrap (params d)) in *. set (f := freq_fine_offset d) in *.
    assert (forall x y, (Binary32.round (f + x) == f + x)%Q ->
              (Binary32.round (f + x + y) == f + x + y)%Q ->
              (Qabs (f + x) < w)%Q -> (Qabs (f + x + y) < w)%Q ->
              (Float.fmod (Binary32.round (Float.fmod (Binary32.round (f + x)) w + y)) w
               == f + x + y)%Q) as Hone.
    { intros x y Rx Rxy Hx Hxy.
      assert (Float.fmod (Binary32.round (f + x)) w == f + x)%Q as E1.
      { rewrite fmod_small; [exact Rx | exact Hw |]. rewrite Rx. exact Hx. }
      assert (Binary32.round (Float.fmod (Binary32.round (f + x)) w + y) == f + x + y)%Q
        as E2.
      { rewrite (round_comp _ (f + x + y)) by (rewrite E1; reflexivity). exact Rxy. }
      rewrite fmod_small; [exact E2 | exact Hw |]. rewrite E2. exact Hxy. }
    split.
    + apply Hone; assumption.
    + setoid_replace (f + delta_a + delta_b)%Q with (f + delta_b + delta_a)%Q by ring.
      apply Hone; try assumption.
      * rewrite (round_comp _ (f + delta_a + delta_b)) by ring.
        rewrite Rab. ring.
      * eapply Qle_lt_trans; [| exact Hab]. apply Qle_lteq. right.
        apply Qabs_wd. ring.
Qed.

(** The locked example demodulator ([nb_fft = 4], offset [1/16]) with
    the updates [0.2f] and [-1/3] rounded to binary32, in both orders. *)
Lemma UpdateFineFrequencyOffset_order_witness :
  let d := example_locked_demod in
  let delta_a := (13421773 # 67108864)%Q in
  let delta_b := (- 11184811 # 33554432)%Q in
  let f := freq_fine_offset d in
  let w := Binary32.fft_bin_wrap (params d) in
  let ab := freq_fine_offset
              (Binary32.UpdateFineFrequencyOffset
                 (Binary32.UpdateFineFrequencyOffset d delta_a) delta_b) in
  let ba := freq_fine_offset
              (Binary32.UpdateFineFrequencyOffset
                 (Binary32.UpdateFineFrequencyOffset d delta_b) delta_a) in
  (exists k : Z,
     Qabs (ab - (f + delta_a + delta_b) + inject_Z k * w)
     <= (1 # 2 ^ 24) * (Qabs (f + delta_a) + Qabs delta_b + w) + (1 # 2 ^ 149))%Q /\
  (exists k : Z,
     Qabs (ba - (f + delta_a + delta_b) + inject_Z k * w)
     <= (1 # 2 ^ 24) * (Qabs (f + delta_b) + Qabs delta_a + w) + (1 # 2 ^ 149))%Q /\
  (Binary32.round (f + delta_a) == f + delta_a ->
   Binary32.round (f + delta_b) == f + delta_b ->
   Binary32.round (f + delta_a + delta_b) == f + delta_a + delta_b ->
   Qabs (f + delta_a) < w -> Qabs (f + delta_b) < w ->
   Qabs (f + delta_a + delta_b) < w ->
   ab == f + delta_a + delta_b /\ ba == f + delta_a + delta_b)%Q.
Proof.
  apply (UpdateFineFrequencyOffset_order example_locked_demod
           (13421773 # 67108864) (- 11184811 # 33554432));
    [cbn; lia | vm_compute; discriminate ..].
Defined.
